(** * cfgfmt: the whitespace formatter of CS2 configuration files

    A shallow embedding of [cfgfmt/formatter.py] and the properties of
    its formatting engine.

    Python strings are sequences of Unicode code points: a character is
    a code point in [N], a string a list of them.  The character tables
    of the Python runtime that are small are written out ([isspace],
    line boundaries of [splitlines]); the large ones, the two tables of
    [unicodedata] used by [vis_width] and the case mapping behind
    [str.lower()], are fields of the class [UnicodeData], with the
    outcome of the string repetition [" " * n] of [detab], which
    raises when the count is not index-sized or the memory is
    short.

    Integers are unbounded as in Python; a function that can raise
    returns a [result]. *)

From Stdlib Require Import String Ascii.
From Stdlib Require Import List NArith ZArith Bool Arith Lia Sorted.
Import ListNotations.

Set Implicit Arguments.

(* ================================================================== *)
(** ** Characters and strings *)

Definition char := N.
Definition str := list char.

Definition lit (s : string) : str :=
  map N_of_ascii (list_ascii_of_string s).

Definition SP : char := 32%N.
Definition TAB : char := 9%N.
Definition LF : char := 10%N.
Definition VT : char := 11%N.
Definition FF : char := 12%N.
Definition CR : char := 13%N.
Definition DQ : char := 34%N.
Definition STAR : char := 42%N.
Definition PLUS : char := 43%N.
Definition SLASH : char := 47%N.
Definition PIPE : char := 124%N.
Definition TILDE : char := 126%N.
(** U+3000 IDEOGRAPHIC SPACE, the full-width blank of CJK text. *)
Definition IDSP : char := 12288%N.

Definition ch_eqb (a b : char) : bool := N.eqb a b.

Fixpoint str_eqb (a b : str) : bool :=
  match a, b with
  | [], [] => true
  | x :: a', y :: b' => ch_eqb x y && str_eqb a' b'
  | _, _ => false
  end.

Definition in_range (lo hi c : char) : bool := (N.leb lo c && N.leb c hi)%bool.

Local Open Scope N_scope.

(** [str.isspace()] on one character: the code points CPython lists in
    [_PyUnicode_IsWhitespace]. *)
Definition isspace (c : char) : bool :=
  in_range 9 13 c || in_range 28 32 c || ch_eqb c 133 || ch_eqb c 160
  || ch_eqb c 5760 || in_range 8192 8202 c || ch_eqb c 8232
  || ch_eqb c 8233 || ch_eqb c 8239 || ch_eqb c 8287 || ch_eqb c 12288.

(** The class [[ \t\r\f\v]] of [WS_RE], also the argument of
    [rstrip] in [rstrip_ws]. *)
Definition is_ws (c : char) : bool :=
  ch_eqb c SP || ch_eqb c TAB || ch_eqb c CR || ch_eqb c FF || ch_eqb c VT.

(** Line boundaries of [str.splitlines()]. *)
Definition is_linebreak (c : char) : bool :=
  in_range 10 13 c || in_range 28 30 c || ch_eqb c 133
  || ch_eqb c 8232 || ch_eqb c 8233.

(** [str.lower()] on the strings whose cased characters are the ASCII
    letters, U+212A KELVIN SIGN (k) and U+0130 (i followed by U+0307):
    the characters whose lower case contains an ASCII letter, mapped
    as Python maps them; every other character is kept. *)
Definition ascii_lower_char (c : char) : str :=
  if in_range 65 90 c then [c + 32]
  else if ch_eqb c 8490 then [107]
  else if ch_eqb c 304 then [105; 775]
  else [c].

Definition ascii_lower (s : str) : str := flat_map ascii_lower_char s.

Local Close Scope N_scope.

Fixpoint dropwhile (p : char -> bool) (s : str) : str :=
  match s with
  | [] => []
  | c :: tl => if p c then dropwhile p tl else s
  end.

Fixpoint takewhile (p : char -> bool) (s : str) : str :=
  match s with
  | [] => []
  | c :: tl => if p c then c :: takewhile p tl else []
  end.

Definition lstrip_by (p : char -> bool) (s : str) : str := dropwhile p s.
Definition rstrip_by (p : char -> bool) (s : str) : str :=
  rev (dropwhile p (rev s)).
Definition strip_by (p : char -> bool) (s : str) : str :=
  rstrip_by p (lstrip_by p s).

(** [s.lstrip()], [s.rstrip()], [s.strip()] without argument. *)
Definition lstrip : str -> str := lstrip_by isspace.
Definition rstrip : str -> str := rstrip_by isspace.
Definition strip : str -> str := strip_by isspace.

Fixpoint startswith (p s : str) : bool :=
  match p, s with
  | [], _ => true
  | x :: p', y :: s' => ch_eqb x y && startswith p' s'
  | _ :: _, [] => false
  end.

Definition endswith (p s : str) : bool := startswith (rev p) (rev s).

(** [c in s] for a one-character [c]. *)
Definition contains_char (c : char) (s : str) : bool := existsb (ch_eqb c) s.

(** [p in s] for a substring [p]. *)
Fixpoint contains (p s : str) : bool :=
  startswith p s || match s with [] => false | _ :: tl => contains p tl end.

Definition spaces (n : nat) : str := repeat SP n.

(** [" " * n] for a Python integer [n]: empty when [n] is negative. *)
Definition spaces_z (n : Z) : str := spaces (Z.to_nat n).

Fixpoint join (sep : str) (ls : list str) : str :=
  match ls with
  | [] => []
  | [l] => l
  | l :: tl => l ++ sep ++ join sep tl
  end.

(** [s.splitlines()]: a line ends at a line boundary, "\r\n" counts as
    one boundary, and a last line without boundary is kept when it is
    not empty. *)
Fixpoint splitlines (s : str) : list str :=
  match s with
  | [] => []
  | c :: tl =>
      if is_linebreak c then
        [] :: match tl with
              | [] => []
              | c2 :: tl2 =>
                  if ch_eqb c CR && ch_eqb c2 LF then splitlines tl2
                  else splitlines tl
              end
      else
        match splitlines tl with
        | [] => [[c]]
        | l :: ls => (c :: l) :: ls
        end
  end.

(* ================================================================== *)
(** ** Normalisation and signature *)

(** [s.replace("\t", pad)] *)
Definition replace_tab (s pad : str) : str :=
  flat_map (fun c => if ch_eqb c TAB then pad else [c]) s.

(** The string [detab(s, tab_width)] returns when it returns: every
    tab replaced by [tab_width] spaces. *)
Definition expand_tabs (s : str) (tab_width : Z) : str :=
  replace_tab s (spaces_z tab_width).

Definition rstrip_ws (s : str) : str := rstrip_by is_ws s.

(** [WS_RE.sub("", s)]: every maximal run of [[ \t\r\f\v]] is deleted,
    that is every such character. *)
Definition sig_no_ws (s : str) : str := filter (fun c => negb (is_ws c)) s.

(** The signature in the words of the specification: the characters
    of the line with every whitespace character removed. *)
Definition signature (s : str) : str := filter (fun c => negb (isspace c)) s.

(* ================================================================== *)
(** ** Exceptions *)

(** Exceptions a run can end with. *)
Inductive exn :=
| ValueError | StopIteration | IndexError | AssertionError
| OverflowError | MemoryError.

Inductive result (A : Type) : Type :=
| Ok (a : A)
| Raise (e : exn).
Arguments Raise {A} e.

Definition bind {A B : Type} (c : result A) (k : A -> result B) : result B :=
  match c with
  | Ok a => k a
  | Raise e => Raise e
  end.

Notation "x <- c ;; k" := (bind c (fun x => k))
  (at level 61, c at next level, right associativity).
Notation "' p <- c ;; k" := (bind c (fun x => let 'p := x in k))
  (at level 61, p pattern, c at next level, right associativity).

(* ================================================================== *)
(** ** The Python runtime *)

(** A count fits the index type of the runtime ([Py_ssize_t], 64
    bits). *)
Definition index_sized (n : Z) : bool :=
  ((- 2 ^ 63 <=? n) && (n <? 2 ^ 63))%Z.

(** What the formatter takes from the runtime.

    [unicodedata.combining] and [unicodedata.east_asian_width], the
    tables behind [vis_width], and [str.lower()].  Of the case mapping
    the formatter relies on three facts: the empty string is mapped to
    itself and to it only, since no character has an empty lower
    case, and a whitespace character of a string is uncased and kept.

    [space_times n] is how [" " * n] ends.  A count that is not
    index-sized raises OverflowError; an index-sized count gives the
    string of [n] spaces (none for a count below one) when the runtime
    has the memory for it and raises MemoryError when it has not,
    which the model leaves to the runtime.  It is the one place where
    the formatter asks for memory in proportion to a number it is
    given; the model follows no other exhaustion of memory. *)
Class UnicodeData := {
  combining : char -> nat;
  east_asian_width : char -> str;
  lower : str -> str;
  lower_empty : lower [] = [];
  lower_nonempty : forall s, lower s = [] -> s = [];
  lower_space : forall s c, In c s -> isspace c = true -> In c (lower s);
  space_times : Z -> result str;
  space_times_value : forall n s, space_times n = Ok s -> s = spaces_z n;
  space_times_overflow :
    forall n, index_sized n = false -> space_times n = Raise OverflowError;
  space_times_memory :
    forall n e, index_sized n = true -> space_times n = Raise e -> e = MemoryError
}.

(** [detab]: [s.replace("\t", " " * tab_width)].  The repetition is
    evaluated on every call, whether [s] holds a tab or not. *)
Definition detab {U : UnicodeData} (s : str) (tab_width : Z) : result str :=
  pad <- space_times tab_width ;; Ok (replace_tab s pad).

(* ================================================================== *)
(** ** Tokenizer *)

(** The loop of [find_comment_pos_outside_quotes] from index [i] with
    the quote state [in_quote]; the last index is not visited
    ([range(len(s) - 1)]). *)
Fixpoint find_comment_from (s : str) (i : nat) (in_quote : bool) : option nat :=
  match s with
  | [] => None
  | ch :: tl =>
      match tl with
      | [] => None
      | c2 :: _ =>
          if ch_eqb ch DQ then find_comment_from tl (S i) (negb in_quote)
          else if negb in_quote && ch_eqb ch SLASH && ch_eqb c2 SLASH then Some i
          else find_comment_from tl (S i) in_quote
      end
  end.

Definition find_comment_pos_outside_quotes (s : str) : option nat :=
  find_comment_from s 0 false.

Definition not_space (c : char) : bool := negb (isspace c).
Definition echo_s : str := lit "echo".

Definition split_indent_key_rest {U : UnicodeData} (code_part : str)
  : option (str * str * str) :=
  let indent := takewhile isspace code_part in
  let s1 := dropwhile isspace code_part in
  match s1 with
  | [] => None
  | _ =>
      let key := takewhile not_space s1 in
      let rest_raw := dropwhile not_space s1 in
      let rest := if str_eqb (lower key) echo_s then rest_raw
                  else dropwhile isspace rest_raw in
      Some (indent, key, rest)
  end.

Definition not_dq (c : char) : bool := negb (ch_eqb c DQ).

(** ["..." "..."] at the head of [rest]: the two quoted strings with
    their quotes, and what follows the second. *)
Definition split_two_quoted (rest : str) : option (str * str * str) :=
  match dropwhile isspace rest with
  | [] => None
  | c :: s1 =>
      if negb (ch_eqb c DQ) then None else
      match dropwhile not_dq s1 with
      | [] => None
      | _ :: s2 =>
          let q1 := c :: takewhile not_dq s1 ++ [DQ] in
          match dropwhile isspace s2 with
          | [] => None
          | c3 :: s3 =>
              if negb (ch_eqb c3 DQ) then None else
              match dropwhile not_dq s3 with
              | [] => None
              | _ :: tail =>
                  Some (q1, c3 :: takewhile not_dq s3 ++ [DQ], tail)
              end
          end
      end
  end.

(* ================================================================== *)
(** ** Boundary detector *)

Definition is_deco (c : char) : bool := contains_char c (lit "#-_=+|").

Definition count_if (p : char -> bool) (s : str) : nat := length (filter p s).

(** [ratio >= 0.60] with [ratio = deco / max(1, len(body))]: the float
    quotient is at least the float 0.60 exactly when
    [5 * deco >= 3 * max(1, len(body))], for every length below 2^50. *)
Definition is_separator_comment_line (line : str) : bool :=
  let s := lstrip line in
  if negb (startswith (lit "//") s) then false else
  let body := lstrip (skipn 2 s) in
  if negb (startswith [PLUS] body) then false else
  if contains_char STAR body then true else
  let deco := count_if is_deco body in
  (3 * Nat.max 1 (length body) <=? 5 * deco) && (10 <=? length body).

Definition is_block_boundary_B {U : UnicodeData} (line : str) : bool :=
  let s := lower (strip line) in
  if str_eqb s [] then true
  else if str_eqb s (lit "echo;") then true
  else if is_separator_comment_line line then true
  else false.

(* ================================================================== *)
(** ** Data model *)

Inductive rec_kind := Kboundary | Kpass | Kcmd.

Definition kind_eqb (a b : rec_kind) : bool :=
  match a, b with
  | Kboundary, Kboundary | Kpass, Kpass | Kcmd, Kcmd => true
  | _, _ => false
  end.

(** One record per input line (the dictionaries of [recs]).  The
    records of kind boundary and pass have no token entries; the
    fields are empty there and the formatter does not read them. *)
Record rec := mk_rec {
  kind : rec_kind;
  orig : str;
  line : str;
  lineno : nat;
  indent : str;
  key : str;
  key_lower : str;
  rest : str;
  comment : str
}.

Record FormatOptions := mk_options {
  align_mode : str;
  tab_width : Z;
  key_cap : Z;
  comment_cap : Z;
  special_align_keys : option (list str);
  echo_align_tables : bool
}.

(** [stats] is kept as its entry "sig_fail_lines", the only one that
    reaches the result outside the non-authoritative counters. *)
Record FormatResult := mk_result {
  out_text : str;
  changed : bool;
  sig_fail_lines : list nat
}.

Definition ALIGN_MODE_DEFAULT : str := lit "global".
Definition TAB_WIDTH_DEFAULT : Z := 4.
Definition KEY_CAP_DEFAULT : Z := 40.
Definition COMMENT_CAP_DEFAULT : Z := 90.
Definition SPECIAL_ALIGN_KEYS_DEFAULT : list str := [lit "bind"; lit "alias"].
Definition ECHO_ALIGN_TABLES_DEFAULT : bool := true.

Definition default_options : FormatOptions :=
  mk_options ALIGN_MODE_DEFAULT TAB_WIDTH_DEFAULT KEY_CAP_DEFAULT
             COMMENT_CAP_DEFAULT None ECHO_ALIGN_TABLES_DEFAULT.

(** [k in special_align_keys] *)
Definition mem_str (k : str) (ks : list str) : bool := existsb (str_eqb k) ks.

(** The body of the pre-parse loop of [format_text] for the line
    [orig0] with number [i], after its first statement: [line0] is
    the normalised line, [rstrip_ws(detab(orig, options.tab_width))]. *)
Definition record_of {U : UnicodeData} (o : FormatOptions) (i : nat)
  (orig0 line0 : str) : rec :=
  let other k := mk_rec k orig0 line0 i [] [] [] [] [] in
  if str_eqb (align_mode o) (lit "block") && is_block_boundary_B line0
  then other Kboundary
  else if startswith (lit "//") (lstrip line0) then other Kpass
  else if str_eqb (strip line0) [] then other Kboundary
  else
    let '(code_part, comment_part) :=
      match find_comment_pos_outside_quotes line0 with
      | None => (line0, [])
      | Some cpos => (rstrip_ws (firstn cpos line0), skipn cpos line0)
      end in
    match split_indent_key_rest code_part with
    | None => other Kpass
    | Some (indent0, key0, rest0) =>
        mk_rec Kcmd orig0 line0 i indent0 key0 (lower key0) rest0 comment_part
    end.

(** The pre-parse loop of [format_text],
    [for i, orig in enumerate(lines, start=i)]: it ends with the
    exception of [detab] at the first line when the tab width cannot
    be repeated. *)
Fixpoint parse_loop {U : UnicodeData} (o : FormatOptions) (i : nat)
  (lines : list str) : result (list rec) :=
  match lines with
  | [] => Ok []
  | orig0 :: tl =>
      d <- detab orig0 (tab_width o) ;;
      let r := record_of o i orig0 (rstrip_ws d) in
      recs <- parse_loop o (S i) tl ;;
      Ok (r :: recs)
  end.

(** The record the loop makes of the line [orig0] when [detab]
    returns, and the records of a list of lines. *)
Definition parse_line {U : UnicodeData} (o : FormatOptions) (i : nat)
  (orig0 : str) : rec :=
  record_of o i orig0 (rstrip_ws (expand_tabs orig0 (tab_width o))).

Fixpoint parse_lines {U : UnicodeData} (o : FormatOptions) (i : nat)
  (lines : list str) : list rec :=
  match lines with
  | [] => []
  | l :: tl => parse_line o i l :: parse_lines o (S i) tl
  end.

(** The signature guard of [format_cmd_lines], written twice there:
    the rendered line is kept when its signature is that of the
    original, otherwise the line number is recorded and
    [normalized_orig] is emitted. *)
Definition guard (normalized_orig : str) (r : rec) (new_line : str)
  (st : list nat) : str * list nat :=
  if negb (str_eqb (sig_no_ws (orig r)) (sig_no_ws new_line))
  then (normalized_orig, st ++ [lineno r])
  else (new_line, st).

(** [s.split(c)] for a one-character separator. *)
Fixpoint split_on (c : char) (s : str) : list str :=
  match s with
  | [] => [[]]
  | x :: tl =>
      if ch_eqb x c then [] :: split_on c tl
      else match split_on c tl with
           | [] => [[x]]
           | f :: fs => (x :: f) :: fs
           end
  end.

Definition is_pipe (c : char) : bool := ch_eqb c PIPE.

Definition str_nonempty (s : str) : bool :=
  match s with [] => false | _ => true end.

(** [re.search(r"[_/\\]{2,}", body)] *)
Definition is_art (c : char) : bool :=
  ch_eqb c 95%N || ch_eqb c SLASH || ch_eqb c 92%N.

Fixpoint has_art_chunk (s : str) : bool :=
  match s with
  | a :: (b :: _) as tl => (is_art a && is_art b) || has_art_chunk tl
  | _ => false
  end.

Definition is_cjk (c : char) : bool := in_range 19968%N 40959%N c.
Definition is_alnum_ascii (c : char) : bool :=
  in_range 65%N 90%N c || in_range 97%N 122%N c || in_range 48%N 57%N c.

(** [max(l)] of a non-empty list [x :: tl]. *)
Definition max_z (x : Z) (tl : list Z) : Z := fold_left Z.max tl x.

(* ================================================================== *)
(** ** Alignment calculator and line renderer *)

Section Aligner.

Context {U : UnicodeData}.

Definition vis_width (s : str) : nat :=
  fold_left
    (fun w ch =>
       if negb (combining ch =? 0) then w
       else
         let ea := east_asian_width ch in
         w + (if str_eqb ea (lit "W") || str_eqb ea (lit "F") then 2 else 1))
    s 0.

Section Chunk.

Variable key_cap : Z.
Variable comment_cap : Z.
Variable tw : Z.
Variable special : list str.
Variable echo_tables : bool.

Definition zlen (s : str) : Z := Z.of_nat (length s).

Definition key_widths (cmd_recs : list rec) : list Z :=
  flat_map
    (fun r =>
       if negb (kind_eqb (kind r) Kcmd) then []
       else if str_nonempty (rest r) then [zlen (indent r) + zlen (key r)]%Z
       else [])
    cmd_recs.

Definition max_key (cmd_recs : list rec) : Z :=
  match key_widths cmd_recs with
  | [] => 0
  | w :: ws => Z.min (max_z w ws) key_cap
  end.

Definition value_col (cmd_recs : list rec) : Z := (max_key cmd_recs + 1)%Z.

Definition q1_lens (cmd_recs : list rec) : list Z :=
  flat_map
    (fun r =>
       if negb (kind_eqb (kind r) Kcmd) || negb (str_nonempty (rest r)) then []
       else if negb (mem_str (key_lower r) special) then []
       else match split_two_quoted (rest r) with
            | Some (q1, _, _) => [zlen q1]
            | None => []
            end)
    cmd_recs.

Definition max_q1_len (cmd_recs : list rec) : Z :=
  match q1_lens cmd_recs with
  | [] => 0
  | w :: ws => max_z w ws
  end.

Definition second_col (cmd_recs : list rec) : Z :=
  (value_col cmd_recs + max_q1_len cmd_recs + 1)%Z.

Definition is_echo_table_candidate (r : rec) : bool :=
  if negb echo_tables then false
  else if negb (kind_eqb (kind r) Kcmd) then false
  else if str_nonempty (comment r) then false
  else if negb (str_eqb (key_lower r) echo_s) then false
  else
    let body := strip (rest r) in
    if negb (contains_char PIPE body) then false
    else if startswith (lit "~~~") body then false
    else if contains_char 12304%N body && contains_char 12305%N body
            && (contains_char STAR body || contains_char TILDE body)
         then false
    else
      let pipe_cnt := count_if is_pipe body in
      let has_cjk := existsb is_cjk body in
      let has_alnum := existsb is_alnum_ascii body in
      let has_art := has_art_chunk body in
      if negb has_cjk && negb has_alnum && (pipe_cnt <=? 3) then false
      else if negb has_cjk && has_art && (pipe_cnt <=? 2) then false
      else true.

(** The entries "_echo_fields", "_echo_lead" and "_echo_trail" the
    first echo loop stores in a candidate record and the render loop
    reads back: they are a function of the record's [rest], which no
    loop changes, so the model computes them where they are read. *)
Definition echo_lead (r : rec) : bool := startswith [PIPE] (strip (rest r)).
Definition echo_trail (r : rec) : bool := endswith [PIPE] (strip (rest r)).
Definition echo_fields (r : rec) : list str :=
  let body := strip (rest r) in
  let core := if echo_lead r || echo_trail r then strip_by is_pipe body
              else body in
  map strip (split_on PIPE core).

Definition echo_rows (cmd_recs : list rec) : list (list str) :=
  flat_map
    (fun r =>
       if negb (is_echo_table_candidate r) then []
       else if negb (echo_lead r || echo_trail r) then [echo_fields r]
       else [])
    cmd_recs.

Definition max_cols (rows : list (list str)) : nat :=
  fold_left (fun m fields => Nat.max m (length fields)) rows 0.

(** [ws[i] = max(ws[i], w)], an IndexError out of range. *)
Fixpoint widen_at (ws : list nat) (i : nat) (w : nat) : result (list nat) :=
  match ws, i with
  | [], _ => Raise IndexError
  | x :: tl, O => Ok (Nat.max x w :: tl)
  | x :: tl, S i' => tl' <- widen_at tl i' w ;; Ok (x :: tl')
  end.

(** [for i, f in enumerate(fields): ...] from index [i]. *)
Fixpoint widen_row (ws : list nat) (i : nat) (fields : list str)
  : result (list nat) :=
  match fields with
  | [] => Ok ws
  | f :: tl => ws' <- widen_at ws i (vis_width f) ;; widen_row ws' (S i) tl
  end.

Fixpoint widen_rows (ws : list nat) (rows : list (list str))
  : result (list nat) :=
  match rows with
  | [] => Ok ws
  | fields :: tl => ws' <- widen_row ws 0 fields ;; widen_rows ws' tl
  end.

Definition echo_col_widths (cmd_recs : list rec) : result (list nat) :=
  let rows := echo_rows cmd_recs in
  match rows with
  | [] => Ok []
  | _ => if 0 <? max_cols rows
         then widen_rows (repeat 0 (max_cols rows)) rows
         else Ok []
  end.

(** The padded fields of a table row, from column [i]. *)
Fixpoint pad_fields (widths : list nat) (i : nat) (fields : list str)
  : list str :=
  match fields with
  | [] => []
  | f :: tl =>
      let w := if i <? length widths then nth i widths 0 else vis_width f in
      (f ++ spaces (w - vis_width f)) :: pad_fields widths (S i) tl
  end.

Definition sep_pipe : str := lit " | ".

Definition echo_body_fmt (widths : list nat) (r : rec) : str :=
  let fields := echo_fields r in
  let lead := echo_lead r in
  let trail := echo_trail r in
  if lead || trail then
    let body_mid := strip (join sep_pipe fields) in
    (if lead then lit "| " else []) ++ body_mid
      ++ (if trail then lit " |" else [])
  else rstrip (join sep_pipe (pad_fields widths 0 fields)).

(** The entry of [code_fmts] for one record: [None] for the records
    that are no commands. *)
Definition code_fmt (vcol scol : Z) (widths : list nat) (r : rec)
  : option str :=
  if negb (kind_eqb (kind r) Kcmd) then None
  else if str_eqb (key_lower r) echo_s then
    if is_echo_table_candidate r && negb (length widths =? 0)
    then Some (indent r ++ key r ++ [SP] ++ echo_body_fmt widths r)
    else Some (if str_eqb (rest r) [] then indent r ++ key r
               else indent r ++ key r ++ rest r)
  else if str_eqb (rest r) [] then Some (indent r ++ key r)
  else
    let left_len := (zlen (indent r) + zlen (key r))%Z in
    let pad1 := Z.max 1 (vcol - left_len) in
    let twoq := if mem_str (key_lower r) special
                then split_two_quoted (rest r) else None in
    match twoq with
    | Some (q1, q2, tail) =>
        let cur_after_q1 := (left_len + pad1 + zlen q1)%Z in
        let pad2 := Z.max 1 (scol - cur_after_q1) in
        Some (indent r ++ key r ++ spaces_z pad1 ++ q1 ++ spaces_z pad2
                ++ q2 ++ tail)
    | None => Some (indent r ++ key r ++ spaces_z pad1 ++ rest r)
    end.

Definition code_lens_for_comment (zs : list (rec * option str)) : list Z :=
  flat_map
    (fun z =>
       match snd z with
       | Some cf => if str_nonempty (comment (fst z)) then [zlen cf] else []
       | None => []
       end)
    zs.

Definition comment_target (zs : list (rec * option str)) : option Z :=
  match code_lens_for_comment zs with
  | [] => None
  | w :: ws => Some (Z.min (max_z w ws) comment_cap)
  end.

(** The rendered line of a command before normalisation and guard. *)
Definition place_comment (target : option Z) (r : rec) (cf : str) : str :=
  if str_nonempty (comment r) then
    match target with
    | Some t =>
        if (zlen cf <=? t)%Z
        then cf ++ spaces_z (Z.max 1 (t + 1 - zlen cf)) ++ comment r
        else cf ++ [SP] ++ comment r
    | None => cf ++ [SP] ++ comment r
    end
  else cf.

(** [for r, code_fmt in zip(cmd_recs, code_fmts): ...]; the
    normalised original is computed first, for every record. *)
Fixpoint emit_loop (target : option Z) (zs : list (rec * option str))
  (out : list str) (st : list nat) : result (list str * list nat) :=
  match zs with
  | [] => Ok (out, st)
  | (r, cf) :: tl =>
      d <- detab (orig r) tw ;;
      let normalized_orig := rstrip_ws d in
      if negb (kind_eqb (kind r) Kcmd) then
        let '(new_line, st') := guard normalized_orig r (line r) st in
        emit_loop target tl (out ++ [new_line]) st'
      else
        match cf with
        | None => Raise AssertionError
        | Some c =>
            d' <- detab (place_comment target r c) tw ;;
            let new_line := rstrip_ws d' in
            let '(new_line', st') := guard normalized_orig r new_line st in
            emit_loop target tl (out ++ [new_line']) st'
        end
  end.

Definition format_cmd_lines (cmd_recs : list rec) (st : list nat)
  : result (list str * list nat) :=
  widths <- echo_col_widths cmd_recs ;;
  let code_fmts :=
    map (code_fmt (value_col cmd_recs) (second_col cmd_recs) widths) cmd_recs in
  let zs := combine cmd_recs code_fmts in
  emit_loop (comment_target zs) zs [] st.

End Chunk.

(* ================================================================== *)
(** ** Format driver *)

(** [options.special_align_keys or set(SPECIAL_ALIGN_KEYS_DEFAULT)]:
    [None] and the empty set are falsy. *)
Definition special_keys_of (o : FormatOptions) : list str :=
  match special_align_keys o with
  | None => SPECIAL_ALIGN_KEYS_DEFAULT
  | Some [] => SPECIAL_ALIGN_KEYS_DEFAULT
  | Some ks => ks
  end.

(** [handle_boundary]: the original is normalised again only when
    the guard rejects the line of the record. *)
Definition handle_boundary (o : FormatOptions) (r : rec)
  (out_lines : list str) (st : list nat) : result (list str * list nat) :=
  if negb (str_eqb (sig_no_ws (orig r)) (sig_no_ws (line r)))
  then d <- detab (orig r) (tab_width o) ;;
       Ok (out_lines ++ [rstrip_ws d], st ++ [lineno r])
  else Ok (out_lines ++ [line r], st).

Definition format_chunk (o : FormatOptions) (chunk : list rec) (st : list nat)
  : result (list str * list nat) :=
  format_cmd_lines (key_cap o) (comment_cap o) (tab_width o)
    (special_keys_of o) (echo_align_tables o) chunk st.

Definition is_boundary (r : rec) : bool := kind_eqb (kind r) Kboundary.

(** The loop of the global mode; [it] is what the iterator over
    [formatted] still holds, [next(it)] on an exhausted iterator
    raises StopIteration. *)
Fixpoint global_loop (o : FormatOptions) (recs : list rec) (it : list str)
  (out_lines : list str) (st : list nat) : result (list str * list nat) :=
  match recs with
  | [] => Ok (out_lines, st)
  | r :: tl =>
      if is_boundary r then
        '(out', st') <- handle_boundary o r out_lines st ;;
        global_loop o tl it out' st'
      else
        match it with
        | [] => Raise StopIteration
        | x :: it' => global_loop o tl it' (out_lines ++ [x]) st
        end
  end.

(** [if block: out_lines.extend(format_cmd_lines(block, ...)); block.clear()] *)
Definition flush_block (o : FormatOptions) (block : list rec)
  (out_lines : list str) (st : list nat) : result (list str * list nat) :=
  match block with
  | [] => Ok (out_lines, st)
  | _ => '(fmt, st') <- format_chunk o block st ;; Ok (out_lines ++ fmt, st')
  end.

Fixpoint block_loop (o : FormatOptions) (recs : list rec) (block : list rec)
  (out_lines : list str) (st : list nat) : result (list str * list nat) :=
  match recs with
  | [] => flush_block o block out_lines st
  | r :: tl =>
      if is_boundary r then
        '(out1, st1) <- flush_block o block out_lines st ;;
        '(out2, st2) <- handle_boundary o r out1 st1 ;;
        block_loop o tl [] out2 st2
      else block_loop o tl (block ++ [r]) out_lines st
  end.

(** ["\r\n" if "\r\n" in raw_text else "\n"] *)
Definition newline_of (raw_text : str) : str :=
  if contains [CR; LF] raw_text then [CR; LF] else [LF].

Definition keep_final_newline (raw_text : str) : bool :=
  endswith [LF] raw_text || endswith [CR; LF] raw_text.

Definition format_text (raw_text : str) (o : FormatOptions)
  : result FormatResult :=
  let newline := newline_of raw_text in
  let keep_final_newline := keep_final_newline raw_text in
  let lines := splitlines raw_text in
  recs <- parse_loop o 1 lines ;;
  '(out_lines, st) <-
    (if str_eqb (align_mode o) (lit "global") then
       let chunk := filter (fun r => negb (is_boundary r)) recs in
       '(formatted, st) <- format_chunk o chunk [] ;;
       global_loop o recs formatted [] st
     else if str_eqb (align_mode o) (lit "block") then
       block_loop o recs [] [] []
     else Raise ValueError) ;;
  let out := join newline out_lines
             ++ (if keep_final_newline then newline else []) in
  Ok (mk_result out (negb (str_eqb out raw_text)) st).

(* ================================================================== *)
(** ** A chunk read as functions of its records

    What [format_cmd_lines] computes for one record of a chunk,
    without the loops: the columns of the chunk, the rendered line,
    the verdict of the guard and the emitted line. *)

Definition widths_of (o : FormatOptions) (C : list rec) : list nat :=
  match echo_col_widths (echo_align_tables o) C with
  | Ok w => w
  | Raise _ => []
  end.

(** The alignment parameters of a chunk. *)
Record params := mk_params {
  p_vcol : Z;
  p_scol : Z;
  p_widths : list nat;
  p_target : option Z
}.

Definition cf_with (o : FormatOptions) (vcol scol : Z) (widths : list nat)
  (r : rec) : option str :=
  code_fmt (special_keys_of o) (echo_align_tables o) vcol scol widths r.

Definition render_with (o : FormatOptions) (P : params) (r : rec) : str :=
  match cf_with o (p_vcol P) (p_scol P) (p_widths P) r with
  | None => line r
  | Some c => rstrip_ws (expand_tabs (place_comment (p_target P) r c) (tab_width o))
  end.

Definition failed_with (o : FormatOptions) (P : params) (r : rec) : bool :=
  negb (str_eqb (sig_no_ws (orig r)) (sig_no_ws (render_with o P r))).

Definition emit_with (o : FormatOptions) (P : params) (r : rec) : str :=
  if failed_with o P r then rstrip_ws (expand_tabs (orig r) (tab_width o))
  else render_with o P r.

Definition params_of (o : FormatOptions) (C : list rec) : params :=
  let vcol := value_col (key_cap o) C in
  let scol := second_col (key_cap o) (special_keys_of o) C in
  let widths := widths_of o C in
  mk_params vcol scol widths
    (comment_target (comment_cap o)
       (combine C (map (cf_with o vcol scol widths) C))).

Definition emit (o : FormatOptions) (C : list rec) (r : rec) : str :=
  emit_with o (params_of o C) r.
Definition failed (o : FormatOptions) (C : list rec) (r : rec) : bool :=
  failed_with o (params_of o C) r.

(** The records of a list up to its first boundary, and each boundary
    with the records that follow it up to the next: the blocks of the
    block mode. *)
Fixpoint segs (recs : list rec) : list rec * list (rec * list rec) :=
  match recs with
  | [] => ([], [])
  | r :: tl =>
      let '(s, more) := segs tl in
      if is_boundary r then ([], (r, s) :: more) else (r :: s, more)
  end.

(** Every record with the chunk it is formatted in. *)
Definition chunked (o : FormatOptions) (recs : list rec)
  : list (rec * list rec) :=
  if str_eqb (align_mode o) (lit "global") then
    let C := filter (fun r => negb (is_boundary r)) recs in
    map (fun r => (r, C)) recs
  else
    let '(s, more) := segs recs in
    map (fun r => (r, s)) s
    ++ flat_map (fun bs => (fst bs, []) :: map (fun r => (r, snd bs)) (snd bs))
         more.

Definition out_lines_of (o : FormatOptions) (recs : list rec) : list str :=
  map (fun p => emit o (snd p) (fst p)) (chunked o recs).

Definition fails_of (o : FormatOptions) (recs : list rec) : list nat :=
  map (fun p => lineno (fst p))
    (filter (fun p => failed o (snd p) (fst p)) (chunked o recs)).

End Aligner.

(** A record holds the normalised copy of its original. *)
Definition wf_rec (o : FormatOptions) (r : rec) : Prop :=
  line r = rstrip_ws (expand_tabs (orig r) (tab_width o)).

Definition is_newline (nl : str) : Prop := nl = [LF] \/ nl = [CR; LF].

Definition not_tab (c : char) : bool := negb (ch_eqb c TAB).

Definition no_linebreak (s : str) : bool :=
  forallb (fun c => negb (is_linebreak c)) s.

(** A list of lines without its last line when that line is empty:
    what [splitlines] finds in the lines joined without a final
    newline. *)
Fixpoint drop_last_empty (L : list str) : list str :=
  match L with
  | [] => []
  | [l] => match l with [] => [] | _ => [l] end
  | l :: tl => l :: drop_last_empty tl
  end.

(** The last line of the text has no character besides spaces and
    tabs. *)
Definition last_line_blank (raw_text : str) : bool :=
  match rev (splitlines raw_text) with
  | l :: _ => forallb is_ws l
  | [] => false
  end.

(** A character of a range or a code point off the whitespace table. *)
Ltac off_table c :=
  repeat match goal with
         | |- context [in_range ?lo ?hi c] =>
             replace (in_range lo hi c) with false
               by (symmetry; unfold in_range; apply andb_false_iff;
                   rewrite !N.leb_gt; lia)
         | |- context [ch_eqb c ?k] =>
             replace (ch_eqb c k) with false
               by (symmetry; apply N.eqb_neq; lia)
         end.

(** A runtime for the sample inputs.  The Unicode tables on ASCII, the
    CJK unified ideographs and the ideographic space, where they agree
    with [unicodedata] and with [str.lower()], and a repetition that
    has the memory for every index-sized count, as a runtime has for
    the small counts of the samples; the concrete inputs of this file
    stay in that range. *)
Definition basic_unicode : UnicodeData.
Proof.
  refine {| combining := fun _ => 0;
            east_asian_width := fun c =>
              if is_cjk c then lit "W"
              else if ch_eqb c IDSP then lit "F"
              else lit "Na";
            lower := ascii_lower;
            space_times := fun n =>
              if index_sized n then Ok (spaces_z n) else Raise OverflowError |}.
  - reflexivity.
  - intros [|c s]; [reflexivity|]. unfold ascii_lower. cbn [flat_map].
    unfold ascii_lower_char.
    destruct (in_range 65%N 90%N c); [discriminate|].
    destruct (ch_eqb c 8490%N); [discriminate|].
    destruct (ch_eqb c 304%N); discriminate.
  - intros s c Hin Hc. unfold ascii_lower. apply in_flat_map.
    exists c. split; [exact Hin|]. unfold ascii_lower_char.
    destruct (in_range 65%N 90%N c) eqn:E1.
    { exfalso. unfold in_range in E1. apply andb_true_iff in E1 as [A B].
      apply N.leb_le in A, B. revert Hc. unfold isspace.
      off_table c. discriminate. }
    destruct (ch_eqb c 8490%N) eqn:E2.
    { apply N.eqb_eq in E2. subst c. discriminate. }
    destruct (ch_eqb c 304%N) eqn:E3.
    { apply N.eqb_eq in E3. subst c. discriminate. }
    now left.
  - intros n s. destruct (index_sized n); [|discriminate].
    intros H. injection H as <-. reflexivity.
  - intros n H. rewrite H. reflexivity.
  - intros n e H. rewrite H. discriminate.
Defined.

(** [dataclasses.replace(o, special_align_keys=ks)] *)
Definition with_special (o : FormatOptions) (ks : option (list str))
  : FormatOptions :=
  mk_options (align_mode o) (tab_width o) (key_cap o) (comment_cap o) ks
    (echo_align_tables o).


Definition with_key_cap (o : FormatOptions) (k : Z) : FormatOptions :=
  mk_options (align_mode o) (tab_width o) k (comment_cap o)
    (special_align_keys o) (echo_align_tables o).

(** The scan of [find_comment_pos_outside_quotes] over a piece [s] of
    a line, entered with the quote state [q]; [nxt] tells whether the
    character after the piece is a slash.  [None]: a comment starts in
    the piece; [Some q']: none does, and the piece is left with the
    quote state [q']. *)
Fixpoint scan (q : bool) (s : str) (nxt : bool) : option bool :=
  match s with
  | [] => Some q
  | ch :: tl =>
      if ch_eqb ch DQ then scan (negb q) tl nxt
      else if negb q && ch_eqb ch SLASH
              && match tl with [] => nxt | c2 :: _ => ch_eqb c2 SLASH end
      then None
      else scan q tl nxt
  end.

(** Whether a piece starts with a slash, [nxt] standing for what
    follows an empty piece. *)
Definition slash_head (s : str) (nxt : bool) : bool :=
  match s with [] => nxt | c :: _ => ch_eqb c SLASH end.

(** Neither a quote nor a slash. *)
Definition plain (c : char) : bool := negb (ch_eqb c DQ) && negb (ch_eqb c SLASH).

(** The gap and the comment after a rendered code. *)
Definition comment_tail (n : nat) (cm : str) : str :=
  match cm with [] => [] | _ => spaces n ++ cm end.

(** What [code_fmt] puts after indent and key. *)
Definition code_form {U : UnicodeData} (special : list str) (et : bool)
  (vcol scol : Z) (widths : list nat) (r : rec) : str :=
  if str_eqb (key_lower r) echo_s then
    if is_echo_table_candidate et r && negb (length widths =? 0)
    then [SP] ++ echo_body_fmt widths r
    else rest r
  else if str_eqb (rest r) [] then []
  else
    let left_len := (zlen (indent r) + zlen (key r))%Z in
    let pad1 := Z.max 1 (vcol - left_len) in
    match (if mem_str (key_lower r) special
           then split_two_quoted (rest r) else None) with
    | Some (q1, q2, tail) =>
        let cur_after_q1 := (left_len + pad1 + zlen q1)%Z in
        let pad2 := Z.max 1 (scol - cur_after_q1) in
        spaces_z pad1 ++ q1 ++ spaces_z pad2 ++ q2 ++ tail
    | None => spaces_z pad1 ++ rest r
    end.

(** How the rest [x] read from the emitted line of a record relates
    to the rest of the record: it is the same, or the two quoted
    strings and the tail with spaces between them, or the body of an
    aligned table row after one space. *)
Definition rest_rel {U : UnicodeData} (o : FormatOptions) (widths : list nat)
  (r : rec) (x : str) : Prop :=
  x = rest r \/
  (str_eqb (key_lower r) echo_s = false /\
   mem_str (key_lower r) (special_keys_of o) = true /\
   exists q1 q2 tail n,
     split_two_quoted (rest r) = Some (q1, q2, tail) /\ 1 <= n /\
     x = q1 ++ spaces n ++ q2 ++ tail) \/
  (str_eqb (key_lower r) echo_s = true /\
   is_echo_table_candidate (echo_align_tables o) r = true /\
   widths <> [] /\
   x = [SP] ++ echo_body_fmt widths r /\
   sig_no_ws x = sig_no_ws (rest r)).

(** The record read from the emitted line of the record [r]. *)
Definition reread (r : rec) (e x : str) : rec :=
  mk_rec (kind r) e e (lineno r) (indent r) (key r) (key_lower r) x (comment r).

(** A record [r2] read from a line emitted for the record [r]. *)
Definition reread_rel {U : UnicodeData} (o : FormatOptions) (widths : list nat)
  (r r2 : rec) : Prop :=
  exists e x, r2 = reread r e x /\ rest_rel o widths r x.

(** The record the second run reads, under the line number of [r],
    from the line the first run emitted for [r] with the parameters
    [P]. *)
Definition second {U : UnicodeData} (o : FormatOptions) (P : params) (r : rec)
  : rec :=
  parse_line o (lineno r) (emit_with o P r).

(** A record made by the pre-parse loop. *)
Definition parsed {U : UnicodeData} (o : FormatOptions) (r : rec) : Prop :=
  exists i l, r = parse_line o i l.

(** The stripped fields of a table row body. *)
Definition fields_of (s : str) : list str := map strip (split_on PIPE s).

Definition not_pipe (c : char) : bool := negb (is_pipe c).

(** No character of [s] is [c]. *)
Definition free_of (c : char) (s : str) : bool :=
  forallb (fun x => negb (ch_eqb x c)) s.


(** The scan over the pieces of a list one after the other, none of
    them followed by a slash. *)
Fixpoint scanL (q : bool) (L : list str) : option bool :=
  match L with
  | [] => Some q
  | f :: fs =>
      match scan q f false with
      | Some q' => scanL q' fs
      | None => None
      end
  end.

(** *** Sample inputs *)

(** [bind "w"] *)
Definition sample_bind : str := lit "bind " ++ [DQ] ++ lit "w" ++ [DQ].

(** [bind], U+3000, ["w"]: an ideographic space separates key and
    value. *)
Definition sample_bind_wide : str := lit "bind" ++ [IDSP; DQ] ++ lit "w" ++ [DQ].

(** Four lines ending with a newline: two binds, one with a tab and a
    comment, a bind after an ideographic space, an echo table row. *)
Definition sample_text : str :=
  lit "bind " ++ [DQ] ++ lit "w" ++ [DQ; SP; SP; DQ] ++ lit "+forward" ++ [DQ; LF]
  ++ lit "bind" ++ [TAB; DQ] ++ lit "mouse1" ++ [DQ; SP; DQ] ++ lit "+attack"
  ++ [DQ] ++ lit " // fire" ++ [LF]
  ++ sample_bind_wide ++ [LF]
  ++ lit "echo a|bb" ++ [LF].

(** [echo "a|b" "c"] and [bind "x" "y"], two lines. *)
Definition sample_echo_quoted : str :=
  lit "echo " ++ [DQ] ++ lit "a|b" ++ [DQ; SP; DQ] ++ lit "c" ++ [DQ; LF]
  ++ lit "bind " ++ [DQ] ++ lit "x" ++ [DQ; SP; DQ] ++ lit "y" ++ [DQ; LF].

(** Options whose [special_align_keys] hold "echo" besides "bind". *)
Definition options_echo_special : FormatOptions :=
  with_special default_options (Some [lit "bind"; lit "echo"]).

(** The text assembled from the emitted lines. *)
Definition text_of (raw_text : str) (out_lines : list str) : str :=
  join (newline_of raw_text) out_lines
  ++ (if keep_final_newline raw_text then newline_of raw_text else []).

Definition mode_ok (o : FormatOptions) : bool :=
  str_eqb (align_mode o) (lit "global") || str_eqb (align_mode o) (lit "block").

(** How [format_text] ends once its pre-parse loop has returned: with
    the lines emitted for the records, each in its chunk, joined in
    the newline style of the input, or with the ValueError of an
    unknown alignment mode. *)
Definition formatted {U : UnicodeData} (raw : str) (o : FormatOptions)
  : result FormatResult :=
  if mode_ok o then
    let recs := parse_lines o 1 (splitlines raw) in
    let out := text_of raw (out_lines_of o recs) in
    Ok (mk_result out (negb (str_eqb out raw)) (fails_of o recs))
  else Raise ValueError.

(* ================================================================== *)
(** ** The boundary predicate in the words of the specification *)

(** A decorative comment banner: a line that starts, after a left
    trim, with the marker "//", whose body (the text after the marker,
    left-trimmed) starts with "+" and either contains an asterisk or
    has at least 10 characters of which at least 60 in 100 are taken
    from "#-_=+|". *)
Definition banner_spec (l : str) : Prop :=
  startswith (lit "//") (lstrip l) = true /\
  let body := lstrip (skipn 2 (lstrip l)) in
  startswith [PLUS] body = true /\
  (In STAR body \/
   (10 <= length body /\ 60 * length body <= 100 * count_if is_deco body)).

(** The boundary predicate as claimed: the first case is the empty
    line. *)
Definition boundary_claimed {U : UnicodeData} (l : str) : Prop :=
  l = [] \/ lower (strip l) = lit "echo;" \/ banner_spec l.

(** The boundary predicate of the code: the first case is the line
    that is empty once surrounding whitespace is stripped. *)
Definition boundary_spec {U : UnicodeData} (l : str) : Prop :=
  strip l = [] \/ lower (strip l) = lit "echo;" \/ banner_spec l.

(** Tokenization without loss, as claimed: the four tokens put
    together are the normalised line. *)
Definition tokens_rebuild_line (r : rec) : Prop :=
  indent r ++ key r ++ rest r ++ comment r = line r.

(** A comment line that ends with a tab, a blank line and a bind. *)
Definition sample_note_line : str := lit "  // keys" ++ [TAB].

Definition sample_noted : str :=
  sample_note_line ++ [LF] ++ lit "   " ++ [LF] ++ lit "bind  w +forward" ++ [LF].

Definition sample_noted_result : FormatResult :=
  Eval vm_compute in
    match format_text (U := basic_unicode) sample_noted default_options with
    | Ok res => res
    | Raise _ => mk_result [] false []
    end.

(** The result of the run on [sample_text] with the default options. *)
Definition sample_result : FormatResult :=
  Eval vm_compute in
    match format_text (U := basic_unicode) sample_text default_options with
    | Ok res => res
    | Raise _ => mk_result [] false []
    end.

(* ================================================================== *)
(** ** The tokenizer in the words of its docstrings *)

(** "The position of a // outside quotes": at [j] the string [s] reads
    "//", and the number of quotes before [j] is even when the scan is
    entered outside a quote ([q] false), odd when inside. *)
Definition comment_here (q : bool) (s : str) (j : nat) : bool :=
  startswith (lit "//") (skipn j s)
  && negb (xorb q (Nat.odd (count_if (ch_eqb DQ) (firstn j s)))).

(** A quoted string: a quote, characters that are no quotes, a
    quote. *)
Definition quoted (a : str) : str := DQ :: a ++ [DQ].

(** [dataclasses.replace(o, align_mode=m)] *)
Definition with_mode (o : FormatOptions) (m : str) : FormatOptions :=
  mk_options m (tab_width o) (key_cap o) (comment_cap o)
    (special_align_keys o) (echo_align_tables o).

(** A character that is no whitespace for [str.isspace] unless it is
    one of the [[ \t\r\f\v]] the signature ignores. *)
Definition plain_ws (c : char) : bool := negb (isspace c) || is_ws c.

(* ================================================================== *)
(** ** The command line: [cli.py] *)

Definition COMMA : char := 44%N.

(** [_split_excludes]: [None] and the empty list give no pattern;
    every value is split at its commas, the pieces are stripped and
    the empty ones dropped. *)
Definition split_excludes (values : option (list str)) : list str :=
  match values with
  | None => []
  | Some vs =>
      flat_map (fun v => filter str_nonempty (map strip (split_on COMMA v))) vs
  end.

Definition DEFAULT_EXCLUDES : list str :=
  [lit "**/.git/**"; lit "**/*.bak*.cfg"; lit "**/*.tmp*.cfg";
   lit "**/*.old*.cfg"; lit "**/*_out.cfg"].

(** The namespace [argparse] returns for the subcommand "format". *)
Record Args := mk_args {
  a_dir : str;
  a_no_recursive : bool;
  a_check : bool;
  a_fail_fast : bool;
  a_exclude : list str;
  a_no_backup : bool;
  a_encoding : str;
  a_quiet : bool;
  a_verbose : bool;
  a_align : str;
  a_tab_width : Z;
  a_key_cap : Z;
  a_comment_cap : Z;
  a_no_echo_tables : bool
}.

Record DiscoverOptions := mk_discover {
  d_recursive : bool;
  d_excludes : list str
}.

(** [fmtopt] of [run_format]: the special keys are always the default
    ones. *)
Definition format_options_of (a : Args) : FormatOptions :=
  mk_options (a_align a) (a_tab_width a) (a_key_cap a) (a_comment_cap a)
    (Some SPECIAL_ALIGN_KEYS_DEFAULT) (negb (a_no_echo_tables a)).

(** What [run_format] asks of the file system, in a world [W]: paths
    are strings; reading changes nothing and returns the text or the
    message of the exception raised; a backup and a write return the
    world they leave and the message of the exception they raised, if
    any.  The discovery of [fs.py] and the three functions of [io.py]
    are operations of this interface. *)
Inductive read_result := Text (raw : str) | ReadError (msg : str).

Class FileSystem (W : Type) := {
  resolve : W -> str -> str;
  is_directory : W -> str -> bool;
  collect_cfg_files : W -> str -> DiscoverOptions -> list str;
  read_text_strict : W -> str -> str -> read_result;
  backup_file : W -> str -> W * option str;
  atomic_write_text : W -> str -> str -> str -> W * option str
}.

Inductive status := OK | CHANGED | WOULD | FAILED.

Definition status_eqb (a b : status) : bool :=
  match a, b with
  | OK, OK | CHANGED, CHANGED | WOULD, WOULD | FAILED, FAILED => true
  | _, _ => false
  end.

(** The message of a [FileResult]: none, the line numbers of the guard
    failures (the first ten, and how many more), or the text of an
    exception. *)
Inductive error := IOError (msg : str) | FormatError (e : exn).

Inductive message :=
| NoMessage
| SigMessage (shown : list nat) (more : option nat)
| ErrorMessage (e : error).

Record FileResult := mk_file_result {
  fr_path : str;
  fr_status : status;
  fr_message : message;
  fr_sig_fail_lines : option (list nat)
}.

Definition sig_message (fails : list nat) : message :=
  SigMessage (firstn 10 fails)
    (if length fails <=? 10 then None else Some (length fails - 10)).

Section RunFormat.

Context {U : UnicodeData} {W : Type} {FS : FileSystem W}.

(** The variables of the loop of [run_format]. *)
Record run_state := mk_state {
  results : list FileResult;
  any_change_needed : bool;
  any_failed : bool;
  world : W
}.

(** The [except Exception] clause, entered with the world [w] and the
    flag [chg]; the boolean tells whether the loop is left. *)
Definition on_exception (a : Args) (st : run_state) (p : str) (chg : bool)
  (w : W) (e : error) : run_state * bool :=
  (mk_state (results st ++ [mk_file_result p FAILED (ErrorMessage e) None])
     chg true w,
   a_fail_fast a).

(** The body of the loop for the file [p]. *)
Definition file_step (a : Args) (st : run_state) (p : str) : run_state * bool :=
  match read_text_strict (world st) p (a_encoding a) with
  | ReadError msg =>
      on_exception a st p (any_change_needed st) (world st) (IOError msg)
  | Text raw =>
      match format_text raw (format_options_of a) with
      | Raise e =>
          on_exception a st p (any_change_needed st) (world st) (FormatError e)
      | Ok fr =>
          match sig_fail_lines fr with
          | _ :: _ =>
              (mk_state
                 (results st
                  ++ [mk_file_result p FAILED (sig_message (sig_fail_lines fr))
                        (Some (sig_fail_lines fr))])
                 (any_change_needed st) true (world st),
               a_fail_fast a)
          | [] =>
              if negb (changed fr) then
                (mk_state (results st ++ [mk_file_result p OK NoMessage None])
                   (any_change_needed st) (any_failed st) (world st),
                 false)
              else if a_check a then
                (mk_state (results st ++ [mk_file_result p WOULD NoMessage None])
                   true (any_failed st) (world st),
                 false)
              else
                let '(w1, e1) :=
                  if negb (a_no_backup a) then backup_file (world st) p
                  else (world st, None) in
                match e1 with
                | Some msg => on_exception a st p true w1 (IOError msg)
                | None =>
                    let '(w2, e2) :=
                      atomic_write_text w1 p (out_text fr) (a_encoding a) in
                    match e2 with
                    | Some msg => on_exception a st p true w2 (IOError msg)
                    | None =>
                        (mk_state
                           (results st
                            ++ [mk_file_result p CHANGED NoMessage None])
                           true (any_failed st) w2,
                         false)
                    end
                end
          end
      end
  end.

(** [for path in files: ...] with its [break]. *)
Fixpoint run_files (a : Args) (files : list str) (st : run_state) : run_state :=
  match files with
  | [] => st
  | p :: tl =>
      let '(st', brk) := file_step a st p in
      if brk then st' else run_files a tl st'
  end.

(** What [run_format] prints, line by line. *)
Inductive printed :=
| PNotDirectory (dir : str)
| PInfo (root : str) (recursive : bool) (n : nat) (encoding : str) (backup : bool)
| POk (p : str)
| PChanged (p : str) (fallback_lines : option nat)
| PWould (p : str)
| PFailed (p : str) (m : message)
| PSummary (n_changed n_ok n_would n_failed : nat).

Definition count_status (s : status) (rs : list FileResult) : nat :=
  length (filter (fun r => status_eqb (fr_status r) s) rs).

Definition print_result (a : Args) (r : FileResult) : list printed :=
  if a_quiet a && negb (status_eqb (fr_status r) FAILED) then []
  else match fr_status r with
       | OK => [POk (fr_path r)]
       | CHANGED =>
           [PChanged (fr_path r)
              (match fr_sig_fail_lines r with
               | Some (x :: l) => Some (length (x :: l))
               | _ => None
               end)]
       | WOULD => [PWould (fr_path r)]
       | FAILED => [PFailed (fr_path r) (fr_message r)]
       end.

Definition report (a : Args) (rs : list FileResult) : list printed :=
  flat_map (print_result a) rs
  ++ [PSummary (count_status CHANGED rs) (count_status OK rs)
        (count_status WOULD rs) (count_status FAILED rs)].

(** [run_format]: the exit code, the lines printed and the world
    left. *)
Definition run_format (a : Args) (w : W) : nat * list printed * W :=
  let root := resolve w (a_dir a) in
  if negb (is_directory w root) then (2, [PNotDirectory (a_dir a)], w)
  else
    let excludes := DEFAULT_EXCLUDES ++ split_excludes (Some (a_exclude a)) in
    let discover := mk_discover (negb (a_no_recursive a)) excludes in
    let files := collect_cfg_files w root discover in
    let info :=
      if a_verbose a
      then [PInfo root (d_recursive discover) (length files) (a_encoding a)
              (negb (a_no_backup a))]
      else [] in
    let st := run_files a files (mk_state [] false false w) in
    let code :=
      if any_failed st then 2
      else if a_check a && any_change_needed st then 1
      else 0 in
    (code, info ++ report a (results st), world st).

End RunFormat.

(** A directory in memory, every path resolved to itself and every
    file found: the text files by path; a backup adds a copy under the
    path followed by ".bak", a write replaces the text; nothing
    fails but the reading of a missing file. *)
Fixpoint mem_lookup (w : list (str * str)) (p : str) : option str :=
  match w with
  | [] => None
  | (q, t) :: tl => if str_eqb q p then Some t else mem_lookup tl p
  end.

Fixpoint mem_store (w : list (str * str)) (p t : str) : list (str * str) :=
  match w with
  | [] => [(p, t)]
  | (q, u) :: tl => if str_eqb q p then (q, t) :: tl else (q, u) :: mem_store tl p t
  end.

Definition mem_fs : FileSystem (list (str * str)) :=
  {| resolve := fun _ p => p;
     is_directory := fun _ _ => true;
     collect_cfg_files := fun w _ _ => map fst w;
     read_text_strict := fun w p _ =>
       match mem_lookup w p with
       | Some t => Text t
       | None => ReadError (lit "no such file")
       end;
     backup_file := fun w p =>
       match mem_lookup w p with
       | Some t => (mem_store w (p ++ lit ".bak") t, None)
       | None => (w, Some (lit "no such file"))
       end;
     atomic_write_text := fun w p t _ => (mem_store w p t, None) |}.

(** [cfgfmt format .] and [cfgfmt format . --check] *)
Definition sample_args : Args :=
  mk_args (lit ".") false false false [] false (lit "utf-8") false false
    ALIGN_MODE_DEFAULT TAB_WIDTH_DEFAULT KEY_CAP_DEFAULT COMMENT_CAP_DEFAULT
    false.

Definition sample_check_args : Args :=
  mk_args (lit ".") false true false [] false (lit "utf-8") false false
    ALIGN_MODE_DEFAULT TAB_WIDTH_DEFAULT KEY_CAP_DEFAULT COMMENT_CAP_DEFAULT
    false.

(** A directory of two files: the sample text and a file that is
    formatted already. *)
Definition sample_dir : list (str * str) :=
  [(lit "a.cfg", lit "bind  w +forward" ++ [LF]);
   (lit "b.cfg", lit "bind w +forward" ++ [LF])].

(** *** Sample chunks and directories *)

(** [bind "w"  "+forward" // go] *)
Definition sample_bind_line : str :=
  lit "bind " ++ [DQ] ++ lit "w" ++ [DQ; SP; SP; DQ] ++ lit "+forward" ++ [DQ]
  ++ lit " // go".

Definition sample_bind_rec : rec :=
  parse_line (U := basic_unicode) default_options 1 sample_bind_line.

(** Two binds, the first with a comment. *)
Definition sample_binds : list rec :=
  parse_lines (U := basic_unicode) default_options 1
    [sample_bind_line;
     lit "bind " ++ [DQ] ++ lit "mouse1" ++ [DQ; SP; DQ] ++ lit "+attack" ++ [DQ]].

(** Two rows of an echo table. *)
Definition sample_row_rec : rec :=
  parse_line (U := basic_unicode) default_options 1 (lit "echo a|bb").

Definition sample_rows : list rec :=
  parse_lines (U := basic_unicode) default_options 1
    [lit "echo a|bb"; lit "echo ccc|d"].

(** An echo with a comment. *)
Definition sample_echo_line : str := lit "echo  hello  world // said".

(** One bind with two spaces after the key, and what the formatter
    returns for it. *)
Definition sample_plain : str := lit "bind  w +forward" ++ [LF].

Definition sample_plain_result : FormatResult :=
  Eval vm_compute in
    match format_text (U := basic_unicode) sample_plain default_options with
    | Ok res => res
    | Raise _ => mk_result [] false []
    end.

(** [cfgfmt format . --fail-fast] *)
Definition sample_fail_fast_args : Args :=
  mk_args (lit ".") false false true [] false (lit "utf-8") false false
    ALIGN_MODE_DEFAULT TAB_WIDTH_DEFAULT KEY_CAP_DEFAULT COMMENT_CAP_DEFAULT
    false.

(** A directory of two files with a line that fails the guard. *)
Definition sample_failing_dir : list (str * str) :=
  [(lit "a.cfg", sample_text); (lit "b.cfg", sample_text)].

(** A directory of one file that is formatted already. *)
Definition sample_done_dir : list (str * str) :=
  [(lit "b.cfg", lit "bind w +forward" ++ [LF])].

(** The lines printed before the summary. *)
Definition before_summary {U : UnicodeData} {W : Type} {FS : FileSystem W}
  (a : Args) (w : W) : list printed :=
  removelast (snd (fst (run_format a w))).

(* ================================================================== *)
(** * Properties *)

Unset Implicit Arguments.

(** ** Characters, strings and lists *)

Lemma ch_eqb_eq (a b : char) : ch_eqb a b = true <-> a = b.
Proof. apply N.eqb_eq. Qed.

Lemma ch_eqb_refl (a : char) : ch_eqb a a = true.
Proof. apply N.eqb_refl. Qed.

Lemma ch_eqb_neq (a b : char) : ch_eqb a b = false <-> a <> b.
Proof. apply N.eqb_neq. Qed.

Lemma str_eqb_eq (a b : str) : str_eqb a b = true <-> a = b.
Proof.
  revert b; induction a as [|x a IH]; intros [|y b]; simpl; split;
    try congruence; try reflexivity.
  - intros H. apply andb_true_iff in H as [H1 H2].
    apply ch_eqb_eq in H1. apply IH in H2. congruence.
  - intros H. injection H as -> ->.
    rewrite ch_eqb_refl. simpl. now apply IH.
Qed.

Lemma str_eqb_refl (a : str) : str_eqb a a = true.
Proof. now apply str_eqb_eq. Qed.

Lemma str_eqb_neq (a b : str) : str_eqb a b = false <-> a <> b.
Proof.
  destruct (str_eqb a b) eqn:E.
  - apply str_eqb_eq in E. split; [discriminate | congruence].
  - split; [|reflexivity]. intros _ H. apply str_eqb_eq in H. congruence.
Qed.

Lemma str_nonempty_false (s : str) : str_nonempty s = false <-> s = [].
Proof. destruct s; simpl; split; congruence. Qed.

Lemma str_eqb_nil (s : str) : str_eqb s [] = negb (str_nonempty s).
Proof. now destruct s. Qed.

Lemma take_drop_while (p : char -> bool) (s : str) :
  takewhile p s ++ dropwhile p s = s.
Proof.
  induction s as [|c s IH]; simpl; [reflexivity|].
  destruct (p c); simpl; [now rewrite IH | reflexivity].
Qed.

Lemma takewhile_all (p : char -> bool) (s : str) :
  forallb p (takewhile p s) = true.
Proof.
  induction s as [|c s IH]; simpl; [reflexivity|].
  destruct (p c) eqn:E; simpl; [now rewrite E | reflexivity].
Qed.

Lemma dropwhile_head (p : char -> bool) (s : str) c t :
  dropwhile p s = c :: t -> p c = false.
Proof.
  induction s as [|x s IH]; simpl; [discriminate|].
  destruct (p x) eqn:E; [assumption|]. intros H. now injection H as <- <-.
Qed.

Lemma dropwhile_all (p : char -> bool) (s : str) :
  forallb p s = true -> dropwhile p s = [].
Proof.
  induction s as [|c s IH]; simpl; [reflexivity|].
  intros H. apply andb_true_iff in H as [-> H]. now apply IH.
Qed.

Lemma dropwhile_nil_all (p : char -> bool) (s : str) :
  dropwhile p s = [] -> forallb p s = true.
Proof.
  induction s as [|c s IH]; simpl; [reflexivity|].
  destruct (p c); [assumption | discriminate].
Qed.

Lemma dropwhile_app_all (p : char -> bool) (w s : str) :
  forallb p w = true -> dropwhile p (w ++ s) = dropwhile p s.
Proof.
  induction w as [|c w IH]; simpl; [reflexivity|].
  intros H. apply andb_true_iff in H as [-> H]. now apply IH.
Qed.

Lemma dropwhile_stop (p : char -> bool) (c : char) (s : str) :
  p c = false -> dropwhile p (c :: s) = c :: s.
Proof. intros H. simpl. now rewrite H. Qed.

Lemma takewhile_app_all (p : char -> bool) (w s : str) :
  forallb p w = true -> takewhile p (w ++ s) = w ++ takewhile p s.
Proof.
  induction w as [|c w IH]; simpl; [reflexivity|].
  intros H. apply andb_true_iff in H as [-> H]. now rewrite IH.
Qed.

Lemma dropwhile_idem (p : char -> bool) (s : str) :
  dropwhile p (dropwhile p s) = dropwhile p s.
Proof.
  induction s as [|c s IH]; simpl; [reflexivity|].
  destruct (p c) eqn:E; [assumption|]. simpl. now rewrite E.
Qed.

(** [rstrip_by] removes a suffix made of stripped characters and
    leaves a string that does not end with one. *)
Lemma rstrip_by_split (p : char -> bool) (s : str) :
  exists w, s = rstrip_by p s ++ w /\ forallb p w = true.
Proof.
  unfold rstrip_by. exists (rev (takewhile p (rev s))). split.
  - rewrite <- rev_app_distr, take_drop_while. now rewrite rev_involutive.
  - rewrite forallb_forall. intros x Hx. apply in_rev in Hx.
    pose proof (takewhile_all p (rev s)) as H.
    rewrite forallb_forall in H. now apply H.
Qed.

Lemma rstrip_by_snoc (p : char -> bool) (s : str) (c : char) :
  rstrip_by p (s ++ [c]) = if p c then rstrip_by p s else s ++ [c].
Proof.
  unfold rstrip_by. rewrite rev_app_distr. simpl.
  destruct (p c); [reflexivity|]. simpl. now rewrite rev_involutive.
Qed.

Lemma rstrip_by_app_keep (p : char -> bool) (a b : str) (c : char) :
  p c = false -> rstrip_by p (a ++ b ++ [c]) = a ++ b ++ [c].
Proof.
  intros H. rewrite app_assoc, rstrip_by_snoc, H. reflexivity.
Qed.

Lemma rstrip_by_app_all (p : char -> bool) (s w : str) :
  forallb p w = true -> rstrip_by p (s ++ w) = rstrip_by p s.
Proof.
  intros H. unfold rstrip_by. rewrite rev_app_distr.
  rewrite dropwhile_app_all; [reflexivity|].
  rewrite forallb_forall in *. intros x Hx. apply H. now apply in_rev.
Qed.

Lemma rstrip_by_last (p : char -> bool) (s t : str) (c : char) :
  rstrip_by p s = t ++ [c] -> p c = false.
Proof.
  unfold rstrip_by. intros H.
  assert (E : dropwhile p (rev s) = c :: rev t).
  { rewrite <- (rev_involutive (dropwhile p (rev s))), H, rev_app_distr.
    reflexivity. }
  now apply dropwhile_head in E.
Qed.

Lemma rstrip_by_fix (p : char -> bool) (s : str) :
  (forall t c, s = t ++ [c] -> p c = false) -> rstrip_by p s = s.
Proof.
  intros H. destruct (rev s) as [|c t] eqn:E.
  - apply (f_equal (@rev char)) in E. rewrite rev_involutive in E. now subst.
  - apply (f_equal (@rev char)) in E. rewrite rev_involutive in E. simpl in E.
    subst s. rewrite rstrip_by_snoc, (H (rev t) c eq_refl). reflexivity.
Qed.

Lemma rstrip_by_idem (p : char -> bool) (s : str) :
  rstrip_by p (rstrip_by p s) = rstrip_by p s.
Proof.
  apply rstrip_by_fix. intros t c H. now apply rstrip_by_last in H.
Qed.

Lemma rstrip_by_nil_all (p : char -> bool) (s : str) :
  rstrip_by p s = [] -> forallb p s = true.
Proof.
  intros H. destruct (rstrip_by_split p s) as (w & E & Hw).
  rewrite H in E. simpl in E. now subst.
Qed.

Lemma is_ws_isspace (c : char) : is_ws c = true -> isspace c = true.
Proof.
  unfold is_ws. rewrite !orb_true_iff, !ch_eqb_eq.
  intros [[[[->| ->]| ->]| ->]| ->]; reflexivity.
Qed.

(** ** Signatures *)

Lemma sig_no_ws_app (a b : str) : sig_no_ws (a ++ b) = sig_no_ws a ++ sig_no_ws b.
Proof. apply filter_app. Qed.

Lemma sig_no_ws_all (w : str) : forallb is_ws w = true -> sig_no_ws w = [].
Proof.
  induction w as [|c w IH]; simpl; [reflexivity|].
  intros H. apply andb_true_iff in H as [-> H]. simpl. now apply IH.
Qed.

Lemma sig_no_ws_spaces (n : nat) : sig_no_ws (spaces n) = [].
Proof. induction n; simpl; auto. Qed.

Lemma sig_no_ws_detab (s : str) (tw : Z) : sig_no_ws (expand_tabs s tw) = sig_no_ws s.
Proof.
  unfold expand_tabs, replace_tab. induction s as [|c s IH]; simpl; [reflexivity|].
  rewrite sig_no_ws_app, IH. destruct (ch_eqb c TAB) eqn:E.
  - apply ch_eqb_eq in E. subst c. unfold spaces_z.
    now rewrite sig_no_ws_spaces.
  - simpl. now destruct (is_ws c).
Qed.

Lemma sig_no_ws_rstrip (s : str) : sig_no_ws (rstrip_ws s) = sig_no_ws s.
Proof.
  unfold rstrip_ws. destruct (rstrip_by_split is_ws s) as (w & E & Hw).
  rewrite E at 2. rewrite sig_no_ws_app, (sig_no_ws_all _ Hw).
  now rewrite app_nil_r.
Qed.

(** The guard never rejects a line that is only normalised. *)
Lemma sig_no_ws_normalize (s : str) (tw : Z) :
  sig_no_ws (rstrip_ws (expand_tabs s tw)) = sig_no_ws s.
Proof. now rewrite sig_no_ws_rstrip, sig_no_ws_detab. Qed.

Lemma signature_of_sig (s : str) : signature (sig_no_ws s) = signature s.
Proof.
  unfold signature, sig_no_ws. induction s as [|c s IH]; simpl; [reflexivity|].
  destruct (is_ws c) eqn:E; simpl.
  - now rewrite (is_ws_isspace _ E).
  - now rewrite IH.
Qed.

Lemma sig_eq_signature (a b : str) :
  sig_no_ws a = sig_no_ws b -> signature a = signature b.
Proof.
  intros H. rewrite <- (signature_of_sig a), <- (signature_of_sig b).
  now rewrite H.
Qed.

(** *** Characters outside the whitespace table *)

Lemma in_range_bounds (lo hi c : char) :
  in_range lo hi c = true -> (lo <= c <= hi)%N.
Proof.
  unfold in_range. intros H. apply andb_true_iff in H as [A B].
  apply N.leb_le in A, B. lia.
Qed.

Lemma range_not_space (lo hi c : char) :
  (32 < lo)%N -> (hi < 133)%N -> in_range lo hi c = true -> isspace c = false.
Proof.
  intros L H R. apply in_range_bounds in R. unfold isspace.
  off_table c. reflexivity.
Qed.


(** ** The loops of the aligner and of the driver *)

Section Loops.

Context {U : UnicodeData}.

Lemma widen_at_ok (ws : list nat) (i w : nat) :
  i < length ws ->
  exists ws', widen_at ws i w = Ok ws' /\ length ws' = length ws.
Proof.
  revert i. induction ws as [|x ws IH]; intros i Hi; simpl in *; [lia|].
  destruct i as [|i].
  - eexists. split; [reflexivity|]. reflexivity.
  - destruct (IH i) as (ws' & E & L); [lia|]. rewrite E. simpl.
    eexists. split; [reflexivity|]. simpl. now rewrite L.
Qed.

Lemma widen_row_ok (fields : list str) (ws : list nat) (i : nat) :
  i + length fields <= length ws ->
  exists ws', widen_row ws i fields = Ok ws' /\ length ws' = length ws.
Proof.
  revert ws i. induction fields as [|f fields IH]; intros ws i Hi; simpl in *.
  - now exists ws.
  - destruct (widen_at_ok ws i (vis_width f))
      as (ws1 & E1 & L1); [lia|].
    rewrite E1. simpl. destruct (IH ws1 (S i)) as (ws2 & E2 & L2); [lia|].
    exists ws2. split; [assumption | congruence].
Qed.

Lemma widen_rows_ok (rows : list (list str)) (ws : list nat) :
  (forall fields, In fields rows -> length fields <= length ws) ->
  exists ws', widen_rows ws rows = Ok ws' /\ length ws' = length ws.
Proof.
  revert ws. induction rows as [|fields rows IH]; intros ws H; simpl.
  - now exists ws.
  - destruct (widen_row_ok fields ws 0) as (ws1 & E1 & L1).
    { simpl. apply H. now left. }
    rewrite E1. simpl. destruct (IH ws1) as (ws2 & E2 & L2).
    { intros f Hf. rewrite L1. apply H. now right. }
    exists ws2. split; [assumption | congruence].
Qed.

Lemma max_cols_acc (rows : list (list str)) (m : nat) :
  m <= fold_left (fun m fields => Nat.max m (length fields)) rows m /\
  forall fields, In fields rows ->
    length fields <= fold_left (fun m fields => Nat.max m (length fields)) rows m.
Proof.
  revert m. induction rows as [|f rows IH]; intros m; simpl.
  - split; [lia | intros ? []].
  - destruct (IH (Nat.max m (length f))) as [H1 H2]. split; [lia|].
    intros fields [<- | Hin]; [lia | now apply H2].
Qed.

(** The widths of an echo table are always computed: no column index
    leaves the list of widths. *)
Lemma echo_col_widths_ok (et : bool) (C : list rec) :
  exists w, echo_col_widths et C = Ok w.
Proof.
  unfold echo_col_widths. destruct (echo_rows et C) as [|f rows] eqn:E.
  - now eexists.
  - destruct (0 <? max_cols (f :: rows)); [|now eexists].
    destruct (widen_rows_ok (f :: rows) (repeat 0 (max_cols (f :: rows))))
      as (w & Hw & _).
    + intros fields Hin. rewrite repeat_length.
      now apply (max_cols_acc (f :: rows) 0).
    + now exists w.
Qed.

Lemma echo_col_widths_of (o : FormatOptions) (C : list rec) :
  echo_col_widths (echo_align_tables o) C = Ok (widths_of o C).
Proof.
  unfold widths_of. destruct (echo_col_widths_ok (echo_align_tables o) C) as (w & E).
  now rewrite E.
Qed.

Lemma cf_with_none (o : FormatOptions) vcol scol widths (r : rec) :
  cf_with o vcol scol widths r = None <-> kind r <> Kcmd.
Proof.
  unfold cf_with, code_fmt. destruct (kind r); simpl;
    try (split; [discriminate | reflexivity]).
  split; [|congruence]. intros H. exfalso. revert H.
  repeat match goal with
         | |- context [if ?b then _ else _] => destruct b
         | |- context [match ?x with Some _ => _ | None => _ end] => destruct x
         | |- context [let '(_, _) := ?x in _] => destruct x
         end; discriminate.
Qed.

(** [detab] returns when the repetition does, and raises what the
    repetition raises. *)
Lemma detab_returns (s pad : str) (tw : Z) :
  space_times tw = Ok pad -> detab s tw = Ok (expand_tabs s tw).
Proof.
  intros H. unfold detab. rewrite H. cbn [bind].
  rewrite (space_times_value _ H). reflexivity.
Qed.

Lemma detab_raises (s : str) (tw : Z) (e : exn) :
  space_times tw = Raise e -> detab s tw = Raise e.
Proof. intros H. unfold detab. now rewrite H. Qed.

Lemma detab_value (s d : str) (tw : Z) :
  detab s tw = Ok d ->
  d = expand_tabs s tw /\ space_times tw = Ok (spaces_z tw).
Proof.
  unfold detab. destruct (space_times tw) as [pad|e] eqn:E; [|discriminate].
  cbn [bind]. intros H. injection H as <-.
  rewrite (space_times_value _ E). split; reflexivity.
Qed.

Lemma emit_loop_spec (o : FormatOptions) (P : params) (L : list rec)
  (out : list str) (st : list nat) (pad : str) :
  space_times (tab_width o) = Ok pad ->
  emit_loop (tab_width o) (p_target P)
    (combine L (map (cf_with o (p_vcol P) (p_scol P) (p_widths P)) L)) out st
  = Ok (out ++ map (emit_with o P) L,
        st ++ map lineno (filter (failed_with o P) L)).
Proof.
  intros Hw. revert out st. induction L as [|r L IH]; intros out st; simpl.
  - now rewrite !app_nil_r.
  - rewrite (detab_returns (orig r) pad _ Hw). cbn [bind].
    unfold emit_with at 1, failed_with at 1 2, render_with, guard.
    destruct (kind_eqb (kind r) Kcmd) eqn:K; simpl.
    + destruct (cf_with o (p_vcol P) (p_scol P) (p_widths P) r) as [c|] eqn:E.
      * rewrite (detab_returns _ pad _ Hw). cbn [bind].
        destruct (negb (str_eqb _ _)); rewrite IH; simpl;
          now rewrite <- !app_assoc.
      * apply cf_with_none in E. destruct (kind r); simpl in K; congruence.
    + assert (E : cf_with o (p_vcol P) (p_scol P) (p_widths P) r = None).
      { apply cf_with_none. destruct (kind r); simpl in K; congruence. }
      rewrite E.
      destruct (negb (str_eqb _ _)); rewrite IH; simpl;
        now rewrite <- !app_assoc.
Qed.

(** [format_cmd_lines] returns when the tab width can be repeated,
    and what it returns. *)
Lemma format_chunk_spec (o : FormatOptions) (C : list rec) (st : list nat)
  (pad : str) :
  space_times (tab_width o) = Ok pad ->
  format_chunk o C st
  = Ok (map (emit o C) C, st ++ map lineno (filter (failed o C) C)).
Proof.
  intros Hw.
  unfold format_chunk, format_cmd_lines. rewrite echo_col_widths_of. simpl.
  exact (emit_loop_spec o (params_of o C) C [] st pad Hw).
Qed.

(** Without records [format_cmd_lines] returns whatever the tab
    width. *)
Lemma format_chunk_nil (o : FormatOptions) (st : list nat) :
  format_chunk o [] st = Ok ([], st).
Proof. reflexivity. Qed.

Lemma emit_with_other (o : FormatOptions) (P Q : params) (r : rec) :
  kind r <> Kcmd ->
  emit_with o P r = emit_with o Q r /\ failed_with o P r = failed_with o Q r.
Proof.
  intros K. unfold emit_with, failed_with, render_with.
  rewrite (proj2 (cf_with_none o (p_vcol P) (p_scol P) (p_widths P) r) K).
  rewrite (proj2 (cf_with_none o (p_vcol Q) (p_scol Q) (p_widths Q) r) K).
  split; reflexivity.
Qed.

Lemma is_boundary_kind (r : rec) : is_boundary r = true -> kind r <> Kcmd.
Proof. unfold is_boundary. destruct (kind r); simpl; congruence. Qed.

(** A record that is no command and holds its normalised original
    passes the guard. *)
Lemma other_not_failed (o : FormatOptions) (P : params) (r : rec) :
  kind r <> Kcmd -> wf_rec o r ->
  failed_with o P r = false /\ emit_with o P r = line r.
Proof.
  intros K W. unfold emit_with, failed_with, render_with.
  rewrite (proj2 (cf_with_none o (p_vcol P) (p_scol P) (p_widths P) r) K).
  unfold wf_rec in W. rewrite W, sig_no_ws_normalize, str_eqb_refl. simpl.
  split; reflexivity.
Qed.

Lemma handle_boundary_spec (o : FormatOptions) (P : params) (r : rec)
  (out : list str) (st : list nat) (pad : str) :
  space_times (tab_width o) = Ok pad ->
  kind r <> Kcmd ->
  handle_boundary o r out st
  = Ok (out ++ [emit_with o P r],
        st ++ (if failed_with o P r then [lineno r] else [])).
Proof.
  intros Hw K. unfold handle_boundary, emit_with, failed_with, render_with.
  rewrite (proj2 (cf_with_none o (p_vcol P) (p_scol P) (p_widths P) r) K).
  destruct (negb (str_eqb _ _)).
  - rewrite (detab_returns _ pad _ Hw). reflexivity.
  - now rewrite app_nil_r.
Qed.

Lemma parse_line_wf (o : FormatOptions) (i : nat) (l : str) :
  wf_rec o (parse_line o i l) /\ orig (parse_line o i l) = l
  /\ lineno (parse_line o i l) = i.
Proof.
  unfold wf_rec, parse_line, record_of.
  repeat match goal with
         | |- context [if ?b then _ else _] => destruct b
         | |- context [match ?x with Some _ => _ | None => _ end] => destruct x
         | |- context [let '(_, _) := ?x in _] => destruct x
         end; simpl; auto.
Qed.

Lemma parse_lines_wf (o : FormatOptions) (i : nat) (ls : list str) :
  Forall (wf_rec o) (parse_lines o i ls).
Proof.
  revert i. induction ls as [|l ls IH]; intros i; simpl; constructor.
  - apply parse_line_wf.
  - apply IH.
Qed.

Lemma parse_lines_length (o : FormatOptions) (i : nat) (ls : list str) :
  length (parse_lines o i ls) = length ls.
Proof. revert i. induction ls; intros i; simpl; auto. Qed.

Lemma parse_lines_origs (o : FormatOptions) (i : nat) (ls : list str) :
  map orig (parse_lines o i ls) = ls.
Proof.
  revert i. induction ls as [|l ls IH]; intros i; simpl; [reflexivity|].
  f_equal; [apply parse_line_wf | apply IH].
Qed.

Lemma parse_lines_nth (o : FormatOptions) (ls : list str) (i n : nat) (r : rec) :
  nth_error (parse_lines o i ls) n = Some r ->
  exists l, nth_error ls n = Some l /\ r = parse_line o (i + n) l.
Proof.
  revert i n. induction ls as [|l ls IH]; intros i n H; simpl in *.
  - destruct n; discriminate.
  - destruct n as [|n]; simpl in *.
    + injection H as <-. exists l. split; [reflexivity|]. f_equal. lia.
    + destruct (IH _ _ H) as (l' & E & ->). exists l'. split; [assumption|].
      f_equal. lia.
Qed.

(** The pre-parse loop returns the records of the lines when the tab
    width can be repeated; it raises what the repetition raises when
    there is a line. *)
Lemma parse_loop_returns (o : FormatOptions) (i : nat) (ls : list str)
  (pad : str) :
  space_times (tab_width o) = Ok pad ->
  parse_loop o i ls = Ok (parse_lines o i ls).
Proof.
  intros Hw. revert i. induction ls as [|l ls IH]; intros i; cbn [parse_loop].
  - reflexivity.
  - rewrite (detab_returns l pad _ Hw). cbn [bind]. rewrite IH. reflexivity.
Qed.

Lemma parse_loop_raises (o : FormatOptions) (i : nat) (l : str) (ls : list str)
  (e : exn) :
  space_times (tab_width o) = Raise e -> parse_loop o i (l :: ls) = Raise e.
Proof.
  intros Hw. cbn [parse_loop]. now rewrite (detab_raises l _ e Hw).
Qed.

Lemma flush_block_spec (o : FormatOptions) (block : list rec)
  (out : list str) (st : list nat) (pad : str) :
  space_times (tab_width o) = Ok pad ->
  flush_block o block out st
  = Ok (out ++ map (emit o block) block,
        st ++ map lineno (filter (failed o block) block)).
Proof.
  intros Hw. unfold flush_block. destruct block as [|r block].
  - simpl. now rewrite !app_nil_r.
  - rewrite (format_chunk_spec _ _ _ pad Hw). reflexivity.
Qed.

Lemma global_loop_spec (o : FormatOptions) (C recs : list rec)
  (out : list str) (st : list nat) (pad : str) :
  space_times (tab_width o) = Ok pad ->
  Forall (wf_rec o) recs ->
  global_loop o recs (map (emit o C) (filter (fun r => negb (is_boundary r)) recs))
    out st
  = Ok (out ++ map (emit o C) recs, st).
Proof.
  intros Hw W. revert out st.
  induction W as [|r recs Wr W IH]; intros out st; simpl.
  - now rewrite app_nil_r.
  - destruct (is_boundary r) eqn:B; simpl.
    + rewrite (handle_boundary_spec o (params_of o C) r out st pad Hw
                 (is_boundary_kind r B)). cbn [bind].
      destruct (other_not_failed o (params_of o C) r (is_boundary_kind r B) Wr)
        as [F E].
      rewrite F, IH. unfold emit. now rewrite app_nil_r, <- app_assoc.
    + rewrite IH. now rewrite <- app_assoc.
Qed.

Lemma block_loop_spec (o : FormatOptions) (recs block : list rec)
  (out : list str) (st : list nat) (pad : str) :
  space_times (tab_width o) = Ok pad ->
  Forall (wf_rec o) recs ->
  block_loop o recs block out st
  = Ok (out ++ map (emit o (block ++ fst (segs recs))) (block ++ fst (segs recs))
            ++ flat_map (fun bs => emit o [] (fst bs)
                                     :: map (emit o (snd bs)) (snd bs))
                 (snd (segs recs)),
        st ++ map lineno (filter (failed o (block ++ fst (segs recs)))
                            (block ++ fst (segs recs)))
           ++ flat_map (fun bs => map lineno (filter (failed o (snd bs)) (snd bs)))
                (snd (segs recs))).
Proof.
  intros Hw W. revert block out st.
  induction W as [|r recs Wr W IH]; intros block out st; simpl.
  - rewrite (flush_block_spec _ _ _ _ pad Hw), !app_nil_r. reflexivity.
  - destruct (segs recs) as [s more] eqn:S. simpl in IH.
    destruct (is_boundary r) eqn:B; simpl.
    + rewrite (flush_block_spec _ _ _ _ pad Hw). simpl.
      rewrite (handle_boundary_spec o (params_of o []) r _ _ pad Hw
                 (is_boundary_kind r B)). cbn [bind].
      destruct (other_not_failed o (params_of o []) r (is_boundary_kind r B) Wr)
        as [F E].
      rewrite F, IH. simpl. unfold emit at 3.
      rewrite !app_nil_r, <- !app_assoc. reflexivity.
    + rewrite IH. rewrite <- !app_assoc. reflexivity.
Qed.

Lemma filter_boundary_failed (o : FormatOptions) (C recs : list rec) :
  Forall (wf_rec o) recs ->
  filter (failed o C) (filter (fun r => negb (is_boundary r)) recs)
  = filter (failed o C) recs.
Proof.
  induction 1 as [|r recs Wr W IH]; simpl; [reflexivity|].
  destruct (is_boundary r) eqn:B; simpl.
  - destruct (other_not_failed o (params_of o C) r (is_boundary_kind r B) Wr)
      as [F _].
    fold (failed o C r) in F. now rewrite F.
  - destruct (failed o C r); [now rewrite IH | assumption].
Qed.

Lemma fails_pairs (o : FormatOptions) (C L : list rec) :
  map (fun p => lineno (fst p))
    (filter (fun p => failed o (snd p) (fst p)) (map (fun r => (r, C)) L))
  = map lineno (filter (failed o C) L).
Proof.
  induction L as [|r L IH]; simpl; [reflexivity|].
  destruct (failed o C r); simpl; now rewrite IH.
Qed.

Lemma chunked_global (o : FormatOptions) (recs : list rec) :
  str_eqb (align_mode o) (lit "global") = true ->
  Forall (wf_rec o) recs ->
  let C := filter (fun r => negb (is_boundary r)) recs in
  out_lines_of o recs = map (emit o C) recs /\
  fails_of o recs = map lineno (filter (failed o C) C).
Proof.
  intros G W C. unfold out_lines_of, fails_of, chunked. rewrite G. fold C.
  split.
  - rewrite map_map. reflexivity.
  - rewrite fails_pairs. unfold C at 3.
    now rewrite filter_boundary_failed.
Qed.

Lemma chunked_block (o : FormatOptions) (recs : list rec) :
  str_eqb (align_mode o) (lit "global") = false ->
  out_lines_of o recs
  = map (emit o (fst (segs recs))) (fst (segs recs))
    ++ flat_map (fun bs => emit o [] (fst bs) :: map (emit o (snd bs)) (snd bs))
         (snd (segs recs)) /\
  (Forall (wf_rec o) recs ->
   fails_of o recs
   = map lineno (filter (failed o (fst (segs recs))) (fst (segs recs)))
     ++ flat_map (fun bs => map lineno (filter (failed o (snd bs)) (snd bs)))
          (snd (segs recs))).
Proof.
  intros G. unfold out_lines_of, fails_of, chunked. rewrite G.
  assert (Hseg : forall (s : list rec),
             map (fun p => emit o (snd p) (fst p)) (map (fun r => (r, s)) s)
             = map (emit o s) s).
  { intros s. rewrite map_map. reflexivity. }
  assert (Hfil : forall (s : list rec),
             map (fun p => lineno (fst p))
               (filter (fun p => failed o (snd p) (fst p)) (map (fun r => (r, s)) s))
             = map lineno (filter (failed o s) s)).
  { intros s. apply fails_pairs. }
  destruct (segs recs) as [s more] eqn:S. simpl. split.
  - rewrite map_app, Hseg. f_equal.
    clear S. induction more as [|[b s'] more IH]; simpl; [reflexivity|].
    rewrite map_app, Hseg, IH. reflexivity.
  - intros W. rewrite filter_app, map_app, Hfil. f_equal.
    assert (Wb : Forall (fun bs => is_boundary (fst bs) = true /\ wf_rec o (fst bs)) more).
    { clear Hseg Hfil. revert s more S.
      induction W as [|r recs Wr W IH]; intros s more S; simpl in S.
      - injection S as <- <-. constructor.
      - destruct (segs recs) as [s0 more0].
        destruct (is_boundary r) eqn:B; injection S as <- <-.
        + constructor; [now split | now apply (IH s0)].
        + now apply (IH s0). }
    clear S. induction Wb as [|[b s'] more [B Wr] Wb IH]; simpl; [reflexivity|].
    simpl in B, Wr.
    destruct (other_not_failed o (params_of o []) b (is_boundary_kind b B) Wr)
      as [F _].
    fold (failed o [] b) in F. rewrite F. simpl.
    rewrite filter_app, map_app, Hfil, IH. reflexivity.
Qed.

Lemma format_text_pure (raw : str) (o : FormatOptions) (pad : str) :
  splitlines raw = [] \/ space_times (tab_width o) = Ok pad ->
  parse_loop o 1 (splitlines raw) = Ok (parse_lines o 1 (splitlines raw)) ->
  format_text raw o = formatted raw o.
Proof.
  intros Hw Hp. unfold format_text, formatted, mode_ok, text_of.
  rewrite Hp. cbn [bind].
  pose proof (parse_lines_wf o 1 (splitlines raw)) as W.
  destruct Hw as [Hn | Hw].
  - rewrite Hn. cbn [parse_lines filter].
    unfold out_lines_of, fails_of, chunked.
    destruct (str_eqb (align_mode o) (lit "global")) eqn:G; [reflexivity|].
    destruct (str_eqb (align_mode o) (lit "block")) eqn:B; reflexivity.
  - set (recs0 := parse_lines o 1 (splitlines raw)) in *.
    destruct (str_eqb (align_mode o) (lit "global")) eqn:G; simpl.
    + destruct (chunked_global o recs0 G W) as [-> ->].
      rewrite (format_chunk_spec _ _ _ pad Hw). simpl.
      rewrite (global_loop_spec _ _ _ _ _ pad Hw) by assumption.
      reflexivity.
    + destruct (str_eqb (align_mode o) (lit "block")) eqn:B; simpl; [|reflexivity].
      destruct (chunked_block o recs0 G) as [-> F]. rewrite (F W).
      rewrite (block_loop_spec _ _ _ _ _ pad Hw) by assumption. reflexivity.
Qed.

(** How [format_text] ends: with the exception of [" " * tab_width]
    when the text has a line and the repetition raises, before the
    alignment mode is looked at; as [formatted] otherwise. *)
Theorem format_text_spec (raw : str) (o : FormatOptions) :
  format_text raw o
  = match splitlines raw, space_times (tab_width o) with
    | _ :: _, Raise e => Raise e
    | _, _ => formatted raw o
    end.
Proof.
  destruct (splitlines raw) as [|l ls] eqn:E.
  - apply (format_text_pure raw o []); [now left|]. rewrite E. reflexivity.
  - destruct (space_times (tab_width o)) as [pad|e] eqn:Hw.
    + apply (format_text_pure raw o pad); [now right|].
      rewrite E. apply (parse_loop_returns o 1 (l :: ls) pad Hw).
    + unfold format_text. rewrite E, (parse_loop_raises o 1 l ls e Hw).
      reflexivity.
Qed.

(** A run that returns returns as [formatted], and the tab width can
    be repeated unless the text has no line. *)
Lemma format_text_returns (raw : str) (o : FormatOptions) (res : FormatResult) :
  format_text raw o = Ok res ->
  formatted raw o = Ok res /\
  (splitlines raw = [] \/
   space_times (tab_width o) = Ok (spaces_z (tab_width o))).
Proof.
  rewrite format_text_spec. destruct (splitlines raw) as [|l ls].
  - intros H. split; [exact H | now left].
  - destruct (space_times (tab_width o)) as [pad|e] eqn:Hw; [|discriminate].
    intros H. split; [exact H|]. right.
    now rewrite (space_times_value _ Hw).
Qed.

End Loops.

(** ** Lines and texts *)

Lemma splitlines_line (l : str) :
  no_linebreak l = true ->
  splitlines l = match l with [] => [] | _ => [l] end.
Proof.
  induction l as [|c l IH]; simpl; [reflexivity|].
  intros H. apply andb_true_iff in H as [Hc Hl].
  apply negb_true_iff in Hc. rewrite Hc, (IH Hl).
  destruct l; reflexivity.
Qed.

Lemma splitlines_lf (l rest0 : str) :
  no_linebreak l = true ->
  splitlines (l ++ LF :: rest0) = l :: splitlines rest0.
Proof.
  induction l as [|c l IH]; simpl.
  - intros _. destruct rest0; reflexivity.
  - intros H. apply andb_true_iff in H as [Hc Hl].
    apply negb_true_iff in Hc. rewrite Hc, (IH Hl). reflexivity.
Qed.

Lemma splitlines_crlf (l rest0 : str) :
  no_linebreak l = true ->
  splitlines (l ++ CR :: LF :: rest0) = l :: splitlines rest0.
Proof.
  induction l as [|c l IH]; simpl.
  - reflexivity.
  - intros H. apply andb_true_iff in H as [Hc Hl].
    apply negb_true_iff in Hc. rewrite Hc, (IH Hl). reflexivity.
Qed.

Lemma newline_of_is_newline (raw : str) : is_newline (newline_of raw).
Proof. unfold newline_of, is_newline. destruct (contains _ _); auto. Qed.

Lemma splitlines_nl (nl l rest0 : str) :
  is_newline nl -> no_linebreak l = true ->
  splitlines (l ++ nl ++ rest0) = l :: splitlines rest0.
Proof.
  intros [-> | ->] H; simpl.
  - now apply splitlines_lf.
  - now apply splitlines_crlf.
Qed.

(** Every line [splitlines] returns is free of line boundaries. *)
Lemma splitlines_no_linebreak (s : str) :
  Forall (fun l => no_linebreak l = true) (splitlines s).
Proof.
  assert (H : forall n s, length s <= n ->
                Forall (fun l => no_linebreak l = true) (splitlines s)).
  { clear s. induction n as [|n IH]; intros s Hn.
    - destruct s; [constructor | simpl in Hn; lia].
    - destruct s as [|c tl]; [constructor|]. simpl in Hn. simpl.
      destruct (is_linebreak c) eqn:Hc.
      + constructor; [reflexivity|].
        destruct tl as [|c2 tl2]; [constructor|].
        destruct (ch_eqb c CR && ch_eqb c2 LF); apply IH; simpl in *; lia.
      + assert (Htl : Forall (fun l => no_linebreak l = true) (splitlines tl))
          by (apply IH; lia).
        destruct (splitlines tl) as [|l ls].
        * constructor; [|constructor]. simpl. now rewrite Hc.
        * inversion Htl; subst. constructor; [|assumption].
          simpl. now rewrite Hc. }
  apply (H (length s)). lia.
Qed.

Lemma join_cons2 (sep l l2 : str) (t : list str) :
  join sep (l :: l2 :: t) = l ++ sep ++ join sep (l2 :: t).
Proof. reflexivity. Qed.

(** The lines joined and terminated read back as they are. *)
Lemma splitlines_join_final (nl : str) (L : list str) :
  is_newline nl -> L <> [] ->
  Forall (fun l => no_linebreak l = true) L ->
  splitlines (join nl L ++ nl) = L.
Proof.
  intros Hnl Hne HL. induction HL as [|l L Hl HL IH]; [congruence|].
  destruct L as [|l2 t].
  - simpl. rewrite <- (app_nil_r nl) at 1.
    rewrite (splitlines_nl nl l [] Hnl Hl). reflexivity.
  - rewrite join_cons2, <- !app_assoc.
    rewrite (splitlines_nl nl l _ Hnl Hl). f_equal. apply IH. discriminate.
Qed.

(** Joined without a final newline, an empty last line is lost. *)
Lemma splitlines_join (nl : str) (L : list str) :
  is_newline nl ->
  Forall (fun l => no_linebreak l = true) L ->
  splitlines (join nl L) = drop_last_empty L.
Proof.
  intros Hnl HL. induction HL as [|l L Hl HL IH]; [reflexivity|].
  destruct L as [|l2 t].
  - simpl. now apply splitlines_line.
  - rewrite join_cons2, (splitlines_nl nl l _ Hnl Hl), IH. reflexivity.
Qed.

Lemma drop_last_empty_prefix (L : list str) (i : nat) (l : str) :
  nth_error (drop_last_empty L) i = Some l -> nth_error L i = Some l.
Proof.
  revert i. induction L as [|x L IH]; intros i; [trivial|].
  destruct L as [|y t].
  - simpl. destruct x; [destruct i; discriminate | trivial].
  - destruct i as [|i]; [trivial|]. apply IH.
Qed.

Lemma drop_last_empty_length (L : list str) :
  length (drop_last_empty L)
  = match rev L with
    | [] :: _ => length L - 1
    | _ => length L
    end.
Proof.
  induction L as [|x L IH]; [reflexivity|].
  destruct L as [|y t].
  - simpl. destruct x; reflexivity.
  - change (drop_last_empty (x :: y :: t)) with (x :: drop_last_empty (y :: t)).
    change (length (x :: drop_last_empty (y :: t)))
      with (S (length (drop_last_empty (y :: t)))).
    rewrite IH. change (rev (x :: y :: t)) with (rev (y :: t) ++ [x]).
    destruct (rev (y :: t)) as [|z u] eqn:E.
    + apply (f_equal (@length str)) in E. rewrite length_rev in E. discriminate.
    + simpl. destruct z; simpl; lia.
Qed.

(** ** Characters of the emitted lines

    Every character of an emitted line is a character of the original
    line, a space or a pipe; a property of characters that holds of
    the original, of the space and of the pipe holds of the emitted
    line. *)

Lemma forallb_incl (ok : char -> bool) (a b : str) :
  incl a b -> forallb ok b = true -> forallb ok a = true.
Proof.
  intros I H. rewrite forallb_forall in *. intros x Hx. apply H, I, Hx.
Qed.

Lemma incl_takewhile (p : char -> bool) (s : str) : incl (takewhile p s) s.
Proof.
  intros x Hx. rewrite <- (take_drop_while p s). apply in_or_app. now left.
Qed.

Lemma incl_dropwhile (p : char -> bool) (s : str) : incl (dropwhile p s) s.
Proof.
  intros x Hx. rewrite <- (take_drop_while p s). apply in_or_app. now right.
Qed.

Lemma incl_rstrip_by (p : char -> bool) (s : str) : incl (rstrip_by p s) s.
Proof.
  intros x Hx. destruct (rstrip_by_split p s) as (w & E & _).
  rewrite E. apply in_or_app. now left.
Qed.

Lemma incl_strip_by (p : char -> bool) (s : str) : incl (strip_by p s) s.
Proof.
  unfold strip_by, lstrip_by. eapply incl_tran; [apply incl_rstrip_by|].
  apply incl_dropwhile.
Qed.

Lemma incl_firstn_str (n : nat) (s : str) : incl (firstn n s) s.
Proof.
  intros x Hx. rewrite <- (firstn_skipn n s). apply in_or_app. now left.
Qed.

Lemma incl_skipn_str (n : nat) (s : str) : incl (skipn n s) s.
Proof.
  intros x Hx. rewrite <- (firstn_skipn n s). apply in_or_app. now right.
Qed.

Lemma forallb_spaces (ok : char -> bool) (n : nat) :
  ok SP = true -> forallb ok (spaces n) = true.
Proof. intros H. induction n; simpl; [reflexivity | now rewrite H]. Qed.

Lemma forallb_detab (ok : char -> bool) (s : str) (tw : Z) :
  ok SP = true -> forallb ok s = true -> forallb ok (expand_tabs s tw) = true.
Proof.
  intros Hsp. unfold expand_tabs, replace_tab. induction s as [|c s IH]; simpl; [reflexivity|].
  intros H. apply andb_true_iff in H as [Hc Hs].
  rewrite forallb_app, (IH Hs), andb_true_r.
  destruct (ch_eqb c TAB); [now apply forallb_spaces | simpl; now rewrite Hc].
Qed.

Lemma detab_no_tab (s : str) (tw : Z) : forallb not_tab (expand_tabs s tw) = true.
Proof.
  unfold expand_tabs, replace_tab. induction s as [|c s IH]; simpl; [reflexivity|].
  rewrite forallb_app, IH, andb_true_r.
  destruct (ch_eqb c TAB) eqn:E; [now apply forallb_spaces|].
  simpl. unfold not_tab. now rewrite E.
Qed.

Lemma detab_fix (s : str) (tw : Z) : forallb not_tab s = true -> expand_tabs s tw = s.
Proof.
  unfold expand_tabs, replace_tab. induction s as [|c s IH]; simpl; [reflexivity|].
  intros H. apply andb_true_iff in H as [Hc Hs]. unfold not_tab in Hc.
  apply negb_true_iff in Hc. rewrite Hc. simpl. now rewrite IH.
Qed.

Lemma split_ikr_incl {U : UnicodeData} (s indent0 key0 rest0 : str) :
  split_indent_key_rest s = Some (indent0, key0, rest0) ->
  incl indent0 s /\ incl key0 s /\ incl rest0 s.
Proof.
  unfold split_indent_key_rest.
  destruct (dropwhile isspace s) as [|c t] eqn:E; [discriminate|].
  assert (I : incl (c :: t) s) by (rewrite <- E; apply incl_dropwhile).
  intros H. injection H as <- <- <-. repeat split.
  - apply incl_takewhile.
  - eapply incl_tran; [apply (incl_takewhile not_space (c :: t)) | exact I].
  - destruct (str_eqb _ _).
    + eapply incl_tran; [apply (incl_dropwhile not_space (c :: t)) | exact I].
    + eapply incl_tran; [apply incl_dropwhile|].
      eapply incl_tran; [apply (incl_dropwhile not_space (c :: t)) | exact I].
Qed.

Lemma forallb_two_quoted (ok : char -> bool) (s q1 q2 tail : str) :
  split_two_quoted s = Some (q1, q2, tail) ->
  forallb ok s = true ->
  forallb ok q1 = true /\ forallb ok q2 = true /\ forallb ok tail = true.
Proof.
  unfold split_two_quoted. intros H Hs.
  destruct (dropwhile isspace s) as [|c s1] eqn:E1; [discriminate|].
  destruct (negb (ch_eqb c DQ)) eqn:Ec; [discriminate|].
  apply negb_false_iff, ch_eqb_eq in Ec. subst c.
  destruct (dropwhile not_dq s1) as [|c2 s2] eqn:E2; [discriminate|].
  destruct (dropwhile isspace s2) as [|c3 s3] eqn:E3; [discriminate|].
  destruct (negb (ch_eqb c3 DQ)) eqn:Ec3; [discriminate|].
  apply negb_false_iff, ch_eqb_eq in Ec3. subst c3.
  destruct (dropwhile not_dq s3) as [|c4 tail0] eqn:E4; [discriminate|].
  injection H as <- <- <-.
  assert (H1 : forallb ok (DQ :: s1) = true).
  { rewrite <- E1. eapply forallb_incl; [apply incl_dropwhile | assumption]. }
  simpl in H1. apply andb_true_iff in H1 as [Hdq H1].
  assert (H2 : forallb ok s2 = true).
  { eapply forallb_incl; [|exact H1]. intros x Hx.
    apply (incl_dropwhile not_dq s1). rewrite E2. now right. }
  assert (H3 : forallb ok s3 = true).
  { eapply forallb_incl; [|exact H2]. intros x Hx.
    apply (incl_dropwhile isspace s2). rewrite E3. now right. }
  assert (H4 : forallb ok tail0 = true).
  { eapply forallb_incl; [|exact H3]. intros x Hx.
    apply (incl_dropwhile not_dq s3). rewrite E4. now right. }
  repeat split; simpl; rewrite ?Hdq, ?forallb_app; simpl; rewrite ?Hdq; auto.
  - rewrite andb_true_r. eapply forallb_incl; [apply incl_takewhile | exact H1].
  - rewrite andb_true_r. eapply forallb_incl; [apply incl_takewhile | exact H3].
Qed.

Lemma split_on_incl (c : char) (s f : str) :
  In f (split_on c s) -> incl f s.
Proof.
  revert f. induction s as [|x s IH]; simpl; intros f.
  - intros [<- | []]. apply incl_refl.
  - destruct (ch_eqb x c).
    + intros [<- | H]; [intros y [] | apply incl_tl; now apply IH].
    + destruct (split_on c s) as [|g gs] eqn:E.
      * intros [<- | []]. intros y [<- | []]. now left.
      * intros [<- | H].
        -- intros y [<- | Hy]; [now left | right]. apply (IH g); [now left | exact Hy].
        -- apply incl_tl. apply IH. now right.
Qed.

Lemma forallb_join (ok : char -> bool) (sep : str) (L : list str) :
  forallb ok sep = true ->
  (forall l, In l L -> forallb ok l = true) ->
  forallb ok (join sep L) = true.
Proof.
  intros Hsep. induction L as [|l L IH]; intros H; [reflexivity|].
  destruct L as [|l2 t]; [apply H; now left|].
  rewrite join_cons2, !forallb_app, Hsep, (H l (or_introl eq_refl)). simpl.
  apply IH. intros x Hx. apply H. now right.
Qed.

(** ** Tokenization *)

(** The shape of a tokenized code part: indent, key, a gap of
    whitespace that is empty for [echo], and the rest. *)
Lemma split_ikr_shape {U : UnicodeData} (s indent0 key0 rest0 : str) :
  split_indent_key_rest s = Some (indent0, key0, rest0) ->
  exists gap,
    s = indent0 ++ key0 ++ gap ++ rest0 /\
    forallb isspace indent0 = true /\
    key0 <> [] /\ forallb not_space key0 = true /\
    forallb isspace gap = true /\
    (str_eqb (lower key0) echo_s = true -> gap = []) /\
    (str_eqb (lower key0) echo_s = false ->
       dropwhile isspace rest0 = rest0 /\ (gap = [] -> rest0 = [])) /\
    (forall c t, gap ++ rest0 = c :: t -> isspace c = true).
Proof.
  unfold split_indent_key_rest.
  destruct (dropwhile isspace s) as [|c t] eqn:E; [discriminate|].
  pose proof (dropwhile_head isspace s c t E) as Hc.
  assert (Hk : takewhile not_space (c :: t) <> []).
  { simpl. unfold not_space at 1. rewrite Hc. simpl. discriminate. }
  assert (Hs : s = takewhile isspace s ++ takewhile not_space (c :: t)
                   ++ dropwhile not_space (c :: t)).
  { rewrite (take_drop_while not_space (c :: t)). rewrite <- E.
    now rewrite take_drop_while. }
  assert (Hraw : forall c' t', dropwhile not_space (c :: t) = c' :: t' ->
                               isspace c' = true).
  { intros c' t' H. apply dropwhile_head in H. unfold not_space in H.
    now apply negb_false_iff in H. }
  pose proof (takewhile_all not_space (c :: t)) as Hns.
  revert Hk Hs Hraw Hns.
  generalize (takewhile not_space (c :: t)) as k.
  generalize (dropwhile not_space (c :: t)) as rr.
  intros rr k Hk Hs Hraw Hns H.
  destruct (str_eqb (lower k) echo_s) eqn:Ee; injection H as <- <- <-.
  - exists [].
    split; [exact Hs|]. split; [apply takewhile_all|]. split; [exact Hk|].
    split; [exact Hns|]. split; [reflexivity|].
    split; [reflexivity|]. split; [rewrite Ee; discriminate|]. exact Hraw.
  - exists (takewhile isspace rr).
    rewrite (take_drop_while isspace rr).
    split; [exact Hs|]. split; [apply takewhile_all|]. split; [exact Hk|].
    split; [exact Hns|]. split; [apply takewhile_all|].
    split; [rewrite Ee; discriminate|]. split; [|exact Hraw].
    intros _. split; [apply dropwhile_idem|].
    intros G. destruct rr as [|c' t'] eqn:Er; [reflexivity|].
    simpl in G. rewrite (Hraw c' t' eq_refl) in G. discriminate.
Qed.

(** What the pre-parse loop knows of a line it classifies as a
    command. *)
Lemma parse_line_cmd {U : UnicodeData} (o : FormatOptions) (i : nat) (l : str) :
  kind (parse_line o i l) = Kcmd ->
  let r := parse_line o i l in
  let line0 := rstrip_ws (expand_tabs l (tab_width o)) in
  exists code_part,
    orig r = l /\ line r = line0 /\ lineno r = i /\
    key_lower r = lower (key r) /\
    split_indent_key_rest code_part = Some (indent r, key r, rest r) /\
    (str_eqb (align_mode o) (lit "block") && is_block_boundary_B line0 = false) /\
    startswith (lit "//") (lstrip line0) = false /\
    str_eqb (strip line0) [] = false /\
    ((find_comment_pos_outside_quotes line0 = None /\
      code_part = line0 /\ comment r = []) \/
     (exists cpos, find_comment_pos_outside_quotes line0 = Some cpos /\
        code_part = rstrip_ws (firstn cpos line0) /\
        comment r = skipn cpos line0)).
Proof.
  unfold parse_line, record_of.
  destruct (str_eqb (align_mode o) (lit "block") && is_block_boundary_B _) eqn:B;
    [discriminate|].
  destruct (startswith (lit "//") _) eqn:P; [discriminate|].
  destruct (str_eqb (strip _) []) eqn:S; [discriminate|].
  destruct (find_comment_pos_outside_quotes _) as [cpos|] eqn:F.
  - destruct (split_indent_key_rest _) as [[[i0 k0] r0]|] eqn:T; [|discriminate].
    intros _. simpl. exists (rstrip_ws (firstn cpos (rstrip_ws (expand_tabs l (tab_width o))))).
    repeat split; auto. right. exists cpos. auto.
  - destruct (split_indent_key_rest _) as [[[i0 k0] r0]|] eqn:T; [|discriminate].
    intros _. simpl. exists (rstrip_ws (expand_tabs l (tab_width o))).
    repeat split; auto.
Qed.

Lemma parse_line_other {U : UnicodeData} (o : FormatOptions) (i : nat) (l : str) :
  kind (parse_line o i l) <> Kcmd ->
  parse_line o i l
  = mk_rec (kind (parse_line o i l)) l (rstrip_ws (expand_tabs l (tab_width o))) i
      [] [] [] [] [].
Proof.
  unfold parse_line, record_of.
  repeat match goal with
         | |- context [if ?b then _ else _] => destruct b
         | |- context [match ?x with Some _ => _ | None => _ end] => destruct x
         | |- context [let '(_, _) := ?x in _] => destruct x
         end; simpl; congruence.
Qed.

(** The comment found in a line starts with the marker. *)
Lemma find_comment_from_marker (s : str) (i : nat) (q : bool) (cpos : nat) :
  find_comment_from s i q = Some cpos ->
  i <= cpos /\ exists t, skipn (cpos - i) s = SLASH :: SLASH :: t.
Proof.
  revert i q. induction s as [|ch tl IH]; intros i q; simpl; [discriminate|].
  destruct tl as [|c2 tl2]; [discriminate|].
  destruct (ch_eqb ch DQ) eqn:Edq.
  - intros H. destruct (IH _ _ H) as (Hle & t & Ht). split; [lia|].
    exists t. replace (cpos - i) with (S (cpos - S i)) by lia. exact Ht.
  - destruct (negb q && ch_eqb ch SLASH && ch_eqb c2 SLASH) eqn:Ec.
    + intros H. injection H as <-. split; [lia|].
      apply andb_true_iff in Ec as [Ec E2]. apply andb_true_iff in Ec as [_ E1].
      apply ch_eqb_eq in E1, E2. subst. exists tl2.
      now rewrite Nat.sub_diag.
    + intros H. destruct (IH _ _ H) as (Hle & t & Ht). split; [lia|].
      exists t. replace (cpos - i) with (S (cpos - S i)) by lia. exact Ht.
Qed.

(** ** Characters of the rendered lines *)

Section RenderChars.

Context {U : UnicodeData}.

Variable ok : char -> bool.
Hypothesis ok_sp : ok SP = true.
Hypothesis ok_pipe : ok PIPE = true.

Lemma parse_line_chars (o : FormatOptions) (i : nat) (l : str) :
  forallb ok l = true ->
  let r := parse_line o i l in
  forallb ok (line r) = true /\ forallb ok (indent r) = true /\
  forallb ok (key r) = true /\ forallb ok (rest r) = true /\
  forallb ok (comment r) = true.
Proof.
  intros Hl r.
  assert (H0 : forallb ok (rstrip_ws (expand_tabs l (tab_width o))) = true).
  { eapply forallb_incl; [apply incl_rstrip_by|]. now apply forallb_detab. }
  destruct (kind r) eqn:K.
  1,2: unfold r in *; rewrite parse_line_other by congruence; simpl; auto.
  destruct (parse_line_cmd o i l K) as (cp & _ & Hline & _ & _ & Hs & _ & _ & _ & Hc).
  fold r in Hline, Hs, Hc. rewrite Hline. split; [exact H0|].
  destruct (split_ikr_incl _ _ _ _ Hs) as (I1 & I2 & I3).
  assert (Hcp : forallb ok cp = true).
  { destruct Hc as [(_ & -> & _) | (cpos & _ & -> & _)]; [exact H0|].
    eapply forallb_incl; [apply incl_rstrip_by|].
    eapply forallb_incl; [apply incl_firstn_str | exact H0]. }
  repeat split; try (eapply forallb_incl; [eassumption | exact Hcp]).
  destruct Hc as [(_ & _ & ->) | (cpos & _ & _ & ->)]; [reflexivity|].
  eapply forallb_incl; [apply incl_skipn_str | exact H0].
Qed.

Lemma pad_fields_chars (widths : list nat) (i : nat) (fields : list str) :
  (forall f, In f fields -> forallb ok f = true) ->
  forall f, In f (pad_fields widths i fields) -> forallb ok f = true.
Proof.
  revert i. induction fields as [|g fields IH]; intros i H f; simpl; [intros []|].
  intros [<- | Hin].
  - rewrite forallb_app, (H g (or_introl eq_refl)). now apply forallb_spaces.
  - apply (IH (S i)); [|exact Hin]. intros x Hx. apply H. now right.
Qed.

Lemma echo_fields_chars (r : rec) :
  forallb ok (rest r) = true ->
  forall f, In f (echo_fields r) -> forallb ok f = true.
Proof.
  intros Hr f Hf. unfold echo_fields in Hf. apply in_map_iff in Hf as (g & <- & Hg).
  eapply forallb_incl; [apply incl_strip_by|].
  eapply forallb_incl; [apply (split_on_incl _ _ _ Hg)|].
  destruct (echo_lead r || echo_trail r).
  - eapply forallb_incl; [apply incl_strip_by|].
    eapply forallb_incl; [apply incl_strip_by | exact Hr].
  - eapply forallb_incl; [apply incl_strip_by | exact Hr].
Qed.

Lemma echo_body_fmt_chars (widths : list nat) (r : rec) :
  forallb ok (rest r) = true -> forallb ok (echo_body_fmt widths r) = true.
Proof.
  intros Hr. unfold echo_body_fmt.
  assert (Hsep : forallb ok sep_pipe = true).
  { unfold sep_pipe. simpl. fold SP. fold PIPE. now rewrite ok_sp, ok_pipe. }
  pose proof (echo_fields_chars r Hr) as Hf.
  destruct (echo_lead r || echo_trail r).
  - rewrite !forallb_app. repeat (apply andb_true_iff; split).
    + destruct (echo_lead r); [|reflexivity]. simpl. fold SP. fold PIPE.
      now rewrite ok_sp, ok_pipe.
    + eapply forallb_incl; [apply incl_strip_by|]. now apply forallb_join.
    + destruct (echo_trail r); [|reflexivity]. simpl. fold SP. fold PIPE.
      now rewrite ok_sp, ok_pipe.
  - eapply forallb_incl; [apply incl_rstrip_by|]. apply forallb_join; [exact Hsep|].
    now apply pad_fields_chars.
Qed.

Lemma code_fmt_chars (special : list str) (et : bool) (vcol scol : Z)
  (widths : list nat) (r : rec) (c : str) :
  forallb ok (indent r) = true -> forallb ok (key r) = true ->
  forallb ok (rest r) = true ->
  code_fmt special et vcol scol widths r = Some c -> forallb ok c = true.
Proof.
  intros Hi Hk Hr. unfold code_fmt.
  destruct (negb (kind_eqb (kind r) Kcmd)); [discriminate|].
  destruct (str_eqb (key_lower r) echo_s).
  - destruct (is_echo_table_candidate et r && negb (length widths =? 0)).
    + intros H. injection H as <-. rewrite !forallb_app, Hi, Hk. simpl.
      rewrite ok_sp. simpl. now apply echo_body_fmt_chars.
    + destruct (str_eqb (rest r) []); intros H; injection H as <-;
        rewrite !forallb_app, Hi, Hk; [reflexivity | exact Hr].
  - destruct (str_eqb (rest r) []).
    + intros H. injection H as <-. now rewrite forallb_app, Hi, Hk.
    + destruct (if mem_str (key_lower r) special then split_two_quoted (rest r)
                else None) as [[[q1 q2] tail]|] eqn:T.
      * assert (T' : split_two_quoted (rest r) = Some (q1, q2, tail)).
        { destruct (mem_str (key_lower r) special); [exact T | discriminate]. }
        destruct (forallb_two_quoted ok _ _ _ _ T' Hr) as (H1 & H2 & H3).
        intros H. injection H as <-.
        rewrite !forallb_app, Hi, Hk, H1, H2, H3. unfold spaces_z.
        now rewrite !forallb_spaces.
      * intros H. injection H as <-.
        rewrite !forallb_app, Hi, Hk, Hr. unfold spaces_z.
        now rewrite !forallb_spaces.
Qed.

Lemma place_comment_chars (target : option Z) (r : rec) (c : str) :
  forallb ok c = true -> forallb ok (comment r) = true ->
  forallb ok (place_comment target r c) = true.
Proof.
  intros Hc Hm. unfold place_comment, spaces_z.
  destruct (str_nonempty (comment r)); [|exact Hc].
  destruct target as [t|]; [destruct (zlen c <=? t)%Z|];
    rewrite !forallb_app, Hc, Hm, ?forallb_spaces; simpl; rewrite ?ok_sp; auto.
Qed.

(** The emitted line of a parsed record is made of characters of the
    original line, spaces and pipes. *)
Lemma emit_with_chars (o : FormatOptions) (P : params) (i : nat) (l : str) :
  forallb ok l = true ->
  forallb ok (emit_with o P (parse_line o i l)) = true.
Proof.
  intros Hl.
  destruct (parse_line_chars o i l Hl) as (H1 & H2 & H3 & H4 & H5).
  unfold emit_with.
  destruct (failed_with o P (parse_line o i l)).
  - destruct (parse_line_wf o i l) as (_ & -> & _).
    eapply forallb_incl; [apply incl_rstrip_by|]. now apply forallb_detab.
  - unfold render_with, cf_with.
    destruct (code_fmt _ _ _ _ _ _) as [c|] eqn:E; [|exact H1].
    eapply forallb_incl; [apply incl_rstrip_by|]. apply forallb_detab; [exact ok_sp|].
    apply place_comment_chars; [|exact H5].
    exact (code_fmt_chars _ _ _ _ _ _ _ H2 H3 H4 E).
Qed.

End RenderChars.

(** ** Lines of the result, by position *)

Section Positions.

Context {U : UnicodeData}.

Lemma segs_concat (recs : list rec) :
  fst (segs recs) ++ flat_map (fun bs => fst bs :: snd bs) (snd (segs recs))
  = recs.
Proof.
  induction recs as [|r recs IH]; simpl; [reflexivity|].
  destruct (segs recs) as [s more]. simpl in IH.
  destruct (is_boundary r); simpl; now rewrite IH.
Qed.

Lemma chunked_fst (o : FormatOptions) (recs : list rec) :
  map fst (chunked o recs) = recs.
Proof.
  unfold chunked. destruct (str_eqb _ _).
  - rewrite map_map. simpl. apply map_id.
  - rewrite <- (segs_concat recs) at 2. destruct (segs recs) as [s more]. simpl.
    rewrite map_app, map_map. simpl. rewrite map_id. f_equal.
    induction more as [|[b s'] more IH]; simpl; [reflexivity|].
    rewrite map_app, map_map. simpl. rewrite map_id, IH. reflexivity.
Qed.

(** The record at a position of the chunked list is the parsed line at
    that position. *)
Lemma chunked_nth (o : FormatOptions) (ls : list str) (i : nat)
  (p : rec * list rec) :
  nth_error (chunked o (parse_lines o 1 ls)) i = Some p ->
  exists l, nth_error ls i = Some l /\ fst p = parse_line o (S i) l.
Proof.
  intros H.
  assert (H1 : nth_error (parse_lines o 1 ls) i = Some (fst p)).
  { rewrite <- (chunked_fst o (parse_lines o 1 ls)), nth_error_map, H.
    reflexivity. }
  exact (parse_lines_nth o ls 1 i (fst p) H1).
Qed.

Lemma chunked_length (o : FormatOptions) (recs : list rec) :
  length (chunked o recs) = length recs.
Proof. rewrite <- (chunked_fst o recs) at 2. now rewrite length_map. Qed.

Lemma out_lines_length (o : FormatOptions) (ls : list str) :
  length (out_lines_of o (parse_lines o 1 ls)) = length ls.
Proof.
  unfold out_lines_of. now rewrite length_map, chunked_length, parse_lines_length.
Qed.

Lemma out_lines_nth (o : FormatOptions) (ls : list str) (i : nat) (e : str) :
  nth_error (out_lines_of o (parse_lines o 1 ls)) i = Some e ->
  exists l C,
    nth_error ls i = Some l /\
    nth_error (chunked o (parse_lines o 1 ls)) i = Some (parse_line o (S i) l, C) /\
    e = emit o C (parse_line o (S i) l).
Proof.
  unfold out_lines_of. rewrite nth_error_map.
  destruct (nth_error (chunked o (parse_lines o 1 ls)) i) as [[r C]|] eqn:E;
    [|discriminate].
  intros H. injection H as <-.
  destruct (chunked_nth o ls i (r, C) E) as (l & Hl & Hr). simpl in Hr. subst r.
  exists l, C. auto.
Qed.

(** A line number is in the failure list exactly when the guard
    rejected the rendering of that line. *)
Lemma fails_of_iff (o : FormatOptions) (ls : list str) (i : nat) :
  In (S i) (fails_of o (parse_lines o 1 ls))
  <-> exists r C, nth_error (chunked o (parse_lines o 1 ls)) i = Some (r, C)
                  /\ failed o C r = true.
Proof.
  unfold fails_of. rewrite in_map_iff. split.
  - intros ([r C] & Hn & Hin). apply filter_In in Hin as [Hin Hf]. simpl in *.
    apply In_nth_error in Hin as [j Hj].
    destruct (chunked_nth o ls j (r, C) Hj) as (l & _ & Hr). simpl in Hr.
    assert (j = i).
    { subst r. destruct (parse_line_wf o (S j) l) as (_ & _ & Hno).
      rewrite Hno in Hn. congruence. }
    subst j. exists r, C. auto.
  - intros (r & C & Hn & Hf). exists (r, C). split.
    + destruct (chunked_nth o ls i (r, C) Hn) as (l & _ & Hr). simpl in *.
      subst r. apply parse_line_wf.
    + apply filter_In. split; [eapply nth_error_In; eassumption | exact Hf].
Qed.

Lemma fails_of_ge1 (o : FormatOptions) (ls : list str) (n : nat) :
  In n (fails_of o (parse_lines o 1 ls)) -> 1 <= n.
Proof.
  unfold fails_of. rewrite in_map_iff.
  intros ([r C] & Hn & Hin). apply filter_In in Hin as [Hin _]. simpl in *.
  apply In_nth_error in Hin as [j Hj].
  destruct (chunked_nth o ls j (r, C) Hj) as (l & _ & Hr). simpl in Hr.
  subst r. destruct (parse_line_wf o (S j) l) as (_ & _ & Hno). lia.
Qed.

(** The guard at work: the emitted line has the signature of the
    original, and is the normalised original where the guard failed. *)
Lemma emit_with_sig (o : FormatOptions) (P : params) (r : rec) :
  sig_no_ws (emit_with o P r) = sig_no_ws (orig r).
Proof.
  unfold emit_with, failed_with.
  destruct (str_eqb _ _) eqn:E; simpl.
  - apply str_eqb_eq in E. now rewrite E.
  - apply sig_no_ws_normalize.
Qed.

Lemma emit_with_failed (o : FormatOptions) (P : params) (r : rec) :
  failed_with o P r = true ->
  emit_with o P r = rstrip_ws (expand_tabs (orig r) (tab_width o)).
Proof. unfold emit_with. now intros ->. Qed.

Lemma emit_with_stripped (o : FormatOptions) (P : params) (r : rec) :
  wf_rec o r -> rstrip_ws (emit_with o P r) = emit_with o P r.
Proof.
  intros W. unfold emit_with. destruct (failed_with o P r).
  - apply rstrip_by_idem.
  - unfold render_with. destruct (cf_with _ _ _ _ _).
    + apply rstrip_by_idem.
    + rewrite W. apply rstrip_by_idem.
Qed.

Lemma sig_nil_all_ws (s : str) : sig_no_ws s = [] <-> forallb is_ws s = true.
Proof.
  induction s as [|c s IH]; simpl; [tauto|].
  destruct (is_ws c); simpl; [exact IH|]. split; discriminate.
Qed.

Lemma rstrip_ws_all (s : str) : forallb is_ws s = true -> rstrip_ws s = [].
Proof.
  intros H. unfold rstrip_ws. rewrite <- (app_nil_l s).
  rewrite rstrip_by_app_all by assumption. reflexivity.
Qed.

(** An emitted line is empty exactly when the original line is blank. *)
Lemma emit_with_nil (o : FormatOptions) (P : params) (r : rec) :
  wf_rec o r ->
  emit_with o P r = [] <-> forallb is_ws (orig r) = true.
Proof.
  intros W. rewrite <- sig_nil_all_ws, <- (emit_with_sig o P r). split.
  - now intros ->.
  - intros H. rewrite <- (emit_with_stripped o P r W).
    apply rstrip_ws_all. now apply sig_nil_all_ws.
Qed.

Lemma out_lines_no_linebreak (o : FormatOptions) (ls : list str) :
  Forall (fun l => no_linebreak l = true) ls ->
  Forall (fun l => no_linebreak l = true) (out_lines_of o (parse_lines o 1 ls)).
Proof.
  intros H. apply Forall_forall. intros e He.
  apply In_nth_error in He as [i Hi].
  destruct (out_lines_nth o ls i e Hi) as (l & C & Hl & _ & ->).
  apply (emit_with_chars (fun c => negb (is_linebreak c))); try reflexivity.
  rewrite Forall_forall in H. apply H. eapply nth_error_In; eassumption.
Qed.

Lemma splitlines_nil (s : str) : splitlines s = [] -> s = [].
Proof.
  destruct s as [|c tl]; [reflexivity|]. simpl.
  destruct (is_linebreak c); [discriminate|].
  destruct (splitlines tl); discriminate.
Qed.

(** The lines of the assembled text. *)
Lemma splitlines_text_of (raw : str) (outs : list str) :
  length outs = length (splitlines raw) ->
  Forall (fun l => no_linebreak l = true) outs ->
  splitlines (text_of raw outs)
  = if keep_final_newline raw then outs else drop_last_empty outs.
Proof.
  intros L H. unfold text_of.
  destruct (keep_final_newline raw) eqn:K.
  - apply splitlines_join_final; [apply newline_of_is_newline | | exact H].
    intros ->. simpl in L. symmetry in L. apply length_zero_iff_nil in L.
    apply splitlines_nil in L. subst raw. discriminate.
  - rewrite app_nil_r. apply splitlines_join; [apply newline_of_is_newline | exact H].
Qed.

Lemma format_text_lines (raw : str) (o : FormatOptions) (res : FormatResult) :
  format_text raw o = Ok res ->
  let outs := out_lines_of o (parse_lines o 1 (splitlines raw)) in
  out_text res = text_of raw outs /\
  sig_fail_lines res = fails_of o (parse_lines o 1 (splitlines raw)) /\
  splitlines (out_text res)
  = (if keep_final_newline raw then outs else drop_last_empty outs).
Proof.
  intros H. apply format_text_returns in H as [H _]. revert H.
  unfold formatted. destruct (mode_ok o); [|discriminate].
  intros H. injection H as <-. simpl. repeat split.
  apply splitlines_text_of.
  - apply out_lines_length.
  - apply out_lines_no_linebreak, splitlines_no_linebreak.
Qed.

Lemma out_text_nth (raw : str) (o : FormatOptions) (res : FormatResult)
  (i : nat) (lo : str) :
  format_text raw o = Ok res ->
  nth_error (splitlines (out_text res)) i = Some lo ->
  nth_error (out_lines_of o (parse_lines o 1 (splitlines raw))) i = Some lo.
Proof.
  intros H. destruct (format_text_lines raw o res H) as (_ & _ & ->).
  destruct (keep_final_newline raw); [trivial | apply drop_last_empty_prefix].
Qed.

End Positions.

(* ================================================================== *)
(** * The claims *)

Section Claims.

Context {U : UnicodeData}.

Lemma signature_app (a b : str) : signature (a ++ b) = signature a ++ signature b.
Proof. apply filter_app. Qed.

Lemma signature_all (w : str) : forallb isspace w = true -> signature w = [].
Proof.
  induction w as [|c w IH]; simpl; [reflexivity|].
  intros H. apply andb_true_iff in H as [-> H]. simpl. now apply IH.
Qed.

Lemma forallb_ws_isspace (w : str) :
  forallb is_ws w = true -> forallb isspace w = true.
Proof.
  rewrite !forallb_forall. intros H x Hx. apply is_ws_isspace, H, Hx.
Qed.

(** C5 (as amended): the normalised line of a command record is its
    four tokens with two gaps between them: whitespace between key and
    rest (none for echo), spaces in front of the comment.  Tokenization
    drops these gaps and nothing else, so tokens and line agree on
    their non-whitespace characters. *)
Theorem tokens_cover_line (o : FormatOptions) (i : nat) (l : str) :
  kind (parse_line o i l) = Kcmd ->
  let r := parse_line o i l in
  line r = rstrip_ws (expand_tabs l (tab_width o)) /\
  exists gap1 gap2,
    line r = indent r ++ key r ++ gap1 ++ rest r ++ gap2 ++ comment r /\
    forallb isspace gap1 = true /\ forallb is_ws gap2 = true /\
    (key_lower r = echo_s -> gap1 = []) /\
    (comment r = [] -> gap2 = []) /\
    signature (line r) = signature (indent r ++ key r ++ rest r ++ comment r).
Proof.
  intros K r.
  destruct (parse_line_cmd o i l K)
    as (cp & Ho & Hl & _ & Hkl & Hs & _ & _ & _ & Hc).
  fold r in Ho, Hl, Hkl, Hs, Hc. split; [exact Hl|].
  destruct (split_ikr_shape _ _ _ _ Hs)
    as (gap & Ecp & Hi & Hk & Hns & Hg & He & _ & _).
  assert (Hsig : forall gap2, forallb is_ws gap2 = true ->
            signature (indent r ++ key r ++ gap ++ rest r ++ gap2 ++ comment r)
            = signature (indent r ++ key r ++ rest r ++ comment r)).
  { intros gap2 H2. rewrite !signature_app, (signature_all gap Hg).
    rewrite (signature_all gap2 (forallb_ws_isspace _ H2)). reflexivity. }
  destruct Hc as [(_ & E1 & E2) | (cpos & Hf & E1 & E2)].
  - exists gap, []. rewrite E2, !app_nil_r.
    assert (E : line r = indent r ++ key r ++ gap ++ rest r).
    { rewrite Hl, <- E1. exact Ecp. }
    split; [exact E|]. split; [exact Hg|]. split; [reflexivity|].
    split; [|split; [reflexivity|]].
    + intros Hkey. apply He. rewrite <- Hkl, Hkey. apply str_eqb_refl.
    + rewrite E. specialize (Hsig [] eq_refl). rewrite E2 in Hsig.
      simpl in Hsig. rewrite !app_nil_r in Hsig. exact Hsig.
  - destruct (rstrip_by_split is_ws (firstn cpos (rstrip_ws (expand_tabs l (tab_width o)))))
      as (w & Ew & Hw).
    fold (rstrip_ws (firstn cpos (rstrip_ws (expand_tabs l (tab_width o))))) in Ew.
    rewrite <- E1, Ecp in Ew.
    assert (E : line r = indent r ++ key r ++ gap ++ rest r ++ w ++ comment r).
    { rewrite Hl, <- (firstn_skipn cpos (rstrip_ws (expand_tabs l (tab_width o)))).
      rewrite Ew, <- E2, <- !app_assoc. reflexivity. }
    exists gap, w. split; [exact E|]. split; [exact Hg|]. split; [exact Hw|].
    split; [|split].
    + intros Hkey. apply He. rewrite <- Hkl, Hkey. apply str_eqb_refl.
    + intros Hcm. exfalso.
      destruct (find_comment_from_marker _ _ _ _ Hf) as (_ & t & Ht).
      rewrite Nat.sub_0_r, <- E2, Hcm in Ht. discriminate.
    + rewrite E. apply Hsig, Hw.
Qed.

Lemma lower_nil (s : str) : lower s = [] <-> s = [].
Proof. split; [apply lower_nonempty | intros ->; apply lower_empty]. Qed.

Lemma contains_char_In (c : char) (s : str) :
  contains_char c s = true <-> In c s.
Proof.
  unfold contains_char. rewrite existsb_exists. split.
  - intros (x & Hx & E). apply ch_eqb_eq in E. now subst.
  - intros H. exists c. split; [assumption | apply ch_eqb_refl].
Qed.

Lemma is_separator_comment_line_iff (l : str) :
  is_separator_comment_line l = true <-> banner_spec l.
Proof.
  unfold is_separator_comment_line, banner_spec.
  destruct (startswith (lit "//") (lstrip l)); cbn [negb].
  2:{ split; [intros H; discriminate H | intros [H _]; discriminate H]. }
  set (body := lstrip (skipn 2 (lstrip l))). cbv zeta.
  destruct (startswith [PLUS] body); cbn [negb].
  2:{ split; [intros H; discriminate H | intros (_ & H & _); discriminate H]. }
  destruct (contains_char STAR body) eqn:S.
  - apply contains_char_In in S. split; auto.
  - assert (NS : ~ In STAR body).
    { intros H. apply contains_char_In in H. congruence. }
    rewrite andb_true_iff, Nat.leb_le, Nat.leb_le. split.
    + intros [H1 H2]. repeat split; auto. right. split; lia.
    + intros (_ & _ & [H | [H1 H2]]); [contradiction|]. split; lia.
Qed.

(** C6 (as amended): the boundary predicate of the block mode holds
    exactly of the lines that are empty once surrounding whitespace is
    stripped, of the lines that read "echo;" up to case and surrounding
    whitespace, and of the decorative comment banners. *)
Theorem is_block_boundary_B_iff (l : str) :
  is_block_boundary_B l = true <-> boundary_spec l.
Proof.
  unfold is_block_boundary_B, boundary_spec. cbv zeta.
  destruct (str_eqb (lower (strip l)) []) eqn:E1.
  - apply str_eqb_eq in E1. apply (proj1 (lower_nil _)) in E1. split; auto.
  - apply str_eqb_neq in E1.
    assert (N1 : strip l <> []).
    { intros H. apply E1. rewrite H. apply lower_empty. }
    destruct (str_eqb (lower (strip l)) (lit "echo;")) eqn:E2.
    + apply str_eqb_eq in E2. split; auto.
    + apply str_eqb_neq in E2.
      destruct (is_separator_comment_line l) eqn:E3.
      * apply is_separator_comment_line_iff in E3. split; auto.
      * split; [discriminate|].
        intros [H | [H | H]]; try contradiction.
        apply is_separator_comment_line_iff in H. congruence.
Qed.


Lemma splitlines_cases (raw : str) :
  splitlines raw = [] \/ splitlines raw <> [].
Proof. destruct (splitlines raw); [now left | right; discriminate]. Qed.


Lemma parse_lines_options (o o' : FormatOptions) (i : nat) (ls : list str) :
  align_mode o = align_mode o' -> tab_width o = tab_width o' ->
  parse_lines o i ls = parse_lines o' i ls.
Proof.
  intros Hm Ht. revert i. induction ls as [|l ls IH]; intros i; simpl;
    [reflexivity|].
  rewrite IH. f_equal. unfold parse_line, record_of. now rewrite Hm, Ht.
Qed.

(** C9: an options value whose [special_align_keys] is [None] or the
    empty set formats every text as the options with the default set
    {"bind", "alias"} do. *)
Theorem special_keys_falsy_default (raw : str) (o : FormatOptions) :
  special_align_keys o = None \/ special_align_keys o = Some [] ->
  special_keys_of o = SPECIAL_ALIGN_KEYS_DEFAULT /\
  format_text raw o
  = format_text raw (with_special o (Some SPECIAL_ALIGN_KEYS_DEFAULT)).
Proof.
  intros H. rewrite !format_text_spec. unfold formatted.
  rewrite (parse_lines_options (with_special o (Some SPECIAL_ALIGN_KEYS_DEFAULT))
             o 1 (splitlines raw) eq_refl eq_refl).
  destruct o as [m t k c s e]. simpl in H.
  unfold with_special. simpl.
  destruct H as [-> | ->]; split; reflexivity.
Qed.

(** C1: every line of the output has the non-whitespace characters
    of the input line at the same position, and a line whose number
    is in [sig_fail_lines] is the tab-expanded, right-stripped copy
    of the input line. *)
Theorem signature_invariance (raw : str) (o : FormatOptions)
  (res : FormatResult) (i : nat) (lo : str) :
  format_text raw o = Ok res ->
  nth_error (splitlines (out_text res)) i = Some lo ->
  exists li,
    nth_error (splitlines raw) i = Some li /\
    (~ In (S i) (sig_fail_lines res) ->
       sig_no_ws lo = sig_no_ws li /\ signature lo = signature li) /\
    (In (S i) (sig_fail_lines res) ->
       lo = rstrip_ws (expand_tabs li (tab_width o))).
Proof.
  intros H Hi. pose proof (out_text_nth raw o res i lo H Hi) as Ho.
  destruct (format_text_lines raw o res H) as (_ & -> & _).
  destruct (out_lines_nth o (splitlines raw) i lo Ho) as (li & C & Hli & Hch & ->).
  exists li. split; [exact Hli|].
  assert (Hsig : sig_no_ws (emit o C (parse_line o (S i) li)) = sig_no_ws li).
  { unfold emit. rewrite emit_with_sig. f_equal. apply parse_line_wf. }
  split.
  - intros _. split; [exact Hsig | now apply sig_eq_signature].
  - intros Hin. apply fails_of_iff in Hin as (r & C' & Hn & Hf).
    rewrite Hch in Hn. injection Hn as <- <-.
    unfold emit. rewrite emit_with_failed by exact Hf.
    do 2 f_equal. apply parse_line_wf.
Qed.

(** C10: a line that the pre-parse loop makes a boundary or a pass
    record is emitted as its normalised original, the tab-expanded,
    right-stripped line, which has the signature of the line, and its
    number never enters [sig_fail_lines]: the text returned is the
    emitted lines put together, with one line for each line of the
    input, and the line at the position of the record is the
    normalised original; so is the line at that position of the
    returned text. *)
Theorem boundary_pass_never_fail (raw : str) (o : FormatOptions)
  (res : FormatResult) (i : nat) (li : str) :
  format_text raw o = Ok res ->
  nth_error (splitlines raw) i = Some li ->
  kind (parse_line o (S i) li) <> Kcmd ->
  sig_no_ws (rstrip_ws (expand_tabs li (tab_width o))) = sig_no_ws li /\
  ~ In (S i) (sig_fail_lines res) /\
  (exists outs,
     out_text res = text_of raw outs /\
     length outs = length (splitlines raw) /\
     nth_error outs i = Some (rstrip_ws (expand_tabs li (tab_width o)))) /\
  (forall lo, nth_error (splitlines (out_text res)) i = Some lo ->
              lo = rstrip_ws (expand_tabs li (tab_width o))).
Proof.
  intros H Hli K.
  split; [apply sig_no_ws_normalize|].
  destruct (format_text_lines raw o res H) as (Eo & Ef & El).
  assert (Hnth : forall lo,
             nth_error (out_lines_of o (parse_lines o 1 (splitlines raw))) i
             = Some lo ->
             lo = rstrip_ws (expand_tabs li (tab_width o))).
  { intros lo Ho.
    destruct (out_lines_nth o (splitlines raw) i lo Ho) as (l' & C & Hl' & _ & ->).
    rewrite Hli in Hl'. injection Hl' as <-.
    destruct (other_not_failed o (params_of o C) _ K
                (proj1 (parse_line_wf o (S i) li))) as [_ E].
    unfold emit. rewrite E.
    destruct (parse_line_wf o (S i) li) as (Wf & Eorig & _).
    unfold wf_rec in Wf. now rewrite Wf, Eorig. }
  split; [|split].
  - rewrite Ef. intros Hin.
    apply fails_of_iff in Hin as (r & C & Hch & Hf).
    destruct (chunked_nth o _ i (r, C) Hch) as (l' & Hl' & Hr). simpl in Hr.
    rewrite Hli in Hl'. injection Hl' as <-. subst r.
    destruct (other_not_failed o (params_of o C) _ K
                (proj1 (parse_line_wf o (S i) li))) as [F _].
    unfold failed in Hf. congruence.
  - exists (out_lines_of o (parse_lines o 1 (splitlines raw))).
    split; [exact Eo|]. split; [apply out_lines_length|].
    destruct (nth_error (out_lines_of o (parse_lines o 1 (splitlines raw))) i)
      as [lo|] eqn:Ho.
    + now rewrite (Hnth lo eq_refl).
    + exfalso. apply nth_error_None in Ho.
      rewrite out_lines_length in Ho.
      assert (i < length (splitlines raw))
        by (apply nth_error_Some; congruence).
      lia.
  - intros lo Hlo. apply Hnth.
    exact (out_text_nth raw o res i lo H Hlo).
Qed.

Lemma rev_cons_nth {A : Type} (L t : list A) (x : A) :
  rev L = x :: t -> L = rev t ++ [x] /\ nth_error L (length t) = Some x.
Proof.
  intros H. apply (f_equal (@rev A)) in H. rewrite rev_involutive in H.
  simpl in H. split; [exact H|]. subst L.
  rewrite nth_error_app2 by (rewrite length_rev; lia).
  now rewrite length_rev, Nat.sub_diag.
Qed.

(** The last emitted line is empty exactly when the last input line
    is blank. *)
Lemma last_out_empty (o : FormatOptions) (raw : str) :
  match rev (out_lines_of o (parse_lines o 1 (splitlines raw))) with
  | [] :: _ => true
  | _ => false
  end = last_line_blank raw.
Proof.
  unfold last_line_blank.
  pose proof (out_lines_length o (splitlines raw)) as L.
  destruct (rev (out_lines_of o (parse_lines o 1 (splitlines raw)))) as [|e t] eqn:E.
  - apply (f_equal (@rev str)) in E. rewrite rev_involutive in E. simpl in E.
    rewrite E in L. simpl in L. symmetry in L. apply length_zero_iff_nil in L.
    now rewrite L.
  - destruct (rev_cons_nth _ _ _ E) as [E1 E2].
    destruct (out_lines_nth o _ _ _ E2) as (l & C & Hl & _ & He).
    destruct (rev (splitlines raw)) as [|l' t'] eqn:E'.
    + apply (f_equal (@rev str)) in E'. rewrite rev_involutive in E'. simpl in E'.
      rewrite E' in Hl. destruct (length t); discriminate.
    + destruct (rev_cons_nth _ _ _ E') as [E1' E2'].
      assert (length t = length t').
      { rewrite E1, E1', !length_app, !length_rev in L. simpl in L. lia. }
      rewrite H in Hl. rewrite E2' in Hl. injection Hl as ->.
      assert (Hn : e = [] <-> forallb is_ws l = true).
      { rewrite He. unfold emit.
        rewrite (emit_with_nil o _ _ (proj1 (parse_line_wf o _ l))).
        now rewrite (proj1 (proj2 (parse_line_wf o _ l))). }
      destruct e as [|c e].
      * symmetry. now apply Hn.
      * destruct (forallb is_ws l); [|reflexivity].
        discriminate (proj2 Hn eq_refl).
Qed.

(** C3 (as amended): the output has the lines of the input, in the
    order of the input, each with the signature of its input line;
    one line is lost exactly when the text does not end with a newline
    and its last line is blank. *)
Theorem line_count (raw : str) (o : FormatOptions) (res : FormatResult) :
  format_text raw o = Ok res ->
  length (splitlines (out_text res))
  = (if negb (keep_final_newline raw) && last_line_blank raw
     then length (splitlines raw) - 1
     else length (splitlines raw)) /\
  (forall i lo,
     nth_error (splitlines (out_text res)) i = Some lo ->
     exists li, nth_error (splitlines raw) i = Some li /\
                sig_no_ws lo = sig_no_ws li).
Proof.
  intros H. split.
  - destruct (format_text_lines raw o res H) as (_ & _ & ->).
    pose proof (out_lines_length o (splitlines raw)) as L.
    destruct (keep_final_newline raw); simpl; [exact L|].
    rewrite drop_last_empty_length, <- (last_out_empty o raw), L.
    destruct (rev (out_lines_of o (parse_lines o 1 (splitlines raw)))) as [|[|c e] t];
      reflexivity.
  - intros i lo Hi. pose proof (out_text_nth raw o res i lo H Hi) as Ho.
    destruct (out_lines_nth o (splitlines raw) i lo Ho) as (li & C & Hli & _ & ->).
    exists li. split; [exact Hli|].
    unfold emit. rewrite emit_with_sig. f_equal. apply parse_line_wf.
Qed.

Lemma endswith_lf_snoc (s : str) (c : char) :
  endswith [LF] (s ++ [c]) = ch_eqb LF c.
Proof.
  unfold endswith. rewrite rev_app_distr. simpl. apply andb_true_r.
Qed.

Lemma endswith_lf_newline (s nl : str) :
  is_newline nl -> endswith [LF] (s ++ nl) = true.
Proof.
  intros [-> | ->].
  - apply endswith_lf_snoc.
  - change [CR; LF] with ([CR] ++ [LF]). rewrite app_assoc. apply endswith_lf_snoc.
Qed.

Lemma keep_final_newline_lf (raw : str) :
  keep_final_newline raw = endswith [LF] raw.
Proof.
  unfold keep_final_newline, endswith.
  change (rev [LF]) with [LF]. change (rev [CR; LF]) with [LF; CR].
  destruct (rev raw) as [|c t]; [reflexivity|].
  cbn [startswith]. destruct (ch_eqb LF c); reflexivity.
Qed.

Lemma join_snoc (nl : str) (A : list str) (e : str) :
  join nl (A ++ [e])
  = match A with [] => e | _ => join nl A ++ nl ++ e end.
Proof.
  induction A as [|a A IH]; [reflexivity|].
  destruct A as [|b A]; [reflexivity|].
  change ((a :: b :: A) ++ [e]) with (a :: (b :: A) ++ [e]).
  change (join nl (a :: (b :: A) ++ [e]))
    with (a ++ nl ++ join nl ((b :: A) ++ [e])).
  rewrite IH, join_cons2, <- !app_assoc. reflexivity.
Qed.

(** C4 (as amended): the output is the emitted lines, one for each
    input line, joined with "\r\n" when the input contains "\r\n" and
    with "\n" otherwise, with a final newline added exactly when the
    input ends with one; the output ends with a newline when the input
    does, and besides only when the last of two or more lines is
    blank. *)
Theorem newline_style (raw : str) (o : FormatOptions) (res : FormatResult) :
  format_text raw o = Ok res ->
  newline_of raw = (if contains [CR; LF] raw then [CR; LF] else [LF]) /\
  (exists outs,
     length outs = length (splitlines raw) /\
     Forall (fun l => no_linebreak l = true) outs /\
     out_text res
     = join (newline_of raw) outs
       ++ (if endswith [LF] raw then newline_of raw else [])) /\
  endswith [LF] (out_text res)
  = endswith [LF] raw
    || (last_line_blank raw && (2 <=? length (splitlines raw))).
Proof.
  intros H. split; [reflexivity|].
  destruct (format_text_lines raw o res H) as (E & _ & _).
  pose proof (out_lines_length o (splitlines raw)) as L.
  pose proof (out_lines_no_linebreak o _ (splitlines_no_linebreak raw)) as NL.
  set (outs := out_lines_of o (parse_lines o 1 (splitlines raw))) in *.
  unfold text_of in E. rewrite keep_final_newline_lf in E. split.
  - exists outs. auto.
  - rewrite E. pose proof (newline_of_is_newline raw) as Hnl.
    destruct (endswith [LF] raw); simpl.
    + now apply endswith_lf_newline.
    + rewrite app_nil_r, <- (last_out_empty o raw). fold outs.
      destruct (rev outs) as [|e t] eqn:R.
      * apply (f_equal (@rev str)) in R. rewrite rev_involutive in R.
        simpl in R. rewrite R. reflexivity.
      * destruct (rev_cons_nth _ _ _ R) as [R1 _].
        assert (Le : length (splitlines raw) = S (length t)).
        { rewrite <- L, R1, length_app, length_rev. simpl. lia. }
        assert (He : no_linebreak e = true).
        { rewrite Forall_forall in NL. apply NL. rewrite R1.
          apply in_or_app. right. now left. }
        rewrite R1, join_snoc, Le.
        destruct e as [|c e].
        -- destruct t as [|x t]; [reflexivity|]. simpl rev.
           destruct (rev t ++ [x]) eqn:Q; [destruct (rev t); discriminate|].
           rewrite app_nil_r. now apply endswith_lf_newline.
        -- destruct (exists_last (l := c :: e)) as (e' & x & Ee); [discriminate|].
           rewrite Ee in *. unfold no_linebreak in He.
           rewrite forallb_app in He. apply andb_true_iff in He as [_ He].
           simpl in He. rewrite andb_true_r in He. apply negb_true_iff in He.
           assert (Hx : ch_eqb LF x = false).
           { apply ch_eqb_neq. intros <-. discriminate. }
           destruct (rev t); rewrite ?app_assoc, endswith_lf_snoc; exact Hx.
Qed.

Lemma max_key_le_cap (key_cap : Z) (C : list rec) :
  key_widths C <> [] \/ (0 <= key_cap)%Z -> (max_key key_cap C <= key_cap)%Z.
Proof.
  unfold max_key. destruct (key_widths C) as [|w ws].
  - intros [H | H]; [congruence | exact H].
  - intros _. apply Z.le_min_r.
Qed.

Lemma max_key_le_width (key_cap : Z) (C : list rec) (n : Z) :
  (0 <= n)%Z -> (key_cap < n)%Z -> (max_key key_cap C <= n)%Z.
Proof.
  intros H0 H. unfold max_key. destruct (key_widths C) as [|w ws]; [exact H0|].
  pose proof (Z.le_min_r (max_z w ws) key_cap). lia.
Qed.

Lemma no_table_without_rest (et : bool) (r : rec) :
  rest r = [] -> is_echo_table_candidate et r = false.
Proof.
  intros R. unfold is_echo_table_candidate. rewrite R.
  destruct (negb et); [reflexivity|].
  destruct (negb (kind_eqb (kind r) Kcmd)); [reflexivity|].
  destruct (str_nonempty (comment r)); [reflexivity|].
  destruct (negb (str_eqb (key_lower r) echo_s)); reflexivity.
Qed.

(** C8 (as amended): the key column never exceeds [key_cap] when the
    chunk has a key to align or the cap is not negative, and the
    comment column never exceeds [comment_cap].  Nothing is truncated:
    the rendered code of a command starts with its indent and its key
    in full.  They are followed by nothing when the rest is empty; in
    an echo with a rest, by the rest as it stands, with the
    whitespace it has after the key, whatever the cap, or by one
    space and the rebuilt row of a table; in a command that is no
    echo, has a rest and whose indent and key are longer than
    [key_cap], by one space and the rest.  A code longer than
    [comment_cap] is followed by one space and the comment. *)
Theorem caps_respected (key_cap comment_cap : Z) (special : list str)
  (et : bool) (C : list rec) :
  (key_widths C <> [] \/ (0 <= key_cap)%Z -> (max_key key_cap C <= key_cap)%Z) /\
  (forall zs t, comment_target comment_cap zs = Some t -> (t <= comment_cap)%Z) /\
  (forall scol widths r,
     kind r = Kcmd ->
     exists tail,
       code_fmt special et (value_col key_cap C) scol widths r
       = Some (indent r ++ key r ++ tail)) /\
  (forall scol widths r,
     kind r = Kcmd -> rest r = [] ->
     code_fmt special et (value_col key_cap C) scol widths r
     = Some (indent r ++ key r)) /\
  (forall scol widths r,
     kind r = Kcmd -> str_eqb (key_lower r) echo_s = true -> rest r <> [] ->
     code_fmt special et (value_col key_cap C) scol widths r
     = Some (indent r ++ key r ++ rest r) \/
     (is_echo_table_candidate et r = true /\
      code_fmt special et (value_col key_cap C) scol widths r
      = Some (indent r ++ key r ++ [SP] ++ echo_body_fmt widths r))) /\
  (forall scol widths r,
     kind r = Kcmd -> str_eqb (key_lower r) echo_s = false -> rest r <> [] ->
     (key_cap < zlen (indent r) + zlen (key r))%Z ->
     exists body,
       code_fmt special et (value_col key_cap C) scol widths r
       = Some (indent r ++ key r ++ [SP] ++ body) /\
       (body = rest r \/
        exists q1 q2 tail n,
          split_two_quoted (rest r) = Some (q1, q2, tail) /\ 1 <= n /\
          body = q1 ++ spaces n ++ q2 ++ tail)) /\
  (forall zs r cf,
     comment r <> [] -> (comment_cap < zlen cf)%Z ->
     place_comment (comment_target comment_cap zs) r cf
     = cf ++ [SP] ++ comment r).
Proof.
  split; [apply max_key_le_cap|]. split; [|split; [|split; [|split; [|split]]]].
  - intros zs t. unfold comment_target.
    destruct (code_lens_for_comment zs) as [|w ws]; [discriminate|].
    intros H. injection H as <-. apply Z.le_min_r.
  - intros scol widths r K. unfold code_fmt. rewrite K. cbn [kind_eqb negb].
    destruct (str_eqb (key_lower r) echo_s).
    + destruct (is_echo_table_candidate et r && negb (length widths =? 0)).
      * eexists. reflexivity.
      * destruct (str_eqb (rest r) []); [|eexists; reflexivity].
        exists []. now rewrite app_nil_r.
    + destruct (str_eqb (rest r) []); [exists []; now rewrite app_nil_r|].
      cbv zeta.
      destruct (if mem_str (key_lower r) special then split_two_quoted (rest r)
                else None) as [[[q1 q2] tail]|]; eexists; reflexivity.
  - intros scol widths r K R. unfold code_fmt. rewrite K. cbn [kind_eqb negb].
    rewrite (no_table_without_rest et r R), R. cbn [andb str_eqb].
    destruct (str_eqb (key_lower r) echo_s); reflexivity.
  - intros scol widths r K E R. unfold code_fmt. rewrite K, E. cbn [kind_eqb negb].
    destruct (is_echo_table_candidate et r) eqn:Cand; cbn [andb].
    + destruct (negb (length widths =? 0)); [right; now split|].
      left. destruct (str_eqb (rest r) []) eqn:Er; [|reflexivity].
      apply str_eqb_eq in Er. congruence.
    + left. destruct (str_eqb (rest r) []) eqn:Er; [|reflexivity].
      apply str_eqb_eq in Er. congruence.
  - intros scol widths r K E R Hlen. unfold code_fmt.
    rewrite K, E. simpl.
    destruct (str_eqb (rest r) []) eqn:Er; [apply str_eqb_eq in Er; congruence|].
    assert (Hpad : Z.max 1 (value_col key_cap C - (zlen (indent r) + zlen (key r)))
                   = 1%Z).
    { unfold value_col.
      pose proof (max_key_le_width key_cap C (zlen (indent r) + zlen (key r))).
      unfold zlen in *. lia. }
    rewrite Hpad. change (spaces_z 1) with [SP].
    destruct (mem_str (key_lower r) special); [|eexists; split; [reflexivity | now left]].
    destruct (split_two_quoted (rest r)) as [[[q1 q2] tail]|];
      [|eexists; split; [reflexivity | now left]].
    eexists. split; [reflexivity|]. right.
    exists q1, q2, tail. eexists. split; [reflexivity|]. split; [|reflexivity]. lia.
  - intros zs r cf Hc Hlen. unfold place_comment.
    destruct (comment r) as [|c m] eqn:Ec; [congruence|]. simpl.
    destruct (comment_target comment_cap zs) as [t|] eqn:T; [|reflexivity].
    assert (t <= comment_cap)%Z.
    { revert T. unfold comment_target.
      destruct (code_lens_for_comment zs) as [|w ws]; [discriminate|].
      intros H. injection H as <-. apply Z.le_min_r. }
    destruct (zlen cf <=? t)%Z eqn:L; [|reflexivity].
    apply Z.leb_le in L. lia.
Qed.

End Claims.

(* ================================================================== *)
(** * Concrete runs *)

(** What the run on [sample_text] with the default options returns:
    the third line, where an ideographic space follows the key, is the
    one line the guard rejects. *)
Lemma sample_text_result :
  format_text (U := basic_unicode) sample_text default_options = Ok sample_result /\
  sig_fail_lines sample_result = [3] /\ changed sample_result = true /\
  nth_error (splitlines (out_text sample_result)) 2 = Some sample_bind_wide.
Proof. vm_compute. auto. Qed.

(** C1 at the first line (aligned) and the third line (rejected by
    the guard) of [sample_text]. *)
Lemma signature_invariance_witness :
  (exists li,
     nth_error (splitlines sample_text) 0 = Some li /\
     (~ In 1 (sig_fail_lines sample_result) ->
        sig_no_ws (lit "bind " ++ [DQ] ++ lit "w" ++ [DQ] ++ spaces 6 ++ [DQ]
                     ++ lit "+forward" ++ [DQ])
        = sig_no_ws li /\
        signature (lit "bind " ++ [DQ] ++ lit "w" ++ [DQ] ++ spaces 6 ++ [DQ]
                     ++ lit "+forward" ++ [DQ])
        = signature li) /\
     (In 1 (sig_fail_lines sample_result) ->
        lit "bind " ++ [DQ] ++ lit "w" ++ [DQ] ++ spaces 6 ++ [DQ]
          ++ lit "+forward" ++ [DQ]
        = rstrip_ws (expand_tabs li (tab_width default_options)))) /\
  (exists li,
     nth_error (splitlines sample_text) 2 = Some li /\
     (~ In 3 (sig_fail_lines sample_result) ->
        sig_no_ws sample_bind_wide = sig_no_ws li /\
        signature sample_bind_wide = signature li) /\
     (In 3 (sig_fail_lines sample_result) ->
        sample_bind_wide = rstrip_ws (expand_tabs li (tab_width default_options)))).
Proof.
  split.
  - apply (signature_invariance (U := basic_unicode) sample_text default_options
             sample_result 0); vm_compute; reflexivity.
  - apply (signature_invariance (U := basic_unicode) sample_text default_options
             sample_result 2); vm_compute; reflexivity.
Defined.

(** C3, the claim refuted: one blank, unterminated line goes in, no
    line comes out. *)
Lemma blank_last_line_lost :
  exists res,
    format_text (U := basic_unicode) [SP] default_options = Ok res /\
    length (splitlines [SP]) = 1 /\
    length (splitlines (out_text res)) = 0.
Proof. eexists. split; [vm_compute; reflexivity|]. vm_compute. auto. Qed.

Lemma line_count_witness :
  length (splitlines (out_text sample_result))
  = (if negb (keep_final_newline sample_text) && last_line_blank sample_text
     then length (splitlines sample_text) - 1
     else length (splitlines sample_text)) /\
  (forall i lo,
     nth_error (splitlines (out_text sample_result)) i = Some lo ->
     exists li, nth_error (splitlines sample_text) i = Some li /\
                sig_no_ws lo = sig_no_ws li).
Proof.
  apply (line_count (U := basic_unicode) sample_text default_options sample_result).
  vm_compute. reflexivity.
Defined.

(** C4, the claim refuted: the input "a", newline, blank does not end
    with a newline, the output does. *)
Lemma blank_last_line_newline :
  exists res,
    format_text (U := basic_unicode) (lit "a" ++ [LF; SP]) default_options = Ok res /\
    endswith [LF] (lit "a" ++ [LF; SP]) = false /\
    out_text res = lit "a" ++ [LF] /\
    endswith [LF] (out_text res) = true.
Proof. eexists. split; [vm_compute; reflexivity|]. vm_compute. auto. Qed.

Lemma newline_style_witness :
  newline_of sample_text = (if contains [CR; LF] sample_text then [CR; LF] else [LF]) /\
  (exists outs,
     length outs = length (splitlines sample_text) /\
     Forall (fun l => no_linebreak l = true) outs /\
     out_text sample_result
     = join (newline_of sample_text) outs
       ++ (if endswith [LF] sample_text then newline_of sample_text else [])) /\
  endswith [LF] (out_text sample_result)
  = endswith [LF] sample_text
    || (last_line_blank sample_text && (2 <=? length (splitlines sample_text))).
Proof.
  apply (newline_style (U := basic_unicode) sample_text default_options sample_result).
  vm_compute. reflexivity.
Defined.

(** C5, the claim refuted: the tokens of [bind "w"] put together lack
    the space of the line, and those of the line with the ideographic
    space lack a character of the signature. *)
Lemma tokens_lose_separators :
  (kind (parse_line (U := basic_unicode) default_options 1 sample_bind) = Kcmd /\
   ~ tokens_rebuild_line (parse_line (U := basic_unicode) default_options 1 sample_bind)) /\
  (let r := parse_line (U := basic_unicode) default_options 1 sample_bind_wide in
   kind r = Kcmd /\ ~ tokens_rebuild_line r /\
   sig_no_ws (indent r ++ key r ++ rest r ++ comment r) <> sig_no_ws (line r)).
Proof.
  vm_compute. repeat split; try reflexivity; discriminate.
Qed.

Lemma tokens_cover_line_witness :
  let r := parse_line (U := basic_unicode) default_options 1 sample_bind_wide in
  line r = rstrip_ws (expand_tabs sample_bind_wide (tab_width default_options)) /\
  exists gap1 gap2,
    line r = indent r ++ key r ++ gap1 ++ rest r ++ gap2 ++ comment r /\
    forallb isspace gap1 = true /\ forallb is_ws gap2 = true /\
    (key_lower r = echo_s -> gap1 = []) /\
    (comment r = [] -> gap2 = []) /\
    signature (line r) = signature (indent r ++ key r ++ rest r ++ comment r).
Proof.
  apply (tokens_cover_line (U := basic_unicode) default_options 1 sample_bind_wide).
  vm_compute. reflexivity.
Defined.

(** C6, the claim refuted: a line of one ideographic space is a
    boundary; it is not empty, normalisation leaves it as it is, it is
    neither "echo;" nor a banner. *)
Lemma blank_boundary_not_empty :
  is_block_boundary_B (U := basic_unicode) [IDSP] = true /\
  rstrip_ws (expand_tabs [IDSP] TAB_WIDTH_DEFAULT) = [IDSP] /\
  ~ boundary_claimed (U := basic_unicode) [IDSP].
Proof.
  split; [reflexivity|]. split; [reflexivity|].
  intros [H | [H | [H _]]]; vm_compute in H; discriminate.
Qed.


(** C8, the claim refuted.  With the cap 2 the echo line, whose key
    is longer than the cap, is returned with the five spaces it has
    after the key; with the cap -1 and a chunk of one command without
    arguments the key column is 0. *)
Lemma echo_beyond_cap_keeps_spaces :
  format_text (U := basic_unicode) (lit "echo     hi")
    (with_key_cap default_options 2)
  = Ok (mk_result (lit "echo     hi") false []) /\
  (key_cap (with_key_cap default_options 2) < zlen (lit "echo"))%Z /\
  max_key (-1) (parse_lines (U := basic_unicode) default_options 1 [lit "exec"])
  = 0%Z.
Proof. split; [vm_compute; reflexivity|]. split; reflexivity. Qed.

Lemma special_keys_falsy_default_witness :
  special_keys_of (with_special default_options (Some []))
  = SPECIAL_ALIGN_KEYS_DEFAULT /\
  format_text (U := basic_unicode) sample_text (with_special default_options (Some []))
  = format_text (U := basic_unicode) sample_text
      (with_special (with_special default_options (Some []))
         (Some SPECIAL_ALIGN_KEYS_DEFAULT)).
Proof.
  apply (special_keys_falsy_default (U := basic_unicode) sample_text
           (with_special default_options (Some []))).
  right. reflexivity.
Defined.

(** With the empty set the two quoted strings of the binds are aligned
    as with the default set. *)
Lemma empty_special_keys_still_align :
  format_text (U := basic_unicode) sample_text (with_special default_options (Some []))
  = Ok sample_result.
Proof. vm_compute. reflexivity. Qed.

Lemma boundary_pass_never_fail_witness :
  sig_no_ws (rstrip_ws (expand_tabs sample_note_line (tab_width default_options)))
  = sig_no_ws sample_note_line /\
  ~ In 1 (sig_fail_lines sample_noted_result) /\
  (exists outs,
     out_text sample_noted_result = text_of sample_noted outs /\
     length outs = length (splitlines sample_noted) /\
     nth_error outs 0
     = Some (rstrip_ws (expand_tabs sample_note_line (tab_width default_options)))) /\
  (forall lo, nth_error (splitlines (out_text sample_noted_result)) 0 = Some lo ->
              lo = rstrip_ws (expand_tabs sample_note_line
                                (tab_width default_options))).
Proof.
  apply (boundary_pass_never_fail (U := basic_unicode) sample_noted
           default_options sample_noted_result 0 sample_note_line).
  - vm_compute. reflexivity.
  - vm_compute. reflexivity.
  - vm_compute. discriminate.
Defined.

Lemma caps_respected_witness :
  let r := parse_line (U := basic_unicode) default_options 1 (lit "sensitivity 2.5") in
  exists body,
    code_fmt (U := basic_unicode) SPECIAL_ALIGN_KEYS_DEFAULT true (value_col 5 [r])
      0 [] r
    = Some (indent r ++ key r ++ [SP] ++ body) /\
    (body = rest r \/
     exists q1 q2 tail n,
       split_two_quoted (rest r) = Some (q1, q2, tail) /\ 1 <= n /\
       body = q1 ++ spaces n ++ q2 ++ tail).
Proof.
  intros r.
  apply (proj1 (proj2 (proj2 (proj2 (proj2 (proj2
           (caps_respected (U := basic_unicode) 5 90
              SPECIAL_ALIGN_KEYS_DEFAULT true [r]))))))).
  - vm_compute. reflexivity.
  - vm_compute. reflexivity.
  - vm_compute. discriminate.
  - vm_compute. reflexivity.
Defined.

(** C2, the claim refuted.  With the default options the line with
    the ideographic space is rejected by the guard in the second run
    as in the first; with "echo" among the special keys the second
    run moves the second quoted string of the bind once more. *)
Lemma second_run_not_clean :
  (exists res1 res2,
     format_text (U := basic_unicode) sample_bind_wide default_options = Ok res1 /\
     format_text (U := basic_unicode) (out_text res1) default_options = Ok res2 /\
     sig_fail_lines res2 = [1]) /\
  (exists res1 res2,
     format_text (U := basic_unicode) sample_echo_quoted options_echo_special
     = Ok res1 /\
     format_text (U := basic_unicode) (out_text res1) options_echo_special
     = Ok res2 /\
     changed res2 = true).
Proof.
  split; do 2 eexists; (split; [vm_compute; reflexivity|]);
    (split; [vm_compute; reflexivity|]); reflexivity.
Qed.

(* ================================================================== *)
(** * The second run *)

(** ** The comment scan, piece by piece *)

Lemma scan_find_none (s : str) (i : nat) (q : bool) :
  find_comment_from s i q = None <-> scan q s false <> None.
Proof.
  revert i q. induction s as [|ch tl IH]; intros i q; simpl.
  - split; [discriminate | reflexivity].
  - destruct tl as [|c2 tl2].
    + destruct (ch_eqb ch DQ); simpl; [split; [discriminate | reflexivity]|].
      rewrite andb_false_r. split; [discriminate | reflexivity].
    + destruct (ch_eqb ch DQ); [apply IH|].
      destruct (negb q && ch_eqb ch SLASH && ch_eqb c2 SLASH).
      * split; [discriminate | congruence].
      * apply IH.
Qed.

Lemma scan_find_some (s : str) (i : nat) (q : bool) (cpos : nat) :
  find_comment_from s i q = Some cpos ->
  exists a t, s = a ++ SLASH :: SLASH :: t /\ i + length a = cpos /\
              scan q a true = Some false.
Proof.
  revert i q. induction s as [|ch tl IH]; intros i q; simpl; [discriminate|].
  destruct tl as [|c2 tl2]; [discriminate|].
  destruct (ch_eqb ch DQ) eqn:Edq.
  - intros H. destruct (IH _ _ H) as (a & t & E & L & S).
    exists (ch :: a), t. rewrite E. simpl. rewrite Edq.
    split; [reflexivity|]. split; [lia | exact S].
  - destruct (negb q && ch_eqb ch SLASH && ch_eqb c2 SLASH) eqn:Ec.
    + intros H. injection H as <-.
      apply andb_true_iff in Ec as [Ec E2]. apply andb_true_iff in Ec as [Eq E1].
      apply ch_eqb_eq in E1, E2. subst. exists [], tl2.
      apply negb_true_iff in Eq. subst q. simpl.
      split; [reflexivity|]. split; [lia | reflexivity].
    + intros H. destruct (IH _ _ H) as (a & t & E & L & S).
      exists (ch :: a), t. rewrite E. simpl. rewrite Edq.
      split; [reflexivity|]. split; [lia|].
      destruct a as [|x a].
      * simpl in E. injection E as -> ->. rewrite ch_eqb_refl, andb_true_r in Ec.
        rewrite andb_true_r, Ec. exact S.
      * simpl in E. injection E as -> ->. rewrite Ec. exact S.
Qed.

Lemma find_scan_some (a t : str) (i : nat) (q : bool) :
  scan q a true = Some false ->
  find_comment_from (a ++ SLASH :: SLASH :: t) i q = Some (i + length a).
Proof.
  revert i q. induction a as [|ch a IH]; intros i q; simpl.
  - intros H. injection H as ->. simpl. f_equal. lia.
  - destruct (a ++ SLASH :: SLASH :: t) as [|c2 tl2] eqn:E;
      [destruct a; discriminate|].
    destruct (ch_eqb ch DQ).
    + intros H. rewrite (IH (S i) _ H). f_equal. lia.
    + assert (Hc : ch_eqb c2 SLASH
                   = match a with [] => true | c :: _ => ch_eqb c SLASH end).
      { destruct a as [|x a]; simpl in E; injection E as <- _;
          [apply ch_eqb_refl | reflexivity]. }
      rewrite Hc.
      destruct (negb q && ch_eqb ch SLASH
                && match a with [] => true | c :: _ => ch_eqb c SLASH end);
        [discriminate|].
      intros H. rewrite (IH (S i) _ H). f_equal. lia.
Qed.

Lemma scan_app (q : bool) (a b : str) (nxt : bool) :
  scan q (a ++ b) nxt
  = match scan q a (slash_head b nxt) with
    | Some q' => scan q' b nxt
    | None => None
    end.
Proof.
  revert q. induction a as [|ch a IH]; intros q; simpl; [reflexivity|].
  destruct (ch_eqb ch DQ); [apply IH|].
  assert (E : match a ++ b with [] => nxt | c2 :: _ => ch_eqb c2 SLASH end
              = match a with [] => slash_head b nxt | c2 :: _ => ch_eqb c2 SLASH end).
  { destruct a; reflexivity. }
  rewrite E. destruct (negb q && ch_eqb ch SLASH && _); [reflexivity | apply IH].
Qed.

Lemma scan_plain (q : bool) (w : str) (nxt : bool) :
  forallb plain w = true -> scan q w nxt = Some q.
Proof.
  induction w as [|c w IH]; simpl; [reflexivity|].
  intros H. apply andb_true_iff in H as [Hc Hw]. unfold plain in Hc.
  apply andb_true_iff in Hc as [H1 H2].
  apply negb_true_iff in H1, H2. rewrite H1, H2, andb_false_r. simpl.
  now apply IH.
Qed.

(** A piece without comment when a slash follows has none when no
    slash follows. *)
Lemma scan_weaken (q : bool) (s : str) (q' : bool) :
  scan q s true = Some q' -> scan q s false = Some q'.
Proof.
  revert q. induction s as [|ch tl IH]; intros q; simpl; [trivial|].
  destruct (ch_eqb ch DQ); [apply IH|].
  destruct tl as [|c2 tl2].
  - rewrite andb_true_r, andb_false_r.
    destruct (negb q && ch_eqb ch SLASH); [discriminate | trivial].
  - destruct (negb q && ch_eqb ch SLASH && ch_eqb c2 SLASH); [trivial | apply IH].
Qed.

Lemma isspace_plain (c : char) : isspace c = true -> plain c = true.
Proof.
  unfold plain. intros H.
  destruct (ch_eqb c DQ) eqn:E1; [apply ch_eqb_eq in E1; subst; discriminate|].
  destruct (ch_eqb c SLASH) eqn:E2; [apply ch_eqb_eq in E2; subst; discriminate|].
  reflexivity.
Qed.

Lemma forallb_isspace_plain (w : str) :
  forallb isspace w = true -> forallb plain w = true.
Proof.
  rewrite !forallb_forall. intros H x Hx. apply isspace_plain, H, Hx.
Qed.

Lemma forallb_plain_spaces (n : nat) : forallb plain (spaces n) = true.
Proof. apply forallb_spaces. reflexivity. Qed.

Lemma slash_head_plain (w b : str) (nxt : bool) :
  forallb plain w = true -> w <> [] -> slash_head (w ++ b) nxt = false.
Proof.
  destruct w as [|c w]; [congruence|]. simpl. intros H _.
  apply andb_true_iff in H as [Hc _]. unfold plain in Hc.
  apply andb_true_iff in Hc as [_ H2]. now apply negb_true_iff in H2.
Qed.

(** A gap of plain characters between two pieces may be replaced by
    another one, and one may be put where there is none when the
    second piece does not start with a slash. *)
Lemma scan_gap (q : bool) (a g g' b : str) (nxt : bool) :
  forallb plain g = true -> forallb plain g' = true -> g' <> [] ->
  (g <> [] \/ slash_head b nxt = false) ->
  scan q (a ++ g ++ b) nxt = scan q (a ++ g' ++ b) nxt.
Proof.
  intros Hg Hg' Ng' H.
  rewrite !scan_app, (slash_head_plain g' b nxt Hg' Ng').
  assert (E : slash_head (g ++ b) nxt = false).
  { destruct H as [Ng | Hb]; [now apply slash_head_plain|].
    destruct g as [|c g]; [exact Hb | now apply slash_head_plain]. }
  rewrite E. destruct (scan q a false) as [q'|]; [|reflexivity].
  rewrite !scan_app, (scan_plain q' g _ Hg), (scan_plain q' g' _ Hg').
  reflexivity.
Qed.

(** ** Reading a rendered line again *)

Lemma takewhile_stop (p : char -> bool) (c : char) (s : str) :
  p c = false -> takewhile p (c :: s) = [].
Proof. intros H. simpl. now rewrite H. Qed.

Lemma head_space_takewhile (F : str) :
  (forall c t, F = c :: t -> isspace c = true) ->
  takewhile not_space F = [] /\ dropwhile not_space F = F.
Proof.
  intros H. destruct F as [|c t]; [split; reflexivity|].
  specialize (H c t eq_refl). simpl. unfold not_space. rewrite H. simpl.
  split; reflexivity.
Qed.

Lemma split_ikr_build {U : UnicodeData} (indent0 key0 F : str) :
  forallb isspace indent0 = true ->
  key0 <> [] -> forallb not_space key0 = true ->
  (forall c t, F = c :: t -> isspace c = true) ->
  split_indent_key_rest (indent0 ++ key0 ++ F)
  = Some (indent0, key0,
          if str_eqb (lower key0) echo_s then F else dropwhile isspace F).
Proof.
  intros Hi Hk Hn HF. unfold split_indent_key_rest.
  destruct key0 as [|k key1]; [congruence|].
  assert (Hk0 : isspace k = false).
  { simpl in Hn. apply andb_true_iff in Hn as [Hn _]. unfold not_space in Hn.
    now apply negb_true_iff in Hn. }
  rewrite (dropwhile_app_all isspace indent0 _ Hi).
  rewrite (takewhile_app_all isspace indent0 _ Hi).
  change ((k :: key1) ++ F) with (k :: key1 ++ F).
  rewrite (dropwhile_stop isspace k _ Hk0), (takewhile_stop isspace k _ Hk0).
  rewrite app_nil_r.
  change (k :: key1 ++ F) with ((k :: key1) ++ F).
  rewrite (takewhile_app_all not_space (k :: key1) F Hn).
  rewrite (dropwhile_app_all not_space (k :: key1) F Hn).
  destruct (head_space_takewhile F HF) as [-> ->]. rewrite app_nil_r.
  reflexivity.
Qed.

Lemma rstrip_by_app_fix (p : char -> bool) (a b : str) :
  b <> [] -> rstrip_by p b = b -> rstrip_by p (a ++ b) = a ++ b.
Proof.
  intros Hb Hf. destruct (exists_last Hb) as (b' & c & E).
  assert (Hc : p c = false).
  { apply (rstrip_by_last p b b' c). now rewrite Hf. }
  rewrite E, app_assoc, rstrip_by_snoc, Hc. reflexivity.
Qed.

Lemma strip_nil_all (s : str) : strip s = [] -> forallb isspace s = true.
Proof.
  unfold strip, strip_by, lstrip_by. intros H.
  apply rstrip_by_nil_all in H.
  rewrite <- (take_drop_while isspace s), forallb_app, takewhile_all, H.
  reflexivity.
Qed.

Lemma firstn_app_exact {A : Type} (a b : list A) : firstn (length a) (a ++ b) = a.
Proof.
  rewrite firstn_app, Nat.sub_diag, firstn_all. simpl. apply app_nil_r.
Qed.

Lemma skipn_app_exact {A : Type} (a b : list A) : skipn (length a) (a ++ b) = b.
Proof.
  rewrite skipn_app, Nat.sub_diag, skipn_all. reflexivity.
Qed.

(** A line made of an indent, a key, a form that is empty or starts
    with whitespace and, after a gap of spaces, a comment, is read by
    the pre-parse loop as the command with these tokens. *)
Lemma parse_rendered {U : UnicodeData} (o : FormatOptions) (i : nat)
  (indent0 key0 F cm : str) (n : nat) :
  let X := indent0 ++ key0 ++ F in
  let R := X ++ comment_tail n cm in
  forallb isspace indent0 = true ->
  key0 <> [] -> forallb not_space key0 = true ->
  (forall c t, F = c :: t -> isspace c = true) ->
  forallb not_tab R = true ->
  rstrip_ws X = X ->
  (cm = [] \/ (1 <= n /\ rstrip_ws cm = cm /\ exists t, cm = SLASH :: SLASH :: t)) ->
  (if str_nonempty cm then scan false X false = Some false
   else scan false X false <> None) ->
  str_eqb (align_mode o) (lit "block") && is_block_boundary_B R = false ->
  startswith (lit "//") (lstrip R) = false ->
  parse_line o i R
  = mk_rec Kcmd R R i indent0 key0 (lower key0)
      (if str_eqb (lower key0) echo_s then F else dropwhile isspace F) cm.
Proof.
  intros X R Hi Hk Hn HF Htab HX Hcm Hscan Hb Hp.
  assert (HR : rstrip_ws (expand_tabs R (tab_width o)) = R).
  { rewrite (detab_fix R _ Htab). unfold R, comment_tail.
    destruct Hcm as [-> | (_ & Hc & t & Ht)]; [now rewrite app_nil_r|].
    destruct cm as [|c cm']; [discriminate|].
    rewrite app_assoc. apply rstrip_by_app_fix; [discriminate | exact Hc]. }
  assert (Hne : str_eqb (strip R) [] = false).
  { apply str_eqb_neq. intros H. apply strip_nil_all in H.
    unfold R, X in H. rewrite !forallb_app in H.
    destruct key0 as [|k key1]; [congruence|]. simpl in H, Hn.
    apply andb_true_iff in Hn as [Hn _]. unfold not_space in Hn.
    apply negb_true_iff in Hn. rewrite Hn in H. simpl in H.
    rewrite andb_false_r in H. discriminate. }
  unfold parse_line, record_of. rewrite HR, Hb, Hp, Hne.
  pose proof (split_ikr_build indent0 key0 F Hi Hk Hn HF) as Hs. fold X in Hs.
  destruct Hcm as [-> | (Hn1 & Hc & t & Ht)].
  - unfold R, comment_tail. rewrite app_nil_r. simpl in Hscan.
    unfold find_comment_pos_outside_quotes.
    rewrite (proj2 (scan_find_none X 0 false) Hscan), Hs. reflexivity.
  - subst cm. simpl in Hscan. unfold R, comment_tail.
    unfold find_comment_pos_outside_quotes. rewrite app_assoc.
    rewrite (find_scan_some (X ++ spaces n) t 0 false).
    + simpl. rewrite firstn_app_exact, skipn_app_exact.
      unfold rstrip_ws in *. rewrite rstrip_by_app_all, HX, Hs; [reflexivity|].
      apply forallb_spaces. reflexivity.
    + rewrite scan_app.
      assert (E : slash_head (spaces n) true = false).
      { destruct n; [lia | reflexivity]. }
      rewrite E, Hscan. apply scan_plain, forallb_plain_spaces.
Qed.

(** ** What the first run knows of a command line *)

Lemma rstrip_by_suffix_fix (p : char -> bool) (a b : str) :
  rstrip_by p (a ++ b) = a ++ b -> b <> [] -> rstrip_by p b = b.
Proof.
  intros H Hb. destruct (exists_last Hb) as (b' & c & E).
  assert (Hc : p c = false).
  { apply (rstrip_by_last p (a ++ b) (a ++ b') c).
    now rewrite H, E, app_assoc. }
  rewrite E, rstrip_by_snoc, Hc. reflexivity.
Qed.

Lemma code_fmt_form {U : UnicodeData} (special : list str) (et : bool)
  (vcol scol : Z) (widths : list nat) (r : rec) :
  kind r = Kcmd ->
  code_fmt special et vcol scol widths r
  = Some (indent r ++ key r ++ code_form special et vcol scol widths r).
Proof.
  intros K. unfold code_fmt, code_form. rewrite K. simpl.
  destruct (str_eqb (key_lower r) echo_s).
  - destruct (is_echo_table_candidate et r && negb (length widths =? 0));
      [reflexivity|].
    destruct (str_eqb (rest r) []) eqn:E; [|reflexivity].
    apply str_eqb_eq in E. now rewrite E, app_nil_r.
  - destruct (str_eqb (rest r) []); [now rewrite app_nil_r|].
    destruct (if mem_str (key_lower r) special then split_two_quoted (rest r)
              else None) as [[[q1 q2] tail]|]; reflexivity.
Qed.

(** The pieces of the normalised line of a command record. *)
Lemma cmd_facts {U : UnicodeData} (o : FormatOptions) (i : nat) (l : str) :
  kind (parse_line o i l) = Kcmd ->
  let r := parse_line o i l in
  exists gap w,
    line r = indent r ++ key r ++ gap ++ rest r ++ w ++ comment r /\
    key_lower r = lower (key r) /\
    forallb isspace (indent r) = true /\
    key r <> [] /\ forallb not_space (key r) = true /\
    forallb isspace gap = true /\ forallb is_ws w = true /\
    (str_eqb (key_lower r) echo_s = true -> gap = []) /\
    (str_eqb (key_lower r) echo_s = false ->
       dropwhile isspace (rest r) = rest r /\ (gap = [] -> rest r = [])) /\
    (forall c t, gap ++ rest r = c :: t -> isspace c = true) /\
    rstrip_ws (indent r ++ key r ++ gap ++ rest r)
    = indent r ++ key r ++ gap ++ rest r /\
    ((comment r = [] /\ w = [] /\
      scan false (indent r ++ key r ++ gap ++ rest r) false <> None) \/
     (rstrip_ws (comment r) = comment r /\
      (exists t, comment r = SLASH :: SLASH :: t) /\
      scan false (indent r ++ key r ++ gap ++ rest r) false = Some false)) /\
    forallb not_tab (line r) = true /\
    str_eqb (align_mode o) (lit "block") && is_block_boundary_B (line r) = false /\
    startswith (lit "//") (lstrip (line r)) = false.
Proof.
  intros K r.
  destruct (parse_line_cmd o i l K)
    as (cp & Ho & Hl & _ & Hkl & Hs & Hb & Hp & _ & Hc).
  fold r in Ho, Hl, Hkl, Hs, Hc.
  destruct (split_ikr_shape _ _ _ _ Hs)
    as (gap & Ecp & Hi & Hk & Hns & Hg & He & Hne & Hh).
  assert (Htab : forallb not_tab (line r) = true).
  { rewrite Hl. eapply forallb_incl; [apply incl_rstrip_by | apply detab_no_tab]. }
  rewrite <- Hkl in He, Hne. rewrite <- Hl in Hb, Hp.
  destruct Hc as [(Hf & E1 & E2) | (cpos & Hf & E1 & E2)].
  - exists gap, []. rewrite E2, !app_nil_r.
    assert (E : line r = indent r ++ key r ++ gap ++ rest r).
    { rewrite Hl, <- E1. exact Ecp. }
    repeat (split; [solve [auto]|]).
    split.
    { rewrite <- E, Hl. apply rstrip_by_idem. }
    split; [|auto].
    left. split; [reflexivity|]. split; [reflexivity|].
    rewrite <- E, Hl. apply (scan_find_none _ 0 false). exact Hf.
  - destruct (rstrip_by_split is_ws (firstn cpos (rstrip_ws (expand_tabs l (tab_width o)))))
      as (w & Ew & Hw).
    fold (rstrip_ws (firstn cpos (rstrip_ws (expand_tabs l (tab_width o))))) in Ew.
    rewrite <- E1, Ecp in Ew.
    assert (E : line r = indent r ++ key r ++ gap ++ rest r ++ w ++ comment r).
    { rewrite Hl, <- (firstn_skipn cpos (rstrip_ws (expand_tabs l (tab_width o)))).
      rewrite Ew, <- E2, <- !app_assoc. reflexivity. }
    exists gap, w.
    repeat (split; [solve [auto]|]).
    split.
    { rewrite <- Ecp, E1. apply rstrip_by_idem. }
    split; [|auto].
    destruct (scan_find_some _ _ _ _ Hf) as (a & t & Ea & La & Sa).
    simpl in La.
    assert (Ha : a = firstn cpos (rstrip_ws (expand_tabs l (tab_width o)))).
    { rewrite Ea, <- La. symmetry. apply firstn_app_exact. }
    assert (Hcm : comment r = SLASH :: SLASH :: t).
    { rewrite E2, Ea, <- La. apply skipn_app_exact. }
    right. split; [|split; [now exists t|]].
    + assert (Hfix : rstrip_ws (line r) = line r) by (rewrite Hl; apply rstrip_by_idem).
      rewrite E in Hfix. rewrite !app_assoc in Hfix.
      apply (rstrip_by_suffix_fix is_ws _ _ Hfix). rewrite Hcm. discriminate.
    + rewrite Ha, Ew in Sa. rewrite !app_assoc in Sa. rewrite scan_app in Sa.
      rewrite <- !app_assoc in Sa.
      destruct (scan false (indent r ++ key r ++ gap ++ rest r) (slash_head w true))
        as [q'|] eqn:Sq; [|discriminate].
      rewrite scan_plain in Sa
        by (apply forallb_isspace_plain, forallb_ws_isspace, Hw).
      injection Sa as ->.
      destruct w as [|c w]; simpl in Sq.
      * now apply scan_weaken.
      * simpl in Hw. apply andb_true_iff in Hw as [Hc' _].
        apply is_ws_isspace, isspace_plain in Hc'. unfold plain in Hc'.
        apply andb_true_iff in Hc' as [_ Hc']. apply negb_true_iff in Hc'.
        now rewrite Hc' in Sq.
Qed.

(** ** Two quoted strings *)

Lemma dropwhile_until (p : char -> bool) (a : str) (c : char) (t : str) :
  forallb p a = true -> p c = false ->
  dropwhile p (a ++ c :: t) = c :: t /\ takewhile p (a ++ c :: t) = a.
Proof.
  intros Ha Hc. rewrite dropwhile_app_all, takewhile_app_all by assumption.
  simpl. rewrite Hc, app_nil_r. split; reflexivity.
Qed.

Lemma dropwhile_split (p : char -> bool) (s : str) (c : char) (t : str) :
  dropwhile p s = c :: t ->
  s = takewhile p s ++ c :: t /\ forallb p (takewhile p s) = true /\ p c = false.
Proof.
  intros H. split; [|split].
  - rewrite <- H. symmetry. apply take_drop_while.
  - apply takewhile_all.
  - exact (dropwhile_head p s c t H).
Qed.

Lemma two_quoted_shape (s q1 q2 tail : str) :
  split_two_quoted s = Some (q1, q2, tail) ->
  exists w0 a G b,
    s = w0 ++ q1 ++ G ++ q2 ++ tail /\
    q1 = DQ :: a ++ [DQ] /\ q2 = DQ :: b ++ [DQ] /\
    forallb isspace w0 = true /\ forallb isspace G = true /\
    forallb not_dq a = true /\ forallb not_dq b = true.
Proof.
  unfold split_two_quoted. intros H.
  destruct (dropwhile isspace s) as [|c s1] eqn:E1; [discriminate|].
  destruct (negb (ch_eqb c DQ)) eqn:Ec; [discriminate|].
  apply negb_false_iff, ch_eqb_eq in Ec. subst c.
  destruct (dropwhile not_dq s1) as [|c2 s2] eqn:E2; [discriminate|].
  destruct (dropwhile isspace s2) as [|c3 s3] eqn:E3; [discriminate|].
  destruct (negb (ch_eqb c3 DQ)) eqn:Ec3; [discriminate|].
  apply negb_false_iff, ch_eqb_eq in Ec3. subst c3.
  destruct (dropwhile not_dq s3) as [|c4 tail0] eqn:E4; [discriminate|].
  injection H as <- <- <-.
  destruct (dropwhile_split _ _ _ _ E1) as (S1 & W1 & _).
  destruct (dropwhile_split _ _ _ _ E2) as (S2 & W2 & D2).
  destruct (dropwhile_split _ _ _ _ E3) as (S3 & W3 & _).
  destruct (dropwhile_split _ _ _ _ E4) as (S4 & W4 & D4).
  unfold not_dq in D2, D4. apply negb_false_iff, ch_eqb_eq in D2, D4. subst c2 c4.
  exists (takewhile isspace s), (takewhile not_dq s1), (takewhile isspace s2),
    (takewhile not_dq s3).
  repeat split; auto.
  rewrite S1 at 1. rewrite S2 at 1. rewrite S3 at 1. rewrite S4 at 1.
  simpl. rewrite <- !app_assoc. simpl. reflexivity.
Qed.

Lemma two_quoted_build (w0 a G b tail : str) :
  forallb isspace w0 = true -> forallb isspace G = true ->
  forallb not_dq a = true -> forallb not_dq b = true ->
  split_two_quoted (w0 ++ (DQ :: a ++ [DQ]) ++ G ++ (DQ :: b ++ [DQ]) ++ tail)
  = Some (DQ :: a ++ [DQ], DQ :: b ++ [DQ], tail).
Proof.
  intros Hw HG Ha Hb. unfold split_two_quoted.
  rewrite (dropwhile_app_all isspace w0 _ Hw). simpl.
  rewrite <- !app_assoc. simpl.
  destruct (dropwhile_until not_dq a DQ (G ++ DQ :: b ++ DQ :: tail) Ha eq_refl)
    as [-> ->].
  rewrite (dropwhile_app_all isspace G _ HG). simpl.
  destruct (dropwhile_until not_dq b DQ tail Hb eq_refl) as [-> ->].
  reflexivity.
Qed.

(** ** The forms of a rendered command *)

Lemma normalize_idem (l : str) (tw : Z) :
  rstrip_ws (expand_tabs (rstrip_ws (expand_tabs l tw)) tw) = rstrip_ws (expand_tabs l tw).
Proof.
  rewrite (detab_fix (rstrip_ws (expand_tabs l tw))).
  - apply rstrip_by_idem.
  - eapply forallb_incl; [apply incl_rstrip_by | apply detab_no_tab].
Qed.

(** The normalised line is read as the line itself, apart from the
    original it is a copy of. *)
Lemma parse_line_normalized {U : UnicodeData} (o : FormatOptions) (i : nat) (l : str) :
  let r := parse_line o i l in
  parse_line o i (rstrip_ws (expand_tabs l (tab_width o)))
  = reread r (rstrip_ws (expand_tabs l (tab_width o))) (rest r).
Proof.
  unfold reread, parse_line, record_of. rewrite normalize_idem.
  repeat match goal with
         | |- context [if ?b then _ else _] => destruct b
         | |- context [match ?x with Some _ => _ | None => _ end] => destruct x
         | |- context [let '(_, _) := ?x in _] => destruct x
         end; reflexivity.
Qed.

Lemma place_comment_tail (target : option Z) (r : rec) (cf : str) :
  exists n, 1 <= n /\ place_comment target r cf = cf ++ comment_tail n (comment r).
Proof.
  unfold place_comment, comment_tail.
  destruct (comment r) as [|c cm]; simpl.
  - exists 1. split; [lia | now rewrite app_nil_r].
  - destruct target as [t|].
    + destruct (zlen cf <=? t)%Z.
      * exists (Z.to_nat (Z.max 1 (t + 1 - zlen cf))). split; [lia | reflexivity].
      * exists 1. split; [lia | reflexivity].
    + exists 1. split; [lia | reflexivity].
Qed.

Lemma rstrip_key (indent0 key0 : str) :
  key0 <> [] -> forallb not_space key0 = true ->
  rstrip_ws (indent0 ++ key0) = indent0 ++ key0.
Proof.
  intros Hk Hn. destruct (exists_last Hk) as (k' & c & E). subst key0.
  rewrite forallb_app in Hn. apply andb_true_iff in Hn as [_ Hc]. simpl in Hc.
  rewrite andb_true_r in Hc. unfold not_space in Hc. apply negb_true_iff in Hc.
  unfold rstrip_ws. rewrite app_assoc, rstrip_by_snoc.
  destruct (is_ws c) eqn:W; [|reflexivity].
  apply is_ws_isspace in W. congruence.
Qed.

Lemma scan_drop_gap (q : bool) (a g : str) :
  forallb plain g = true -> scan q (a ++ g) false = scan q a false.
Proof.
  intros Hg. rewrite scan_app.
  assert (E : slash_head g false = false).
  { destruct g as [|c g]; [reflexivity|]. simpl in *.
    apply andb_true_iff in Hg as [Hc _]. unfold plain in Hc.
    apply andb_true_iff in Hc as [_ Hc]. now apply negb_true_iff in Hc. }
  rewrite E. destruct (scan q a false); [|reflexivity].
  now apply scan_plain.
Qed.

Lemma spaces_z_pos (z : Z) :
  exists n, 1 <= n /\ spaces_z (Z.max 1 z) = spaces n.
Proof. exists (Z.to_nat (Z.max 1 z)). split; [lia | reflexivity]. Qed.

Lemma spaces_cons (n : nat) : 1 <= n -> spaces n = SP :: spaces (n - 1).
Proof. intros H. destruct n; [lia|]. simpl. now rewrite Nat.sub_0_r. Qed.

Lemma forallb_isspace_spaces (n : nat) : forallb isspace (spaces n) = true.
Proof. apply forallb_spaces. reflexivity. Qed.

Lemma forallb_not_tab_spaces (n : nat) : forallb not_tab (spaces n) = true.
Proof. apply forallb_spaces. reflexivity. Qed.

Section Forms.

Context {U : UnicodeData}.

(** The form of a command that is no table row: what the second run
    needs to read it as the first run read the line. *)
Lemma form_facts (o : FormatOptions) (vcol scol : Z) (widths : list nat)
  (i : nat) (l : str) (gap : str) :
  let r := parse_line o i l in
  let F := code_form (special_keys_of o) (echo_align_tables o) vcol scol widths r in
  kind r = Kcmd ->
  (str_eqb (key_lower r) echo_s = true ->
   is_echo_table_candidate (echo_align_tables o) r && negb (length widths =? 0)
   = false) ->
  forallb isspace gap = true ->
  (str_eqb (key_lower r) echo_s = true -> gap = []) ->
  (str_eqb (key_lower r) echo_s = false ->
     dropwhile isspace (rest r) = rest r /\ (gap = [] -> rest r = [])) ->
  (forall c t, gap ++ rest r = c :: t -> isspace c = true) ->
  rstrip_ws (indent r ++ key r ++ gap ++ rest r)
  = indent r ++ key r ++ gap ++ rest r ->
  key r <> [] -> forallb not_space (key r) = true ->
  forallb not_tab (rest r) = true ->
  (forall c t, F = c :: t -> isspace c = true) /\
  rstrip_ws (indent r ++ key r ++ F) = indent r ++ key r ++ F /\
  scan false (indent r ++ key r ++ F) false
  = scan false (indent r ++ key r ++ gap ++ rest r) false /\
  forallb not_tab F = true /\
  (str_eqb (key_lower r) echo_s = false ->
   forallb isspace F = true -> forallb isspace (gap ++ rest r) = true) /\
  rest_rel o widths r
    (if str_eqb (key_lower r) echo_s then F else dropwhile isspace F).
Proof.
  intros r F K Htab Hg He Hne Hh Hfix Hk Hns Hnt.
  unfold F, code_form.
  destruct (str_eqb (key_lower r) echo_s) eqn:E.
  - rewrite (Htab eq_refl). rewrite (He eq_refl) in *. simpl in *.
    repeat split; auto. now left.
  - destruct (Hne eq_refl) as [Hd Hgr].
    destruct (str_eqb (rest r) []) eqn:Er.
    + apply str_eqb_eq in Er. rewrite Er in *. rewrite !app_nil_r in *.
      split; [discriminate|]. split; [now apply rstrip_key|].
      split; [|split; [reflexivity|split; [auto | now left]]].
      rewrite (app_assoc (indent r) (key r) gap). symmetry.
      apply scan_drop_gap. now apply forallb_isspace_plain.
    + apply str_eqb_neq in Er.
      assert (Ng : gap <> []) by (intros G; now apply Er, Hgr).
      assert (Hrfix : rstrip_ws (rest r) = rest r).
      { rewrite !app_assoc in Hfix. exact (rstrip_by_suffix_fix _ _ _ Hfix Er). }
      destruct (spaces_z_pos (vcol - (zlen (indent r) + zlen (key r))))
        as (n1 & Hn1 & ->).
      destruct (if mem_str (key_lower r) (special_keys_of o)
                then split_two_quoted (rest r) else None)
        as [[[q1 q2] tail]|] eqn:T.
      * assert (Hm : mem_str (key_lower r) (special_keys_of o) = true)
          by (destruct (mem_str _ _); [reflexivity | discriminate]).
        rewrite Hm in T.
        destruct (spaces_z_pos (scol - (zlen (indent r) + zlen (key r)
                                        + Z.max 1 (vcol - (zlen (indent r) + zlen (key r)))
                                        + zlen q1)))
          as (n2 & Hn2 & ->).
        destruct (two_quoted_shape _ _ _ _ T)
          as (w0 & a & G & b & Es & E1 & E2 & Hw0 & HG & Ha & Hb).
        assert (W0 : w0 = []).
        { destruct w0 as [|c w0]; [reflexivity|]. exfalso.
          rewrite Es in Hd. simpl in Hd, Hw0.
          apply andb_true_iff in Hw0 as [Hc _]. rewrite Hc in Hd.
          apply (f_equal (@length char)) in Hd.
          pose proof (incl_dropwhile isspace (w0 ++ q1 ++ G ++ q2 ++ tail)) as I.
          assert (L : length (dropwhile isspace (w0 ++ q1 ++ G ++ q2 ++ tail))
                      <= length (w0 ++ q1 ++ G ++ q2 ++ tail)).
          { rewrite <- (take_drop_while isspace (w0 ++ q1 ++ G ++ q2 ++ tail)) at 2.
            rewrite length_app. lia. }
          simpl in Hd. lia. }
        subst w0. simpl in Es.
        split; [|split; [|split; [|split; [|split]]]].
        -- intros c t Hc. rewrite (spaces_cons n1 Hn1) in Hc. simpl in Hc.
           injection Hc as <- _. reflexivity.
        -- destruct tail as [|ct tail'].
           ++ rewrite E2, !app_nil_r. unfold rstrip_ws.
              rewrite !app_assoc. rewrite app_comm_cons, !app_assoc.
              rewrite rstrip_by_snoc. reflexivity.
           ++ unfold rstrip_ws. rewrite !app_assoc.
              apply rstrip_by_app_fix; [discriminate|].
              rewrite Es, !app_assoc in Hrfix.
              apply (rstrip_by_suffix_fix _ _ _ Hrfix). discriminate.
        -- rewrite Es.
           rewrite (app_assoc (indent r) (key r) (gap ++ _)).
           rewrite (app_assoc (indent r) (key r) (spaces n1 ++ _)).
           rewrite (scan_gap false (indent r ++ key r) gap (spaces n1));
             [|now apply forallb_isspace_plain | apply forallb_plain_spaces
              |destruct n1; [lia | discriminate] | now left].
           rewrite (app_assoc (spaces n1) q1), (app_assoc (indent r ++ key r)).
           rewrite (app_assoc (spaces n1) q1 (G ++ _)),
             (app_assoc (indent r ++ key r) (spaces n1 ++ q1)).
           symmetry. apply scan_gap;
             [now apply forallb_isspace_plain | apply forallb_plain_spaces
             |destruct n2; [lia | discriminate]|].
           right. rewrite E2. reflexivity.
        -- rewrite Es in Hnt. rewrite !forallb_app in Hnt.
           apply andb_true_iff in Hnt as [H1 Hnt].
           apply andb_true_iff in Hnt as [_ Hnt].
           apply andb_true_iff in Hnt as [H2 H3].
           rewrite !forallb_app, H1, H2, H3, !forallb_not_tab_spaces. reflexivity.
        -- intros _ Hall. exfalso. rewrite !forallb_app in Hall.
           apply andb_true_iff in Hall as [_ Hall].
           apply andb_true_iff in Hall as [Hall _]. rewrite E1 in Hall.
           simpl in Hall. discriminate.
        -- right. left. split; [exact E|]. split; [exact Hm|].
           exists q1, q2, tail, n2. split; [exact T|]. split; [exact Hn2|].
           rewrite dropwhile_app_all by apply forallb_isspace_spaces.
           rewrite E1. reflexivity.
      * clear T.
        split; [|split; [|split; [|split; [|split]]]].
        -- intros c t Hc. rewrite (spaces_cons n1 Hn1) in Hc. simpl in Hc.
           injection Hc as <- _. reflexivity.
        -- unfold rstrip_ws. rewrite !app_assoc.
           apply rstrip_by_app_fix; assumption.
        -- rewrite (app_assoc (indent r) (key r) (gap ++ _)).
           rewrite (app_assoc (indent r) (key r) (spaces n1 ++ _)).
           symmetry. apply scan_gap;
             [now apply forallb_isspace_plain | apply forallb_plain_spaces
             |destruct n1; [lia | discriminate] | now left].
        -- now rewrite forallb_app, forallb_not_tab_spaces.
        -- intros _ Hall. exfalso. rewrite forallb_app in Hall.
           apply andb_true_iff in Hall as [_ Hall].
           destruct (rest r) as [|c t] eqn:Rr; [congruence|].
           simpl in Hall, Hd. apply andb_true_iff in Hall as [Hc _].
           rewrite Hc in Hd.
           assert (L : length (dropwhile isspace t) <= length t).
           { rewrite <- (take_drop_while isspace t) at 2. rewrite length_app. lia. }
           apply (f_equal (@length char)) in Hd. simpl in Hd. lia.
        -- left. rewrite dropwhile_app_all by apply forallb_isspace_spaces.
           exact Hd.
Qed.

End Forms.

(** ** A rendered command is no boundary and no comment line *)

Lemma lower_echo_semi {U : UnicodeData} (s : str) :
  lower s = lit "echo;" -> forallb not_space s = true.
Proof.
  intros H. apply forallb_forall. intros c Hc. unfold not_space.
  destruct (isspace c) eqn:E; [|reflexivity]. exfalso.
  pose proof (lower_space s c Hc E) as Hin. rewrite H in Hin.
  simpl in Hin.
  repeat (destruct Hin as [<- | Hin]; [discriminate|]). exact Hin.
Qed.

Lemma takewhile_not_space_ws (w : str) :
  forallb isspace w = true -> takewhile not_space w = [].
Proof.
  destruct w as [|c w]; [reflexivity|]. simpl. intros H.
  apply andb_true_iff in H as [Hc _]. unfold not_space. now rewrite Hc.
Qed.

Lemma lstrip_indent_key (indent0 key0 Y : str) :
  forallb isspace indent0 = true -> key0 <> [] ->
  forallb not_space key0 = true ->
  lstrip (indent0 ++ key0 ++ Y) = key0 ++ Y.
Proof.
  intros Hi Hk Hn. unfold lstrip, lstrip_by.
  rewrite dropwhile_app_all by assumption.
  destruct key0 as [|k key1]; [congruence|]. simpl in *.
  apply andb_true_iff in Hn as [Hn _]. unfold not_space in Hn.
  apply negb_true_iff in Hn. now rewrite Hn.
Qed.

(** A stripped line without whitespace is the key alone. *)
Lemma strip_space_free (indent0 key0 Y : str) :
  forallb isspace indent0 = true -> key0 <> [] ->
  forallb not_space key0 = true ->
  (forall c t, Y = c :: t -> isspace c = true) ->
  forallb not_space (strip (indent0 ++ key0 ++ Y)) = true ->
  forallb isspace Y = true /\ strip (indent0 ++ key0 ++ Y) = key0.
Proof.
  intros Hi Hk Hn HY Hfree.
  unfold strip, strip_by in *. fold (lstrip (indent0 ++ key0 ++ Y)) in *.
  rewrite (lstrip_indent_key _ _ _ Hi Hk Hn) in *.
  destruct (rstrip_by_split isspace (key0 ++ Y)) as (w & E & Hw).
  remember (rstrip_by isspace (key0 ++ Y)) as v eqn:Ev. clear Ev.
  assert (T1 : takewhile not_space (key0 ++ Y) = key0).
  { rewrite takewhile_app_all by assumption.
    destruct (head_space_takewhile Y HY) as [-> _]. apply app_nil_r. }
  assert (T2 : takewhile not_space (v ++ w) = v).
  { rewrite takewhile_app_all by assumption.
    rewrite (takewhile_not_space_ws w Hw). apply app_nil_r. }
  rewrite E, T2 in T1. subst v. split; [|reflexivity].
  apply app_inv_head in E. now subst.
Qed.

Lemma strip_key_ws (indent0 key0 Y : str) :
  forallb isspace indent0 = true -> key0 <> [] ->
  forallb not_space key0 = true -> forallb isspace Y = true ->
  strip (indent0 ++ key0 ++ Y) = key0.
Proof.
  intros Hi Hk Hn HY. unfold strip, strip_by.
  fold (lstrip (indent0 ++ key0 ++ Y)).
  rewrite (lstrip_indent_key _ _ _ Hi Hk Hn).
  rewrite rstrip_by_app_all by assumption.
  apply rstrip_by_fix. intros t c E. subst key0.
  rewrite forallb_app in Hn. apply andb_true_iff in Hn as [_ Hc]. simpl in Hc.
  rewrite andb_true_r in Hc. unfold not_space in Hc. now apply negb_true_iff in Hc.
Qed.

Lemma startswith_app (p a b : str) :
  startswith p a = true -> startswith p (a ++ b) = true.
Proof.
  revert a. induction p as [|x p IH]; intros a; [reflexivity|].
  destruct a as [|y a]; simpl; [discriminate|].
  intros H. apply andb_true_iff in H as [-> H]. simpl. now apply IH.
Qed.

Lemma startswith_marker_key (key0 Y : str) :
  key0 <> [] ->
  (forall c t, Y = c :: t -> ch_eqb SLASH c = false) ->
  startswith (lit "//") (key0 ++ Y) = startswith (lit "//") key0.
Proof.
  intros Hk HY. destruct key0 as [|k [|k2 key2]]; [congruence| |reflexivity].
  change (lit "//") with [SLASH; SLASH].
  destruct Y as [|c t]; cbn [startswith app]; [reflexivity|].
  rewrite (HY c t eq_refl). cbn [andb]. reflexivity.
Qed.

Lemma comment_tail_head (n : nat) (cm : str) (c : char) (t : str) :
  1 <= n -> comment_tail n cm = c :: t -> c = SP.
Proof.
  intros Hn. unfold comment_tail. destruct cm; [discriminate|].
  rewrite (spaces_cons n Hn). simpl. now intros [= <- _].
Qed.

Lemma rendered_not_boundary {U : UnicodeData} (bmode : bool)
  (indent0 key0 gap rest0 w cm F : str) (n : nat) :
  forallb isspace indent0 = true -> key0 <> [] ->
  forallb not_space key0 = true ->
  (forall c t, F = c :: t -> isspace c = true) ->
  1 <= n ->
  (cm = [] \/ exists t, cm = SLASH :: SLASH :: t) ->
  (cm = [] -> w = []) ->
  startswith (lit "//") (lstrip (indent0 ++ key0 ++ gap ++ rest0 ++ w ++ cm)) = false ->
  bmode && is_block_boundary_B (indent0 ++ key0 ++ gap ++ rest0 ++ w ++ cm) = false ->
  (str_eqb (lower key0) echo_s = false ->
   forallb isspace F = true -> forallb isspace (gap ++ rest0) = true) ->
  bmode && is_block_boundary_B ((indent0 ++ key0 ++ F) ++ comment_tail n cm) = false /\
  startswith (lit "//") (lstrip ((indent0 ++ key0 ++ F) ++ comment_tail n cm)) = false.
Proof.
  intros Hi Hk Hn HF Hn1 Hcm Hw Hp1 Hb1 HFB.
  set (Y := F ++ comment_tail n cm).
  assert (ER : (indent0 ++ key0 ++ F) ++ comment_tail n cm = indent0 ++ key0 ++ Y).
  { unfold Y. now rewrite <- !app_assoc. }
  rewrite ER.
  assert (HY : forall c t, Y = c :: t -> isspace c = true).
  { intros c t E. unfold Y in E. destruct F as [|f F'].
    - simpl in E. now rewrite (comment_tail_head n cm c t Hn1 E).
    - simpl in E. injection E as <- _. exact (HF f F' eq_refl). }
  assert (Hpass : startswith (lit "//") (lstrip (indent0 ++ key0 ++ Y)) = false).
  { rewrite (lstrip_indent_key _ _ _ Hi Hk Hn).
    rewrite startswith_marker_key; [|exact Hk|].
    - destruct (startswith (lit "//") key0) eqn:E; [|reflexivity].
      rewrite (lstrip_indent_key _ _ _ Hi Hk Hn) in Hp1.
      now rewrite (startswith_app _ _ _ E) in Hp1.
    - intros c t E. specialize (HY c t E).
      destruct (ch_eqb SLASH c) eqn:Q; [|reflexivity].
      apply ch_eqb_eq in Q. subst c. discriminate. }
  split; [|exact Hpass].
  destruct bmode; [|reflexivity]. cbn [andb] in Hb1 |- *.
  unfold is_block_boundary_B. cbv zeta.
  destruct (str_eqb (lower (strip (indent0 ++ key0 ++ Y))) []) eqn:E1.
  { exfalso. apply str_eqb_eq in E1. apply (proj1 (lower_nil _)) in E1.
    apply strip_nil_all in E1. rewrite !forallb_app in E1.
    destruct key0 as [|k key1]; [congruence|]. simpl in E1, Hn.
    apply andb_true_iff in Hn as [Hk0 _]. unfold not_space in Hk0.
    apply negb_true_iff in Hk0. rewrite Hk0 in E1. simpl in E1.
    now rewrite andb_false_r in E1. }
  destruct (str_eqb (lower (strip (indent0 ++ key0 ++ Y))) (lit "echo;")) eqn:E2.
  { exfalso. apply str_eqb_eq in E2.
    destruct (strip_space_free _ _ _ Hi Hk Hn HY (lower_echo_semi _ E2))
      as [Yws Es].
    rewrite Es in E2.
    assert (Ee : str_eqb (lower key0) echo_s = false) by now rewrite E2.
    unfold Y in Yws. rewrite forallb_app in Yws.
    apply andb_true_iff in Yws as [Fws Tws].
    assert (Ecm : cm = []).
    { destruct Hcm as [-> | [t ->]]; [reflexivity|]. exfalso.
      unfold comment_tail in Tws. rewrite forallb_app in Tws.
      apply andb_true_iff in Tws as [_ Tws]. discriminate. }
    subst cm. rewrite (Hw eq_refl) in Hb1. simpl in Hb1.
    rewrite app_nil_r in Hb1.
    unfold is_block_boundary_B in Hb1. cbv zeta in Hb1.
    rewrite (strip_key_ws _ _ _ Hi Hk Hn (HFB Ee Fws)), E2 in Hb1.
    simpl in Hb1. discriminate. }
  destruct (is_separator_comment_line (indent0 ++ key0 ++ Y)) eqn:E3;
    [|reflexivity].
  exfalso. unfold is_separator_comment_line in E3. rewrite Hpass in E3.
  discriminate.
Qed.

(** ** Stripping, splitting and joining *)

Lemma dropwhile_app_keep (p : char -> bool) (s t : str) :
  dropwhile p s <> [] -> dropwhile p (s ++ t) = dropwhile p s ++ t.
Proof.
  induction s as [|c s IH]; simpl; [congruence|].
  destruct (p c); [exact IH | reflexivity].
Qed.

Lemma strip_split (s : str) :
  exists wl wr, s = wl ++ strip s ++ wr /\
                forallb isspace wl = true /\ forallb isspace wr = true.
Proof.
  unfold strip, strip_by, lstrip_by.
  destruct (rstrip_by_split isspace (dropwhile isspace s)) as (wr & E & Hw).
  exists (takewhile isspace s), wr. split; [|split].
  - rewrite <- E. symmetry. apply take_drop_while.
  - apply takewhile_all.
  - exact Hw.
Qed.

Lemma strip_pad (w s w' : str) :
  forallb isspace w = true -> forallb isspace w' = true ->
  strip (w ++ s ++ w') = strip s.
Proof.
  intros Hw Hw'. unfold strip, strip_by, lstrip_by.
  rewrite dropwhile_app_all by assumption.
  destruct (dropwhile isspace s) as [|c t] eqn:E.
  - rewrite dropwhile_app_all by now apply dropwhile_nil_all.
    now rewrite (dropwhile_all _ _ Hw').
  - rewrite dropwhile_app_keep by (rewrite E; discriminate).
    rewrite E. now apply rstrip_by_app_all.
Qed.

Lemma strip_ws_prefix (w s : str) :
  forallb isspace w = true -> strip (w ++ s) = strip s.
Proof.
  intros Hw. rewrite <- (app_nil_r s) at 1. now apply strip_pad.
Qed.

Lemma strip_ws_suffix (s w : str) :
  forallb isspace w = true -> strip (s ++ w) = strip s.
Proof. intros Hw. apply (strip_pad [] s w); [reflexivity | exact Hw]. Qed.

Lemma strip_head (s : str) (x : char) (t : str) :
  strip s = x :: t -> isspace x = false.
Proof.
  unfold strip, strip_by, lstrip_by. intros H.
  destruct (rstrip_by_split isspace (dropwhile isspace s)) as (w & E & _).
  rewrite H in E. simpl in E. exact (dropwhile_head isspace s x _ E).
Qed.

Lemma strip_last (s t : str) (y : char) :
  strip s = t ++ [y] -> isspace y = false.
Proof. unfold strip, strip_by. apply rstrip_by_last. Qed.

(** A string that starts and ends with a character that is no
    whitespace is its own strip. *)
Lemma strip_fix (x : char) (t : str) :
  isspace x = false -> rstrip (x :: t) = x :: t -> strip (x :: t) = x :: t.
Proof.
  intros Hx Hr. unfold strip, strip_by, lstrip_by.
  rewrite (dropwhile_stop isspace x t Hx). exact Hr.
Qed.

Lemma strip_idem (s : str) : strip (strip s) = strip s.
Proof.
  destruct (strip s) as [|x t] eqn:E; [reflexivity|].
  apply strip_fix; [exact (strip_head s x t E)|].
  unfold rstrip. rewrite <- E. unfold strip, strip_by. apply rstrip_by_idem.
Qed.

Lemma strip_rstrip (s : str) : strip (rstrip s) = strip s.
Proof.
  unfold rstrip. destruct (rstrip_by_split isspace s) as (w & E & Hw).
  rewrite E at 2. symmetry. now apply strip_ws_suffix.
Qed.

Lemma rstrip_keeps_head (p : char -> bool) (x : char) (t : str) :
  p x = false -> exists t', rstrip_by p (x :: t) = x :: t'.
Proof.
  intros Hx. destruct (rstrip_by_split p (x :: t)) as (w & E & Hw).
  destruct (rstrip_by p (x :: t)) as [|x' t'] eqn:R.
  - simpl in E. subst w. simpl in Hw. rewrite Hx in Hw. discriminate.
  - simpl in E. injection E as <- _. now exists t'.
Qed.

Lemma split_on_nonempty (c : char) (s : str) : split_on c s <> [].
Proof.
  destruct s as [|x s]; simpl; [discriminate|].
  destruct (ch_eqb x c); [discriminate|]. destruct (split_on c s); discriminate.
Qed.

Lemma split_on_free (c : char) (a : str) :
  free_of c a = true -> split_on c a = [a].
Proof.
  induction a as [|x a IH]; simpl; [reflexivity|].
  intros H. apply andb_true_iff in H as [Hx Ha]. apply negb_true_iff in Hx.
  rewrite Hx, (IH Ha). reflexivity.
Qed.

Lemma split_on_app (c : char) (a b : str) :
  free_of c a = true -> split_on c (a ++ c :: b) = a :: split_on c b.
Proof.
  induction a as [|x a IH]; simpl.
  - intros _. now rewrite ch_eqb_refl.
  - intros H. apply andb_true_iff in H as [Hx Ha]. apply negb_true_iff in Hx.
    rewrite Hx, (IH Ha). reflexivity.
Qed.

Lemma split_on_fields_free (c : char) (s f : str) :
  In f (split_on c s) -> free_of c f = true.
Proof.
  revert f. induction s as [|x s IH]; simpl; intros f.
  - intros [<- | []]. reflexivity.
  - destruct (ch_eqb x c) eqn:E.
    + intros [<- | H]; [reflexivity | now apply IH].
    + destruct (split_on c s) as [|g gs] eqn:S.
      * intros [<- | []]. simpl. now rewrite E.
      * intros [<- | H].
        -- simpl. rewrite E. simpl. apply IH. now left.
        -- apply IH. now right.
Qed.

Lemma split_on_prefix (c : char) (w s : str) :
  free_of c w = true ->
  split_on c (w ++ s)
  = match split_on c s with
    | f :: fs => (w ++ f) :: fs
    | [] => [w]
    end.
Proof.
  induction w as [|x w IH]; simpl.
  - intros _. destruct (split_on c s) eqn:E; [|reflexivity].
    now destruct (split_on_nonempty c s).
  - intros H. apply andb_true_iff in H as [Hx Hw]. apply negb_true_iff in Hx.
    rewrite Hx, (IH Hw). destruct (split_on c s); reflexivity.
Qed.

Lemma split_on_snoc (c : char) (s w : str) :
  free_of c w = true ->
  exists fs fl, split_on c s = fs ++ [fl] /\
                split_on c (s ++ w) = fs ++ [fl ++ w].
Proof.
  intros Hw. induction s as [|x s IH]; simpl.
  - exists [], []. split; [reflexivity|]. now apply split_on_free.
  - destruct IH as (fs & fl & E1 & E2). rewrite E1, E2.
    destruct (ch_eqb x c).
    + exists ([] :: fs), fl. split; reflexivity.
    + destruct fs as [|g fs]; simpl.
      * exists [], (x :: fl). split; reflexivity.
      * exists ((x :: g) :: fs), fl. split; reflexivity.
Qed.

Lemma join_split (c : char) (s : str) : join [c] (split_on c s) = s.
Proof.
  induction s as [|x s IH]; simpl; [reflexivity|].
  destruct (ch_eqb x c) eqn:E.
  - apply ch_eqb_eq in E. subst x.
    destruct (split_on c s) as [|g gs] eqn:S; [now destruct (split_on_nonempty c s)|].
    rewrite join_cons2, IH. reflexivity.
  - destruct (split_on c s) as [|g gs] eqn:S; [now destruct (split_on_nonempty c s)|].
    destruct gs as [|g2 gs].
    + simpl in *. now rewrite IH.
    + rewrite join_cons2 in IH |- *. rewrite <- IH. reflexivity.
Qed.

Lemma isspace_free_pipe (w : str) :
  forallb isspace w = true -> free_of PIPE w = true.
Proof.
  unfold free_of. rewrite !forallb_forall. intros H x Hx.
  destruct (ch_eqb x PIPE) eqn:E; [|reflexivity].
  apply ch_eqb_eq in E. subst x. now specialize (H _ Hx).
Qed.

Lemma fields_of_ws_prefix (w s : str) :
  forallb isspace w = true -> fields_of (w ++ s) = fields_of s.
Proof.
  intros Hw. unfold fields_of.
  rewrite (split_on_prefix PIPE w s (isspace_free_pipe w Hw)).
  destruct (split_on PIPE s) as [|f fs] eqn:E;
    [now destruct (split_on_nonempty PIPE s)|].
  simpl. now rewrite strip_ws_prefix.
Qed.

Lemma fields_of_ws_suffix (s w : str) :
  forallb isspace w = true -> fields_of (s ++ w) = fields_of s.
Proof.
  intros Hw. unfold fields_of.
  destruct (split_on_snoc PIPE s w (isspace_free_pipe w Hw)) as (fs & fl & E1 & E2).
  rewrite E1, E2, !map_app. simpl. now rewrite strip_ws_suffix.
Qed.

Lemma fields_of_strip (s : str) : fields_of (strip s) = fields_of s.
Proof.
  destruct (strip_split s) as (wl & wr & E & Hl & Hr).
  rewrite E at 2. rewrite fields_of_ws_prefix, fields_of_ws_suffix by assumption.
  reflexivity.
Qed.

Lemma fields_of_rstrip (s : str) : fields_of (rstrip s) = fields_of s.
Proof.
  unfold rstrip. destruct (rstrip_by_split isspace s) as (w & E & Hw).
  rewrite E at 2. now rewrite fields_of_ws_suffix.
Qed.

(** The fields joined with " | " are read back stripped. *)
Lemma fields_of_join (L : list str) :
  L <> [] -> (forall f, In f L -> free_of PIPE f = true) ->
  fields_of (join sep_pipe L) = map strip L.
Proof.
  induction L as [|f L IH]; [congruence|]. intros _ H.
  destruct L as [|g L].
  - simpl. unfold fields_of. rewrite split_on_free by (apply H; now left).
    reflexivity.
  - assert (E : join sep_pipe (f :: g :: L)
                = (f ++ [SP]) ++ PIPE :: ([SP] ++ join sep_pipe (g :: L))).
    { rewrite join_cons2, <- app_assoc. reflexivity. }
    rewrite E. unfold fields_of. rewrite split_on_app.
    + change (map strip ((f ++ [SP]) :: split_on PIPE ([SP] ++ join sep_pipe (g :: L))))
        with (strip (f ++ [SP]) :: fields_of ([SP] ++ join sep_pipe (g :: L))).
      rewrite strip_ws_suffix by reflexivity.
      rewrite fields_of_ws_prefix by reflexivity.
      rewrite IH; [reflexivity | discriminate|].
      intros x Hx. apply H. now right.
    + unfold free_of. rewrite forallb_app.
      fold (free_of PIPE f). rewrite (H f (or_introl eq_refl)). reflexivity.
Qed.

(** ** The ends of a table row body *)

Lemma endswith_snoc (c : char) (s : str) (y : char) :
  endswith [c] (s ++ [y]) = ch_eqb c y.
Proof.
  unfold endswith. rewrite rev_app_distr. simpl. apply andb_true_r.
Qed.

Lemma dropwhile_snoc_keep (p : char -> bool) (s : str) (y : char) :
  p y = false -> exists d, dropwhile p (s ++ [y]) = d ++ [y].
Proof.
  intros Hy. induction s as [|c s IH]; simpl.
  - rewrite Hy. now exists [].
  - destruct (p c); [exact IH|]. now exists (c :: s).
Qed.

Lemma strip_by_split (p : char -> bool) (s : str) :
  exists l r, s = l ++ strip_by p s ++ r /\
              forallb p l = true /\ forallb p r = true.
Proof.
  unfold strip_by, lstrip_by.
  destruct (rstrip_by_split p (dropwhile p s)) as (r & E & Hr).
  exists (takewhile p s), r. split; [|split].
  - rewrite <- E. symmetry. apply take_drop_while.
  - apply takewhile_all.
  - exact Hr.
Qed.

Lemma strip_by_keeps_last (p : char -> bool) (s : str) (y : char) :
  p y = false -> exists t, strip_by p (s ++ [y]) = t ++ [y].
Proof.
  intros Hy. unfold strip_by, lstrip_by.
  destruct (dropwhile_snoc_keep p s y Hy) as (d & ->).
  exists d. now rewrite rstrip_by_snoc, Hy.
Qed.

Lemma strip_by_keeps_head (p : char -> bool) (x : char) (t : str) :
  p x = false -> exists t', strip_by p (x :: t) = x :: t'.
Proof.
  intros Hx. unfold strip_by, lstrip_by. rewrite (dropwhile_stop p x t Hx).
  now apply rstrip_keeps_head.
Qed.

Lemma rstrip_by_keep_upto (p : char -> bool) (a : str) (c : char) (t : str) :
  p c = false -> exists t', rstrip_by p (a ++ c :: t) = a ++ c :: t'.
Proof.
  intros Hc. destruct (rstrip_keeps_head p c t Hc) as (t' & E).
  exists t'. destruct (rstrip_by_split p (c :: t)) as (w & Ew & Hw).
  rewrite E in Ew. rewrite Ew.
  change (a ++ (c :: t') ++ w) with (a ++ (c :: t') ++ w).
  rewrite app_assoc, rstrip_by_app_all by exact Hw.
  apply rstrip_by_fix. intros u z Hu.
  assert (Hz : rstrip_by p (c :: t) = c :: t') by exact E.
  destruct (exists_last (l := c :: t')) as (u' & z' & Ez); [discriminate|].
  rewrite Ez in Hu, Hz. rewrite app_assoc in Hu.
  apply app_inj_tail in Hu as [_ <-].
  exact (rstrip_by_last p (c :: t) u' z' Hz).
Qed.

Lemma join_head (sep : str) (x : char) (a : str) (fs : list str) :
  exists t, join sep ((x :: a) :: fs) = x :: t.
Proof. destruct fs; simpl; eexists; reflexivity. Qed.

Lemma join_last (sep : str) (fs : list str) (a : str) (y : char) :
  exists t, join sep (fs ++ [a ++ [y]]) = t ++ [y].
Proof.
  rewrite join_snoc. destruct fs.
  - now exists a.
  - eexists. rewrite !app_assoc. reflexivity.
Qed.

Section Pads.

Context {U : UnicodeData}.

Lemma pad_fields_cons (widths : list nat) (i : nat) (f : str) (fs : list str) :
  exists k, pad_fields widths i (f :: fs)
            = (f ++ spaces k) :: pad_fields widths (S i) fs.
Proof. simpl. eexists. reflexivity. Qed.

Lemma pad_fields_snoc (widths : list nat) (i : nat) (fs : list str) (f : str) :
  exists k, pad_fields widths i (fs ++ [f])
            = pad_fields widths i fs ++ [f ++ spaces k].
Proof.
  revert i. induction fs as [|g fs IH]; intros i; simpl.
  - eexists. reflexivity.
  - destruct (IH (S i)) as (k & ->). exists k. reflexivity.
Qed.

Lemma pad_fields_strip (widths : list nat) (i : nat) (fs : list str) :
  map strip (pad_fields widths i fs) = map strip fs.
Proof.
  revert i. induction fs as [|g fs IH]; intros i; simpl; [reflexivity|].
  rewrite IH, strip_ws_suffix by apply forallb_isspace_spaces. reflexivity.
Qed.

Lemma pad_fields_nil (widths : list nat) (i : nat) (fs : list str) :
  pad_fields widths i fs = [] -> fs = [].
Proof. destruct fs; [reflexivity | discriminate]. Qed.

Lemma pad_fields_free (widths : list nat) (i : nat) (fs : list str) :
  (forall f, In f fs -> free_of PIPE f = true) ->
  forall f, In f (pad_fields widths i fs) -> free_of PIPE f = true.
Proof.
  apply (pad_fields_chars (fun x => negb (ch_eqb x PIPE))). reflexivity.
Qed.

End Pads.

Lemma fields_of_stripped (s f : str) : In f (fields_of s) -> strip f = f.
Proof.
  unfold fields_of. intros H. apply in_map_iff in H as (g & <- & _).
  apply strip_idem.
Qed.

Lemma fields_of_free (s f : str) : In f (fields_of s) -> free_of PIPE f = true.
Proof.
  unfold fields_of. intros H. apply in_map_iff in H as (g & <- & Hg).
  apply split_on_fields_free in Hg. unfold free_of in *.
  eapply forallb_incl; [apply incl_strip_by | exact Hg].
Qed.

Lemma map_strip_fields (s : str) : map strip (fields_of s) = fields_of s.
Proof.
  unfold fields_of. rewrite map_map. apply map_ext. intros a. apply strip_idem.
Qed.

Lemma fields_of_nonempty (s : str) : fields_of s <> [].
Proof.
  unfold fields_of. intros H. apply map_eq_nil in H.
  now apply split_on_nonempty in H.
Qed.

(** ** Scans, art chunks and counts over the fields of a row *)

Lemma scan_pad (q : bool) (w s w' : str) :
  forallb plain w = true -> forallb plain w' = true ->
  scan q (w ++ s ++ w') false = scan q s false.
Proof.
  intros Hw Hw'. rewrite scan_app, (scan_plain q w _ Hw), scan_app.
  assert (E : slash_head w' false = false).
  { destruct w' as [|c w']; [reflexivity|].
    exact (slash_head_plain (c :: w') [] false Hw' ltac:(discriminate)). }
  rewrite E. destruct (scan q s false); [|reflexivity].
  now apply scan_plain.
Qed.

Lemma scan_pad_l (q : bool) (w s : str) :
  forallb plain w = true -> scan q (w ++ s) false = scan q s false.
Proof.
  intros Hw. rewrite <- (app_nil_r s) at 1. now apply scan_pad.
Qed.

Lemma scan_pad_r (q : bool) (s w' : str) :
  forallb plain w' = true -> scan q (s ++ w') false = scan q s false.
Proof.
  intros Hw. change (s ++ w') with ([] ++ s ++ w'). now apply scan_pad.
Qed.

Lemma scan_strip (q : bool) (s : str) :
  scan q (strip s) false = scan q s false.
Proof.
  destruct (strip_by_split isspace s) as (l & r & E & Hl & Hr).
  rewrite E at 2. symmetry.
  apply scan_pad; now apply forallb_isspace_plain.
Qed.

Lemma is_pipe_plain (w : str) : forallb is_pipe w = true -> forallb plain w = true.
Proof.
  intros H. rewrite forallb_forall in *. intros c Hc. specialize (H c Hc).
  unfold is_pipe in H. apply ch_eqb_eq in H. now subst c.
Qed.

Lemma scan_strip_pipes (q : bool) (s : str) :
  scan q (strip_by is_pipe s) false = scan q s false.
Proof.
  destruct (strip_by_split is_pipe s) as (l & r & E & Hl & Hr).
  rewrite E at 2. symmetry.
  apply scan_pad; now apply is_pipe_plain.
Qed.

Lemma scan_join (sep : str) (L : list str) (q : bool) :
  forallb plain sep = true -> sep <> [] ->
  scan q (join sep L) false = scanL q L.
Proof.
  intros Hs Ns. revert q. induction L as [|f L IH]; intros q; [reflexivity|].
  destruct L as [|g L].
  - simpl. destruct (scan q f false); reflexivity.
  - rewrite join_cons2. cbn [scanL]. rewrite scan_app.
    rewrite (slash_head_plain sep _ false Hs Ns).
    destruct (scan q f false) as [q'|]; [|reflexivity].
    rewrite scan_pad_l by exact Hs. apply IH.
Qed.

Lemma scanL_map (h : str -> str) (L : list str) (q : bool) :
  (forall f q', scan q' (h f) false = scan q' f false) ->
  scanL q (map h L) = scanL q L.
Proof.
  intros H. revert q. induction L as [|f L IH]; intros q; simpl; [reflexivity|].
  rewrite H. destruct (scan q f false); [apply IH | reflexivity].
Qed.

Lemma scanL_pad {U : UnicodeData} (widths : list nat) (i : nat)
  (L : list str) (q : bool) :
  scanL q (pad_fields widths i L) = scanL q L.
Proof.
  revert i q. induction L as [|f L IH]; intros i q; simpl; [reflexivity|].
  rewrite scan_pad_r by apply forallb_plain_spaces.
  destruct (scan q f false); [apply IH | reflexivity].
Qed.

Lemma scan_fields (q : bool) (s : str) :
  scan q s false = scanL q (fields_of s).
Proof.
  rewrite <- (join_split PIPE s) at 1.
  rewrite (scan_join [PIPE] (split_on PIPE s) q eq_refl ltac:(discriminate)).
  unfold fields_of. symmetry. apply scanL_map. intros f q'. apply scan_strip.
Qed.

(** *** Art chunks *)

Lemma has_art_pad_l (w s : str) :
  forallb (fun c => negb (is_art c)) w = true ->
  has_art_chunk (w ++ s) = has_art_chunk s.
Proof.
  induction w as [|c w IH]; intros H; [reflexivity|].
  simpl in H. apply andb_true_iff in H as [Hc Hw]. apply negb_true_iff in Hc.
  specialize (IH Hw). cbn [app has_art_chunk].
  destruct (w ++ s) eqn:E.
  - rewrite <- IH. reflexivity.
  - rewrite Hc. simpl. exact IH.
Qed.

Lemma has_art_sep (a g b : str) :
  forallb (fun c => negb (is_art c)) g = true -> g <> [] ->
  has_art_chunk (a ++ g ++ b) = has_art_chunk a || has_art_chunk b.
Proof.
  intros Hg Ng. induction a as [|c a IH].
  - exact (has_art_pad_l g b Hg).
  - cbn [app has_art_chunk]. destruct a as [|d a].
    + cbn [app]. destruct g as [|x g]; [congruence|].
      cbn [app]. simpl in Hg. apply andb_true_iff in Hg as [Hx _].
      apply negb_true_iff in Hx. rewrite Hx, andb_false_r. simpl.
      exact IH.
    + cbn [app]. cbn [app] in IH. rewrite IH.
      now rewrite orb_assoc.
Qed.

Lemma has_art_pad_r (s w : str) :
  forallb (fun c => negb (is_art c)) w = true ->
  has_art_chunk (s ++ w) = has_art_chunk s.
Proof.
  intros Hw. destruct w as [|c w]; [now rewrite app_nil_r|].
  rewrite <- (app_nil_r (c :: w)).
  rewrite (has_art_sep s (c :: w) [] Hw ltac:(discriminate)).
  apply orb_false_r.
Qed.

Lemma isspace_not_art_char (c : char) : isspace c = true -> is_art c = false.
Proof.
  intros H. unfold is_art.
  destruct (ch_eqb c 95%N) eqn:E1; [apply ch_eqb_eq in E1; subst; discriminate|].
  destruct (ch_eqb c SLASH) eqn:E2; [apply ch_eqb_eq in E2; subst; discriminate|].
  destruct (ch_eqb c 92%N) eqn:E3; [apply ch_eqb_eq in E3; subst; discriminate|].
  reflexivity.
Qed.

Lemma isspace_not_art (w : str) :
  forallb isspace w = true -> forallb (fun c => negb (is_art c)) w = true.
Proof.
  intros H. rewrite forallb_forall in *. intros c Hc.
  now rewrite (isspace_not_art_char c (H c Hc)).
Qed.

Lemma is_pipe_not_art (w : str) :
  forallb is_pipe w = true -> forallb (fun c => negb (is_art c)) w = true.
Proof.
  intros H. rewrite forallb_forall in *. intros c Hc. specialize (H c Hc).
  unfold is_pipe in H. apply ch_eqb_eq in H. now subst c.
Qed.

Lemma has_art_pad (w s w' : str) :
  forallb (fun c => negb (is_art c)) w = true ->
  forallb (fun c => negb (is_art c)) w' = true ->
  has_art_chunk (w ++ s ++ w') = has_art_chunk s.
Proof.
  intros Hw Hw'. now rewrite has_art_pad_l, has_art_pad_r.
Qed.

Lemma has_art_strip (s : str) : has_art_chunk (strip s) = has_art_chunk s.
Proof.
  destruct (strip_by_split isspace s) as (l & r & E & Hl & Hr).
  rewrite E at 2. symmetry. apply has_art_pad; now apply isspace_not_art.
Qed.

Lemma has_art_strip_pipes (s : str) :
  has_art_chunk (strip_by is_pipe s) = has_art_chunk s.
Proof.
  destruct (strip_by_split is_pipe s) as (l & r & E & Hl & Hr).
  rewrite E at 2. symmetry. apply has_art_pad; now apply is_pipe_not_art.
Qed.

Lemma has_art_join (sep : str) (L : list str) :
  forallb (fun c => negb (is_art c)) sep = true -> sep <> [] ->
  has_art_chunk (join sep L) = existsb has_art_chunk L.
Proof.
  intros Hs Ns. induction L as [|f L IH]; [reflexivity|].
  destruct L as [|g L].
  - simpl. now rewrite orb_false_r.
  - rewrite join_cons2, has_art_sep by assumption.
    rewrite IH. reflexivity.
Qed.

Lemma existsb_map_ext (h : str -> str) (p : str -> bool) (L : list str) :
  (forall f, p (h f) = p f) -> existsb p (map h L) = existsb p L.
Proof.
  intros H. induction L as [|f L IH]; simpl; [reflexivity|].
  now rewrite H, IH.
Qed.

Lemma has_art_padded {U : UnicodeData} (widths : list nat) (i : nat)
  (L : list str) :
  existsb has_art_chunk (pad_fields widths i L) = existsb has_art_chunk L.
Proof.
  revert i. induction L as [|f L IH]; intros i; simpl; [reflexivity|].
  rewrite has_art_pad_r, IH; [reflexivity|].
  apply isspace_not_art, forallb_isspace_spaces.
Qed.

Lemma has_art_fields (s : str) :
  has_art_chunk s = existsb has_art_chunk (fields_of s).
Proof.
  rewrite <- (join_split PIPE s) at 1.
  rewrite (has_art_join [PIPE] (split_on PIPE s) eq_refl ltac:(discriminate)).
  unfold fields_of. symmetry. apply existsb_map_ext. apply has_art_strip.
Qed.

(** *** Counts *)

Lemma count_if_app (p : char -> bool) (a b : str) :
  count_if p (a ++ b) = count_if p a + count_if p b.
Proof. unfold count_if. now rewrite filter_app, length_app. Qed.

Lemma count_if_none (p q : char -> bool) (w : str) :
  (forall c, q c = true -> p c = false) ->
  forallb q w = true -> count_if p w = 0.
Proof.
  intros H Hw. unfold count_if. induction w as [|c w IH]; [reflexivity|].
  simpl in Hw. apply andb_true_iff in Hw as [Hc Hw].
  simpl. rewrite (H c Hc). now apply IH.
Qed.

Lemma count_if_sig (p : char -> bool) (s : str) :
  (forall c, is_ws c = true -> p c = false) ->
  count_if p (sig_no_ws s) = count_if p s.
Proof.
  intros H. unfold count_if, sig_no_ws.
  induction s as [|c s IH]; [reflexivity|]. simpl.
  destruct (is_ws c) eqn:E; simpl.
  - now rewrite (H c E).
  - destruct (p c); simpl; now rewrite IH.
Qed.

Lemma count_if_strip (p : char -> bool) (s : str) :
  (forall c, isspace c = true -> p c = false) ->
  count_if p (strip s) = count_if p s.
Proof.
  intros H. destruct (strip_by_split isspace s) as (l & r & E & Hl & Hr).
  rewrite E at 2. rewrite !count_if_app.
  rewrite (count_if_none p isspace l H Hl), (count_if_none p isspace r H Hr).
  unfold strip. lia.
Qed.

Lemma count_if_body (p : char -> bool) (a b : str) :
  (forall c, isspace c = true -> p c = false) ->
  sig_no_ws a = sig_no_ws b ->
  count_if p (strip a) = count_if p (strip b).
Proof.
  intros H E. rewrite !count_if_strip by exact H.
  assert (H' : forall c, is_ws c = true -> p c = false)
    by (intros c Hc; apply H; now apply is_ws_isspace).
  rewrite <- (count_if_sig p a H'), <- (count_if_sig p b H'). now rewrite E.
Qed.

Lemma existsb_count (p : char -> bool) (s : str) :
  existsb p s = negb (count_if p s =? 0).
Proof.
  unfold count_if. induction s as [|c s IH]; [reflexivity|]. simpl.
  destruct (p c); simpl; [reflexivity | exact IH].
Qed.

Lemma isspace_not_cjk (c : char) : isspace c = true -> is_cjk c = false.
Proof.
  intros H. destruct (is_cjk c) eqn:E; [|reflexivity]. exfalso.
  apply in_range_bounds in E. revert H. unfold isspace.
  off_table c. discriminate.
Qed.

Lemma isspace_not_alnum (c : char) : isspace c = true -> is_alnum_ascii c = false.
Proof.
  intros H. destruct (is_alnum_ascii c) eqn:E; [|reflexivity]. exfalso.
  unfold is_alnum_ascii in E.
  apply orb_true_iff in E as [E | E]; [apply orb_true_iff in E as [E | E]|];
    apply range_not_space in E; try lia; congruence.
Qed.

Lemma isspace_not_const (k c : char) :
  isspace k = false -> isspace c = true -> ch_eqb k c = false.
Proof.
  intros Hk Hc. destruct (ch_eqb k c) eqn:E; [|reflexivity].
  apply ch_eqb_eq in E. subst c. congruence.
Qed.

Lemma isspace_not_pipe (c : char) : isspace c = true -> is_pipe c = false.
Proof.
  intros Hc. unfold is_pipe. destruct (ch_eqb c PIPE) eqn:E; [|reflexivity].
  apply ch_eqb_eq in E. subst c. discriminate.
Qed.

(** *** A prefix test cut at a foreign character *)

Lemma startswith_cut (p f : str) (c : char) (t : str) :
  free_of c p = true ->
  startswith p (f ++ c :: t) = startswith p f.
Proof.
  revert f. induction p as [|x p IH]; intros f H; [now destruct f|].
  simpl in H. apply andb_true_iff in H as [Hx Hp]. apply negb_true_iff in Hx.
  destruct f as [|y f]; simpl.
  - now rewrite Hx.
  - now rewrite IH.
Qed.

(** ** The body of an aligned table row *)

Section TableRow.

Context {U : UnicodeData}.

Lemma echo_fields_eq (r : rec) :
  echo_fields r
  = fields_of (if echo_lead r || echo_trail r
               then strip_by is_pipe (strip (rest r)) else strip (rest r)).
Proof. reflexivity. Qed.

Lemma scan_rstrip (q : bool) (s : str) : scan q (rstrip s) false = scan q s false.
Proof.
  unfold rstrip. destruct (rstrip_by_split isspace s) as (w & E & Hw).
  rewrite E at 2. symmetry. apply scan_pad_r. now apply forallb_isspace_plain.
Qed.

Lemma has_art_rstrip (s : str) : has_art_chunk (rstrip s) = has_art_chunk s.
Proof.
  unfold rstrip. destruct (rstrip_by_split isspace s) as (w & E & Hw).
  rewrite E at 2. symmetry. apply has_art_pad_r. now apply isspace_not_art.
Qed.

Lemma scan_rest_fields (q : bool) (r : rec) :
  scan q (rest r) false = scanL q (echo_fields r).
Proof.
  rewrite echo_fields_eq, <- scan_fields.
  destruct (echo_lead r || echo_trail r).
  - now rewrite scan_strip_pipes, scan_strip.
  - now rewrite scan_strip.
Qed.

Lemma has_art_rest_fields (r : rec) :
  has_art_chunk (strip (rest r)) = existsb has_art_chunk (echo_fields r).
Proof.
  rewrite echo_fields_eq, <- has_art_fields.
  destruct (echo_lead r || echo_trail r).
  - now rewrite has_art_strip_pipes.
  - reflexivity.
Qed.

Lemma sep_pipe_plain : forallb plain sep_pipe = true.
Proof. reflexivity. Qed.

Lemma sep_pipe_not_art : forallb (fun c => negb (is_art c)) sep_pipe = true.
Proof. reflexivity. Qed.

Lemma sep_pipe_nonempty : sep_pipe <> [].
Proof. discriminate. Qed.

Lemma scan_body_fmt (q : bool) (widths : list nat) (r : rec) :
  scan q (echo_body_fmt widths r) false = scan q (rest r) false.
Proof.
  rewrite scan_rest_fields. unfold echo_body_fmt.
  destruct (echo_lead r || echo_trail r).
  - rewrite scan_pad.
    + rewrite scan_strip.
      apply (scan_join sep_pipe _ q sep_pipe_plain sep_pipe_nonempty).
    + now destruct (echo_lead r).
    + now destruct (echo_trail r).
  - rewrite scan_rstrip.
    rewrite (scan_join sep_pipe _ q sep_pipe_plain sep_pipe_nonempty).
    apply scanL_pad.
Qed.

Lemma has_art_body_fmt (widths : list nat) (r : rec) :
  has_art_chunk (echo_body_fmt widths r) = has_art_chunk (strip (rest r)).
Proof.
  rewrite has_art_rest_fields. unfold echo_body_fmt.
  destruct (echo_lead r || echo_trail r).
  - rewrite has_art_pad.
    + rewrite has_art_strip.
      apply (has_art_join sep_pipe _ sep_pipe_not_art sep_pipe_nonempty).
    + now destruct (echo_lead r).
    + now destruct (echo_trail r).
  - rewrite has_art_rstrip.
    rewrite (has_art_join sep_pipe _ sep_pipe_not_art sep_pipe_nonempty).
    apply has_art_padded.
Qed.

(** The first piece of a split. *)
Lemma split_on_first (c : char) (s : str) :
  exists f fs, split_on c s = f :: fs /\
               (s = f \/ exists t, s = f ++ c :: t).
Proof.
  induction s as [|x s IH]; simpl.
  - exists [], []. split; [reflexivity | now left].
  - destruct (ch_eqb x c) eqn:E.
    + apply ch_eqb_eq in E. subst x. exists [], (split_on c s).
      split; [reflexivity|]. right. now exists s.
    + destruct IH as (f & fs & -> & H). exists (x :: f), fs.
      split; [reflexivity|]. destruct H as [-> | (t & ->)].
      * now left.
      * right. now exists t.
Qed.

Lemma startswith_one (c x : char) (t : str) : startswith [c] (x :: t) = ch_eqb c x.
Proof. simpl. apply andb_true_r. Qed.

(** Without a leading pipe the first field starts the body, up to
    whitespace or a pipe. *)
Lemma row_first (r : rec) (x : char) (t : str) :
  strip (rest r) = x :: t -> echo_lead r = false ->
  exists f0 fs Z,
    echo_fields r = (x :: f0) :: fs /\
    strip (rest r) = (x :: f0) ++ Z /\
    (forall c Z', Z = c :: Z' -> is_pipe c || isspace c = true).
Proof.
  intros Eb Hl.
  assert (Hx : isspace x = false) by exact (strip_head _ _ _ Eb).
  assert (Px : is_pipe x = false).
  { unfold echo_lead in Hl. rewrite Eb, startswith_one in Hl.
    unfold is_pipe. destruct (ch_eqb x PIPE) eqn:E; [|reflexivity].
    apply ch_eqb_eq in E. subst x. discriminate. }
  rewrite echo_fields_eq, Hl. cbn [orb]. rewrite Eb.
  assert (C : exists c' pr,
             (if echo_trail r then strip_by is_pipe (x :: t) else x :: t) = x :: c' /\
             x :: t = (x :: c') ++ pr /\ forallb is_pipe pr = true).
  { destruct (echo_trail r).
    - unfold strip_by, lstrip_by. rewrite (dropwhile_stop is_pipe x t Px).
      destruct (rstrip_keeps_head is_pipe x t Px) as (t' & E).
      destruct (rstrip_by_split is_pipe (x :: t)) as (w & Ew & Hw).
      exists t', w. rewrite E in *. auto.
    - exists t, []. rewrite app_nil_r. auto. }
  destruct C as (c' & pr & -> & Ebody & Hpr).
  destruct (split_on_first PIPE (x :: c')) as (raw0 & raws & Es & Hs).
  assert (R0 : exists g, raw0 = x :: g).
  { destruct raw0 as [|x' g].
    - exfalso. destruct Hs as [Hs | (t' & Hs)]; [discriminate|].
      simpl in Hs. injection Hs as -> _. discriminate.
    - exists g. destruct Hs as [Hs | (t' & Hs)]; simpl in Hs; now injection Hs as ->. }
  destruct R0 as (g & ->).
  unfold fields_of. rewrite Es. cbn [map].
  assert (F0 : exists f0 w0, strip (x :: g) = x :: f0 /\
                              x :: g = (x :: f0) ++ w0 /\ forallb isspace w0 = true).
  { unfold strip, strip_by, lstrip_by. rewrite (dropwhile_stop isspace x g Hx).
    destruct (rstrip_keeps_head isspace x g Hx) as (f0 & E).
    destruct (rstrip_by_split isspace (x :: g)) as (w0 & Ew & Hw).
    exists f0, w0. rewrite E in *. auto. }
  destruct F0 as (f0 & w0 & -> & Eraw & Hw0).
  exists f0, (map strip raws).
  assert (Zc : exists Zc, x :: c' = (x :: g) ++ Zc /\
                          (forall c Z', Zc = c :: Z' -> c = PIPE)).
  { destruct Hs as [Hs | (t' & Hs)].
    - exists []. rewrite app_nil_r. split; [exact Hs | discriminate].
    - exists (PIPE :: t'). split; [exact Hs|]. intros c Z' H. now injection H as <-. }
  destruct Zc as (Zc & Ecore & HZc).
  exists (w0 ++ Zc ++ pr). split; [reflexivity|]. split.
  - rewrite Ebody, Ecore, Eraw. now rewrite <- !app_assoc.
  - intros c Z' H. destruct w0 as [|a w0].
    + destruct Zc as [|b Zc'].
      * simpl in H. subst pr. simpl in Hpr.
        apply andb_true_iff in Hpr as [-> _]. reflexivity.
      * simpl in H. injection H as <- _. now rewrite (HZc b Zc' eq_refl).
    + simpl in H. injection H as <- _. simpl in Hw0.
      apply andb_true_iff in Hw0 as [-> _]. apply orb_true_r.
Qed.

(** Without a trailing pipe the last field ends the body. *)
Lemma row_last (r : rec) (t : str) (y : char) :
  strip (rest r) = t ++ [y] -> echo_trail r = false ->
  exists fs fl, echo_fields r = fs ++ [fl ++ [y]].
Proof.
  intros Eb Ht.
  assert (Hy : isspace y = false) by exact (strip_last _ _ _ Eb).
  assert (Py : is_pipe y = false).
  { unfold echo_trail in Ht. rewrite Eb, endswith_snoc in Ht.
    unfold is_pipe. destruct (ch_eqb y PIPE) eqn:E; [|reflexivity].
    apply ch_eqb_eq in E. subst y. discriminate. }
  rewrite echo_fields_eq, Ht, orb_false_r, Eb.
  assert (C : exists d, (if echo_lead r then strip_by is_pipe (t ++ [y]) else t ++ [y])
                        = d ++ [y]).
  { destruct (echo_lead r); [|now exists t].
    exact (strip_by_keeps_last is_pipe t y Py). }
  destruct C as (d & ->).
  assert (Fy : free_of PIPE [y] = true).
  { unfold free_of. simpl. unfold is_pipe in Py. now rewrite Py. }
  destruct (split_on_snoc PIPE d [y] Fy) as (fs & fl & _ & E2).
  unfold fields_of. rewrite E2, map_app. cbn [map].
  destruct (strip_by_keeps_last isspace fl y Hy) as (fl' & E).
  exists (map strip fs), fl'. unfold strip. now rewrite E.
Qed.

Lemma startswith_tail (p f Z : str) :
  (forall c Z', Z = c :: Z' -> free_of c p = true) ->
  startswith p (f ++ Z) = startswith p f.
Proof.
  intros H. destruct Z as [|c Z']; [now rewrite app_nil_r|].
  apply startswith_cut. exact (H c Z' eq_refl).
Qed.

Lemma tildes_free (c : char) :
  is_pipe c || isspace c = true -> free_of c (lit "~~~") = true.
Proof.
  intros H. destruct (ch_eqb TILDE c) eqn:E.
  - apply ch_eqb_eq in E. subst c. discriminate.
  - unfold free_of. change (lit "~~~") with [TILDE; TILDE; TILDE].
    cbn [forallb]. now rewrite E.
Qed.

Lemma is_pipe_sym (c : char) : is_pipe c = ch_eqb PIPE c.
Proof. unfold is_pipe, ch_eqb. apply N.eqb_sym. Qed.

Lemma stripped_rstrip (f : str) : strip f = f -> rstrip f = f.
Proof.
  intros H. rewrite <- H at 1 2. unfold strip, strip_by, rstrip.
  apply rstrip_by_idem.
Qed.

Lemma echo_fields_joined (r : rec) :
  fields_of (join sep_pipe (echo_fields r)) = echo_fields r.
Proof.
  rewrite fields_of_join.
  - rewrite echo_fields_eq. apply map_strip_fields.
  - rewrite echo_fields_eq. apply fields_of_nonempty.
  - intros f Hf. rewrite echo_fields_eq in Hf. exact (fields_of_free _ _ Hf).
Qed.

Lemma echo_fields_padded (widths : list nat) (r : rec) :
  fields_of (join sep_pipe (pad_fields widths 0 (echo_fields r))) = echo_fields r.
Proof.
  rewrite fields_of_join.
  - rewrite pad_fields_strip, echo_fields_eq. apply map_strip_fields.
  - intros H. apply pad_fields_nil in H. revert H.
    rewrite echo_fields_eq. apply fields_of_nonempty.
  - apply pad_fields_free. intros f Hf. rewrite echo_fields_eq in Hf.
    exact (fields_of_free _ _ Hf).
Qed.

(** The first field, a space and more: the start of the joined
    fields of a row with a second field. *)
Lemma join_first (f g : str) (L : list str) :
  exists t, join sep_pipe (f :: g :: L) = (f ++ [SP]) ++ PIPE :: t.
Proof.
  rewrite join_cons2. eexists. rewrite <- app_assoc. reflexivity.
Qed.

End TableRow.

(** ** The shape of a rendered table row *)

Section RowShape.

Context {U : UnicodeData}.

Lemma strip_pipes_trail (x : char) (m : str) :
  is_pipe x = false ->
  strip_by is_pipe ((x :: m) ++ [SP; PIPE]) = (x :: m) ++ [SP].
Proof.
  intros Px. unfold strip_by, lstrip_by. cbn [app].
  rewrite (dropwhile_stop is_pipe x _ Px).
  change (x :: m ++ [SP; PIPE]) with ((x :: m) ++ [SP] ++ [PIPE]).
  rewrite app_assoc, rstrip_by_snoc. change (is_pipe PIPE) with true.
  cbv iota. rewrite rstrip_by_snoc. reflexivity.
Qed.

Lemma body_fmt_shape (widths : list nat) (r : rec)
  (x : char) (t t' : str) (y : char) :
  strip (rest r) = x :: t -> strip (rest r) = t' ++ [y] ->
  exists x2 t2 t3 y2,
    echo_body_fmt widths r = x2 :: t2 /\
    echo_body_fmt widths r = t3 ++ [y2] /\
    isspace x2 = false /\ isspace y2 = false /\
    ch_eqb PIPE x2 = echo_lead r /\ ch_eqb PIPE y2 = echo_trail r /\
    fields_of (if echo_lead r || echo_trail r
               then strip_by is_pipe (echo_body_fmt widths r)
               else echo_body_fmt widths r) = echo_fields r /\
    startswith (lit "~~~") (echo_body_fmt widths r)
    = startswith (lit "~~~") (strip (rest r)).
Proof.
  intros Eb Eb'.
  assert (Hx : isspace x = false) by exact (strip_head _ _ _ Eb).
  assert (Hy : isspace y = false) by exact (strip_last _ _ _ Eb').
  assert (Lx : echo_lead r = ch_eqb PIPE x).
  { unfold echo_lead. rewrite Eb. apply startswith_one. }
  assert (Ty : echo_trail r = ch_eqb PIPE y).
  { unfold echo_trail. rewrite Eb'. apply endswith_snoc. }
  pose proof (echo_fields_joined r) as FJ.
  pose proof (echo_fields_padded widths r) as FP.
  unfold echo_body_fmt in *.
  change (lit "| ") with [PIPE; SP]. change (lit " |") with [SP; PIPE].
  destruct (echo_lead r) eqn:L; destruct (echo_trail r) eqn:T; cbn [orb].
  - (* framed on both sides *)
    remember (strip (join sep_pipe (echo_fields r))) as M eqn:EM.
    exists PIPE, ([SP] ++ M ++ [SP; PIPE]), ([PIPE; SP] ++ M ++ [SP]), PIPE.
    split; [reflexivity|]. split; [now rewrite <- !app_assoc|].
    do 4 (split; [reflexivity|]). split.
    + assert (E : strip_by is_pipe ([PIPE; SP] ++ M ++ [SP; PIPE])
                  = [SP] ++ M ++ [SP]).
      { unfold strip_by, lstrip_by.
        change ([PIPE; SP] ++ M ++ [SP; PIPE]) with ([PIPE] ++ SP :: M ++ [SP; PIPE]).
        rewrite (dropwhile_app_all is_pipe [PIPE] _ eq_refl).
        rewrite (dropwhile_stop is_pipe SP _ eq_refl).
        change (SP :: M ++ [SP; PIPE]) with ([SP] ++ M ++ [SP] ++ [PIPE]).
        rewrite !app_assoc, rstrip_by_snoc. change (is_pipe PIPE) with true.
        cbv iota. rewrite rstrip_by_snoc. reflexivity. }
      rewrite E, fields_of_ws_prefix, fields_of_ws_suffix by reflexivity.
      subst M. now rewrite fields_of_strip.
    + rewrite Eb. symmetry in Lx. apply ch_eqb_eq in Lx. subst x. reflexivity.
  - (* a leading pipe only *)
    destruct (row_last r t' y Eb' T) as (fs & fl & EF).
    destruct (join_last sep_pipe fs fl y) as (j & EJ).
    destruct (strip_by_keeps_last isspace j y Hy) as (m & Em).
    assert (Em' : strip (join sep_pipe (echo_fields r)) = m ++ [y]).
    { rewrite EF. unfold strip. etransitivity; [|exact Em].
      f_equal. exact EJ. }
    clear Em EJ. rename Em' into Em.
    remember (strip (join sep_pipe (echo_fields r))) as M eqn:EM.
    rewrite app_nil_r.
    exists PIPE, ([SP] ++ M), ([PIPE; SP] ++ m), y.
    split; [reflexivity|]. split; [now rewrite Em, <- !app_assoc|].
    split; [reflexivity|]. split; [exact Hy|]. split; [reflexivity|].
    split; [now symmetry|]. split.
    + assert (E : strip_by is_pipe ([PIPE; SP] ++ M) = [SP] ++ M).
      { unfold strip_by, lstrip_by.
        change ([PIPE; SP] ++ M) with ([PIPE] ++ SP :: M).
        rewrite (dropwhile_app_all is_pipe [PIPE] _ eq_refl).
        rewrite (dropwhile_stop is_pipe SP _ eq_refl).
        rewrite Em. change (SP :: m ++ [y]) with ((SP :: m) ++ [y]).
        rewrite rstrip_by_snoc, is_pipe_sym, <- Ty. reflexivity. }
      rewrite E, fields_of_ws_prefix by reflexivity.
      subst M. now rewrite fields_of_strip.
    + rewrite Eb. symmetry in Lx. apply ch_eqb_eq in Lx. subst x. reflexivity.
  - (* a trailing pipe only *)
    destruct (row_first r x t Eb L) as (f0 & fs & Z & EF & EZ & HZ).
    remember (strip (join sep_pipe (echo_fields r))) as M eqn:EM.
    change ([] ++ M ++ [SP; PIPE]) with (M ++ [SP; PIPE]).
    assert (S0 : strip (x :: f0) = x :: f0).
    { apply (fields_of_stripped
               (if echo_lead r || echo_trail r
                then strip_by is_pipe (strip (rest r)) else strip (rest r))).
      rewrite <- echo_fields_eq, EF. now left. }
    assert (EMf : exists Z2, M = (x :: f0) ++ Z2 /\
                             (forall c Z', Z2 = c :: Z' -> c = SP)).
    { destruct fs as [|g fs].
      - exists []. rewrite app_nil_r. split; [|discriminate].
        rewrite EM, EF. exact S0.
      - destruct (join_first (x :: f0) g fs) as (j & EJ).
        unfold str in *. rewrite EM, EF, EJ. unfold strip, strip_by, lstrip_by.
        cbn [app]. rewrite (dropwhile_stop isspace x _ Hx).
        change (x :: (f0 ++ [SP]) ++ PIPE :: j)
          with (((x :: f0) ++ [SP]) ++ PIPE :: j).
        destruct (rstrip_by_keep_upto isspace ((x :: f0) ++ [SP]) PIPE j eq_refl)
          as (j' & ->).
        exists (SP :: PIPE :: j'). split; [now rewrite <- app_assoc|].
        intros c Z' H. now injection H as <-. }
    destruct EMf as (Z2 & EM2 & HZ2).
    exists x, (f0 ++ Z2 ++ [SP; PIPE]), (M ++ [SP]), PIPE.
    split; [now rewrite EM2, <- app_assoc|].
    split; [now rewrite <- app_assoc|].
    split; [exact Hx|]. split; [reflexivity|]. split; [now symmetry|].
    split; [reflexivity|]. split.
    + assert (E : strip_by is_pipe (M ++ [SP; PIPE]) = M ++ [SP]).
      { rewrite EM2. cbn [app]. apply strip_pipes_trail.
        now rewrite is_pipe_sym, <- Lx. }
      rewrite E, fields_of_ws_suffix by reflexivity.
      subst M. now rewrite fields_of_strip.
    + rewrite EM2, EZ, <- app_assoc.
      rewrite !(startswith_tail (lit "~~~") (x :: f0)); [reflexivity| |].
      * intros c Z' H. apply tildes_free. now apply HZ in H.
      * intros c Z' H. apply tildes_free.
        destruct Z2 as [|c2 Z2'].
        -- simpl in H. injection H as <- _. reflexivity.
        -- simpl in H. injection H as <- _. now rewrite (HZ2 c2 Z2' eq_refl).
  - (* no frame: the padded columns *)
    destruct (row_first r x t Eb L) as (f0 & fs & Z & EF & EZ & HZ).
    destruct (row_last r t' y Eb' T) as (fs' & fl & EF').
    remember (join sep_pipe (pad_fields widths 0 (echo_fields r))) as J eqn:EJ.
    assert (S0 : strip (x :: f0) = x :: f0).
    { apply (fields_of_stripped
               (if echo_lead r || echo_trail r
                then strip_by is_pipe (strip (rest r)) else strip (rest r))).
      rewrite <- echo_fields_eq, EF. now left. }
    assert (B1 : exists Z2, rstrip J = (x :: f0) ++ Z2 /\
                            (forall c Z', Z2 = c :: Z' -> c = SP)).
    { destruct (pad_fields_cons widths 0 (x :: f0) fs) as (k & Ek).
      unfold str in *. rewrite EJ, EF, Ek. clear Ek.
      destruct fs as [|g fs].
      - exists []. rewrite app_nil_r. split; [|discriminate].
        cbn [pad_fields join]. unfold rstrip.
        rewrite rstrip_by_app_all by apply forallb_isspace_spaces.
        now apply stripped_rstrip.
      - destruct (pad_fields_cons widths 1 g fs) as (k2 & Ek2).
        destruct (join_first ((x :: f0) ++ spaces k) (g ++ spaces k2)
                    (pad_fields widths 2 fs)) as (j & Ej).
        unfold str in *. rewrite Ek2, Ej.
        destruct (rstrip_by_keep_upto isspace (((x :: f0) ++ spaces k) ++ [SP])
                    PIPE j eq_refl) as (j' & E).
        unfold rstrip. rewrite E.
        exists (spaces k ++ [SP] ++ PIPE :: j').
        split; [now rewrite <- !app_assoc|].
        intros c Z' H. destruct k; simpl in H; now injection H as <-. }
    destruct B1 as (Z2 & EB & HZ2).
    assert (B2 : exists t3, rstrip J = t3 ++ [y]).
    { destruct (pad_fields_snoc widths 0 fs' (fl ++ [y])) as (k & Ek).
      unfold str in *. rewrite EJ, EF', Ek.
      rewrite join_snoc. unfold rstrip.
      destruct (pad_fields widths 0 fs') as [|p ps].
      - rewrite rstrip_by_app_all by apply forallb_isspace_spaces.
        rewrite rstrip_by_snoc, Hy. now exists fl.
      - rewrite !app_assoc.
        rewrite rstrip_by_app_all by apply forallb_isspace_spaces.
        rewrite rstrip_by_snoc, Hy. eexists. reflexivity. }
    destruct B2 as (t3 & EB2).
    exists x, (f0 ++ Z2), t3, y.
    split; [exact EB|]. split; [exact EB2|].
    split; [exact Hx|]. split; [exact Hy|]. split; [now symmetry|].
    split; [now symmetry|]. split.
    + rewrite fields_of_rstrip. exact FP.
    + rewrite EB, EZ.
      rewrite !(startswith_tail (lit "~~~") (x :: f0)); [reflexivity| |].
      * intros c Z' H. apply tildes_free. now apply HZ in H.
      * intros c Z' H. apply tildes_free. now rewrite (HZ2 c Z' H).
Qed.

End RowShape.

(** ** Reading an aligned table row again *)

Section RowReread.

Context {U : UnicodeData}.

Lemma existsb_body (p : char -> bool) (a b : str) :
  (forall c, isspace c = true -> p c = false) ->
  sig_no_ws a = sig_no_ws b ->
  existsb p (strip a) = existsb p (strip b).
Proof.
  intros H E. now rewrite !existsb_count, (count_if_body p a b H E).
Qed.

Lemma contains_char_body (k : char) (a b : str) :
  isspace k = false -> sig_no_ws a = sig_no_ws b ->
  contains_char k (strip a) = contains_char k (strip b).
Proof.
  intros Hk E. unfold contains_char. apply existsb_body; [|exact E].
  intros c Hc. now apply isspace_not_const.
Qed.

Lemma candidate_facts (et : bool) (r : rec) :
  is_echo_table_candidate et r = true ->
  et = true /\ kind r = Kcmd /\ comment r = [] /\
  str_eqb (key_lower r) echo_s = true /\
  contains_char PIPE (strip (rest r)) = true.
Proof.
  unfold is_echo_table_candidate. intros H.
  destruct et; [|discriminate]. cbn [negb] in H.
  destruct (kind r); try discriminate. cbn [kind_eqb negb] in H.
  destruct (comment r); [|discriminate]. cbn [str_nonempty] in H.
  destruct (str_eqb (key_lower r) echo_s); [|discriminate]. cbn [negb] in H.
  cbv zeta in H.
  destruct (contains_char PIPE (strip (rest r))); [|discriminate].
  repeat split; reflexivity.
Qed.

Lemma contains_nonempty (c : char) (s : str) :
  contains_char c s = true ->
  exists x t t' y, s = x :: t /\ s = t' ++ [y].
Proof.
  destruct s as [|x t]; [discriminate|]. intros _.
  destruct (exists_last (l := x :: t)) as (t' & y & E); [discriminate|].
  now exists x, t, t', y.
Qed.

(** The record read from the rendered row of a candidate [r] has the
    frame, the fields and the candidacy of [r]. *)
Lemma row_reread (et : bool) (widths : list nat) (r : rec) (e : str) :
  is_echo_table_candidate et r = true ->
  sig_no_ws ([SP] ++ echo_body_fmt widths r) = sig_no_ws (rest r) ->
  let r2 := reread r e ([SP] ++ echo_body_fmt widths r) in
  strip (rest r2) = echo_body_fmt widths r /\
  echo_lead r2 = echo_lead r /\ echo_trail r2 = echo_trail r /\
  echo_fields r2 = echo_fields r /\
  is_echo_table_candidate et r2 = true.
Proof.
  intros Hc Hs r2.
  destruct (candidate_facts et r Hc) as (-> & K & Cm & Ke & Hp).
  destruct (contains_nonempty PIPE _ Hp) as (x & t & t' & y & Eb & Eb').
  destruct (body_fmt_shape widths r x t t' y Eb Eb')
    as (x2 & t2 & t3 & y2 & B1 & B2 & Hx2 & Hy2 & L2 & T2 & F2 & S2).
  assert (HB : strip (rest r2) = echo_body_fmt widths r).
  { unfold r2. cbn [reread rest].
    rewrite (strip_ws_prefix [SP] _ eq_refl). rewrite B1.
    apply strip_fix; [exact Hx2|]. rewrite <- B1, B2. unfold rstrip.
    now rewrite rstrip_by_snoc, Hy2. }
  assert (HL : echo_lead r2 = echo_lead r).
  { unfold echo_lead at 1. rewrite HB, B1, startswith_one. exact L2. }
  assert (HT : echo_trail r2 = echo_trail r).
  { unfold echo_trail at 1. rewrite HB, B2, endswith_snoc. exact T2. }
  split; [exact HB|]. split; [exact HL|]. split; [exact HT|]. split.
  - rewrite (echo_fields_eq r2), HL, HT, HB. exact F2.
  - transitivity (is_echo_table_candidate true r); [|exact Hc].
    unfold is_echo_table_candidate.
    assert (E1 : kind r2 = kind r) by reflexivity.
    assert (E2 : comment r2 = comment r) by reflexivity.
    assert (E3 : key_lower r2 = key_lower r) by reflexivity.
    assert (E4 : sig_no_ws (rest r2) = sig_no_ws (rest r)) by exact Hs.
    rewrite E1, E2, E3. cbv zeta.
    rewrite (contains_char_body PIPE _ _ eq_refl E4).
    rewrite (contains_char_body 12304%N _ _ eq_refl E4).
    rewrite (contains_char_body 12305%N _ _ eq_refl E4).
    rewrite (contains_char_body STAR _ _ eq_refl E4).
    rewrite (contains_char_body TILDE _ _ eq_refl E4).
    rewrite (count_if_body is_pipe _ _ isspace_not_pipe E4).
    rewrite (existsb_body is_cjk _ _ isspace_not_cjk E4).
    rewrite (existsb_body is_alnum_ascii _ _ isspace_not_alnum E4).
    rewrite HB, S2, has_art_body_fmt. reflexivity.
Qed.

Lemma row_reread_fmt (et : bool) (widths widths' : list nat) (r : rec) (e : str) :
  is_echo_table_candidate et r = true ->
  sig_no_ws ([SP] ++ echo_body_fmt widths r) = sig_no_ws (rest r) ->
  echo_body_fmt widths' (reread r e ([SP] ++ echo_body_fmt widths r))
  = echo_body_fmt widths' r.
Proof.
  intros Hc Hs.
  pose proof (row_reread et widths r e Hc Hs) as H. cbv zeta in H.
  destruct H as (_ & HL & HT & HF & _).
  remember (reread r e ([SP] ++ echo_body_fmt widths r)) as r2 eqn:E.
  unfold echo_body_fmt. now rewrite HL, HT, HF.
Qed.

(** What the second run needs of the rendered row. *)
Lemma row_facts (et : bool) (widths : list nat) (r : rec) (A : str) :
  is_echo_table_candidate et r = true ->
  (forall c t, rest r = c :: t -> isspace c = true) ->
  forallb not_tab (rest r) = true ->
  let F := [SP] ++ echo_body_fmt widths r in
  rstrip_ws (A ++ F) = A ++ F /\
  scan false (A ++ F) false = scan false (A ++ rest r) false /\
  forallb not_tab F = true.
Proof.
  intros Hc Hh Htab F.
  destruct (candidate_facts et r Hc) as (-> & K & Cm & Ke & Hp).
  destruct (contains_nonempty PIPE _ Hp) as (x & t & t' & y & Eb & Eb').
  destruct (body_fmt_shape widths r x t t' y Eb Eb')
    as (x2 & t2 & t3 & y2 & B1 & B2 & Hx2 & Hy2 & L2 & T2 & F2 & S2).
  split; [|split].
  - unfold F. rewrite B2. unfold rstrip_ws. rewrite !app_assoc.
    rewrite rstrip_by_snoc.
    destruct (is_ws y2) eqn:W; [|reflexivity].
    apply is_ws_isspace in W. congruence.
  - rewrite !scan_app.
    assert (Hr : exists c tl, rest r = c :: tl).
    { destruct (rest r) as [|c tl]; [discriminate Eb | now exists c, tl]. }
    destruct Hr as (c & tl & Er).
    assert (S1 : slash_head (rest r) false = false).
    { rewrite Er. simpl. specialize (Hh c tl Er).
      apply isspace_plain in Hh. unfold plain in Hh.
      apply andb_true_iff in Hh as [_ Hh]. now apply negb_true_iff in Hh. }
    rewrite S1. change (slash_head F false) with false.
    destruct (scan false A false) as [q|]; [|reflexivity].
    unfold F. rewrite (scan_pad_l q [SP] _ eq_refl). apply scan_body_fmt.
  - unfold F. cbn [app forallb]. change (not_tab SP) with true. cbn [andb].
    apply (echo_body_fmt_chars not_tab eq_refl eq_refl). exact Htab.
Qed.

End RowReread.

(** ** The second reading of an emitted line *)

Section Reread.

Context {U : UnicodeData}.

(** The line emitted for a record is read, with the same line number,
    as a record of the same kind, indent, key and comment, whose rest
    is related to the first by [rest_rel]. *)
Lemma reread_ok (o : FormatOptions) (P : params) (i : nat) (l : str) :
  let r := parse_line o i l in
  exists x,
    parse_line o i (emit_with o P r) = reread r (emit_with o P r) x /\
    rest_rel o (p_widths P) r x.
Proof.
  intros r.
  destruct (parse_line_wf o i l) as (W & Eo & El). fold r in W, Eo, El.
  assert (Norm : emit_with o P r = rstrip_ws (expand_tabs l (tab_width o)) ->
                 exists x,
                   parse_line o i (emit_with o P r) = reread r (emit_with o P r) x /\
                   rest_rel o (p_widths P) r x).
  { intros ->. exists (rest r). split; [apply parse_line_normalized | now left]. }
  assert (Other : kind r <> Kcmd ->
                  emit_with o P r = rstrip_ws (expand_tabs l (tab_width o))).
  { intros K. destruct (other_not_failed o P r K W) as [_ ->].
    unfold wf_rec in W. now rewrite W, Eo. }
  destruct (kind r) eqn:K; try (apply Norm, Other; discriminate).
  destruct (failed_with o P r) eqn:Fl.
  { apply Norm. rewrite (emit_with_failed o P r Fl). now rewrite Eo. }
  clear Norm Other.
  destruct (cmd_facts o i l K)
    as (gap & w & Eline & Ekl & Hind & Hkne & Hksp & Hgap & Hw & Hecho & Hnecho
        & Hhead & Hfix & Hcm & Htab & Hnb & Hnc).
  fold r in Eline, Ekl, Hind, Hkne, Hksp, Hecho, Hnecho, Hhead, Hfix, Hcm, Htab,
    Hnb, Hnc.
  assert (Htabs : forallb not_tab (indent r) = true /\
                  forallb not_tab (key r) = true /\
                  forallb not_tab (rest r) = true /\
                  forallb not_tab (comment r) = true).
  { rewrite Eline, !forallb_app in Htab.
    repeat (apply andb_true_iff in Htab as [? Htab]). auto. }
  destruct Htabs as (Ti & Tk & Tr & Tc).
  remember (code_form (special_keys_of o) (echo_align_tables o)
              (p_vcol P) (p_scol P) (p_widths P) r) as F eqn:EF.
  assert (Ecf : cf_with o (p_vcol P) (p_scol P) (p_widths P) r
                = Some (indent r ++ key r ++ F)).
  { unfold cf_with. rewrite EF. now apply code_fmt_form. }
  destruct (place_comment_tail (p_target P) r (indent r ++ key r ++ F))
    as (n & Hn & Epc).
  assert (Er : render_with o P r
               = rstrip_ws (expand_tabs ((indent r ++ key r ++ F)
                                   ++ comment_tail n (comment r)) (tab_width o))).
  { unfold render_with. now rewrite Ecf, Epc. }
  assert (HF : (forall c t, F = c :: t -> isspace c = true) /\
               rstrip_ws (indent r ++ key r ++ F) = indent r ++ key r ++ F /\
               scan false (indent r ++ key r ++ F) false
               = scan false (indent r ++ key r ++ gap ++ rest r) false /\
               forallb not_tab F = true /\
               (str_eqb (key_lower r) echo_s = false ->
                forallb isspace F = true -> forallb isspace (gap ++ rest r) = true) /\
               rest_rel o (p_widths P) r
                 (if str_eqb (key_lower r) echo_s then F else dropwhile isspace F)).
  { destruct (str_eqb (key_lower r) echo_s
              && (is_echo_table_candidate (echo_align_tables o) r
                  && negb (length (p_widths P) =? 0))) eqn:Tb.
    - apply andb_true_iff in Tb as [Ke Tb].
      pose proof Tb as Tb'.
      apply andb_true_iff in Tb' as [Hc Hwd].
      destruct (candidate_facts _ _ Hc) as (_ & _ & Cm & _ & _).
      assert (G : gap = []) by exact (Hecho Ke).
      assert (Ew : w = []).
      { destruct Hcm as [(_ & E & _) | (_ & (t & E) & _)]; [exact E|].
        rewrite E in Cm. discriminate. }
      subst gap w. cbn [app] in *.
      assert (E : F = [SP] ++ echo_body_fmt (p_widths P) r).
      { rewrite EF. unfold code_form. now rewrite Ke, Tb. }
      destruct (row_facts (echo_align_tables o) (p_widths P) r
                  (indent r ++ key r) Hc Hhead Tr) as (R1 & R2 & R3).
      rewrite <- E in R1, R2, R3.
      rewrite <- (app_assoc (indent r) (key r) F) in R1, R2.
      rewrite <- (app_assoc (indent r) (key r) (rest r)) in R2.
      split; [|split; [exact R1|split; [exact R2|split; [exact R3|split]]]].
      + rewrite E. intros c t H. now injection H as <- _.
      + intros H. congruence.
      + rewrite Ke. right. right.
        split; [exact Ke|]. split; [exact Hc|]. split.
        { intros H. rewrite H in Hwd. discriminate. }
        split; [exact E|].
        unfold failed_with in Fl. apply negb_false_iff, str_eqb_eq in Fl.
        rewrite Er, sig_no_ws_normalize, Cm in Fl. cbn [comment_tail] in Fl.
        rewrite app_nil_r in Fl.
        unfold wf_rec in W. rewrite <- (sig_no_ws_normalize (orig r) (tab_width o)) in Fl.
        rewrite <- W, Eline, Cm, !app_nil_r, !sig_no_ws_app in Fl.
        apply app_inv_head in Fl. apply app_inv_head in Fl. now symmetry.
    - rewrite EF. apply (form_facts o (p_vcol P) (p_scol P) (p_widths P) i l gap);
        try assumption.
      intros Ke. fold r in Ke |- *. rewrite Ke in Tb. exact Tb. }
  destruct HF as (F1 & F2 & F3 & F4 & F5 & F6).
  assert (Hcm' : comment r = [] \/
                 (1 <= n /\ rstrip_ws (comment r) = comment r /\
                  exists t, comment r = SLASH :: SLASH :: t)).
  { destruct Hcm as [(E & _) | (E1 & E2 & _)]; [now left | right; auto]. }
  assert (TR : forallb not_tab ((indent r ++ key r ++ F)
                                ++ comment_tail n (comment r)) = true).
  { rewrite !forallb_app, Ti, Tk, F4. cbn [andb]. unfold comment_tail.
    destruct (comment r) eqn:Cm; [reflexivity|].
    rewrite forallb_app, forallb_not_tab_spaces. exact Tc. }
  assert (SR : rstrip_ws ((indent r ++ key r ++ F) ++ comment_tail n (comment r))
               = (indent r ++ key r ++ F) ++ comment_tail n (comment r)).
  { destruct Hcm' as [Cm | (_ & Cf & t & Cm)].
    - rewrite Cm. cbn [comment_tail]. rewrite app_nil_r. exact F2.
    - unfold comment_tail. rewrite Cm. rewrite <- Cm.
      rewrite !app_assoc. apply rstrip_by_app_fix; [|exact Cf].
      rewrite Cm. discriminate. }
  assert (NB : str_eqb (align_mode o) (lit "block")
               && is_block_boundary_B ((indent r ++ key r ++ F)
                                       ++ comment_tail n (comment r)) = false /\
               startswith (lit "//")
                 (lstrip ((indent r ++ key r ++ F) ++ comment_tail n (comment r)))
               = false).
  { apply (rendered_not_boundary _ (indent r) (key r) gap (rest r) w (comment r) F n);
      try assumption.
    - destruct Hcm as [(E & _) | (_ & E & _)]; [now left | now right].
    - intros Cm. destruct Hcm as [(_ & E & _) | (_ & (t & E) & _)]; [exact E|].
      rewrite E in Cm. discriminate.
    - now rewrite <- Eline.
    - now rewrite <- Eline.
    - rewrite <- Ekl. exact F5. }
  destruct NB as (NB1 & NB2).
  assert (SC : if str_nonempty (comment r)
               then scan false (indent r ++ key r ++ F) false = Some false
               else scan false (indent r ++ key r ++ F) false <> None).
  { rewrite F3. destruct Hcm as [(E & _ & S) | (_ & (t & E) & S)].
    - rewrite E. exact S.
    - rewrite E. exact S. }
  pose proof (parse_rendered o i (indent r) (key r) F (comment r) n
                Hind Hkne Hksp F1 TR F2 Hcm' SC NB1 NB2) as PR.
  cbv zeta in PR.
  exists (if str_eqb (key_lower r) echo_s then F else dropwhile isspace F).
  split; [|exact F6].
  unfold emit_with. rewrite Fl, Er.
  rewrite (detab_fix _ (tab_width o) TR), SR, PR.
  unfold reread. now rewrite K, El, Ekl.
Qed.

End Reread.

(** ** The parameters of a chunk read again *)

Section Stable.

Context {U : UnicodeData}.

Variable o : FormatOptions.

(** The options of the stability theorem: "echo" is no special key,
    or the echo tables are off. *)
Hypothesis Hopt :
  mem_str echo_s (special_keys_of o) = false \/ echo_align_tables o = false.

Lemma second_rel (P : params) (r : rec) :
  parsed o r ->
  reread_rel o (p_widths P) r (second o P r) /\
  orig (second o P r) = emit_with o P r /\
  line (second o P r) = emit_with o P r /\
  parsed o (second o P r).
Proof.
  intros (i & l & ->). unfold second.
  destruct (parse_line_wf o i l) as (_ & _ & ->).
  destruct (reread_ok o P i l) as (x & E & R).
  split; [|split; [|split]].
  - exists (emit_with o P (parse_line o i l)), x. auto.
  - now rewrite E.
  - now rewrite E.
  - now exists i, (emit_with o P (parse_line o i l)).
Qed.

Lemma candidate_not_echo (et : bool) (r : rec) :
  str_eqb (key_lower r) echo_s = false -> is_echo_table_candidate et r = false.
Proof.
  intros H. unfold is_echo_table_candidate. rewrite H.
  destruct (negb et); [reflexivity|].
  destruct (negb (kind_eqb (kind r) Kcmd)); [reflexivity|].
  destruct (str_nonempty (comment r)); reflexivity.
Qed.

Lemma candidate_rest_nonempty (et : bool) (r : rec) :
  is_echo_table_candidate et r = true -> rest r <> [].
Proof.
  intros H E. destruct (candidate_facts et r H) as (_ & _ & _ & _ & Hp).
  rewrite E in Hp. discriminate.
Qed.

Lemma two_quoted_nonempty (s q1 q2 tail : str) :
  split_two_quoted s = Some (q1, q2, tail) -> s <> [] /\ q1 <> [].
Proof.
  intros H. destruct (two_quoted_shape s q1 q2 tail H)
    as (w0 & a & G & b & Es & E1 & _). 
  split; [|rewrite E1; discriminate].
  rewrite Es, E1. destruct w0; discriminate.
Qed.

Lemma two_quoted_respaced (s q1 q2 tail : str) (n : nat) :
  split_two_quoted s = Some (q1, q2, tail) ->
  split_two_quoted (q1 ++ spaces n ++ q2 ++ tail) = Some (q1, q2, tail).
Proof.
  intros H. destruct (two_quoted_shape s q1 q2 tail H)
    as (w0 & a & G & b & Es & E1 & E2 & _ & _ & Ha & Hb).
  rewrite E1, E2.
  exact (two_quoted_build [] a (spaces n) b tail eq_refl
           (forallb_isspace_spaces n) Ha Hb).
Qed.

Lemma str_nonempty_neq (s : str) : s <> [] -> str_nonempty s = true.
Proof. destruct s; [congruence | reflexivity]. Qed.

Lemma str_eqb_nil_neq (s : str) : s <> [] -> str_eqb s [] = false.
Proof. destruct s; [congruence | reflexivity]. Qed.

Lemma rel_fields (W : list nat) (r r2 : rec) :
  reread_rel o W r r2 ->
  kind r2 = kind r /\ indent r2 = indent r /\ key r2 = key r /\
  key_lower r2 = key_lower r /\ comment r2 = comment r /\
  lineno r2 = lineno r /\ line r2 = orig r2.
Proof. intros (e & x & -> & _). repeat split; reflexivity. Qed.

Lemma rel_nonempty (W : list nat) (r r2 : rec) :
  reread_rel o W r r2 ->
  str_nonempty (rest r2) = str_nonempty (rest r) /\
  str_eqb (rest r2) [] = str_eqb (rest r) [].
Proof.
  intros (e & x & -> & [-> | [(Ke & Hm & q1 & q2 & tail & n & Hs & Hn & ->)
                              | (Ke & Hc & Hw & -> & Hsig)]]);
    cbn [reread rest].
  - split; reflexivity.
  - destruct (two_quoted_nonempty _ _ _ _ Hs) as (N1 & N2).
    assert (N3 : q1 ++ spaces n ++ q2 ++ tail <> []).
    { destruct q1; [congruence | discriminate]. }
    now rewrite !str_nonempty_neq, !str_eqb_nil_neq.
  - pose proof (candidate_rest_nonempty _ _ Hc) as N1.
    rewrite (str_nonempty_neq _ N1), (str_eqb_nil_neq _ N1). split; reflexivity.
Qed.

Lemma rel_q1 (W : list nat) (r r2 : rec) :
  reread_rel o W r r2 ->
  (if negb (mem_str (key_lower r2) (special_keys_of o)) then []
   else match split_two_quoted (rest r2) with
        | Some (q1, _, _) => [zlen q1]
        | None => []
        end)
  = (if negb (mem_str (key_lower r) (special_keys_of o)) then []
     else match split_two_quoted (rest r) with
          | Some (q1, _, _) => [zlen q1]
          | None => []
          end).
Proof.
  intros (e & x & -> & [-> | [(Ke & Hm & q1 & q2 & tail & n & Hs & Hn & ->)
                              | (Ke & Hc & Hw & -> & Hsig)]]);
    cbn [reread rest key_lower].
  - reflexivity.
  - now rewrite (two_quoted_respaced _ _ _ _ n Hs), Hs.
  - apply str_eqb_eq in Ke. rewrite Ke.
    destruct Hopt as [-> | Het]; [reflexivity|].
    rewrite Het in Hc. discriminate.
Qed.

Lemma rel_candidate (W : list nat) (r r2 : rec) :
  reread_rel o W r r2 ->
  is_echo_table_candidate (echo_align_tables o) r2
  = is_echo_table_candidate (echo_align_tables o) r /\
  (is_echo_table_candidate (echo_align_tables o) r = true ->
   echo_lead r2 = echo_lead r /\ echo_trail r2 = echo_trail r /\
   echo_fields r2 = echo_fields r).
Proof.
  intros (e & x & -> & [-> | [(Ke & Hm & q1 & q2 & tail & n & Hs & Hn & ->)
                              | (Ke & Hc & Hw & -> & Hsig)]]).
  - split; [reflexivity|]. intros _. repeat split; reflexivity.
  - rewrite !candidate_not_echo by exact Ke. split; [reflexivity|discriminate].
  - pose proof (row_reread _ W r e Hc Hsig) as H. cbv zeta in H.
    destruct H as (_ & HL & HT & HF & HC).
    split; [now rewrite HC, Hc|]. intros _. auto.
Qed.

Lemma rel_code_fmt (W : list nat) (vcol scol : Z) (r r2 : rec) :
  reread_rel o W r r2 ->
  cf_with o vcol scol W r2 = cf_with o vcol scol W r.
Proof.
  intros (e & x & -> & [-> | [(Ke & Hm & q1 & q2 & tail & n & Hs & Hn & ->)
                              | (Ke & Hc & Hw & -> & Hsig)]]).
  - reflexivity.
  - destruct (two_quoted_nonempty _ _ _ _ Hs) as (N1 & N2).
    assert (N3 : q1 ++ spaces n ++ q2 ++ tail <> []).
    { destruct q1; [congruence | discriminate]. }
    unfold cf_with, code_fmt. cbn [reread kind key_lower rest indent key].
    rewrite Ke, Hm, (str_eqb_nil_neq _ N1), (str_eqb_nil_neq _ N3).
    now rewrite (two_quoted_respaced _ _ _ _ n Hs), Hs.
  - pose proof (row_reread _ W r e Hc Hsig) as H. cbv zeta in H.
    destruct H as (_ & _ & _ & _ & HC).
    pose proof (row_reread_fmt _ W W r e Hc Hsig) as HB.
    remember (reread r e ([SP] ++ echo_body_fmt W r)) as r2 eqn:E2.
    assert (F : kind r2 = kind r /\ key_lower r2 = key_lower r /\
                indent r2 = indent r /\ key r2 = key r).
    { rewrite E2. repeat split; reflexivity. }
    destruct F as (F1 & F2 & F3 & F4).
    unfold cf_with, code_fmt. rewrite F1, F2, F3, F4, Ke, HC, Hc, HB.
    destruct (negb (kind_eqb (kind r) Kcmd)); [reflexivity|].
    destruct W as [|w0 W']; [now exfalso; apply Hw|]. reflexivity.
Qed.

Lemma flat_map_map_in {A B : Type} (T : rec -> rec) (f g : rec -> list B)
  (C : list rec) :
  (forall r, In r C -> f (T r) = g r) ->
  flat_map f (map T C) = flat_map g C.
Proof.
  induction C as [|r C IH]; intros H; [reflexivity|]. simpl.
  rewrite (H r (or_introl eq_refl)), IH; [reflexivity|].
  intros r' Hr'. apply H. now right.
Qed.

Lemma key_widths_rel (W : list nat) (T : rec -> rec) (C : list rec) :
  (forall r, In r C -> reread_rel o W r (T r)) ->
  key_widths (map T C) = key_widths C.
Proof.
  intros H. unfold key_widths. apply (flat_map_map_in (A := rec)).
  intros r Hr. specialize (H r Hr).
  destruct (rel_fields W r (T r) H) as (-> & -> & -> & _).
  destruct (rel_nonempty W r (T r) H) as (-> & _). reflexivity.
Qed.

Lemma q1_lens_rel (W : list nat) (T : rec -> rec) (C : list rec) :
  (forall r, In r C -> reread_rel o W r (T r)) ->
  q1_lens (special_keys_of o) (map T C) = q1_lens (special_keys_of o) C.
Proof.
  intros H. unfold q1_lens. apply (flat_map_map_in (A := rec)).
  intros r Hr. specialize (H r Hr).
  destruct (rel_fields W r (T r) H) as (-> & _).
  destruct (rel_nonempty W r (T r) H) as (-> & _).
  destruct (negb (kind_eqb (kind r) Kcmd) || negb (str_nonempty (rest r)));
    [reflexivity|].
  exact (rel_q1 W r (T r) H).
Qed.

Lemma echo_rows_rel (W : list nat) (T : rec -> rec) (C : list rec) :
  (forall r, In r C -> reread_rel o W r (T r)) ->
  echo_rows (echo_align_tables o) (map T C) = echo_rows (echo_align_tables o) C.
Proof.
  intros H. unfold echo_rows. apply (flat_map_map_in (A := rec)).
  intros r Hr. specialize (H r Hr).
  destruct (rel_candidate W r (T r) H) as (-> & HF).
  destruct (is_echo_table_candidate (echo_align_tables o) r); [|reflexivity].
  destruct (HF eq_refl) as (-> & -> & ->). reflexivity.
Qed.

Lemma widths_of_rel (W : list nat) (T : rec -> rec) (C : list rec) :
  (forall r, In r C -> reread_rel o W r (T r)) ->
  widths_of o (map T C) = widths_of o C.
Proof.
  intros H. unfold widths_of, echo_col_widths.
  now rewrite (echo_rows_rel W T C H).
Qed.

Lemma combine_map_self {B : Type} (f : rec -> B) (C : list rec) :
  combine C (map f C) = map (fun r => (r, f r)) C.
Proof. induction C as [|r C IH]; simpl; [reflexivity | now rewrite IH]. Qed.

Lemma code_lens_self (f : rec -> option str) (C : list rec) :
  code_lens_for_comment (combine C (map f C))
  = flat_map (fun r => match f r with
                       | Some cf => if str_nonempty (comment r) then [zlen cf] else []
                       | None => []
                       end) C.
Proof.
  rewrite combine_map_self. unfold code_lens_for_comment.
  induction C as [|r C IH]; simpl; [reflexivity | now rewrite IH].
Qed.

(** The chunk read again has the parameters of the chunk. *)
Lemma chunk_params (T : rec -> rec) (C : list rec) :
  (forall r, In r C -> reread_rel o (widths_of o C) r (T r)) ->
  params_of o (map T C) = params_of o C.
Proof.
  intros H. unfold params_of.
  assert (E1 : value_col (key_cap o) (map T C) = value_col (key_cap o) C).
  { unfold value_col, max_key. now rewrite (key_widths_rel _ T C H). }
  assert (E2 : second_col (key_cap o) (special_keys_of o) (map T C)
               = second_col (key_cap o) (special_keys_of o) C).
  { unfold second_col, max_q1_len. now rewrite E1, (q1_lens_rel _ T C H). }
  assert (E3 : widths_of o (map T C) = widths_of o C)
    by exact (widths_of_rel _ T C H).
  rewrite E1, E2, E3. f_equal.
  unfold comment_target. rewrite !code_lens_self.
  rewrite (flat_map_map_in (A := rec) T _
             (fun r => match cf_with o (value_col (key_cap o) C)
                               (second_col (key_cap o) (special_keys_of o) C)
                               (widths_of o C) r with
                       | Some cf => if str_nonempty (comment r) then [zlen cf] else []
                       | None => []
                       end)); [reflexivity|].
  intros r Hr. specialize (H r Hr).
  rewrite (rel_code_fmt _ _ _ r (T r) H).
  destruct (rel_fields _ r (T r) H) as (_ & _ & _ & _ & -> & _). reflexivity.
Qed.

(** The line emitted for a record is emitted again for the record
    read from it, and the guard fails again exactly when it failed. *)
Lemma rel_emit (P : params) (r r2 : rec) :
  reread_rel o (p_widths P) r r2 -> wf_rec o r ->
  orig r2 = emit_with o P r ->
  emit_with o P r2 = emit_with o P r /\ failed_with o P r2 = failed_with o P r.
Proof.
  intros H W Eo.
  destruct (rel_fields _ r r2 H) as (K & _ & _ & _ & Cm & _ & Li).
  assert (R : render_with o P r2 = render_with o P r).
  { unfold render_with. rewrite (rel_code_fmt _ _ _ r r2 H).
    destruct (cf_with o (p_vcol P) (p_scol P) (p_widths P) r) as [c|] eqn:E.
    - unfold place_comment. now rewrite Cm.
    - apply cf_with_none in E. rewrite Li, Eo.
      now destruct (other_not_failed o P r E W) as [_ ->]. }
  assert (Fl : failed_with o P r2 = failed_with o P r).
  { unfold failed_with. now rewrite R, Eo, emit_with_sig. }
  split; [|exact Fl].
  unfold emit_with at 1. rewrite Fl, R.
  destruct (failed_with o P r) eqn:F.
  - rewrite Eo, (emit_with_failed o P r F). apply normalize_idem.
  - unfold emit_with. now rewrite F.
Qed.

End Stable.

(** ** The chunks of the second run *)

Lemma segs_nb (recs : list rec) :
  forallb (fun r => negb (is_boundary r)) (fst (segs recs)) = true /\
  Forall (fun bs => is_boundary (fst bs) = true /\
                    forallb (fun r => negb (is_boundary r)) (snd bs) = true)
    (snd (segs recs)).
Proof.
  induction recs as [|r tl [IH1 IH2]]; simpl; [split; [reflexivity | constructor]|].
  destruct (segs tl) as [s more]. simpl in IH1, IH2.
  destruct (is_boundary r) eqn:B; simpl.
  - split; [reflexivity|]. constructor; [|exact IH2]. simpl. auto.
  - rewrite B. simpl. auto.
Qed.

Lemma segs_app_nb (s rest0 : list rec) :
  forallb (fun r => negb (is_boundary r)) s = true ->
  segs (s ++ rest0) = (s ++ fst (segs rest0), snd (segs rest0)).
Proof.
  induction s as [|r s IH]; intros H; simpl.
  - now destruct (segs rest0).
  - simpl in H. apply andb_true_iff in H as [Hr Hs].
    rewrite (IH Hs). apply negb_true_iff in Hr. now rewrite Hr.
Qed.

Lemma segs_blocks (more : list (rec * list rec)) :
  Forall (fun bs => is_boundary (fst bs) = true /\
                    forallb (fun r => negb (is_boundary r)) (snd bs) = true) more ->
  segs (flat_map (fun bs => fst bs :: snd bs) more) = ([], more).
Proof.
  induction 1 as [|[b s] tl [Hb Hs] _ IH]; [reflexivity|].
  simpl in Hb, Hs. cbn [flat_map fst snd app segs].
  rewrite (segs_app_nb s _ Hs), IH, Hb. cbn [fst snd]. now rewrite app_nil_r.
Qed.

Lemma segs_build (s : list rec) (more : list (rec * list rec)) :
  forallb (fun r => negb (is_boundary r)) s = true ->
  Forall (fun bs => is_boundary (fst bs) = true /\
                    forallb (fun r => negb (is_boundary r)) (snd bs) = true) more ->
  segs (s ++ flat_map (fun bs => fst bs :: snd bs) more) = (s, more).
Proof.
  intros Hs Hm. rewrite (segs_app_nb s _ Hs), (segs_blocks more Hm).
  cbn [fst snd]. now rewrite app_nil_r.
Qed.

Lemma parse_lines_map {U : UnicodeData} {A : Type} (o : FormatOptions) (g : A -> str)
  (ln : A -> nat) (L : list A) (i : nat) :
  map ln L = seq i (length L) ->
  parse_lines o i (map g L) = map (fun p => parse_line o (ln p) (g p)) L.
Proof.
  revert i. induction L as [|p L IH]; intros i H; [reflexivity|].
  simpl in H. injection H as H1 H2. simpl. rewrite H1. f_equal. now apply IH.
Qed.

Lemma parse_lines_linenos {U : UnicodeData} (o : FormatOptions) (i : nat) (ls : list str) :
  map lineno (parse_lines o i ls) = seq i (length ls).
Proof.
  revert i. induction ls as [|l ls IH]; intros i; [reflexivity|].
  simpl. rewrite IH. f_equal.
  now destruct (parse_line_wf o i l) as (_ & _ & ->).
Qed.

Lemma parse_lines_parsed {U : UnicodeData} (o : FormatOptions) (i : nat) (ls : list str) :
  Forall (parsed o) (parse_lines o i ls).
Proof.
  revert i. induction ls as [|l ls IH]; intros i; simpl; constructor.
  - now exists i, l.
  - apply IH.
Qed.

Lemma parsed_wf {U : UnicodeData} (o : FormatOptions) (r : rec) : parsed o r -> wf_rec o r.
Proof. intros (i & l & ->). apply parse_line_wf. Qed.

Lemma filter_map_in {A B : Type} (f : B -> bool) (f' : A -> bool) (g : A -> B)
  (L : list A) :
  (forall r, In r L -> f (g r) = f' r) ->
  filter f (map g L) = map g (filter f' L).
Proof.
  induction L as [|r L IH]; intros H; [reflexivity|]. simpl.
  rewrite (H r (or_introl eq_refl)), IH by (intros r' Hr'; apply H; now right).
  now destruct (f' r).
Qed.

Lemma map_flat_map {A B C : Type} (f : B -> C) (g : A -> list B) (L : list A) :
  map f (flat_map g L) = flat_map (fun a => map f (g a)) L.
Proof.
  induction L as [|a L IH]; simpl; [reflexivity|]. now rewrite map_app, IH.
Qed.

Lemma flat_map_map {A B C : Type} (f : A -> B) (g : B -> list C) (L : list A) :
  flat_map g (map f L) = flat_map (fun a => g (f a)) L.
Proof.
  induction L as [|a L IH]; simpl; [reflexivity|]. now rewrite IH.
Qed.

Lemma chunked_incl {U : UnicodeData} (o : FormatOptions) (recs : list rec)
  (p : rec * list rec) :
  In p (chunked o recs) -> In (fst p) recs /\ incl (snd p) recs.
Proof.
  intros H. split.
  - rewrite <- (chunked_fst o recs). now apply in_map.
  - unfold chunked in H. destruct (str_eqb (align_mode o) (lit "global")).
    + apply in_map_iff in H as (r & <- & _). simpl.
      intros x Hx. now apply filter_In in Hx.
    + pose proof (segs_concat recs) as E.
      destruct (segs recs) as [s more]. cbn [fst snd] in E.
      apply in_app_or in H as [H | H].
      * apply in_map_iff in H as (r & <- & _). simpl.
        intros x Hx. rewrite <- E. apply in_or_app. now left.
      * apply in_flat_map in H as (bs & Hbs & [<- | H]).
        -- simpl. intros x [].
        -- apply in_map_iff in H as (r & <- & _). simpl.
           intros x Hx. rewrite <- E. apply in_or_app. right.
           apply in_flat_map. exists bs. split; [exact Hbs | now right].
Qed.

Section SecondRun.

Context {U : UnicodeData}.

Variable o : FormatOptions.

Hypothesis Hopt :
  mem_str echo_s (special_keys_of o) = false \/ echo_align_tables o = false.

Lemma lineno_second (P : params) (r : rec) : lineno (second o P r) = lineno r.
Proof. unfold second. now destruct (parse_line_wf o (lineno r) (emit_with o P r)) as (_ & _ & ->). Qed.

Lemma is_boundary_second (P : params) (r : rec) :
  parsed o r -> is_boundary (second o P r) = is_boundary r.
Proof.
  intros Hr. destruct (second_rel o P r Hr) as (H & _).
  destruct (rel_fields o _ r _ H) as (K & _). unfold is_boundary. now rewrite K.
Qed.

Lemma forallb_nb_second (P : params) (s : list rec) :
  Forall (parsed o) s ->
  forallb (fun r => negb (is_boundary r)) s = true ->
  forallb (fun r => negb (is_boundary r)) (map (second o P) s) = true.
Proof.
  induction 1 as [|r s Hr _ IH]; [reflexivity|]. simpl. intros H.
  apply andb_true_iff in H as [H1 H2].
  now rewrite (is_boundary_second P r Hr), H1, IH.
Qed.

(** The records of the second run. *)
Lemma second_recs (ls : list str) :
  parse_lines o 1 (out_lines_of o (parse_lines o 1 ls))
  = map (fun p => second o (params_of o (snd p)) (fst p))
      (chunked o (parse_lines o 1 ls)).
Proof.
  unfold out_lines_of.
  rewrite (parse_lines_map o _ (fun p => lineno (fst p))).
  - reflexivity.
  - rewrite <- (map_map fst lineno), chunked_fst, parse_lines_linenos.
    now rewrite chunked_length, parse_lines_length.
Qed.

(** The chunks of the second run are the chunks of the first, read
    again. *)
Lemma chunked_second (recs : list rec) :
  Forall (parsed o) recs ->
  chunked o (map (fun p => second o (params_of o (snd p)) (fst p)) (chunked o recs))
  = map (fun p => (second o (params_of o (snd p)) (fst p),
                   map (second o (params_of o (snd p))) (snd p)))
      (chunked o recs).
Proof.
  intros Hp. rewrite Forall_forall in Hp. unfold chunked.
  destruct (str_eqb (align_mode o) (lit "global")).
  - rewrite !map_map. cbn [fst snd].
    set (C := filter (fun r => negb (is_boundary r)) recs).
    set (S := second o (params_of o C)).
    assert (E : filter (fun r => negb (is_boundary r)) (map S recs) = map S C).
    { apply filter_map_in. intros r Hr. unfold S.
      now rewrite is_boundary_second by now apply Hp. }
    apply map_ext. intros r. f_equal. exact E.
  - pose proof (segs_concat recs) as E. pose proof (segs_nb recs) as [N1 N2].
    destruct (segs recs) as [s more]. cbn [fst snd] in E, N1, N2.
    assert (Ps : Forall (parsed o) s).
    { apply Forall_forall. intros r Hr. apply Hp. rewrite <- E.
      apply in_or_app. now left. }
    assert (Pm : forall bs, In bs more ->
                            parsed o (fst bs) /\ Forall (parsed o) (snd bs)).
    { intros bs Hbs. split.
      - apply Hp. rewrite <- E. apply in_or_app. right.
        apply in_flat_map. exists bs. split; [exact Hbs | now left].
      - apply Forall_forall. intros r Hr. apply Hp. rewrite <- E.
        apply in_or_app. right. apply in_flat_map. exists bs.
        split; [exact Hbs | now right]. }
    rewrite map_app, map_map, map_flat_map. cbn [fst snd map].
    set (more2 := map (fun bs => (second o (params_of o []) (fst bs),
                                  map (second o (params_of o (snd bs))) (snd bs)))
                    more).
    assert (E2 : flat_map
                   (fun a => second o (params_of o []) (fst a)
                             :: map (fun p => second o (params_of o (snd p)) (fst p))
                                  (map (fun r => (r, snd a)) (snd a))) more
                 = flat_map (fun bs => fst bs :: snd bs) more2).
    { unfold more2. rewrite flat_map_map. apply flat_map_ext. intros bs.
      cbn [fst snd]. now rewrite map_map. }
    rewrite E2.
    rewrite (segs_build (map (second o (params_of o s)) s) more2).
    + rewrite map_app, !map_map, map_flat_map. cbn [fst snd]. f_equal.
      unfold more2. rewrite flat_map_map. apply flat_map_ext. intros bs.
      cbn [fst snd map]. now rewrite !map_map.
    + now apply forallb_nb_second.
    + unfold more2. apply Forall_forall. intros bs2 Hbs2.
      apply in_map_iff in Hbs2 as (bs & <- & Hbs). cbn [fst snd].
      destruct (Pm bs Hbs) as [P1 P2].
      rewrite Forall_forall in N2. destruct (N2 bs Hbs) as [B1 B2].
      split.
      * now rewrite is_boundary_second.
      * now apply forallb_nb_second.
Qed.

(** The lines and the failures of the second run over all emitted
    lines are those of the first. *)
Lemma stable_lines (recs : list rec) :
  Forall (parsed o) recs ->
  let recs2 := map (fun p => second o (params_of o (snd p)) (fst p))
                 (chunked o recs) in
  out_lines_of o recs2 = out_lines_of o recs /\
  fails_of o recs2 = fails_of o recs.
Proof.
  intros Hp recs2.
  assert (Pt : forall p, In p (chunked o recs) ->
                         emit o (map (second o (params_of o (snd p))) (snd p))
                           (second o (params_of o (snd p)) (fst p))
                         = emit o (snd p) (fst p) /\
                         failed o (map (second o (params_of o (snd p))) (snd p))
                           (second o (params_of o (snd p)) (fst p))
                         = failed o (snd p) (fst p)).
  { intros p Hin. destruct (chunked_incl o recs p Hin) as [I1 I2].
    rewrite Forall_forall in Hp.
    unfold emit, failed.
    rewrite (chunk_params o Hopt (second o (params_of o (snd p))) (snd p)).
    - destruct (second_rel o (params_of o (snd p)) (fst p) (Hp _ I1))
        as (R & Eo & _).
      apply (rel_emit o (params_of o (snd p)) (fst p) _ R); [|exact Eo].
      apply parsed_wf. now apply Hp.
    - intros r Hr.
      now destruct (second_rel o (params_of o (snd p)) r (Hp _ (I2 _ Hr))) as (R & _). }
  unfold out_lines_of, fails_of, recs2.
  rewrite (chunked_second recs Hp). split.
  - rewrite map_map. cbn [fst snd]. apply map_ext_in.
    intros p Hin. now destruct (Pt p Hin).
  - rewrite (filter_map_in _ (fun p => failed o (snd p) (fst p))).
    + rewrite map_map. cbn [fst]. apply map_ext. intros p. apply lineno_second.
    + intros p Hin. cbn [fst snd]. now destruct (Pt p Hin).
Qed.

End SecondRun.

(** ** The text of the second run *)

Lemma startswith_app_self (p b : str) : startswith p (p ++ b) = true.
Proof.
  induction p as [|x p IH]; [reflexivity|]. simpl.
  now rewrite ch_eqb_refl, IH.
Qed.

Lemma contains_app (a p b : str) : contains p (a ++ p ++ b) = true.
Proof.
  induction a as [|c a IH].
  - cbn [app]. destruct (p ++ b) eqn:E; simpl; rewrite <- E;
      now rewrite startswith_app_self.
  - cbn [app contains]. rewrite IH. apply orb_true_r.
Qed.

Lemma contains_crlf_free (s : str) :
  free_of CR s = true -> contains [CR; LF] s = false.
Proof.
  induction s as [|c s IH]; [reflexivity|]. intros H.
  unfold free_of in H. simpl in H. apply andb_true_iff in H as [Hc Hs].
  apply negb_true_iff in Hc. cbn [contains startswith].
  unfold ch_eqb in *. rewrite N.eqb_sym, Hc. cbn [andb orb]. now apply IH.
Qed.

Lemma free_of_app (c : char) (a b : str) :
  free_of c (a ++ b) = free_of c a && free_of c b.
Proof. unfold free_of. apply forallb_app. Qed.

Lemma newline_of_with (nl a b : str) :
  is_newline nl ->
  (nl = [LF] -> free_of CR a = true /\ free_of CR b = true) ->
  newline_of (a ++ nl ++ b) = nl.
Proof.
  intros [-> | ->] H; unfold newline_of.
  - destruct (H eq_refl) as [Ha Hb].
    rewrite contains_crlf_free; [reflexivity|].
    rewrite !free_of_app, Ha, Hb. reflexivity.
  - now rewrite contains_app.
Qed.

Lemma no_linebreak_free_cr (l : str) : no_linebreak l = true -> free_of CR l = true.
Proof.
  unfold no_linebreak, free_of. rewrite !forallb_forall. intros H c Hc.
  specialize (H c Hc). destruct (ch_eqb c CR) eqn:E; [|reflexivity].
  apply ch_eqb_eq in E. subst c. discriminate.
Qed.

Lemma join_lf_free_cr (L : list str) :
  Forall (fun l => no_linebreak l = true) L -> free_of CR (join [LF] L) = true.
Proof.
  intros H. unfold free_of. apply forallb_join; [reflexivity|].
  intros l Hl. apply no_linebreak_free_cr. rewrite Forall_forall in H. now apply H.
Qed.

Lemma drop_last_snoc_empty (L : list str) : drop_last_empty (L ++ [[]]) = L.
Proof.
  induction L as [|x L IH]; [reflexivity|].
  destruct L as [|y t]; [reflexivity|].
  change ((x :: y :: t) ++ [[]]) with (x :: (y :: t) ++ [[]]).
  change (drop_last_empty (x :: (y :: t) ++ [[]]))
    with (x :: drop_last_empty ((y :: t) ++ [[]])).
  now rewrite IH.
Qed.

Lemma drop_last_snoc_keep (L : list str) (x : str) :
  x <> [] -> drop_last_empty (L ++ [x]) = L ++ [x].
Proof.
  intros Hx. induction L as [|y L IH].
  - destruct x; [congruence | reflexivity].
  - destruct L as [|z t].
    + cbn [app]. cbn [app] in IH.
      change (drop_last_empty [y; x]) with (y :: drop_last_empty [x]).
      now rewrite IH.
    + change ((y :: z :: t) ++ [x]) with (y :: (z :: t) ++ [x]).
      change (drop_last_empty (y :: (z :: t) ++ [x]))
        with (y :: drop_last_empty ((z :: t) ++ [x])).
      now rewrite IH.
Qed.

Lemma lines_cases (L : list str) :
  L = [] \/ (exists L' l c, L = L' ++ [l ++ [c]]) \/ (exists L', L = L' ++ [[]]).
Proof.
  destruct L as [|x0 L0]; [now left|]. right.
  destruct (exists_last (l := x0 :: L0)) as (L' & x & ->); [discriminate|].
  destruct x as [|c0 x0'].
  - right. now exists L'.
  - left. destruct (exists_last (l := c0 :: x0')) as (l & c & ->); [discriminate|].
    now exists L', l, c.
Qed.

Lemma keep_final_nil : keep_final_newline [] = false.
Proof. reflexivity. Qed.

Lemma forall_app_l {A : Type} (P : A -> Prop) (a b : list A) :
  Forall P (a ++ b) -> Forall P a.
Proof. intros H. apply Forall_app in H. tauto. Qed.

(** A text assembled from lines is what its own lines, its own
    newline and its own final newline assemble. *)
Lemma text_roundtrip (raw : str) (outs : list str) :
  length outs = length (splitlines raw) ->
  Forall (fun l => no_linebreak l = true) outs ->
  text_of (text_of raw outs) (splitlines (text_of raw outs)) = text_of raw outs.
Proof.
  intros Hl Hnb. rewrite (splitlines_text_of raw outs Hl Hnb).
  pose proof (newline_of_is_newline raw) as Hnl.
  unfold text_of at 2 3.
  remember (newline_of raw) as nl eqn:Enl. clear Enl.
  assert (Hcr : forall L, Forall (fun l => no_linebreak l = true) L ->
                          nl = [LF] -> free_of CR (join nl L) = true).
  { intros L HL ->. now apply join_lf_free_cr. }
  destruct (keep_final_newline raw) eqn:K.
  - (* the final newline is kept *)
    assert (N : newline_of (join nl outs ++ nl) = nl).
    { replace (join nl outs ++ nl) with (join nl outs ++ nl ++ [])
        by now rewrite app_nil_r.
      apply newline_of_with; [exact Hnl|]. intros E. split; [|reflexivity].
      now apply Hcr. }
    unfold text_of. rewrite N, keep_final_newline_lf.
    now rewrite (endswith_lf_newline _ nl Hnl).
  - rewrite app_nil_r.
    destruct (lines_cases outs) as [-> | [(L' & l & c & ->) | (L' & ->)]].
    + reflexivity.
    + (* the last line is not empty *)
      rewrite drop_last_snoc_keep by (destruct l; discriminate).
      assert (Hc : is_linebreak c = false).
      { apply Forall_app in Hnb as [_ Hx]. inversion Hx as [|? ? H1 _]; subst.
        unfold no_linebreak in H1. rewrite forallb_app in H1.
        apply andb_true_iff in H1 as [_ H1]. simpl in H1.
        rewrite andb_true_r in H1. now apply negb_true_iff in H1. }
      assert (Kt : keep_final_newline (join nl (L' ++ [l ++ [c]])) = false).
      { assert (Hlf : ch_eqb LF c = false).
        { destruct (ch_eqb LF c) eqn:E; [|reflexivity].
          apply ch_eqb_eq in E. subst c. discriminate. }
        rewrite keep_final_newline_lf, join_snoc.
        destruct L' as [|x L'].
        - now rewrite endswith_lf_snoc.
        - now rewrite !app_assoc, endswith_lf_snoc. }
      unfold text_of. rewrite Kt, app_nil_r.
      destruct L' as [|x L']; [reflexivity|].
      assert (N : newline_of (join nl ((x :: L') ++ [l ++ [c]])) = nl).
      { rewrite join_snoc. apply newline_of_with; [exact Hnl|].
        intros E. split.
        - apply Hcr; [|exact E]. exact (forall_app_l _ _ _ Hnb).
        - apply no_linebreak_free_cr. apply Forall_app in Hnb as [_ Hx].
          now inversion Hx. }
      now rewrite N.
    + (* the last line is empty and dropped *)
      rewrite drop_last_snoc_empty.
      destruct L' as [|x L']; [reflexivity|].
      rewrite join_snoc. cbv beta iota.
      remember (x :: L') as L eqn:EL.
      assert (N : newline_of (join nl L ++ nl ++ []) = nl).
      { apply newline_of_with; [exact Hnl|]. intros E1. split; [|reflexivity].
        apply Hcr; [|exact E1]. exact (forall_app_l _ _ _ Hnb). }
      unfold text_of. rewrite N, keep_final_newline_lf.
      rewrite app_nil_r at 1.
      rewrite (endswith_lf_newline _ nl Hnl). now rewrite app_nil_r.
Qed.

(** ** The second run *)

Lemma parse_lines_app {U : UnicodeData} (o : FormatOptions) (i : nat) (a b : list str) :
  parse_lines o i (a ++ b)
  = parse_lines o i a ++ parse_lines o (i + length a) b.
Proof.
  revert i. induction a as [|l a IH]; intros i; simpl.
  - now rewrite Nat.add_0_r.
  - rewrite IH. do 2 f_equal. f_equal. lia.
Qed.

Lemma parse_line_empty {U : UnicodeData} (o : FormatOptions) (i : nat) :
  is_boundary (parse_line o i []) = true.
Proof.
  unfold parse_line, record_of.
  change (rstrip_ws (expand_tabs [] (tab_width o))) with (@nil char).
  destruct (str_eqb (align_mode o) (lit "block")).
  - unfold is_block_boundary_B. change (strip []) with (@nil char).
    rewrite lower_empty. reflexivity.
  - cbn [andb]. change (startswith (lit "//") (lstrip [])) with false.
    cbv iota. change (str_eqb (strip []) []) with true. reflexivity.
Qed.

Lemma segs_snoc_boundary (recs : list rec) (b : rec) :
  is_boundary b = true ->
  segs (recs ++ [b]) = (fst (segs recs), snd (segs recs) ++ [(b, [])]).
Proof.
  intros Hb. induction recs as [|r tl IH]; simpl.
  - now rewrite Hb.
  - rewrite IH. destruct (segs tl) as [s more]. cbn [fst snd].
    now destruct (is_boundary r).
Qed.

Section LastLine.

Context {U : UnicodeData}.

Lemma chunked_snoc_boundary (o : FormatOptions) (recs : list rec) (b : rec) :
  is_boundary b = true ->
  exists Cb, chunked o (recs ++ [b]) = chunked o recs ++ [(b, Cb)].
Proof.
  intros Hb. unfold chunked.
  destruct (str_eqb (align_mode o) (lit "global")).
  - rewrite filter_app. cbn [filter]. rewrite Hb. cbn [negb].
    rewrite app_nil_r, map_app. eexists. reflexivity.
  - rewrite (segs_snoc_boundary recs b Hb).
    destruct (segs recs) as [s more]. cbn [fst snd].
    rewrite flat_map_app. cbn [flat_map fst snd map app].
    rewrite app_assoc. eexists. reflexivity.
Qed.

(** A boundary after the last record adds its line and no failure. *)
Lemma out_fails_snoc (o : FormatOptions) (recs : list rec) (b : rec) :
  is_boundary b = true -> wf_rec o b ->
  exists e, out_lines_of o (recs ++ [b]) = out_lines_of o recs ++ [e] /\
            fails_of o (recs ++ [b]) = fails_of o recs.
Proof.
  intros Hb W. destruct (chunked_snoc_boundary o recs b Hb) as (Cb & E).
  unfold out_lines_of, fails_of. rewrite E, map_app, filter_app.
  cbn [map filter fst snd].
  destruct (other_not_failed o (params_of o Cb) b (is_boundary_kind b Hb) W)
    as [F _].
  unfold failed. rewrite F. cbn [map]. rewrite app_nil_r.
  eexists. split; reflexivity.
Qed.

Variable o : FormatOptions.

Hypothesis Hopt :
  mem_str echo_s (special_keys_of o) = false \/ echo_align_tables o = false.

(** The second run over all the emitted lines. *)
Lemma second_all (ls : list str) :
  let outs := out_lines_of o (parse_lines o 1 ls) in
  out_lines_of o (parse_lines o 1 outs) = outs /\
  fails_of o (parse_lines o 1 outs) = fails_of o (parse_lines o 1 ls).
Proof.
  intros outs. unfold outs. rewrite second_recs.
  apply (stable_lines o Hopt). apply parse_lines_parsed.
Qed.

(** The second run over the lines of the emitted text. *)
Lemma second_lines (raw : str) :
  let outs := out_lines_of o (parse_lines o 1 (splitlines raw)) in
  let t := text_of raw outs in
  out_lines_of o (parse_lines o 1 (splitlines t)) = splitlines t /\
  fails_of o (parse_lines o 1 (splitlines t))
  = fails_of o (parse_lines o 1 (splitlines raw)).
Proof.
  intros outs t. unfold t.
  rewrite (splitlines_text_of raw outs).
  - destruct (second_all (splitlines raw)) as [S1 S2]. fold outs in S1, S2.
    destruct (keep_final_newline raw); [now split|].
    destruct (lines_cases outs) as [E | [(L' & l & c & E) | (L' & E)]].
    + rewrite E in *. now split.
    + rewrite E in *. rewrite drop_last_snoc_keep by (destruct l; discriminate).
      now split.
    + rewrite E in *. rewrite drop_last_snoc_empty.
      rewrite parse_lines_app in S1, S2.
      change (parse_lines o (1 + length L') [[]])
        with [parse_line o (1 + length L') []] in S1, S2.
      destruct (out_fails_snoc o (parse_lines o 1 L')
                  (parse_line o (1 + length L') [])
                  (parse_line_empty o _)
                  (proj1 (parse_line_wf o _ _))) as (e & E1 & E2).
      rewrite E1 in S1. rewrite E2 in S2.
      apply app_inj_tail in S1 as [S1 _]. now split.
  - apply out_lines_length.
  - apply out_lines_no_linebreak, splitlines_no_linebreak.
Qed.

End LastLine.

(** A run on the text a run returned ends as [formatted]: the tab width
    that could be repeated in the first run can be repeated again,
    and the text returned for a text without line has no line. *)
Lemma format_text_again {U : UnicodeData} (raw : str) (o : FormatOptions)
  (res1 : FormatResult) :
  format_text raw o = Ok res1 ->
  formatted raw o = Ok res1 /\
  format_text (out_text res1) o = formatted (out_text res1) o.
Proof.
  intros H. destruct (format_text_returns raw o res1 H) as [H1 Hw].
  split; [exact H1|]. rewrite format_text_spec.
  destruct Hw as [Hn | Hw].
  - apply splitlines_nil in Hn. subst raw.
    assert (E : out_text res1 = []).
    { revert H1. unfold formatted. destruct (mode_ok o); [|discriminate].
      intros H1. injection H1 as <-. cbn [out_text].
      unfold out_lines_of, chunked. cbn [splitlines parse_lines].
      destruct (str_eqb (align_mode o) (lit "global")); reflexivity. }
    rewrite E. reflexivity.
  - rewrite Hw. now destruct (splitlines (out_text res1)).
Qed.

(** C2, amended: when "echo" is not among the special keys, as with
    the default options, or the echo tables are off, formatting the
    output of a run again with the same options succeeds, changes
    nothing ([changed = false], the same text) and reports the line
    numbers the first run reported; its failure list is empty exactly
    when that of the first run is. *)
Theorem second_run_stable {U : UnicodeData} (raw : str) (o : FormatOptions)
  (res1 : FormatResult) :
  format_text raw o = Ok res1 ->
  mem_str echo_s (special_keys_of o) = false \/ echo_align_tables o = false ->
  exists res2,
    format_text (out_text res1) o = Ok res2 /\
    changed res2 = false /\
    out_text res2 = out_text res1 /\
    sig_fail_lines res2 = sig_fail_lines res1.
Proof.
  intros H Hopt. destruct (format_text_again raw o res1 H) as [H1 H2].
  rewrite H2. clear H H2. revert H1. unfold formatted.
  destruct (mode_ok o) eqn:M; [|discriminate]. cbv zeta. intros H.
  injection H as <-. cbn [out_text sig_fail_lines].
  destruct (second_lines o Hopt raw) as [S1 S2]. cbv zeta in S1, S2.
  rewrite S1, S2.
  rewrite text_roundtrip.
  - eexists. split; [reflexivity|]. cbn [changed out_text sig_fail_lines].
    now rewrite str_eqb_refl.
  - apply out_lines_length.
  - apply out_lines_no_linebreak, splitlines_no_linebreak.
Qed.

(** The second run on the output of [sample_text], whose third line
    the guard rejects in both runs and whose fourth line is a table
    row. *)
Lemma second_run_stable_witness :
  exists res2,
    format_text (U := basic_unicode) (out_text sample_result) default_options
    = Ok res2 /\
    changed res2 = false /\
    out_text res2 = out_text sample_result /\
    sig_fail_lines res2 = sig_fail_lines sample_result.
Proof.
  apply (second_run_stable (U := basic_unicode) sample_text default_options
           sample_result).
  - vm_compute. reflexivity.
  - left. vm_compute. reflexivity.
Defined.

(* ================================================================== *)
(** * The helpers of the formatter *)

(** ** Tabs and trailing whitespace *)

(** X1: when [detab] returns, what it returns holds no tab, whatever
    the tab width, zero and negative widths included, and it is the
    string [detab] was given exactly when that string has no tab. *)
Theorem detab_tabs {U : UnicodeData} (s d : str) (tw : Z) :
  detab s tw = Ok d ->
  forallb not_tab d = true /\
  (d = s <-> forallb not_tab s = true).
Proof.
  intros H. apply detab_value in H as [-> _].
  split; [apply detab_no_tab|]. split.
  - intros E. rewrite <- E. apply detab_no_tab.
  - apply detab_fix.
Qed.

(** X2: when [detab] returns, the normalised line,
    [rstrip_ws(detab(l, tab_width))], holds no tab, does not end with
    one of the characters [[ \t\r\f\v]] and has the signature of [l];
    a further normalisation with any tab width, when its [detab]
    returns, leaves it as it is. *)
Theorem normalize_fixed {U : UnicodeData} (l d : str) (tw : Z) :
  detab l tw = Ok d ->
  let n := rstrip_ws d in
  forallb not_tab n = true /\
  (forall t c, n = t ++ [c] -> is_ws c = false) /\
  sig_no_ws n = sig_no_ws l /\
  (forall tw' d', detab n tw' = Ok d' -> rstrip_ws d' = n).
Proof.
  intros H n. apply detab_value in H as [-> _].
  assert (T : forallb not_tab n = true).
  { unfold n, rstrip_ws. eapply forallb_incl; [apply incl_rstrip_by|].
    apply detab_no_tab. }
  split; [exact T|]. split; [|split].
  - intros t c E. exact (rstrip_by_last is_ws (expand_tabs l tw) t c E).
  - apply sig_no_ws_normalize.
  - intros tw' d' H. apply detab_value in H as [-> _].
    rewrite (detab_fix n tw' T). unfold n, rstrip_ws. apply rstrip_by_idem.
Qed.

(** ** The comment marker *)

Lemma comment_here_short (q : bool) (c : char) (j : nat) :
  comment_here q [c] j = false.
Proof.
  unfold comment_here. change (lit "//") with [SLASH; SLASH].
  destruct j as [|[|j]]; cbn [skipn startswith]; try reflexivity.
  now rewrite andb_false_r.
Qed.

Lemma comment_here_nil (q : bool) (j : nat) : comment_here q [] j = false.
Proof. unfold comment_here. destruct j; reflexivity. Qed.

Lemma count_if_cons (p : char -> bool) (c : char) (s : str) :
  count_if p (c :: s) = (if p c then 1 else 0) + count_if p s.
Proof. unfold count_if. simpl. now destruct (p c). Qed.

Lemma comment_here_step (q : bool) (ch : char) (tl : str) (j : nat) :
  comment_here q (ch :: tl) (S j)
  = comment_here (if ch_eqb ch DQ then negb q else q) tl j.
Proof.
  unfold comment_here. cbn [skipn firstn]. rewrite count_if_cons.
  unfold ch_eqb at 2. rewrite N.eqb_sym. fold (ch_eqb ch DQ).
  destruct (ch_eqb ch DQ).
  - change (1 + ?n) with (S n). rewrite Nat.odd_succ, <- Nat.negb_odd.
    now destruct q, (Nat.odd _).
  - reflexivity.
Qed.

Lemma comment_here_zero (q : bool) (ch c2 : char) (tl : str) :
  comment_here q (ch :: c2 :: tl) 0
  = negb q && ch_eqb ch SLASH && ch_eqb c2 SLASH.
Proof.
  unfold comment_here. cbn [skipn firstn]. change (count_if _ []) with 0.
  change (Nat.odd 0) with false. rewrite xorb_false_r.
  change (lit "//") with [SLASH; SLASH]. cbn [startswith].
  unfold ch_eqb. rewrite (N.eqb_sym SLASH ch), (N.eqb_sym SLASH c2).
  rewrite andb_true_r. now destruct q, (N.eqb ch SLASH), (N.eqb c2 SLASH).
Qed.

Lemma find_comment_from_spec (s : str) (i : nat) (q : bool) :
  match find_comment_from s i q with
  | Some n => exists m, n = i + m /\ comment_here q s m = true /\
                        forall j, j < m -> comment_here q s j = false
  | None => forall j, comment_here q s j = false
  end.
Proof.
  revert i q. induction s as [|ch tl IH]; intros i q.
  - intros j. apply comment_here_nil.
  - cbn [find_comment_from]. destruct tl as [|c2 tl2].
    + intros j. apply comment_here_short.
    + assert (Z0 : ch_eqb ch DQ = true -> comment_here q (ch :: c2 :: tl2) 0 = false).
      { intros E. rewrite comment_here_zero. apply ch_eqb_eq in E. subst ch.
        now rewrite andb_false_r. }
      destruct (ch_eqb ch DQ) eqn:Edq.
      * specialize (IH (S i) (negb q)).
        destruct (find_comment_from (c2 :: tl2) (S i) (negb q)) as [n|].
        -- destruct IH as (m & -> & Hm & Hmin). exists (S m).
           split; [lia|]. split.
           ++ now rewrite comment_here_step, Edq.
           ++ intros [|j] Hj; [now apply Z0|].
              rewrite comment_here_step, Edq. apply Hmin. lia.
        -- intros [|j]; [now apply Z0|]. rewrite comment_here_step, Edq. apply IH.
      * destruct (negb q && ch_eqb ch SLASH && ch_eqb c2 SLASH) eqn:Ec.
        -- exists 0. split; [lia|]. split; [now rewrite comment_here_zero|].
           intros j Hj. lia.
        -- specialize (IH (S i) q).
           destruct (find_comment_from (c2 :: tl2) (S i) q) as [n|].
           ++ destruct IH as (m & -> & Hm & Hmin). exists (S m).
              split; [lia|]. split.
              ** now rewrite comment_here_step, Edq.
              ** intros [|j] Hj; [now rewrite comment_here_zero|].
                 rewrite comment_here_step, Edq. apply Hmin. lia.
           ++ intros [|j]; [now rewrite comment_here_zero|].
              rewrite comment_here_step, Edq. apply IH.
Qed.

(** X3: [find_comment_pos_outside_quotes] returns the first position
    at which the line reads "//" after an even number of quotes, and
    [None] exactly when there is no such position. *)
Theorem find_comment_first (s : str) :
  (forall i,
     find_comment_pos_outside_quotes s = Some i <->
     comment_here false s i = true /\
     forall j, j < i -> comment_here false s j = false) /\
  (find_comment_pos_outside_quotes s = None <->
   forall j, comment_here false s j = false).
Proof.
  unfold find_comment_pos_outside_quotes.
  pose proof (find_comment_from_spec s 0 false) as H.
  destruct (find_comment_from s 0 false) as [n|].
  - destruct H as (m & -> & Hm & Hmin). cbn [Nat.add]. split.
    + intros i. split.
      * intros E. injection E as <-. auto.
      * intros [Hi Himin]. f_equal.
        destruct (Nat.lt_trichotomy m i) as [L | [E | L]]; [|exact E|].
        -- rewrite (Himin m L) in Hm. discriminate.
        -- rewrite (Hmin i L) in Hi. discriminate.
    + split; [discriminate|]. intros A. rewrite (A m) in Hm. discriminate.
  - split.
    + intros i. split; [discriminate|]. intros [Hi _]. rewrite (H i) in Hi.
      discriminate.
    + split; auto.
Qed.

(** ** Indent, key and rest *)

(** X4: [split_indent_key_rest] gives up exactly on the strings of
    whitespace; otherwise it cuts the string into a whitespace indent,
    a key without whitespace, and the rest, dropping the whitespace
    between key and rest unless the key is "echo" in any case: these
    are the only results. *)
Theorem split_indent_key_rest_spec {U : UnicodeData} (s : str) :
  (split_indent_key_rest s = None <-> forallb isspace s = true) /\
  (forall indent0 key0 rest0,
     split_indent_key_rest s = Some (indent0, key0, rest0) <->
     exists gap,
       s = indent0 ++ key0 ++ gap ++ rest0 /\
       forallb isspace indent0 = true /\
       key0 <> [] /\ forallb not_space key0 = true /\
       forallb isspace gap = true /\
       (forall c t, gap ++ rest0 = c :: t -> isspace c = true) /\
       (str_eqb (lower key0) echo_s = true -> gap = []) /\
       (str_eqb (lower key0) echo_s = false -> dropwhile isspace rest0 = rest0)).
Proof.
  split.
  - unfold split_indent_key_rest. cbv zeta.
    destruct (dropwhile isspace s) eqn:E.
    + split; [intros _; now apply dropwhile_nil_all | reflexivity].
    + split; [discriminate|]. intros H. rewrite (dropwhile_all isspace s H) in E.
      discriminate.
  - intros indent0 key0 rest0. split.
    + intros H. destruct (split_ikr_shape s indent0 key0 rest0 H)
        as (gap & E & Hi & Hk & Hs & Hg & He & Hn & Hh).
      exists gap. repeat split; auto. intros Hne. now apply Hn.
    + intros (gap & -> & Hi & Hk & Hs & Hg & Hh & He & Hn).
      rewrite (split_ikr_build indent0 key0 (gap ++ rest0) Hi Hk Hs Hh).
      destruct (str_eqb (lower key0) echo_s) eqn:E.
      * now rewrite (He eq_refl).
      * now rewrite (dropwhile_app_all isspace gap rest0 Hg), (Hn eq_refl).
Qed.

(** ** Two quoted strings *)

(** X5: [split_two_quoted] succeeds exactly on the strings that start,
    after whitespace, with a quoted string, whitespace and a second
    quoted string; it returns the two strings with their quotes and
    all that follows the second. *)
Theorem split_two_quoted_iff (s q1 q2 tail : str) :
  split_two_quoted s = Some (q1, q2, tail) <->
  exists w0 a G b,
    s = w0 ++ quoted a ++ G ++ quoted b ++ tail /\
    q1 = quoted a /\ q2 = quoted b /\
    forallb isspace w0 = true /\ forallb isspace G = true /\
    forallb not_dq a = true /\ forallb not_dq b = true.
Proof.
  split.
  - intros H. destruct (two_quoted_shape s q1 q2 tail H)
      as (w0 & a & G & b & Es & E1 & E2 & Hw & HG & Ha & Hb).
    exists w0, a, G, b. unfold quoted. rewrite <- E1, <- E2. auto 10.
  - intros (w0 & a & G & b & -> & -> & -> & Hw & HG & Ha & Hb).
    unfold quoted. now apply two_quoted_build.
Qed.

(** ** The visual width *)

Lemma vis_width_acc {U : UnicodeData} (s : str) (w : nat) :
  fold_left
    (fun w ch =>
       if negb (combining ch =? 0) then w
       else
         let ea := east_asian_width ch in
         w + (if str_eqb ea (lit "W") || str_eqb ea (lit "F") then 2 else 1))
    s w
  = w + vis_width s.
Proof.
  unfold vis_width. revert w. induction s as [|c s IH]; intros w; simpl.
  - lia.
  - rewrite IH. rewrite (IH (if negb _ then _ else _)).
    destruct (negb (combining c =? 0)); cbv zeta; lia.
Qed.

Lemma vis_width_cons {U : UnicodeData} (c : char) (s : str) :
  vis_width (c :: s) = vis_width [c] + vis_width s.
Proof.
  unfold vis_width at 1. cbn [fold_left]. rewrite vis_width_acc.
  reflexivity.
Qed.

Lemma vis_width_char {U : UnicodeData} (c : char) : vis_width [c] <= 2.
Proof.
  unfold vis_width. simpl. destruct (negb (combining c =? 0)); [lia|].
  destruct (str_eqb _ _ || str_eqb _ _); lia.
Qed.

(** X6: the visual width of a concatenation is the sum of the widths,
    and a string is at most two columns wide per character. *)
Theorem vis_width_app {U : UnicodeData} (a b : str) :
  vis_width (a ++ b) = vis_width a + vis_width b /\
  vis_width a <= 2 * length a.
Proof.
  split.
  - induction a as [|c a IH]; [reflexivity|].
    cbn [app]. rewrite vis_width_cons, (vis_width_cons c a), IH. lia.
  - induction a as [|c a IH]; [unfold vis_width; simpl; lia|].
    rewrite vis_width_cons. pose proof (vis_width_char c). simpl. lia.
Qed.

(* ================================================================== *)
(** * The aligner *)

Lemma max_z_acc (tl : list Z) (x : Z) :
  (x <= fold_left Z.max tl x)%Z /\
  forall y, In y tl -> (y <= fold_left Z.max tl x)%Z.
Proof.
  revert x. induction tl as [|z tl IH]; intros x; simpl.
  - split; [lia | intros ? []].
  - destruct (IH (Z.max x z)) as [H1 H2]. split; [lia|].
    intros y [<- | Hy]; [lia | now apply H2].
Qed.

Lemma max_z_ge (x : Z) (tl : list Z) (y : Z) :
  In y (x :: tl) -> (y <= max_z x tl)%Z.
Proof.
  unfold max_z. destruct (max_z_acc tl x) as [H1 H2].
  intros [<- | Hy]; [exact H1 | now apply H2].
Qed.

Lemma spaces_z_nat (z : Z) : (0 <= z)%Z -> spaces_z z = spaces (Z.to_nat z).
Proof. reflexivity. Qed.

Section Columns.

Context {U : UnicodeData}.

Variables (key_cap comment_cap : Z) (special : list str) (et : bool).

Lemma key_width_in (C : list rec) (r : rec) :
  In r C -> kind r = Kcmd -> rest r <> [] ->
  In (zlen (indent r) + zlen (key r))%Z (key_widths C).
Proof.
  intros Hin K R. unfold key_widths. apply in_flat_map. exists r.
  split; [exact Hin|]. rewrite K. cbn [kind_eqb negb].
  destruct (rest r); [congruence|]. now left.
Qed.

Lemma left_len_le_max_key (C : list rec) (r : rec) :
  In r C -> kind r = Kcmd -> rest r <> [] ->
  (zlen (indent r) + zlen (key r) <= key_cap)%Z ->
  (zlen (indent r) + zlen (key r) <= max_key key_cap C)%Z.
Proof.
  intros Hin K R Hcap. pose proof (key_width_in C r Hin K R) as H.
  unfold max_key. destruct (key_widths C) as [|w ws]; [destruct H|].
  apply max_z_ge in H. lia.
Qed.

(** X7: in a chunk, the value of every command that is no echo and
    whose indent and key fit [key_cap] starts in the same column, the
    value column of the chunk: indent, key and the spaces after them
    are [value_col] characters long. *)
Theorem values_aligned (scol : Z) (widths : list nat) (C : list rec) (r : rec) :
  In r C -> kind r = Kcmd -> str_eqb (key_lower r) echo_s = false ->
  rest r <> [] ->
  (zlen (indent r) + zlen (key r) <= key_cap)%Z ->
  exists n body,
    code_fmt special et (value_col key_cap C) scol widths r
    = Some (indent r ++ key r ++ spaces n ++ body) /\
    1 <= n /\
    (zlen (indent r) + zlen (key r) + Z.of_nat n = value_col key_cap C)%Z /\
    (body = rest r \/
     exists q1 q2 tail m,
       split_two_quoted (rest r) = Some (q1, q2, tail) /\ 1 <= m /\
       body = q1 ++ spaces m ++ q2 ++ tail).
Proof.
  intros Hin K E R Hcap.
  pose proof (left_len_le_max_key C r Hin K R Hcap) as Hle.
  unfold code_fmt. rewrite K, E. cbn [kind_eqb negb].
  rewrite (str_eqb_nil_neq _ R). cbv zeta.
  set (left := (zlen (indent r) + zlen (key r))%Z) in *.
  assert (Hpad : Z.max 1 (value_col key_cap C - left) = (value_col key_cap C - left)%Z)
    by (unfold value_col; lia).
  rewrite Hpad. unfold spaces_z at 1.
  exists (Z.to_nat (value_col key_cap C - left)).
  assert (N1 : 1 <= Z.to_nat (value_col key_cap C - left))
    by (unfold value_col; lia).
  assert (N2 : (left + Z.of_nat (Z.to_nat (value_col key_cap C - left))
                = value_col key_cap C)%Z) by (unfold value_col; lia).
  destruct (mem_str (key_lower r) special).
  - destruct (split_two_quoted (rest r)) as [[[q1 q2] tail]|] eqn:T.
    + eexists. split; [reflexivity|]. split; [exact N1|]. split; [exact N2|].
      right. exists q1, q2, tail. eexists. split; [reflexivity|].
      split; [|reflexivity]. lia.
    + exists (rest r). auto.
  - exists (rest r). auto.
Qed.

Lemma q1_len_in (C : list rec) (r : rec) (q1 q2 tail : str) :
  In r C -> kind r = Kcmd -> mem_str (key_lower r) special = true ->
  split_two_quoted (rest r) = Some (q1, q2, tail) ->
  In (zlen q1) (q1_lens special C).
Proof.
  intros Hin K M T. unfold q1_lens. apply in_flat_map. exists r.
  split; [exact Hin|]. rewrite K, M, T. cbn [kind_eqb negb orb].
  destruct (two_quoted_nonempty _ _ _ _ T) as [N _].
  rewrite (str_nonempty_neq _ N). now left.
Qed.

(** X8: in a chunk, the second quoted string of every command with a
    special key ([bind], [alias]) that is no echo and whose indent
    and key fit [key_cap] starts in the same column, the second column
    of the chunk. *)
Theorem second_strings_aligned (widths : list nat) (C : list rec) (r : rec)
  (q1 q2 tail : str) :
  In r C -> kind r = Kcmd -> str_eqb (key_lower r) echo_s = false ->
  mem_str (key_lower r) special = true ->
  split_two_quoted (rest r) = Some (q1, q2, tail) ->
  (zlen (indent r) + zlen (key r) <= key_cap)%Z ->
  exists n m,
    code_fmt special et (value_col key_cap C) (second_col key_cap special C)
      widths r
    = Some (indent r ++ key r ++ spaces n ++ q1 ++ spaces m ++ q2 ++ tail) /\
    1 <= n /\ 1 <= m /\
    (zlen (indent r) + zlen (key r) + Z.of_nat n + zlen q1 + Z.of_nat m
     = second_col key_cap special C)%Z.
Proof.
  intros Hin K E M T Hcap.
  destruct (two_quoted_nonempty _ _ _ _ T) as [R _].
  pose proof (left_len_le_max_key C r Hin K R Hcap) as Hle.
  pose proof (q1_len_in C r q1 q2 tail Hin K M T) as Hq.
  assert (Hq1 : (zlen q1 <= max_q1_len special C)%Z).
  { unfold max_q1_len. destruct (q1_lens special C) as [|w ws]; [destruct Hq|].
    now apply max_z_ge. }
  unfold code_fmt. rewrite K, E, M, T. cbn [kind_eqb negb].
  rewrite (str_eqb_nil_neq _ R). cbv zeta.
  set (left := (zlen (indent r) + zlen (key r))%Z) in *.
  assert (Hpad : Z.max 1 (value_col key_cap C - left) = (value_col key_cap C - left)%Z)
    by (unfold value_col; lia).
  rewrite Hpad.
  assert (Hpad2 : Z.max 1 (second_col key_cap special C
                           - (left + (value_col key_cap C - left) + zlen q1))
                  = (second_col key_cap special C
                     - (left + (value_col key_cap C - left) + zlen q1))%Z)
    by (unfold second_col; lia).
  rewrite Hpad2. unfold spaces_z.
  eexists. eexists. split; [reflexivity|].
  unfold second_col, value_col in *. repeat split; lia.
Qed.

(** X9: the comments of all commands of a chunk whose rendered code
    fits [comment_cap] start in the same column, one past the comment
    target of the chunk. *)
Theorem comments_aligned (zs : list (rec * option str)) (r : rec) (cf : str) :
  In (r, Some cf) zs -> comment r <> [] ->
  (zlen cf <= comment_cap)%Z ->
  exists t n,
    comment_target comment_cap zs = Some t /\
    place_comment (Some t) r cf = cf ++ spaces n ++ comment r /\
    1 <= n /\ (zlen cf + Z.of_nat n = t + 1)%Z.
Proof.
  intros Hin Hc Hcap.
  assert (Hl : In (zlen cf) (code_lens_for_comment zs)).
  { unfold code_lens_for_comment. apply in_flat_map. exists (r, Some cf).
    split; [exact Hin|]. cbn [fst snd]. rewrite (str_nonempty_neq _ Hc).
    now left. }
  unfold comment_target. destruct (code_lens_for_comment zs) as [|w ws];
    [destruct Hl|].
  apply max_z_ge in Hl.
  exists (Z.min (max_z w ws) comment_cap).
  exists (Z.to_nat (Z.min (max_z w ws) comment_cap + 1 - zlen cf)).
  split; [reflexivity|]. unfold place_comment.
  rewrite (str_nonempty_neq _ Hc).
  assert (L : (zlen cf <=? Z.min (max_z w ws) comment_cap)%Z = true)
    by (apply Z.leb_le; lia).
  rewrite L.
  assert (P : Z.max 1 (Z.min (max_z w ws) comment_cap + 1 - zlen cf)
              = (Z.min (max_z w ws) comment_cap + 1 - zlen cf)%Z) by lia.
  rewrite P. unfold spaces_z. split; [reflexivity|]. split; lia.
Qed.

End Columns.

(** ** The render loop and its guard *)




(** ** The emitted text *)

Lemma normalize_no_tab (s : str) (tw : Z) :
  forallb not_tab (rstrip_ws (expand_tabs s tw)) = true.
Proof.
  unfold rstrip_ws. eapply forallb_incl; [apply incl_rstrip_by|].
  apply detab_no_tab.
Qed.

Lemma emit_with_no_tab {U : UnicodeData} (o : FormatOptions) (P : params) (r : rec) :
  wf_rec o r -> forallb not_tab (emit_with o P r) = true.
Proof.
  intros W. unfold emit_with. destruct (failed_with o P r).
  - apply normalize_no_tab.
  - unfold render_with. destruct (cf_with _ _ _ _ _).
    + apply normalize_no_tab.
    + unfold wf_rec in W. rewrite W. apply normalize_no_tab.
Qed.

Lemma drop_last_empty_in (L : list str) (l : str) :
  In l (drop_last_empty L) -> In l L.
Proof.
  intros H. apply In_nth_error in H as [i Hi].
  apply drop_last_empty_prefix in Hi. now apply nth_error_In in Hi.
Qed.

Lemma out_lines_in {U : UnicodeData} (o : FormatOptions) (ls : list str) (e : str) :
  In e (out_lines_of o (parse_lines o 1 ls)) ->
  exists r C, wf_rec o r /\ e = emit o C r.
Proof.
  intros H. apply In_nth_error in H as [i Hi].
  destruct (out_lines_nth o ls i e Hi) as (l & C & _ & _ & ->).
  exists (parse_line o (S i) l), C. split; [apply parse_line_wf | reflexivity].
Qed.

(** X11: the text returned by [format_text] contains no tab, whatever
    the tab width, and none of its lines ends with one of the
    characters [[ \t\r\f\v]]. *)
Theorem output_normalised {U : UnicodeData} (raw : str) (o : FormatOptions)
  (res : FormatResult) :
  format_text raw o = Ok res ->
  forallb not_tab (out_text res) = true /\
  forall lo, In lo (splitlines (out_text res)) -> rstrip_ws lo = lo.
Proof.
  intros H. destruct (format_text_lines raw o res H) as (Eo & _ & El).
  cbv zeta in Eo, El. split.
  - rewrite Eo. unfold text_of. rewrite forallb_app.
    assert (Hnl : forallb not_tab (newline_of raw) = true).
    { destruct (newline_of_is_newline raw) as [-> | ->]; reflexivity. }
    rewrite forallb_join; [|exact Hnl|].
    + destruct (keep_final_newline raw); [exact Hnl | reflexivity].
    + intros l Hl. destruct (out_lines_in o _ l Hl) as (r & C & W & ->).
      now apply emit_with_no_tab.
  - intros lo Hlo. rewrite El in Hlo.
    assert (Hin : In lo (out_lines_of o (parse_lines o 1 (splitlines raw)))).
    { destruct (keep_final_newline raw); [exact Hlo|].
      now apply drop_last_empty_in. }
    destruct (out_lines_in o _ lo Hin) as (r & C & W & ->).
    now apply emit_with_stripped.
Qed.

(** ** Block mode without boundaries *)

Lemma parse_line_modes {U : UnicodeData} (o : FormatOptions) (i : nat) (l : str) :
  is_block_boundary_B (rstrip_ws (expand_tabs l (tab_width o))) = false ->
  parse_line (with_mode o (lit "block")) i l
  = parse_line (with_mode o (lit "global")) i l /\
  is_boundary (parse_line (with_mode o (lit "global")) i l) = false.
Proof.
  intros H. unfold parse_line, record_of. cbn [with_mode align_mode tab_width].
  change (str_eqb (lit "block") (lit "block")) with true.
  change (str_eqb (lit "global") (lit "block")) with false.
  rewrite H. cbn [andb]. split; [reflexivity|].
  destruct (startswith (lit "//") (lstrip (rstrip_ws (expand_tabs l (tab_width o)))));
    [reflexivity|].
  destruct (str_eqb (strip (rstrip_ws (expand_tabs l (tab_width o)))) []) eqn:E.
  - exfalso. apply str_eqb_eq in E. unfold is_block_boundary_B in H.
    rewrite E, lower_empty in H. discriminate.
  - destruct (find_comment_pos_outside_quotes _);
      destruct (split_indent_key_rest _) as [[[a b] c]|]; reflexivity.
Qed.

Lemma parse_lines_modes {U : UnicodeData} (o : FormatOptions) (i : nat)
  (ls : list str) :
  (forall l, In l ls ->
             is_block_boundary_B (rstrip_ws (expand_tabs l (tab_width o))) = false) ->
  parse_lines (with_mode o (lit "block")) i ls
  = parse_lines (with_mode o (lit "global")) i ls /\
  forallb (fun r => negb (is_boundary r))
    (parse_lines (with_mode o (lit "global")) i ls) = true.
Proof.
  revert i. induction ls as [|l ls IH]; intros i H; [split; reflexivity|].
  cbn [parse_lines forallb].
  destruct (parse_line_modes o i l (H l (or_introl eq_refl))) as [E1 E2].
  destruct (IH (S i)) as [E3 E4]; [intros x Hx; apply H; now right|].
  now rewrite E1, E2, E3, E4.
Qed.

Lemma filter_all {A : Type} (p : A -> bool) (L : list A) :
  forallb p L = true -> filter p L = L.
Proof.
  induction L as [|x L IH]; [reflexivity|]. simpl. intros H.
  apply andb_true_iff in H as [Hx HL]. now rewrite Hx, IH.
Qed.

Lemma chunked_no_boundary {U : UnicodeData} (o : FormatOptions) (recs : list rec) :
  forallb (fun r => negb (is_boundary r)) recs = true ->
  chunked o recs = map (fun r => (r, recs)) recs.
Proof.
  intros H. unfold chunked.
  destruct (str_eqb (align_mode o) (lit "global")).
  - now rewrite (filter_all _ recs H).
  - pose proof (segs_app_nb recs [] H) as E. rewrite app_nil_r in E.
    rewrite E. cbn [segs fst snd flat_map]. now rewrite !app_nil_r.
Qed.

(** X12: on a text without block boundary (no line that is blank,
    reads "echo;" or is a banner comment once normalised), the block
    mode returns the text, the [changed] flag and the failure list the
    global mode returns. *)
Theorem block_is_global_without_boundary {U : UnicodeData} (raw : str)
  (o : FormatOptions) :
  (forall l, In l (splitlines raw) ->
             is_block_boundary_B (rstrip_ws (expand_tabs l (tab_width o))) = false) ->
  format_text raw (with_mode o (lit "block"))
  = format_text raw (with_mode o (lit "global")).
Proof.
  intros H.
  assert (F : formatted raw (with_mode o (lit "block"))
              = formatted raw (with_mode o (lit "global"))).
  { unfold formatted.
    change (mode_ok (with_mode o (lit "block"))) with true.
    change (mode_ok (with_mode o (lit "global"))) with true.
    cbv iota zeta.
    destruct (parse_lines_modes o 1 (splitlines raw) H) as [E N].
    rewrite E.
    set (recs := parse_lines (with_mode o (lit "global")) 1 (splitlines raw)) in *.
    unfold out_lines_of, fails_of.
    rewrite !(chunked_no_boundary _ recs N).
    reflexivity. }
  rewrite !format_text_spec. cbn [with_mode tab_width]. rewrite F. reflexivity.
Qed.

(** ** Echo commands *)

(** X13: an echo command that is no table row to align (always so
    when [echo_align_tables] is off) never fails the guard and keeps
    its code verbatim: the emitted line is indent, key and rest as
    read, followed by the comment after at least one space; without
    comment it is the normalised input line. *)
Theorem echo_code_kept {U : UnicodeData} (o : FormatOptions) (P : params)
  (i : nat) (l : str) :
  let r := parse_line o i l in
  kind r = Kcmd -> str_eqb (key_lower r) echo_s = true ->
  is_echo_table_candidate (echo_align_tables o) r = false ->
  failed_with o P r = false /\
  (exists n, 1 <= n /\
             emit_with o P r
             = (indent r ++ key r ++ rest r) ++ comment_tail n (comment r)) /\
  (comment r = [] -> emit_with o P r = rstrip_ws (expand_tabs l (tab_width o))).
Proof.
  intros r K Ke Hc.
  destruct (parse_line_wf o i l) as (W & Eo & _). fold r in W, Eo.
  destruct (cmd_facts o i l K)
    as (gap & w & Eline & _ & _ & _ & _ & _ & Hw & Hecho & _
        & _ & Hfix & Hcm & Htab & _ & _).
  fold r in Eline, Hecho, Hfix, Hcm, Htab.
  rewrite (Hecho Ke) in *. cbn [app] in *.
  assert (Ecf : cf_with o (p_vcol P) (p_scol P) (p_widths P) r
                = Some (indent r ++ key r ++ rest r)).
  { unfold cf_with. rewrite (code_fmt_form _ _ _ _ _ r K).
    unfold code_form. now rewrite Ke, Hc. }
  destruct (place_comment_tail (p_target P) r (indent r ++ key r ++ rest r))
    as (n & Hn & Epc).
  set (R := (indent r ++ key r ++ rest r) ++ comment_tail n (comment r)).
  assert (Htabs : forallb not_tab (indent r) = true /\
                  forallb not_tab (key r) = true /\
                  forallb not_tab (rest r) = true /\
                  forallb not_tab (comment r) = true).
  { rewrite Eline, !forallb_app in Htab.
    repeat (apply andb_true_iff in Htab as [? Htab]). auto. }
  destruct Htabs as (Ti & Tk & Tr & Tc).
  assert (TR : forallb not_tab R = true).
  { unfold R. rewrite !forallb_app, Ti, Tk, Tr. cbn [andb].
    unfold comment_tail. destruct (comment r); [reflexivity|].
    rewrite forallb_app, forallb_not_tab_spaces. exact Tc. }
  assert (SR : rstrip_ws R = R).
  { unfold R. destruct Hcm as [(Cm & _) | (Cf & (t & Cm) & _)].
    - rewrite Cm. cbn [comment_tail]. rewrite app_nil_r. exact Hfix.
    - unfold comment_tail. rewrite Cm, <- Cm. rewrite !app_assoc.
      apply rstrip_by_app_fix; [rewrite Cm; discriminate | exact Cf]. }
  assert (Er : render_with o P r = R).
  { unfold render_with. rewrite Ecf, Epc. fold R.
    now rewrite (detab_fix R _ TR). }
  assert (Sg : sig_no_ws R = sig_no_ws (orig r)).
  { rewrite <- (sig_no_ws_normalize (orig r) (tab_width o)).
    unfold wf_rec in W. rewrite <- W, Eline. unfold R, comment_tail.
    rewrite !sig_no_ws_app, (sig_no_ws_all w Hw).
    destruct (comment r); [now rewrite !app_nil_r|].
    rewrite sig_no_ws_app, sig_no_ws_spaces. now rewrite <- !app_assoc. }
  assert (Fl : failed_with o P r = false).
  { unfold failed_with. now rewrite Er, Sg, str_eqb_refl. }
  split; [exact Fl|]. split.
  - exists n. split; [exact Hn|]. unfold emit_with. now rewrite Fl, Er.
  - intros Cm. unfold emit_with. rewrite Fl, Er. unfold R.
    rewrite Cm. cbn [comment_tail]. rewrite app_nil_r.
    unfold wf_rec in W. rewrite <- Eo, <- W, Eline, Cm.
    destruct Hcm as [(_ & -> & _) | (_ & (t & E) & _)];
      [now rewrite !app_nil_r | rewrite E in Cm; discriminate].
Qed.

(** ** The columns of an echo table *)

Section TableColumns.

Context {U : UnicodeData}.

Lemma widen_at_nth (ws : list nat) (i w : nat) (ws' : list nat) :
  widen_at ws i w = Ok ws' ->
  length ws' = length ws /\
  (forall j, nth j ws 0 <= nth j ws' 0) /\
  (i < length ws /\ w <= nth i ws' 0).
Proof.
  revert i ws'. induction ws as [|x ws IH]; intros i ws'; simpl; [discriminate|].
  destruct i as [|i].
  - intros E. injection E as <-. simpl. split; [reflexivity|]. split.
    + intros [|j]; simpl; lia.
    + lia.
  - destruct (widen_at ws i w) as [tl'|e] eqn:E; simpl; [|discriminate].
    intros E'. injection E' as <-. destruct (IH i tl' E) as (L & M & Hi & Hw).
    simpl. split; [now rewrite L|]. split.
    + intros [|j]; simpl; [lia | apply M].
    + split; [lia | exact Hw].
Qed.

Lemma widen_row_nth (fields : list str) (ws : list nat) (i : nat) (ws' : list nat) :
  widen_row ws i fields = Ok ws' ->
  length ws' = length ws /\
  (forall j, nth j ws 0 <= nth j ws' 0) /\
  (forall k f, nth_error fields k = Some f ->
               i + k < length ws /\ vis_width f <= nth (i + k) ws' 0).
Proof.
  revert ws i ws'. induction fields as [|f0 fields IH]; intros ws i ws'; simpl.
  - intros E. injection E as <-. split; [reflexivity|]. split; [lia|].
    intros [|k] f; discriminate.
  - destruct (widen_at ws i (vis_width f0)) as [ws1|e] eqn:E1; simpl; [|discriminate].
    intros E2. destruct (widen_at_nth ws i _ ws1 E1) as (L1 & M1 & Hi & Hw).
    destruct (IH ws1 (S i) ws' E2) as (L2 & M2 & H2).
    split; [congruence|]. split.
    + intros j. specialize (M1 j). specialize (M2 j). lia.
    + intros [|k] f; simpl.
      * intros E. injection E as <-. rewrite Nat.add_0_r.
        split; [exact Hi|]. specialize (M2 i). lia.
      * intros E. destruct (H2 k f E) as [A B].
        rewrite L1 in A. replace (i + S k) with (S i + k) by lia. auto.
Qed.

Lemma widen_rows_nth (rows : list (list str)) (ws ws' : list nat) :
  widen_rows ws rows = Ok ws' ->
  length ws' = length ws /\
  (forall j, nth j ws 0 <= nth j ws' 0) /\
  (forall fields k f,
     In fields rows -> nth_error fields k = Some f ->
     k < length ws /\ vis_width f <= nth k ws' 0).
Proof.
  revert ws ws'. induction rows as [|row rows IH]; intros ws ws'; simpl.
  - intros E. injection E as <-. split; [reflexivity|]. split; [lia|].
    intros ? ? ? [].
  - destruct (widen_row ws 0 row) as [ws1|e] eqn:E1; simpl; [|discriminate].
    intros E2. destruct (widen_row_nth row ws 0 ws1 E1) as (L1 & M1 & H1).
    destruct (IH ws1 ws' E2) as (L2 & M2 & H2).
    split; [congruence|]. split.
    + intros j. specialize (M1 j). specialize (M2 j). lia.
    + intros fields k f [<- | Hin] Hk.
      * destruct (H1 k f Hk) as [A B]. simpl in A, B.
        split; [exact A|]. specialize (M2 k). lia.
      * destruct (H2 fields k f Hin Hk) as [A B]. rewrite L1 in A. auto.
Qed.

Lemma pad_fields_nth (widths : list nat) (fields : list str) (i k : nat) (f : str) :
  nth_error fields k = Some f -> i + k < length widths ->
  nth_error (pad_fields widths i fields) k
  = Some (f ++ spaces (nth (i + k) widths 0 - vis_width f)).
Proof.
  revert i k. induction fields as [|g fields IH]; intros i k; [destruct k; discriminate|].
  destruct k as [|k]; simpl.
  - intros E Hi. injection E as <-. rewrite Nat.add_0_r in *.
    apply Nat.ltb_lt in Hi. now rewrite Hi.
  - intros E Hi. replace (i + S k) with (S i + k) in * by lia. now apply IH.
Qed.

Lemma vis_width_spaces (n : nat) : vis_width [SP] = 1 -> vis_width (spaces n) = n.
Proof.
  intros H. induction n as [|n IH]; [reflexivity|].
  change (spaces (S n)) with (SP :: spaces n).
  rewrite vis_width_cons, H, IH. reflexivity.
Qed.

Lemma vis_width_sum (a b : str) : vis_width (a ++ b) = vis_width a + vis_width b.
Proof.
  induction a as [|c a IH]; [reflexivity|].
  cbn [app]. rewrite vis_width_cons, (vis_width_cons c a), IH. lia.
Qed.

(** X14: in a chunk, the fields of the echo table rows without
    leading or trailing pipe are padded column by column to the widths
    [echo_col_widths] computes: every row has a width for each of its
    fields, no field is wider than the width of its column, and the
    padded field is the field followed by the spaces that fill the
    column; where a space is one column wide, all padded fields of a
    column have the same visual width. *)
Theorem table_columns_padded (o : FormatOptions) (C : list rec) (r : rec)
  (k : nat) (f : str) :
  In r C -> is_echo_table_candidate (echo_align_tables o) r = true ->
  echo_lead r = false -> echo_trail r = false ->
  nth_error (echo_fields r) k = Some f ->
  let w := nth k (widths_of o C) 0 in
  k < length (widths_of o C) /\
  vis_width f <= w /\
  nth_error (pad_fields (widths_of o C) 0 (echo_fields r)) k
  = Some (f ++ spaces (w - vis_width f)) /\
  (vis_width [SP] = 1 -> vis_width (f ++ spaces (w - vis_width f)) = w).
Proof.
  intros Hin Hc Hl Ht Hk w.
  assert (Hrow : In (echo_fields r) (echo_rows (echo_align_tables o) C)).
  { unfold echo_rows. apply in_flat_map. exists r. split; [exact Hin|].
    rewrite Hc, Hl, Ht. now left. }
  pose proof (echo_col_widths_of o C) as E. unfold echo_col_widths in E.
  destruct (echo_rows (echo_align_tables o) C) as [|row rows] eqn:R;
    [destruct Hrow|].
  assert (Hmc : 0 < max_cols (row :: rows)).
  { destruct (max_cols_acc (row :: rows) 0) as [_ H].
    specialize (H _ Hrow). unfold max_cols.
    assert (k < length (echo_fields r)) by (apply nth_error_Some; congruence).
    lia. }
  apply Nat.ltb_lt in Hmc. rewrite Hmc in E.
  destruct (widen_rows_nth _ _ _ E) as (L & _ & H).
  destruct (H (echo_fields r) k f Hrow Hk) as [A B].
  rewrite repeat_length in A. rewrite repeat_length in L.
  assert (Hlen : k < length (widths_of o C)) by lia.
  split; [exact Hlen|]. split; [exact B|]. split.
  - now rewrite (pad_fields_nth _ _ 0 k f Hk).
  - intros Hsp. rewrite vis_width_sum, (vis_width_spaces _ Hsp). fold w in B. lia.
Qed.

End TableColumns.

(** ** When the guard cannot fail *)

Lemma plain_ws_run (w : str) :
  forallb isspace w = true -> forallb plain_ws w = true -> forallb is_ws w = true.
Proof.
  rewrite !forallb_forall. intros H1 H2 c Hc.
  specialize (H1 c Hc). specialize (H2 c Hc). unfold plain_ws in H2.
  now rewrite H1 in H2.
Qed.

Lemma forallb_app_parts (p : char -> bool) (a b : str) :
  forallb p (a ++ b) = true -> forallb p a = true /\ forallb p b = true.
Proof. rewrite forallb_app. apply andb_true_iff. Qed.

Section NoFallback.

Context {U : UnicodeData}.

Lemma code_form_sig (o : FormatOptions) (vcol scol : Z) (widths : list nat)
  (r : rec) (gap : str) :
  is_echo_table_candidate (echo_align_tables o) r = false ->
  forallb is_ws gap = true ->
  forallb plain_ws (rest r) = true ->
  (str_eqb (key_lower r) echo_s = false -> dropwhile isspace (rest r) = rest r) ->
  sig_no_ws (code_form (special_keys_of o) (echo_align_tables o) vcol scol widths r)
  = sig_no_ws (gap ++ rest r).
Proof.
  intros Hc Hg Hr Hd. rewrite sig_no_ws_app, (sig_no_ws_all gap Hg). cbn [app].
  unfold code_form. rewrite Hc. cbn [andb].
  destruct (str_eqb (key_lower r) echo_s) eqn:Ke; [reflexivity|].
  destruct (str_eqb (rest r) []) eqn:Er.
  { apply str_eqb_eq in Er. now rewrite Er. }
  cbv zeta.
  destruct (if mem_str (key_lower r) (special_keys_of o)
            then split_two_quoted (rest r) else None)
    as [[[q1 q2] tail]|] eqn:T.
  - assert (T' : split_two_quoted (rest r) = Some (q1, q2, tail)).
    { destruct (mem_str _ _); [exact T | discriminate]. }
    destruct (two_quoted_shape _ _ _ _ T')
      as (w0 & a & G & b & Es & E1 & E2 & Hw0 & HG & _).
    rewrite Es in Hr.
    apply forallb_app_parts in Hr as [Pw0 Hr].
    apply forallb_app_parts in Hr as [_ Hr].
    apply forallb_app_parts in Hr as [PG _].
    rewrite Es. unfold spaces_z.
    rewrite !sig_no_ws_app, !sig_no_ws_spaces.
    rewrite (sig_no_ws_all w0 (plain_ws_run w0 Hw0 Pw0)).
    rewrite (sig_no_ws_all G (plain_ws_run G HG PG)). reflexivity.
  - unfold spaces_z. now rewrite sig_no_ws_app, sig_no_ws_spaces.
Qed.

(** A line whose whitespace is plain and that is no table row to
    align passes the guard. *)
Lemma plain_line_passes (o : FormatOptions) (P : params) (i : nat) (l : str) :
  forallb plain_ws l = true ->
  is_echo_table_candidate (echo_align_tables o) (parse_line o i l) = false ->
  failed_with o P (parse_line o i l) = false.
Proof.
  intros Hl Hc. set (r := parse_line o i l) in *.
  destruct (parse_line_wf o i l) as (W & Eo & _). fold r in W, Eo.
  destruct (kind r) eqn:K;
    try (apply (other_not_failed o P r); [rewrite K; discriminate | exact W]).
  destruct (cmd_facts o i l K)
    as (gap & w & Eline & _ & _ & _ & _ & Hgap & Hw & _ & Hnecho & _).
  fold r in Eline, Hnecho.
  destruct (parse_line_chars plain_ws eq_refl o i l Hl)
    as (Pl & _ & _ & Pr & _).
  fold r in Pl, Pr.
  assert (Pg : forallb is_ws gap = true).
  { apply plain_ws_run; [exact Hgap|]. rewrite Eline in Pl.
    apply forallb_app_parts in Pl as [_ Pl].
    apply forallb_app_parts in Pl as [_ Pl].
    now apply forallb_app_parts in Pl as [Pl _]. }
  unfold failed_with, render_with, cf_with.
  rewrite (code_fmt_form _ _ _ _ _ r K).
  destruct (place_comment_tail (p_target P) r
              (indent r ++ key r
               ++ code_form (special_keys_of o) (echo_align_tables o)
                    (p_vcol P) (p_scol P) (p_widths P) r)) as (n & _ & ->).
  rewrite sig_no_ws_normalize.
  rewrite <- (sig_no_ws_normalize (orig r) (tab_width o)).
  unfold wf_rec in W. rewrite <- W, Eline.
  rewrite !sig_no_ws_app.
  rewrite (code_form_sig o _ _ _ r gap Hc Pg Pr (fun E => proj1 (Hnecho E))).
  rewrite sig_no_ws_app, (sig_no_ws_all w Hw).
  assert (Ec : sig_no_ws (comment_tail n (comment r)) = sig_no_ws (comment r)).
  { unfold comment_tail. destruct (comment r); [reflexivity|].
    now rewrite sig_no_ws_app, sig_no_ws_spaces. }
  rewrite Ec, <- !app_assoc. cbn [app].
  now rewrite str_eqb_refl.
Qed.

Lemma candidate_off (r : rec) : is_echo_table_candidate false r = false.
Proof. reflexivity. Qed.

Lemma candidate_needs_pipe (et : bool) (r : rec) :
  free_of PIPE (rest r) = true -> is_echo_table_candidate et r = false.
Proof.
  intros H. destruct (is_echo_table_candidate et r) eqn:E; [|reflexivity].
  destruct (candidate_facts et r E) as (_ & _ & _ & _ & Hp).
  unfold contains_char in Hp. apply existsb_exists in Hp as (x & Hx & Ex).
  apply ch_eqb_eq in Ex. subst x.
  apply (incl_strip_by isspace (rest r)) in Hx.
  unfold free_of in H. rewrite forallb_forall in H. specialize (H PIPE Hx).
  discriminate.
Qed.

Lemma free_of_contains (c : char) (s : str) :
  contains_char c s = false -> free_of c s = true.
Proof.
  unfold contains_char, free_of. intros H. apply forallb_forall. intros x Hx.
  destruct (ch_eqb x c) eqn:E; [|reflexivity]. apply ch_eqb_eq in E. subst x.
  assert (existsb (ch_eqb c) s = true)
    by (apply existsb_exists; exists c; split; [exact Hx | apply ch_eqb_refl]).
  congruence.
Qed.

(** X15: a text in which the only whitespace inside the lines is
    [[ \t\r\f\v]] (no no-break or ideographic space, say) never makes
    the guard fail, provided the echo tables are off or no line
    contains a pipe: the failure list is empty. *)
Theorem no_fallback_on_plain_whitespace (raw : str) (o : FormatOptions)
  (res : FormatResult) :
  format_text raw o = Ok res ->
  echo_align_tables o = false \/
  (forall l, In l (splitlines raw) -> contains_char PIPE l = false) ->
  (forall l, In l (splitlines raw) -> forallb plain_ws l = true) ->
  sig_fail_lines res = [].
Proof.
  intros H Het Hp.
  destruct (format_text_lines raw o res H) as (_ & -> & _).
  destruct (fails_of o (parse_lines o 1 (splitlines raw))) as [|n fs] eqn:E;
    [reflexivity|]. exfalso.
  assert (Hin : In n (fails_of o (parse_lines o 1 (splitlines raw))))
    by (rewrite E; now left).
  pose proof (fails_of_ge1 o _ n Hin) as Hn.
  destruct n as [|i]; [lia|].
  apply fails_of_iff in Hin as (r & C & Hnth & Hf).
  destruct (chunked_nth o _ i (r, C) Hnth) as (l & Hl & Er).
  cbn [fst] in Er. subst r. unfold failed in Hf.
  apply nth_error_In in Hl.
  rewrite plain_line_passes in Hf; [discriminate|now apply Hp|].
  destruct Het as [Het | Hpipe].
  - rewrite Het. apply candidate_off.
  - apply candidate_needs_pipe.
    apply (parse_line_chars (fun x => negb (ch_eqb x PIPE)) eq_refl o (S i) l).
    apply free_of_contains. now apply Hpipe.
Qed.

End NoFallback.

(* ================================================================== *)
(** * The command line *)

(** ** Exclude patterns *)

Lemma split_on_mid (c : char) (a b : str) :
  split_on c (a ++ c :: b) = split_on c a ++ split_on c b.
Proof.
  induction a as [|x a IH]; cbn [app split_on].
  - now rewrite ch_eqb_refl.
  - destruct (ch_eqb x c); [now rewrite IH|].
    rewrite IH. destruct (split_on c a) eqn:E; [|reflexivity].
    now apply split_on_nonempty in E.
Qed.

Lemma split_excludes_piece (p : str) :
  p <> [] -> strip p = p -> free_of COMMA p = true ->
  filter str_nonempty (map strip (split_on COMMA p)) = [p].
Proof.
  intros N S F. rewrite (split_on_free COMMA p F). cbn [map filter].
  rewrite S. now destruct p.
Qed.

Lemma split_excludes_in (vs : list str) (p : str) :
  In p (split_excludes (Some vs)) ->
  p <> [] /\ strip p = p /\ free_of COMMA p = true.
Proof.
  unfold split_excludes. intros H. apply in_flat_map in H as (v & _ & H).
  apply filter_In in H as [H N]. apply in_map_iff in H as (f & <- & Hf).
  split; [|split].
  - intros E. rewrite E in N. discriminate.
  - apply strip_idem.
  - apply split_on_fields_free in Hf. unfold free_of in *.
    eapply forallb_incl; [apply incl_strip_by | exact Hf].
Qed.

(** X16: [_split_excludes] returns patterns that are not empty, carry
    no surrounding whitespace and no comma; a value with a comma
    counts as its two parts given one after the other, and the
    patterns returned are left as they are when they are split
    again. *)
Theorem split_excludes_spec (vs : list str) (a b : str) :
  (forall p, In p (split_excludes (Some vs)) ->
             p <> [] /\ strip p = p /\ free_of COMMA p = true) /\
  split_excludes (Some ((a ++ [COMMA] ++ b) :: vs))
  = split_excludes (Some (a :: b :: vs)) /\
  split_excludes (Some (split_excludes (Some vs))) = split_excludes (Some vs).
Proof.
  split; [apply split_excludes_in|]. split.
  - unfold split_excludes. cbn [flat_map app].
    rewrite split_on_mid, map_app, filter_app. now rewrite <- app_assoc.
  - pose proof (split_excludes_in vs) as H.
    revert H. generalize (split_excludes (Some vs)) as L.
    induction L as [|p L IH]; intros H; [reflexivity|].
    change (split_excludes (Some (p :: L)))
      with (filter str_nonempty (map strip (split_on COMMA p))
            ++ split_excludes (Some L)).
    destruct (H p (or_introl eq_refl)) as (N & S & F).
    rewrite (split_excludes_piece p N S F), IH; [reflexivity|].
    intros q Hq. apply H. now right.
Qed.

(** ** A file that is formatted already *)

Lemma cli_keys_plain (a : Args) :
  mem_str echo_s (special_keys_of (format_options_of a)) = false.
Proof. reflexivity. Qed.

Lemma formatted_again {U : UnicodeData} (raw : str) (o : FormatOptions)
  (res1 : FormatResult) :
  format_text raw o = Ok res1 ->
  mem_str echo_s (special_keys_of o) = false \/ echo_align_tables o = false ->
  format_text (out_text res1) o
  = Ok (mk_result (out_text res1) false (sig_fail_lines res1)).
Proof.
  intros H Hopt. destruct (format_text_again raw o res1 H) as [H1 H2].
  rewrite H2. clear H H2. revert H1. unfold formatted.
  destruct (mode_ok o) eqn:M; [|discriminate]. cbv zeta. intros H.
  injection H as <-. cbn [out_text sig_fail_lines].
  destruct (second_lines o Hopt raw) as [S1 S2]. cbv zeta in S1, S2.
  rewrite S1, S2, text_roundtrip.
  - now rewrite str_eqb_refl.
  - apply out_lines_length.
  - apply out_lines_no_linebreak, splitlines_no_linebreak.
Qed.

Section RunFormatProps.

Context {U : UnicodeData} {W : Type} {FS : FileSystem W}.

(** X17: a file whose text is the output of the formatter for the same
    arguments, without guard failure, is found in order by the loop of
    [run_format]: it is reported OK, nothing is written and the loop
    goes on. *)
Theorem formatted_file_is_ok (a : Args) (st : run_state) (p : str)
  (raw : str) (res1 : FormatResult) :
  format_text raw (format_options_of a) = Ok res1 ->
  sig_fail_lines res1 = [] ->
  read_text_strict (world st) p (a_encoding a) = Text (out_text res1) ->
  file_step a st p
  = (mk_state (results st ++ [mk_file_result p OK NoMessage None])
       (any_change_needed st) (any_failed st) (world st),
     false).
Proof.
  intros H Hs Hr. unfold file_step. rewrite Hr.
  rewrite (formatted_again raw _ res1 H (or_introl (cli_keys_plain a))).
  cbn [sig_fail_lines changed]. now rewrite Hs.
Qed.

(** ** The loop over the files *)

Lemma file_step_cases (a : Args) (st : run_state) (p : str) :
  exists r,
    results (fst (file_step a st p)) = results st ++ [r] /\
    fr_path r = p /\
    ((fr_status r = OK /\ world (fst (file_step a st p)) = world st /\
      any_change_needed (fst (file_step a st p)) = any_change_needed st /\
      any_failed (fst (file_step a st p)) = any_failed st /\
      snd (file_step a st p) = false /\ fr_sig_fail_lines r = None)
     \/ (fr_status r = WOULD /\ a_check a = true /\
         world (fst (file_step a st p)) = world st /\
         any_change_needed (fst (file_step a st p)) = true /\
         any_failed (fst (file_step a st p)) = any_failed st /\
         snd (file_step a st p) = false)
     \/ (fr_status r = CHANGED /\ a_check a = false /\
         any_change_needed (fst (file_step a st p)) = true /\
         any_failed (fst (file_step a st p)) = any_failed st /\
         snd (file_step a st p) = false /\ fr_sig_fail_lines r = None)
     \/ (fr_status r = FAILED /\
         any_failed (fst (file_step a st p)) = true /\
         snd (file_step a st p) = a_fail_fast a /\
         (world (fst (file_step a st p)) = world st /\
          any_change_needed (fst (file_step a st p)) = any_change_needed st
          \/ a_check a = false))).
Proof.
  unfold file_step, on_exception.
  destruct (read_text_strict (world st) p (a_encoding a)) as [raw|msg].
  2:{ eexists. split; [reflexivity|]. split; [reflexivity|].
      right. right. right. cbn. repeat split; auto. }
  destruct (format_text raw (format_options_of a)) as [fr|e].
  2:{ eexists. split; [reflexivity|]. split; [reflexivity|].
      right. right. right. cbn. repeat split; auto. }
  destruct (sig_fail_lines fr) as [|x fs].
  2:{ eexists. split; [reflexivity|]. split; [reflexivity|].
      right. right. right. cbn. repeat split; auto. }
  destruct (negb (changed fr)).
  { eexists. split; [reflexivity|]. split; [reflexivity|]. left. cbn. auto 10. }
  destruct (a_check a) eqn:Ck.
  { eexists. split; [reflexivity|]. split; [reflexivity|].
    right. left. cbn. auto 10. }
  destruct (if negb (a_no_backup a) then backup_file (world st) p
            else (world st, None)) as [w1 [m1|]].
  { eexists. split; [reflexivity|]. split; [reflexivity|].
    right. right. right. cbn. repeat split; auto. }
  destruct (atomic_write_text w1 p (out_text fr) (a_encoding a)) as [w2 [m2|]].
  { eexists. split; [reflexivity|]. split; [reflexivity|].
    right. right. right. cbn. repeat split; auto. }
  eexists. split; [reflexivity|]. split; [reflexivity|].
  right. right. left. cbn. auto 10.
Qed.

Lemma run_files_inv (a : Args) (I : run_state -> Prop) :
  (forall st p, I st -> I (fst (file_step a st p))) ->
  forall files st, I st -> I (run_files a files st).
Proof.
  intros Hstep files. induction files as [|p tl IH]; intros st Hst; [exact Hst|].
  cbn [run_files]. specialize (Hstep st p Hst).
  destruct (file_step a st p) as [st' brk]. cbn [fst] in Hstep.
  destruct brk; [exact Hstep | now apply IH].
Qed.

Lemma count_status_snoc (s : status) (rs : list FileResult) (r : FileResult) :
  count_status s (rs ++ [r])
  = count_status s rs + (if status_eqb (fr_status r) s then 1 else 0).
Proof.
  unfold count_status. rewrite filter_app, length_app. cbn [filter].
  now destruct (status_eqb (fr_status r) s).
Qed.

(** X18: with [--check] the run leaves the world as it found it: no
    backup is made and no file written, whatever the files hold and
    whatever fails. *)
Theorem check_leaves_world (a : Args) (w : W) :
  a_check a = true -> snd (run_format a w) = w.
Proof.
  intros Ck. unfold run_format.
  destruct (negb (is_directory w (resolve w (a_dir a)))); [reflexivity|].
  cbv zeta. cbn [snd].
  apply (run_files_inv a (fun st => world st = w)); [|reflexivity].
  intros st p Hst.
  destruct (file_step_cases a st p)
    as (r & _ & _ & [H | [H | [H | H]]]).
  - destruct H as (_ & -> & _). exact Hst.
  - destruct H as (_ & _ & -> & _). exact Hst.
  - destruct H as (_ & F & _). congruence.
  - destruct H as (_ & _ & _ & [[-> _] | F]); [exact Hst | congruence].
Qed.

(** The flags of the loop say what the results say. *)
Lemma flags_inv (a : Args) (files : list str) (w : W) :
  let st := run_files a files (mk_state [] false false w) in
  any_failed st = (0 <? count_status FAILED (results st)) /\
  (a_check a = true ->
   any_change_needed st = (0 <? count_status WOULD (results st)) /\
   count_status CHANGED (results st) = 0) /\
  (a_check a = false -> count_status WOULD (results st) = 0).
Proof.
  apply (run_files_inv a
           (fun st =>
              any_failed st = (0 <? count_status FAILED (results st)) /\
              (a_check a = true ->
               any_change_needed st = (0 <? count_status WOULD (results st)) /\
               count_status CHANGED (results st) = 0) /\
              (a_check a = false -> count_status WOULD (results st) = 0)));
    [|now repeat split].
  intros st p (I1 & I2 & I3).
  destruct (file_step_cases a st p)
    as (r & -> & _ & [H | [H | [H | H]]]);
    rewrite !count_status_snoc.
  - destruct H as (-> & _ & -> & -> & _). cbn [status_eqb].
    rewrite !Nat.add_0_r. auto.
  - destruct H as (-> & Ck & _ & -> & -> & _). cbn [status_eqb].
    rewrite !Nat.add_0_r. split; [exact I1|]. split.
    + intros _. destruct (I2 Ck) as [_ I2']. split; [|exact I2'].
      symmetry. apply Nat.ltb_lt. lia.
    + congruence.
  - destruct H as (-> & Ck & -> & -> & _). cbn [status_eqb].
    rewrite !Nat.add_0_r. split; [exact I1|]. split; [congruence|].
    intros _. now apply I3.
  - destruct H as (-> & -> & _ & Hw). cbn [status_eqb].
    rewrite !Nat.add_0_r. split; [symmetry; apply Nat.ltb_lt; lia|].
    split.
    + intros Ck. destruct (I2 Ck) as [I2a I2b]. split; [|exact I2b].
      rewrite <- I2a. destruct Hw as [[_ E] | F]; [exact E | congruence].
    + exact I3.
Qed.

(** X19: the exit code of [run_format] is the one the summary line
    tells: 2 when the directory is none or a file is counted FAILED,
    else 1 when a file is counted WOULD, else 0; files are counted
    WOULD only with [--check] and CHANGED only without. *)
Theorem exit_code_spec (a : Args) (w : W) :
  (is_directory w (resolve w (a_dir a)) = false /\
   run_format a w = (2, [PNotDirectory (a_dir a)], w)) \/
  (is_directory w (resolve w (a_dir a)) = true /\
   exists lines n_changed n_ok n_would n_failed,
     snd (fst (run_format a w))
     = lines ++ [PSummary n_changed n_ok n_would n_failed] /\
     fst (fst (run_format a w))
     = (if 0 <? n_failed then 2 else if 0 <? n_would then 1 else 0) /\
     (a_check a = true -> n_changed = 0) /\
     (a_check a = false -> n_would = 0)).
Proof.
  unfold run_format.
  destruct (is_directory w (resolve w (a_dir a))); cbn [negb];
    [right | left; now split].
  split; [reflexivity|]. cbv zeta. cbn [fst snd].
  pose proof (flags_inv a
                (collect_cfg_files w (resolve w (a_dir a))
                   (mk_discover (negb (a_no_recursive a))
                      (DEFAULT_EXCLUDES ++ split_excludes (Some (a_exclude a)))))
                w) as H.
  cbv zeta in H.
  set (st := run_files a _ _) in *.
  destruct H as (I1 & I2 & I3).
  unfold report. rewrite app_assoc.
  eexists. eexists. eexists. eexists. eexists.
  split; [reflexivity|]. rewrite I1.
  split; [|split].
  - destruct (0 <? count_status FAILED (results st)); [reflexivity|].
    destruct (a_check a) eqn:Ck; cbn [andb].
    + now destruct (I2 eq_refl) as [-> _].
    + now rewrite (I3 eq_refl).
  - intros Ck. now destruct (I2 Ck).
  - exact I3.
Qed.

Lemma fail_fast_inv (a : Args) (files : list str) (st : run_state) :
  a_fail_fast a = true -> count_status FAILED (results st) = 0 ->
  count_status FAILED (results (run_files a files st)) <= 1.
Proof.
  intros Ff. revert st. induction files as [|p tl IH]; intros st H0; cbn [run_files].
  - lia.
  - destruct (file_step_cases a st p)
      as (r & Er & _ & [H | [H | [H | H]]]);
      destruct (file_step a st p) as [st' brk]; cbn [fst snd] in *.
    + destruct H as (Es & _ & _ & _ & -> & _). apply IH.
      rewrite Er, count_status_snoc, Es. cbn. lia.
    + destruct H as (Es & _ & _ & _ & _ & ->). apply IH.
      rewrite Er, count_status_snoc, Es. cbn. lia.
    + destruct H as (Es & _ & _ & _ & -> & _). apply IH.
      rewrite Er, count_status_snoc, Es. cbn. lia.
    + destruct H as (Es & _ & -> & _). rewrite Ff.
      rewrite Er, count_status_snoc, Es. cbn. lia.
Qed.

(** X20: with [--fail-fast] the run stops at the first failure: the
    summary counts at most one file FAILED. *)
Theorem fail_fast_one_failure (a : Args) (w : W) (lines : list printed)
  (n_changed n_ok n_would n_failed : nat) :
  a_fail_fast a = true ->
  snd (fst (run_format a w))
  = lines ++ [PSummary n_changed n_ok n_would n_failed] ->
  n_failed <= 1.
Proof.
  intros Ff. unfold run_format.
  destruct (negb (is_directory w (resolve w (a_dir a)))); cbn [fst snd].
  - intros E. destruct lines as [|x [|y l]]; discriminate.
  - cbv zeta. unfold report. rewrite app_assoc. intros E.
    apply app_inj_tail in E as [_ E]. injection E as _ _ _ <-.
    now apply fail_fast_inv.
Qed.

(** X21: the note on fallback lines of a CHANGED file is never
    printed: a file is written only when no line failed the guard. *)
Theorem no_fallback_note (a : Args) (w : W) (p : str) (n : option nat) :
  In (PChanged p n) (snd (fst (run_format a w))) -> n = None.
Proof.
  unfold run_format.
  destruct (negb (is_directory w (resolve w (a_dir a)))); cbn [fst snd].
  - intros [E | []]. discriminate.
  - cbv zeta. set (files := collect_cfg_files _ _ _).
    assert (I : forall r, In r (results (run_files a files (mk_state [] false false w))) ->
                          fr_status r = CHANGED -> fr_sig_fail_lines r = None).
    { apply (run_files_inv a
               (fun st => forall r, In r (results st) ->
                                    fr_status r = CHANGED -> fr_sig_fail_lines r = None)).
      - intros st q Hst r.
        destruct (file_step_cases a st q) as (r' & -> & _ & H).
        intros Hin. apply in_app_or in Hin as [Hin | [<- | []]]; [now apply Hst|].
        destruct H as [H | [H | [H | H]]].
        + now destruct H as (_ & _ & _ & _ & _ & ->).
        + destruct H as (-> & _). discriminate.
        + now destruct H as (_ & _ & _ & _ & _ & ->).
        + destruct H as (-> & _). discriminate.
      - intros r []. }
    intros Hin. apply in_app_or in Hin as [Hin | Hin].
    { destruct (a_verbose a); [destruct Hin as [E | []]; discriminate | destruct Hin]. }
    unfold report in Hin. apply in_app_or in Hin as [Hin | [E | []]]; [|discriminate].
    apply in_flat_map in Hin as (r & Hr & Hp). unfold print_result in Hp.
    destruct (a_quiet a && negb (status_eqb (fr_status r) FAILED)); [destruct Hp|].
    destruct (fr_status r) eqn:S; destruct Hp as [E | []]; try discriminate.
    injection E as _ <-. now rewrite (I r Hr S).
Qed.

(** X22: a run whose summary counts no file CHANGED and none FAILED
    leaves the world as it found it. *)
Theorem untouched_without_change (a : Args) (w : W) (lines : list printed)
  (n_ok n_would : nat) :
  snd (fst (run_format a w)) = lines ++ [PSummary 0 n_ok n_would 0] ->
  snd (run_format a w) = w.
Proof.
  unfold run_format.
  destruct (negb (is_directory w (resolve w (a_dir a)))); [reflexivity|].
  cbv zeta. cbn [fst snd]. set (files := collect_cfg_files _ _ _).
  unfold report. rewrite app_assoc. intros E.
  apply app_inj_tail in E as [_ E]. injection E as E1 _ _ E4.
  revert E1 E4.
  apply (run_files_inv a
           (fun st => count_status CHANGED (results st) = 0 ->
                      count_status FAILED (results st) = 0 -> world st = w));
    [|reflexivity].
  intros st q Hst.
  destruct (file_step_cases a st q) as (r & -> & _ & H).
  rewrite !count_status_snoc. intros C F.
  destruct H as [H | [H | [H | H]]].
  - destruct H as (_ & -> & _). apply Hst; lia.
  - destruct H as (_ & _ & -> & _). apply Hst; lia.
  - destruct H as (S & _). rewrite S in C. cbn in C. lia.
  - destruct H as (S & _). rewrite S in F. cbn in F. lia.
Qed.

End RunFormatProps.

(** ** The failure list and the blocks *)

Lemma sorted_map_filter {A : Type} (g : A -> nat) (f : A -> bool) (L : list A) :
  StronglySorted lt (map g L) -> StronglySorted lt (map g (filter f L)).
Proof.
  induction L as [|x L IH]; intros H; [constructor|].
  cbn [map] in H. inversion H as [|? ? HS HF]; subst. cbn [filter].
  destruct (f x); [|now apply IH].
  cbn [map]. constructor; [now apply IH|].
  rewrite Forall_forall in *. intros y Hy. apply HF.
  apply in_map_iff in Hy as (z & <- & Hz). apply filter_In in Hz as [Hz _].
  now apply in_map.
Qed.

Lemma sorted_seq (i n : nat) : StronglySorted lt (seq i n).
Proof.
  revert i. induction n as [|n IH]; intros i; cbn [seq]; constructor.
  - apply IH.
  - apply Forall_forall. intros y Hy. apply in_seq in Hy. lia.
Qed.

(** X23: the failure list of [format_text] is strictly increasing, and
    its members are line numbers of the input, counted from 1. *)
Theorem sig_fail_lines_sorted {U : UnicodeData} (raw : str) (o : FormatOptions)
  (res : FormatResult) :
  format_text raw o = Ok res ->
  StronglySorted lt (sig_fail_lines res) /\
  forall n, In n (sig_fail_lines res) -> 1 <= n <= length (splitlines raw).
Proof.
  intros H. destruct (format_text_lines raw o res H) as (_ & -> & _).
  set (ls := splitlines raw).
  assert (E : map (fun p => lineno (fst p)) (chunked o (parse_lines o 1 ls))
              = seq 1 (length ls)).
  { rewrite <- (map_map fst lineno), chunked_fst. apply parse_lines_linenos. }
  split.
  - unfold fails_of. apply sorted_map_filter. rewrite E. apply sorted_seq.
  - intros n Hn. unfold fails_of in Hn.
    apply in_map_iff in Hn as (p & <- & Hp). apply filter_In in Hp as [Hp _].
    assert (Hin : In (lineno (fst p)) (seq 1 (length ls))).
    { rewrite <- E. apply in_map_iff. now exists p. }
    apply in_seq in Hin. lia.
Qed.

(** X24: the loop of the block mode starts afresh after a boundary:
    run over records, a boundary and more records, it does what it
    does over the first records, then emits the boundary, then does
    what it does over the others with an empty block; what comes
    after a boundary has no part in the alignment of what comes
    before, and conversely. *)
Theorem block_loop_boundary {U : UnicodeData} (o : FormatOptions)
  (A B : list rec) (b : rec) (block : list rec) (out : list str) (st : list nat) :
  is_boundary b = true ->
  block_loop o (A ++ b :: B) block out st
  = match block_loop o A block out st with
    | Ok (out1, st1) =>
        match handle_boundary o b out1 st1 with
        | Ok (out2, st2) => block_loop o B [] out2 st2
        | Raise e => Raise e
        end
    | Raise e => Raise e
    end.
Proof.
  intros Hb. revert block out st.
  induction A as [|r A IH]; intros block out st.
  - cbn [app block_loop]. rewrite Hb. unfold bind.
    destruct (flush_block o block out st) as [[out1 st1]|e]; [|reflexivity].
    destruct (handle_boundary o b out1 st1) as [[out2 st2]|e]; reflexivity.
  - cbn [app block_loop]. destruct (is_boundary r).
    + unfold bind. destruct (flush_block o block out st) as [[out1 st1]|e];
        [|reflexivity].
      destruct (handle_boundary o r out1 st1) as [[out2 st2]|e];
        [apply IH | reflexivity].
    + apply IH.
Qed.

(** ** The properties at sample inputs *)

Lemma detab_tabs_witness :
  detab (U := basic_unicode) (lit "a" ++ [TAB] ++ lit "b") 0 = Ok (lit "ab") /\
  forallb not_tab (lit "ab") = true /\
  (lit "ab" = lit "a" ++ [TAB] ++ lit "b"
   <-> forallb not_tab (lit "a" ++ [TAB] ++ lit "b") = true).
Proof.
  split; [reflexivity|].
  apply (detab_tabs (U := basic_unicode) (lit "a" ++ [TAB] ++ lit "b")
           (lit "ab") 0).
  reflexivity.
Defined.

Lemma normalize_fixed_witness :
  forallb not_tab (rstrip_ws (lit "bind    w")) = true /\
  (forall t c, rstrip_ws (lit "bind    w") = t ++ [c] -> is_ws c = false) /\
  sig_no_ws (rstrip_ws (lit "bind    w")) = sig_no_ws (lit "bind" ++ [TAB] ++ lit "w") /\
  (forall tw' d',
     detab (U := basic_unicode) (rstrip_ws (lit "bind    w")) tw' = Ok d' ->
     rstrip_ws d' = rstrip_ws (lit "bind    w")).
Proof.
  apply (normalize_fixed (U := basic_unicode) (lit "bind" ++ [TAB] ++ lit "w")
           (lit "bind    w") 4).
  reflexivity.
Defined.


Lemma values_aligned_witness :
  exists n body,
    code_fmt (U := basic_unicode) SPECIAL_ALIGN_KEYS_DEFAULT true
      (value_col KEY_CAP_DEFAULT sample_binds) 0 [] sample_bind_rec
    = Some (indent sample_bind_rec ++ key sample_bind_rec ++ spaces n ++ body) /\
    1 <= n /\
    (zlen (indent sample_bind_rec) + zlen (key sample_bind_rec) + Z.of_nat n
     = value_col KEY_CAP_DEFAULT sample_binds)%Z /\
    (body = rest sample_bind_rec \/
     exists q1 q2 tail m,
       split_two_quoted (rest sample_bind_rec) = Some (q1, q2, tail) /\ 1 <= m /\
       body = q1 ++ spaces m ++ q2 ++ tail).
Proof.
  apply (values_aligned (U := basic_unicode) KEY_CAP_DEFAULT
           SPECIAL_ALIGN_KEYS_DEFAULT true 0 [] sample_binds sample_bind_rec).
  - left. vm_compute. reflexivity.
  - vm_compute. reflexivity.
  - vm_compute. reflexivity.
  - vm_compute. discriminate.
  - vm_compute. discriminate.
Defined.

Lemma second_strings_aligned_witness :
  exists n m,
    code_fmt (U := basic_unicode) SPECIAL_ALIGN_KEYS_DEFAULT true
      (value_col KEY_CAP_DEFAULT sample_binds)
      (second_col KEY_CAP_DEFAULT SPECIAL_ALIGN_KEYS_DEFAULT sample_binds)
      [] sample_bind_rec
    = Some (indent sample_bind_rec ++ key sample_bind_rec ++ spaces n
            ++ quoted (lit "w") ++ spaces m ++ quoted (lit "+forward") ++ []) /\
    1 <= n /\ 1 <= m /\
    (zlen (indent sample_bind_rec) + zlen (key sample_bind_rec) + Z.of_nat n
     + zlen (quoted (lit "w")) + Z.of_nat m
     = second_col KEY_CAP_DEFAULT SPECIAL_ALIGN_KEYS_DEFAULT sample_binds)%Z.
Proof.
  apply (second_strings_aligned (U := basic_unicode) KEY_CAP_DEFAULT
           SPECIAL_ALIGN_KEYS_DEFAULT true [] sample_binds sample_bind_rec
           (quoted (lit "w")) (quoted (lit "+forward")) []).
  - left. vm_compute. reflexivity.
  - vm_compute. reflexivity.
  - vm_compute. reflexivity.
  - vm_compute. reflexivity.
  - vm_compute. reflexivity.
  - vm_compute. discriminate.
Defined.

Lemma comments_aligned_witness :
  exists t n,
    comment_target COMMENT_CAP_DEFAULT
      [(sample_bind_rec, Some (lit "bind w")); (sample_row_rec, Some (lit "echo a | bb"))]
    = Some t /\
    place_comment (Some t) sample_bind_rec (lit "bind w")
    = lit "bind w" ++ spaces n ++ comment sample_bind_rec /\
    1 <= n /\ (zlen (lit "bind w") + Z.of_nat n = t + 1)%Z.
Proof.
  apply (comments_aligned COMMENT_CAP_DEFAULT
           [(sample_bind_rec, Some (lit "bind w"));
            (sample_row_rec, Some (lit "echo a | bb"))]
           sample_bind_rec (lit "bind w")).
  - left. reflexivity.
  - vm_compute. discriminate.
  - vm_compute. discriminate.
Defined.

Lemma output_normalised_witness :
  forallb not_tab (out_text sample_result) = true /\
  forall lo, In lo (splitlines (out_text sample_result)) -> rstrip_ws lo = lo.
Proof.
  apply (output_normalised (U := basic_unicode) sample_text default_options
           sample_result).
  vm_compute. reflexivity.
Defined.

Lemma block_is_global_without_boundary_witness :
  format_text (U := basic_unicode) sample_text
    (with_mode default_options (lit "block"))
  = format_text (U := basic_unicode) sample_text
      (with_mode default_options (lit "global")).
Proof.
  apply (block_is_global_without_boundary (U := basic_unicode) sample_text
           default_options).
  intros l Hl. vm_compute in Hl.
  repeat (destruct Hl as [<- | Hl]; [vm_compute; reflexivity|]).
  destruct Hl.
Defined.

Lemma echo_code_kept_witness :
  failed_with (U := basic_unicode) default_options (mk_params 0 0 [] None)
    (parse_line (U := basic_unicode) default_options 1 sample_echo_line) = false /\
  (exists n, 1 <= n /\
     emit_with (U := basic_unicode) default_options (mk_params 0 0 [] None)
       (parse_line (U := basic_unicode) default_options 1 sample_echo_line)
     = (indent (parse_line (U := basic_unicode) default_options 1 sample_echo_line)
        ++ key (parse_line (U := basic_unicode) default_options 1 sample_echo_line)
        ++ rest (parse_line (U := basic_unicode) default_options 1 sample_echo_line))
       ++ comment_tail n
            (comment (parse_line (U := basic_unicode) default_options 1
                        sample_echo_line))) /\
  (comment (parse_line (U := basic_unicode) default_options 1 sample_echo_line) = [] ->
   emit_with (U := basic_unicode) default_options (mk_params 0 0 [] None)
     (parse_line (U := basic_unicode) default_options 1 sample_echo_line)
   = rstrip_ws (expand_tabs sample_echo_line (tab_width default_options))).
Proof.
  apply (echo_code_kept (U := basic_unicode) default_options
           (mk_params 0 0 [] None) 1 sample_echo_line).
  - vm_compute. reflexivity.
  - vm_compute. reflexivity.
  - vm_compute. reflexivity.
Defined.

Lemma table_columns_padded_witness :
  1 < length (widths_of (U := basic_unicode) default_options sample_rows) /\
  vis_width (U := basic_unicode) (lit "bb")
  <= nth 1 (widths_of (U := basic_unicode) default_options sample_rows) 0 /\
  nth_error
    (pad_fields (U := basic_unicode)
       (widths_of (U := basic_unicode) default_options sample_rows) 0
       (echo_fields sample_row_rec)) 1
  = Some (lit "bb"
          ++ spaces (nth 1 (widths_of (U := basic_unicode) default_options sample_rows) 0
                     - vis_width (U := basic_unicode) (lit "bb"))) /\
  (vis_width (U := basic_unicode) [SP] = 1 ->
   vis_width (U := basic_unicode)
     (lit "bb"
      ++ spaces (nth 1 (widths_of (U := basic_unicode) default_options sample_rows) 0
                 - vis_width (U := basic_unicode) (lit "bb")))
   = nth 1 (widths_of (U := basic_unicode) default_options sample_rows) 0).
Proof.
  apply (table_columns_padded (U := basic_unicode) default_options sample_rows
           sample_row_rec 1 (lit "bb")).
  - left. vm_compute. reflexivity.
  - vm_compute. reflexivity.
  - vm_compute. reflexivity.
  - vm_compute. reflexivity.
  - vm_compute. reflexivity.
Defined.

Lemma no_fallback_on_plain_whitespace_witness :
  sig_fail_lines sample_plain_result = [].
Proof.
  apply (no_fallback_on_plain_whitespace (U := basic_unicode) sample_plain
           default_options sample_plain_result).
  - vm_compute. reflexivity.
  - right. intros l Hl. vm_compute in Hl.
    repeat (destruct Hl as [<- | Hl]; [vm_compute; reflexivity|]).
    destruct Hl.
  - intros l Hl. vm_compute in Hl.
    repeat (destruct Hl as [<- | Hl]; [vm_compute; reflexivity|]).
    destruct Hl.
Defined.

Lemma formatted_file_is_ok_witness :
  file_step (U := basic_unicode) (FS := mem_fs) sample_args
    (mk_state [] false false sample_dir) (lit "b.cfg")
  = (mk_state ([] ++ [mk_file_result (lit "b.cfg") OK NoMessage None])
       false false sample_dir,
     false).
Proof.
  apply (formatted_file_is_ok (U := basic_unicode) (FS := mem_fs) sample_args
           (mk_state [] false false sample_dir) (lit "b.cfg") sample_plain
           sample_plain_result).
  - vm_compute. reflexivity.
  - vm_compute. reflexivity.
  - vm_compute. reflexivity.
Defined.

Lemma check_leaves_world_witness :
  snd (run_format (U := basic_unicode) (FS := mem_fs) sample_check_args sample_dir)
  = sample_dir.
Proof.
  apply (check_leaves_world (U := basic_unicode) (FS := mem_fs) sample_check_args
           sample_dir).
  reflexivity.
Defined.

Lemma fail_fast_one_failure_witness :
  snd (fst (run_format (U := basic_unicode) (FS := mem_fs) sample_fail_fast_args
              sample_failing_dir))
  = before_summary (U := basic_unicode) (FS := mem_fs) sample_fail_fast_args
      sample_failing_dir
    ++ [PSummary 0 0 0 1] /\
  1 <= 1.
Proof.
  assert (E : snd (fst (run_format (U := basic_unicode) (FS := mem_fs)
                          sample_fail_fast_args sample_failing_dir))
              = before_summary (U := basic_unicode) (FS := mem_fs)
                  sample_fail_fast_args sample_failing_dir
                ++ [PSummary 0 0 0 1])
    by (vm_compute; reflexivity).
  split; [exact E|].
  exact (fail_fast_one_failure (U := basic_unicode) (FS := mem_fs)
           sample_fail_fast_args sample_failing_dir _ 0 0 0 1 eq_refl E).
Defined.

Lemma no_fallback_note_witness :
  In (PChanged (lit "a.cfg") None)
     (snd (fst (run_format (U := basic_unicode) (FS := mem_fs) sample_args sample_dir)))
  /\ @None nat = None.
Proof.
  assert (H : In (PChanged (lit "a.cfg") None)
                (snd (fst (run_format (U := basic_unicode) (FS := mem_fs)
                             sample_args sample_dir))))
    by (vm_compute; left; reflexivity).
  split; [exact H|].
  exact (no_fallback_note (U := basic_unicode) (FS := mem_fs) sample_args sample_dir
           (lit "a.cfg") None H).
Defined.

Lemma untouched_without_change_witness :
  snd (run_format (U := basic_unicode) (FS := mem_fs) sample_args sample_done_dir)
  = sample_done_dir.
Proof.
  apply (untouched_without_change (U := basic_unicode) (FS := mem_fs) sample_args
           sample_done_dir
           (before_summary (U := basic_unicode) (FS := mem_fs) sample_args
              sample_done_dir) 1 0).
  vm_compute. reflexivity.
Defined.

Lemma sig_fail_lines_sorted_witness :
  StronglySorted lt (sig_fail_lines sample_result) /\
  forall n, In n (sig_fail_lines sample_result) ->
            1 <= n <= length (splitlines sample_text).
Proof.
  apply (sig_fail_lines_sorted (U := basic_unicode) sample_text default_options
           sample_result).
  vm_compute. reflexivity.
Defined.

Lemma block_loop_boundary_witness :
  block_loop (U := basic_unicode) default_options
    (sample_binds
     ++ parse_line (U := basic_unicode) default_options 3 [] :: sample_rows)
    [] [] []
  = match block_loop (U := basic_unicode) default_options sample_binds [] [] [] with
    | Ok (out1, st1) =>
        match handle_boundary (U := basic_unicode) default_options
                (parse_line (U := basic_unicode) default_options 3 []) out1 st1
        with
        | Ok (out2, st2) =>
            block_loop (U := basic_unicode) default_options sample_rows [] out2 st2
        | Raise e => Raise e
        end
    | Raise e => Raise e
    end.
Proof.
  apply (block_loop_boundary (U := basic_unicode) default_options sample_binds
           sample_rows (parse_line (U := basic_unicode) default_options 3 [])
           [] [] []).
  vm_compute. reflexivity.
Defined.
